(** * React Query Visualizer: a shallow embedding of the analysis core

    The development follows the TypeScript sources:
    - [src/core/analyzer/context.ts]   ([mergeResolution])
    - [src/core/graphBuilder.ts]       (the graph assembler, [buildGraph])
    - the cache-key normalizer         ([normalizeQueryKey], [inferActionQueryKey])
    - the reference and call resolver  ([createQueryKeyResolver])

    Part I holds the definitions, Part II the lemmas and theorems.

    Modelling conventions.
    - JavaScript strings are [string]; the characters are those of the
      ASCII range (the whitespace removed by [trim] is the ASCII whitespace).
    - A JavaScript [Map] or [Set] keeps insertion order, so a [Map<string, V>]
      is an association list updated in place ([mapSet]) and a [Set<string>]
      a duplicate-free list ([setAdd]).
    - Functions of the Node.js run time that read the file system or the
      path library are fields of an environment ([HostEnv], [ResolverHost]);
      [localeCompare] is a field of [Locale].
    - A syntax tree is a [Node]; a function that takes a Babel node of one
      kind takes the fields of that node it reads.
    - The normalizer passes [depth + 1] to every recursive call and returns
      at [depth >= MAX_RESOLVE_DEPTH]: each of its functions is defined once,
      over the record of the functions of the depths after its own
      ([Normalizer.Level]).
    - The resolver threads one [seen] set through its calls: its functions
      are computations on that set ([Resolver.Resolving]), defined over the
      record of the functions a call reaches ([Resolver.Calls]). *)

From Stdlib Require Import String Ascii List Bool Arith PeanoNat Lia ZArith.
From Stdlib Require Import DecimalString Decimal DecimalNat Permutation Sorted.
Import ListNotations.
Open Scope string_scope.

(* ===================================================================== *)
(** * Part I: definitions                                                 *)
(* ===================================================================== *)

(** ** JavaScript strings, maps and sets *)

Module Js.

(** The ASCII characters [String.prototype.trim] removes. *)
Definition isWhitespace (c : ascii) : bool :=
  let n := nat_of_ascii c in
  ((n =? 9) || (n =? 10) || (n =? 11) || (n =? 12) || (n =? 13) || (n =? 32))%nat.

Fixpoint trimStart (s : string) : string :=
  match s with
  | String c rest => if isWhitespace c then trimStart rest else s
  | EmptyString => EmptyString
  end.

(** [trimEnd] keeps a character when something other than whitespace follows. *)
Fixpoint trimEnd (s : string) : string :=
  match s with
  | EmptyString => EmptyString
  | String c rest =>
      match trimEnd rest with
      | EmptyString => if isWhitespace c then EmptyString else String c EmptyString
      | kept => String c kept
      end
  end.

Definition trim (s : string) : string := trimEnd (trimStart s).

Definition startsWith (s p : string) : bool := String.prefix p s.

Fixpoint includes (s sub : string) : bool :=
  String.prefix sub s ||
  match s with
  | EmptyString => false
  | String _ rest => includes rest sub
  end.

Fixpoint revString (s : string) : string :=
  match s with
  | EmptyString => EmptyString
  | String c rest => revString rest ++ String c EmptyString
  end.

Definition endsWith (s p : string) : bool := String.prefix (revString p) (revString s).

(** [s.slice(1, -1)]: without its first and its last character. *)
Definition sliceInner (s : string) : string :=
  match s with
  | EmptyString => EmptyString
  | String _ rest => revString (match revString rest with
                                | EmptyString => EmptyString
                                | String _ kept => kept
                                end)
  end.

(** [String.prototype.toLowerCase], for the letters of the ASCII range. *)
Definition lowerChar (c : ascii) : ascii :=
  let n := nat_of_ascii c in
  if ((65 <=? n) && (n <=? 90))%nat then ascii_of_nat (n + 32) else c.

Fixpoint toLowerCase (s : string) : string :=
  match s with
  | EmptyString => EmptyString
  | String c rest => String (lowerChar c) (toLowerCase rest)
  end.

(** [Number.parseInt(s, 10)] when the result is a non-negative integer:
    leading whitespace, an optional sign, then the longest run of digits.
    [None] stands for [NaN] and for a negative result. *)
Definition digitValue (c : ascii) : option nat :=
  let n := nat_of_ascii c in
  if ((48 <=? n) && (n <=? 57))%nat then Some (n - 48) else None.

Fixpoint parseDigits (s : string) (acc : option nat) : option nat :=
  match s with
  | EmptyString => acc
  | String c rest =>
      match digitValue c with
      | Some d => parseDigits rest (Some (10 * match acc with Some a => a | None => 0 end + d))
      | None => acc
      end
  end.

Definition parseIndex (s : string) : option nat :=
  match trimStart s with
  | String c rest =>
      if (nat_of_ascii c =? 45)%nat then
        match parseDigits rest None with
        | Some 0 => Some 0
        | _ => None
        end
      else if (nat_of_ascii c =? 43)%nat then parseDigits rest None
      else parseDigits (String c rest) None
  | EmptyString => None
  end.

(** [a.localeCompare(b)], the collation of the run time. *)
Class Locale := { localeCompare : string -> string -> Z }.

(** [Array.prototype.join]. *)
Definition join (sep : string) (parts : list string) : string := String.concat sep parts.

(** [String(n)] for a non-negative integer. *)
Definition numberToString (n : nat) : string := NilEmpty.string_of_uint (Nat.to_uint n).

(** [a || b] on strings: the empty string is falsy. *)
Definition orElse (a b : string) : string := if a =? "" then b else a.

(** *** [Map<string, V>] with insertion order *)

Definition JsMap (V : Type) : Type := list (string * V).

Fixpoint mapGet {V : Type} (k : string) (m : JsMap V) : option V :=
  match m with
  | [] => None
  | (k', v) :: rest => if k' =? k then Some v else mapGet k rest
  end.

Definition mapHas {V : Type} (k : string) (m : JsMap V) : bool :=
  match mapGet k m with Some _ => true | None => false end.

(** [Map.prototype.set]: an existing key keeps its place. *)
Fixpoint mapSet {V : Type} (k : string) (v : V) (m : JsMap V) : JsMap V :=
  match m with
  | [] => [(k, v)]
  | (k', v') :: rest => if k' =? k then (k', v) :: rest else (k', v') :: mapSet k v rest
  end.

Fixpoint mapDelete {V : Type} (k : string) (m : JsMap V) : JsMap V :=
  match m with
  | [] => []
  | (k', v') :: rest => if k' =? k then rest else (k', v') :: mapDelete k rest
  end.

(** *** [Set<string>] with insertion order *)

Definition JsSet : Type := list string.

Definition setHas (x : string) (s : JsSet) : bool := existsb (String.eqb x) s.

Definition setAdd (x : string) (s : JsSet) : JsSet := if setHas x s then s else (s ++ [x])%list.

(** [new Set(array)] *)
Definition setOfList (l : list string) : JsSet := fold_left (fun s x => setAdd x s) l [].

(** *** [Array.prototype.sort] with a comparator

    The sort is stable (ECMAScript 2019).  [cmp a b] is the comparator's
    result: negative when [a] goes first, positive when [b] does.  The model
    is the stable insertion sort; for a consistent comparator every stable
    sort returns the same array. *)

Fixpoint insertSorted {A : Type} (cmp : A -> A -> Z) (x : A) (sorted : list A) : list A :=
  match sorted with
  | [] => [x]
  | y :: rest => if (0 <? cmp y x)%Z then x :: y :: rest else y :: insertSorted cmp x rest
  end.

Definition sortBy {A : Type} (cmp : A -> A -> Z) (l : list A) : list A :=
  fold_left (fun acc x => insertSorted cmp x acc) l [].

(** [a] may stand before [b] in an array sorted with [cmp]. *)
Definition before {A : Type} (cmp : A -> A -> Z) (a b : A) : Prop := (cmp a b <= 0)%Z.

End Js.

(** ** The data model of [types.ts] *)

Inductive GraphNodeKind := KFile | KAction | KQueryKey.

Inductive GraphRelation :=
| Declares | Invalidates | Refetches | Cancels | Resets | Clears | Removes | Sets.

Inductive Resolution := Static | Dynamic.

Inductive MatchMode := MExact | MPrefix | MAll | MPredicate | MUnknown.

Inductive KeySource := SrcLiteral | SrcExpression | SrcWildcard.

Record SourceLoc := { loc_line : nat; loc_column : nat }.

Record NormalizedQueryKey := {
  key_id : string;
  key_display : string;
  key_segments : list string;
  key_matchMode : MatchMode;
  key_resolution : Resolution;
  key_source : KeySource
}.

Record QueryRecord := {
  rec_relation : GraphRelation;
  rec_operation : string;
  rec_file : string;
  rec_loc : SourceLoc;
  rec_queryKey : NormalizedQueryKey;
  rec_resolution : Resolution;
  rec_declaresDirectly : option bool
}.

Record ParseError := { err_file : string; err_message : string }.

Record AnalysisResult := {
  an_records : list QueryRecord;
  an_scannedFiles : list string;
  an_filesScanned : nat;
  an_parseErrors : list ParseError
}.

(** A value of [Record<string, number | string>]. *)
Inductive MetricValue := MNum (n : nat) | MStr (s : string).

Record GraphNode := {
  node_id : string;
  node_kind : GraphNodeKind;
  node_label : string;
  node_file : option string;
  node_loc : option SourceLoc;
  node_resolution : Resolution;
  node_metrics : option (Js.JsMap MetricValue)
}.

Record GraphEdge := {
  edge_id : string;
  edge_source : string;
  edge_target : string;
  edge_relation : GraphRelation;
  edge_resolution : Resolution
}.

Record Summary := {
  sum_files : nat;
  sum_actions : nat;
  sum_queryKeys : nat;
  sum_parseErrors : nat
}.

Record GraphData := {
  g_nodes : list GraphNode;
  g_edges : list GraphEdge;
  g_summary : Summary;
  g_parseErrors : list ParseError
}.

Definition relationName (r : GraphRelation) : string :=
  match r with
  | Declares => "declares"
  | Invalidates => "invalidates"
  | Refetches => "refetches"
  | Cancels => "cancels"
  | Resets => "resets"
  | Clears => "clears"
  | Removes => "removes"
  | Sets => "sets"
  end.

Definition matchModeName (m : MatchMode) : string :=
  match m with
  | MExact => "exact"
  | MPrefix => "prefix"
  | MAll => "all"
  | MPredicate => "predicate"
  | MUnknown => "unknown"
  end.

Definition relationEqb (a b : GraphRelation) : bool :=
  match a, b with
  | Declares, Declares | Invalidates, Invalidates | Refetches, Refetches
  | Cancels, Cancels | Resets, Resets | Clears, Clears | Removes, Removes
  | Sets, Sets => true
  | _, _ => false
  end.

Definition kindEqb (a b : GraphNodeKind) : bool :=
  match a, b with
  | KFile, KFile | KAction, KAction | KQueryKey, KQueryKey => true
  | _, _ => false
  end.

(** ** [context.ts]: the certainty merge *)

Module Certainty.

(** [mergeResolution(a, b)]:
    [a === 'dynamic' || b === 'dynamic' ? 'dynamic' : 'static']. *)
Definition mergeResolution (a b : Resolution) : Resolution :=
  match a, b with
  | Dynamic, _ => Dynamic
  | _, Dynamic => Dynamic
  | _, _ => Static
  end.

End Certainty.

(** ** [graphBuilder.ts]: the graph assembler *)

Module GraphBuilder.
Import Js.

(** What [buildGraph] takes from the Node.js run time for the effective
    roots of one run.  [projectScopeForFile] walks the directories of the
    file system ([existsSync] of a package manifest) and memoizes by path, so
    within one run it is a function of the file. *)
Class HostEnv := {
  (** [toPosix(path.resolve(filePath))] *)
  normalizeFilePath : string -> string;
  (** [toDisplayPath(effectiveRoots, filePath)] *)
  toDisplayPath : string -> string;
  (** [projectScopeForFile(effectiveRoots, filePath, scopeCache, packageJsonCache)] *)
  projectScopeForFile : string -> string;
  hostLocale :: Locale
}.

Definition makeFileNodeId (filePath : string) : string := "file:" ++ filePath.

Definition makeActionNodeId (record : QueryRecord) (index : nat) : string :=
  "action:" ++ rec_file record ++ ":" ++ numberToString (loc_line (rec_loc record))
  ++ ":" ++ numberToString (loc_column (rec_loc record))
  ++ ":" ++ rec_operation record ++ ":" ++ numberToString index.

Definition makeQueryKeyNodeId (queryKeyId : string) : string := "qk:" ++ queryKeyId.

Definition isWildcardQueryKey (record : QueryRecord) : bool :=
  match key_source (rec_queryKey record) with
  | SrcWildcard => true
  | _ =>
      (key_id (rec_queryKey record) =? "*") || (key_id (rec_queryKey record) =? "all-query-cache")
  end.

Definition isDeclarationAnchorRecord (relation : GraphRelation) : bool :=
  relationEqb relation Declares.

Definition normalizeComparableSegments (key : NormalizedQueryKey) : list string :=
  filter (fun segment => (0 <? String.length segment)%nat && negb (segment =? "UNRESOLVED"))
         (key_segments key).

Definition isDynamicSegment (segment : string) : bool :=
  let normalized := trim segment in
  if normalized =? "" then true
  else if normalized =? "UNRESOLVED" then true
  else if startsWith normalized "$" then true
  else if includes normalized "${" then true
  else if includes normalized "UNRESOLVED" then true
  else if startsWith normalized "call(" || startsWith normalized "cond(" then true
  else false.

Definition segmentsCompatible (left right : string) : bool :=
  if left =? right then true
  else if isDynamicSegment left || isDynamicSegment right then true
  else false.

(** The loop [for (index = 0; index < prefix.length; index += 1)] reads
    [prefix[index]] and [value[index]], both in range after the length test. *)
Definition hasPrefixSegments (prefix value : list string) : bool :=
  if (List.length value <? List.length prefix)%nat then false
  else
    forallb (fun index => segmentsCompatible (nth index prefix "") (nth index value ""))
            (seq 0 (List.length prefix)).

Definition matchModeEqb (a b : MatchMode) : bool :=
  match a, b with
  | MExact, MExact | MPrefix, MPrefix | MAll, MAll | MPredicate, MPredicate
  | MUnknown, MUnknown => true
  | _, _ => false
  end.

Definition isWildcardSource (s : KeySource) : bool :=
  match s with SrcWildcard => true | _ => false end.

Definition actionAffectsDeclaredQueryKey (actionQueryKey declaredQueryKey : NormalizedQueryKey) : bool :=
  if key_id actionQueryKey =? "pass-through-query-key" then false
  else if isWildcardSource (key_source actionQueryKey)
          || matchModeEqb (key_matchMode actionQueryKey) MAll
          || matchModeEqb (key_matchMode actionQueryKey) MPredicate then true
  else if key_id actionQueryKey =? key_id declaredQueryKey then true
  else
    let actionSegments := normalizeComparableSegments actionQueryKey in
    let declaredSegments := normalizeComparableSegments declaredQueryKey in
    if (List.length actionSegments =? 0)%nat || (List.length declaredSegments =? 0)%nat then false
    else if matchModeEqb (key_matchMode actionQueryKey) MExact then
      (List.length actionSegments =? List.length declaredSegments)%nat
      && hasPrefixSegments actionSegments declaredSegments
    else hasPrefixSegments actionSegments declaredSegments.

Definition isSetAnchoredConcreteKey (queryKey : NormalizedQueryKey) : bool :=
  if isWildcardSource (key_source queryKey) then false
  else if (key_id queryKey =? "pass-through-query-key")
          || (key_id queryKey =? "all-query-cache")
          || (key_id queryKey =? "unresolved_query_key") then false
  else true.

Definition mapParseErrors {env : HostEnv} (parseErrors : list ParseError) : list ParseError :=
  map (fun error => {| err_file := toDisplayPath (err_file error);
                       err_message := err_message error |}) parseErrors.

(** One entry of [pendingActionToQueryLinks]. *)
Record PendingLink := {
  pl_actionNodeId : string;
  pl_operation : string;
  pl_relation : GraphRelation;
  pl_resolution : Resolution;
  pl_file : string;
  pl_projectScope : string;
  pl_queryKey : NormalizedQueryKey;
  pl_wildcard : bool;
  pl_queryKeyNodeId : option string
}.

(** The maps and sets [buildGraph] allocates before its loops. *)
Record BuildState := {
  nodeMap : JsMap GraphNode;
  edgeMap : JsMap GraphEdge;
  fileToKeys : JsMap JsSet;
  fileToProjectScope : JsMap string;
  queryKeyToFiles : JsMap JsSet;
  queryKeyToDeclareFiles : JsMap JsSet;
  queryKeyToDeclareCallsites : JsMap nat;
  queryKeyToProjects : JsMap JsSet;
  declaredQueryNodeIds : JsSet;
  declaredQueryKeyByNodeId : JsMap NormalizedQueryKey;
  declaredQueryProjectsByNodeId : JsMap JsSet;
  queryKeyToProjectCounts : JsMap (JsMap nat);
  setAnchoredQueryNodeIds : JsSet;
  pendingActionToQueryLinks : list PendingLink
}.

Definition emptyState : BuildState :=
  {| nodeMap := []; edgeMap := []; fileToKeys := []; fileToProjectScope := [];
     queryKeyToFiles := []; queryKeyToDeclareFiles := []; queryKeyToDeclareCallsites := [];
     queryKeyToProjects := []; declaredQueryNodeIds := []; declaredQueryKeyByNodeId := [];
     declaredQueryProjectsByNodeId := []; queryKeyToProjectCounts := [];
     setAnchoredQueryNodeIds := []; pendingActionToQueryLinks := [] |}.

(** [if (!m.has(k)) m.set(k, v)] *)
Definition setIfAbsent {V : Type} (k : string) (v : V) (m : JsMap V) : JsMap V :=
  if negb (mapHas k m) then mapSet k v m else m.

(** [if (!m.has(k)) m.set(k, new Set()); m.get(k)?.add(x)] *)
Definition addToSetAt (k x : string) (m : JsMap JsSet) : JsMap JsSet :=
  let m' := setIfAbsent k [] m in
  match mapGet k m' with
  | Some s => mapSet k (setAdd x s) m'
  | None => m'
  end.

(** [m.set(k, (m.get(k) ?? 0) + 1)] *)
Definition incrementAt (k : string) (m : JsMap nat) : JsMap nat :=
  mapSet k (match mapGet k m with Some n => n | None => 0 end + 1)%nat m.

Definition fileNode (fileNodeId displayFile absoluteFile : string) : GraphNode :=
  {| node_id := fileNodeId; node_kind := KFile; node_label := displayFile;
     node_file := Some absoluteFile; node_loc := None; node_resolution := Static;
     node_metrics := None |}.

Definition actionNode (actionNodeId : string) (record : QueryRecord)
    (absoluteFile displayFile projectScope : string) : GraphNode :=
  {| node_id := actionNodeId; node_kind := KAction; node_label := rec_operation record;
     node_file := Some absoluteFile; node_loc := Some (rec_loc record);
     node_resolution := rec_resolution record;
     node_metrics := Some
       [("relation", MStr (relationName (rec_relation record)));
        ("displayFile", MStr displayFile);
        ("projectScope", MStr projectScope);
        ("declaresDirectly",
          MNum (match rec_declaresDirectly record with Some true => 1 | _ => 0 end))] |}.

Definition queryKeyNode (queryKeyNodeId : string) (record : QueryRecord) : GraphNode :=
  {| node_id := queryKeyNodeId; node_kind := KQueryKey;
     node_label := key_display (rec_queryKey record);
     node_file := None; node_loc := None;
     node_resolution := key_resolution (rec_queryKey record);
     node_metrics := Some
       [("matchMode", MStr (matchModeName (key_matchMode (rec_queryKey record))));
        ("rootSegment", MStr (nth 0 (key_segments (rec_queryKey record)) "unknown"))] |}.

(** The body of [analysis.records.forEach((record, index) => ...)]. *)
Definition pass1Step {env : HostEnv} (st : BuildState) (entry : nat * QueryRecord) : BuildState :=
  let '(index, record) := entry in
  let absoluteFile := normalizeFilePath (rec_file record) in
  let displayFile := toDisplayPath absoluteFile in
  let projectScope := projectScopeForFile absoluteFile in
  let fileNodeId := makeFileNodeId absoluteFile in
  let actionNodeId := makeActionNodeId record index in
  let queryKeyNodeId := makeQueryKeyNodeId (key_id (rec_queryKey record)) in
  let wildcardQuery := isWildcardQueryKey record in
  let nodes1 := setIfAbsent fileNodeId (fileNode fileNodeId displayFile absoluteFile) (nodeMap st) in
  let nodes2 :=
    setIfAbsent actionNodeId (actionNode actionNodeId record absoluteFile displayFile projectScope)
                nodes1 in
  let nodes3 :=
    if negb wildcardQuery && negb (mapHas queryKeyNodeId nodes2)
    then mapSet queryKeyNodeId (queryKeyNode queryKeyNodeId record) nodes2
    else nodes2 in
  let declared := negb wildcardQuery && isDeclarationAnchorRecord (rec_relation record) in
  let edgeA := fileNodeId ++ "->" ++ actionNodeId ++ ":" ++ relationName (rec_relation record) in
  {| nodeMap := nodes3;
     edgeMap :=
       setIfAbsent edgeA
         {| edge_id := edgeA; edge_source := fileNodeId; edge_target := actionNodeId;
            edge_relation := rec_relation record; edge_resolution := rec_resolution record |}
         (edgeMap st);
     fileToKeys := fileToKeys st;
     fileToProjectScope := mapSet absoluteFile projectScope (fileToProjectScope st);
     queryKeyToFiles := queryKeyToFiles st;
     queryKeyToDeclareFiles := queryKeyToDeclareFiles st;
     queryKeyToDeclareCallsites := queryKeyToDeclareCallsites st;
     queryKeyToProjects :=
       if negb wildcardQuery then addToSetAt queryKeyNodeId projectScope (queryKeyToProjects st)
       else queryKeyToProjects st;
     declaredQueryNodeIds :=
       if declared then setAdd queryKeyNodeId (declaredQueryNodeIds st)
       else declaredQueryNodeIds st;
     declaredQueryKeyByNodeId :=
       if declared then setIfAbsent queryKeyNodeId (rec_queryKey record) (declaredQueryKeyByNodeId st)
       else declaredQueryKeyByNodeId st;
     declaredQueryProjectsByNodeId :=
       if declared then
         mapSet queryKeyNodeId
           (setAdd projectScope
              (match mapGet queryKeyNodeId (declaredQueryProjectsByNodeId st) with
               | Some projects => projects
               | None => []
               end))
           (declaredQueryProjectsByNodeId st)
       else declaredQueryProjectsByNodeId st;
     queryKeyToProjectCounts :=
       if negb wildcardQuery then
         let counts := setIfAbsent queryKeyNodeId [] (queryKeyToProjectCounts st) in
         match mapGet queryKeyNodeId counts with
         | Some projectCounts => mapSet queryKeyNodeId (incrementAt projectScope projectCounts) counts
         | None => counts
         end
       else queryKeyToProjectCounts st;
     setAnchoredQueryNodeIds := setAnchoredQueryNodeIds st;
     pendingActionToQueryLinks :=
       (pendingActionToQueryLinks st ++
        [{| pl_actionNodeId := actionNodeId; pl_operation := rec_operation record;
            pl_relation := rec_relation record; pl_resolution := rec_resolution record;
            pl_file := absoluteFile; pl_projectScope := projectScope;
            pl_queryKey := rec_queryKey record; pl_wildcard := wildcardQuery;
            pl_queryKeyNodeId := if wildcardQuery then None else Some queryKeyNodeId |}])%list |}.

Definition indexed {A : Type} (l : list A) : list (nat * A) := combine (seq 0 (List.length l)) l.

Definition pass1 {env : HostEnv} (records : list QueryRecord) : BuildState :=
  fold_left pass1Step (indexed records) emptyState.

(** [projects?.has(pending.projectScope) ?? false] *)
Definition declaredInScope (st : BuildState) (queryKeyNodeId projectScope : string) : bool :=
  match mapGet queryKeyNodeId (declaredQueryProjectsByNodeId st) with
  | Some projects => setHas projectScope projects
  | None => false
  end.

(** The targets pass 2 computes for one pending link; [st] is read for the
    maps pass 1 filled ([declaredQueryNodeIdList] is [declaredQueryNodeIds]). *)
Definition pendingTargets (st : BuildState) (pending : PendingLink) : list string :=
  if relationEqb (pl_relation pending) Declares then
    match pl_queryKeyNodeId pending with
    | Some own => [own]
    | None => []
    end
  else if pl_wildcard pending then
    filter (fun queryKeyNodeId => declaredInScope st queryKeyNodeId (pl_projectScope pending))
           (declaredQueryNodeIds st)
  else
    match pl_queryKeyNodeId pending with
    | Some own =>
        let matchedTargets :=
          filter (fun queryKeyNodeId =>
                    match mapGet queryKeyNodeId (declaredQueryKeyByNodeId st) with
                    | None => false
                    | Some declaredQueryKey =>
                        if negb (declaredInScope st queryKeyNodeId (pl_projectScope pending))
                        then false
                        else actionAffectsDeclaredQueryKey (pl_queryKey pending) declaredQueryKey
                    end)
                 (declaredQueryNodeIds st) in
        if (0 <? List.length matchedTargets)%nat then matchedTargets else [own]
    | None => []
    end.

(** The body of [for (const target of targets)]. *)
Definition linkTarget (pending : PendingLink) (st : BuildState) (target : string) : BuildState :=
  let edgeB := pl_actionNodeId pending ++ "->" ++ target ++ ":" ++ relationName (pl_relation pending) in
  let declaring := isDeclarationAnchorRecord (pl_relation pending) in
  {| nodeMap := nodeMap st;
     edgeMap :=
       setIfAbsent edgeB
         {| edge_id := edgeB; edge_source := pl_actionNodeId pending; edge_target := target;
            edge_relation := pl_relation pending; edge_resolution := pl_resolution pending |}
         (edgeMap st);
     fileToKeys := addToSetAt (pl_file pending) target (fileToKeys st);
     fileToProjectScope := fileToProjectScope st;
     queryKeyToFiles := addToSetAt target (pl_file pending) (queryKeyToFiles st);
     queryKeyToDeclareFiles :=
       if declaring then addToSetAt target (pl_file pending) (queryKeyToDeclareFiles st)
       else queryKeyToDeclareFiles st;
     queryKeyToDeclareCallsites :=
       if declaring then incrementAt target (queryKeyToDeclareCallsites st)
       else queryKeyToDeclareCallsites st;
     queryKeyToProjects := queryKeyToProjects st;
     declaredQueryNodeIds := declaredQueryNodeIds st;
     declaredQueryKeyByNodeId := declaredQueryKeyByNodeId st;
     declaredQueryProjectsByNodeId := declaredQueryProjectsByNodeId st;
     queryKeyToProjectCounts := queryKeyToProjectCounts st;
     setAnchoredQueryNodeIds :=
       if relationEqb (pl_relation pending) Sets && startsWith target "qk:"
          && isSetAnchoredConcreteKey (pl_queryKey pending)
       then setAdd target (setAnchoredQueryNodeIds st)
       else setAnchoredQueryNodeIds st;
     pendingActionToQueryLinks := pendingActionToQueryLinks st |}.

(** The body of [for (const pending of pendingActionToQueryLinks)]. *)
Definition pass2Step (st : BuildState) (pending : PendingLink) : BuildState :=
  fold_left (linkTarget pending) (pendingTargets st pending) st.

Definition pass2 (st : BuildState) : BuildState :=
  fold_left pass2Step (pendingActionToQueryLinks st) st.

(** [{ ...(node.metrics ?? {}), k1: v1, ... }] *)
Definition withMetrics (node : GraphNode) (updates : list (string * MetricValue)) : GraphNode :=
  {| node_id := node_id node; node_kind := node_kind node; node_label := node_label node;
     node_file := node_file node; node_loc := node_loc node;
     node_resolution := node_resolution node;
     node_metrics :=
       Some (fold_left (fun m kv => mapSet (fst kv) (snd kv) m) updates
                       (match node_metrics node with Some m => m | None => [] end)) |}.

(** [m.get(k)?.size ?? 0] *)
Definition sizeAt (k : string) (m : JsMap JsSet) : nat :=
  match mapGet k m with Some s => List.length s | None => 0 end.

(** The comparator [(a, b) => b[1] - a[1] || a[0].localeCompare(b[0])]. *)
Definition byCountThenName {env : HostEnv} (a b : string * nat) : Z :=
  let byCount := (Z.of_nat (snd b) - Z.of_nat (snd a))%Z in
  if (byCount =? 0)%Z then localeCompare (fst a) (fst b) else byCount.

Definition primaryProjectScope {env : HostEnv} (st : BuildState) (nodeId : string) : option string :=
  match mapGet nodeId (queryKeyToProjectCounts st) with
  | Some (entry :: rest) =>
      match sortBy byCountThenName (entry :: rest) with
      | primaryProject :: _ => Some (fst primaryProject)
      | [] => None
      end
  | _ =>
      match mapGet nodeId (queryKeyToProjects st) with
      | Some (project :: rest) => nth_error (sortBy localeCompare (project :: rest)) 0
      | _ => None
      end
  end.

(** The body of the first [for (const node of nodeMap.values())]. *)
Definition assignMetrics {env : HostEnv} (st : BuildState) (node : GraphNode) : GraphNode :=
  match node_kind node with
  | KFile =>
      let key := match node_file node with Some f => f | None => node_label node end in
      withMetrics node
        [("affectedKeys", MNum (sizeAt key (fileToKeys st)));
         ("projectScope",
           MStr (match mapGet key (fileToProjectScope st) with
                 | Some scope => scope
                 | None => "workspace:*"
                 end))]
  | KQueryKey =>
      withMetrics node
        [("affectedFiles", MNum (sizeAt (node_id node) (queryKeyToFiles st)));
         ("declaredFiles", MNum (sizeAt (node_id node) (queryKeyToDeclareFiles st)));
         ("declaredCallsites",
           MNum (match mapGet (node_id node) (queryKeyToDeclareCallsites st) with
                 | Some n => n
                 | None => 0
                 end));
         ("projectScope",
           MStr (match primaryProjectScope st (node_id node) with
                 | Some scope => scope
                 | None => "workspace:*"
                 end))]
  | KAction => node
  end.

(** [Number(node.metrics?.declaredCallsites ?? 0)]; the metric is only ever
    written as a number. *)
Definition declaredCallsitesOf (node : GraphNode) : nat :=
  match node_metrics node with
  | Some m => match mapGet "declaredCallsites" m with Some (MNum n) => n | _ => 0 end
  | None => 0
  end.

Definition definedQueryKeyNodeIds (st : BuildState) (allNodes : list GraphNode) : JsSet :=
  setOfList
    (map node_id
       (filter (fun node =>
                  if (0 <? declaredCallsitesOf node)%nat then true
                  else setHas (node_id node) (setAnchoredQueryNodeIds st))
          (filter (fun node => kindEqb (node_kind node) KQueryKey) allNodes))).

Definition survivingNodes (st : BuildState) (allNodes : list GraphNode) : list GraphNode :=
  filter (fun node => negb (kindEqb (node_kind node) KQueryKey)
                      || setHas (node_id node) (definedQueryKeyNodeIds st allNodes))
         allNodes.

Definition survivingEdges (st : BuildState) (nodes : list GraphNode) : list GraphEdge :=
  let allowedNodeIds := setOfList (map node_id nodes) in
  filter (fun edge => setHas (edge_source edge) allowedNodeIds
                      && setHas (edge_target edge) allowedNodeIds)
         (map snd (edgeMap st)).

(** [m.set(k, (m.get(k) ?? new Set()).add(x))] *)
Definition addToSetOrNew (k x : string) (m : JsMap JsSet) : JsMap JsSet :=
  mapSet k (setAdd x (match mapGet k m with Some s => s | None => [] end)) m.

(** The loop over the surviving edges that fills [actionToFileNodeIds] and
    [actionToQueryNodeIds]. *)
Definition linkSurvivingEdge (nodeById : JsMap GraphNode)
    (acc : JsMap JsSet * JsMap JsSet) (edge : GraphEdge) : JsMap JsSet * JsMap JsSet :=
  let '(actionToFileNodeIds, actionToQueryNodeIds) := acc in
  match mapGet (edge_source edge) nodeById, mapGet (edge_target edge) nodeById with
  | Some sourceNode, Some targetNode =>
      if kindEqb (node_kind sourceNode) KFile && kindEqb (node_kind targetNode) KAction then
        (addToSetOrNew (node_id targetNode) (node_id sourceNode) actionToFileNodeIds,
         actionToQueryNodeIds)
      else if kindEqb (node_kind sourceNode) KAction && kindEqb (node_kind targetNode) KQueryKey then
        (actionToFileNodeIds,
         addToSetOrNew (node_id sourceNode) (node_id targetNode) actionToQueryNodeIds)
      else acc
  | _, _ => acc
  end.

(** The loop over [actionToQueryNodeIds.entries()]. *)
Definition linkFilesAndKeys (actionToFileNodeIds : JsMap JsSet)
    (acc : JsMap JsSet * JsMap JsSet) (entry : string * JsSet) : JsMap JsSet * JsMap JsSet :=
  let '(actionNodeId, queryNodeIds) := entry in
  match mapGet actionNodeId actionToFileNodeIds with
  | None | Some [] => acc
  | Some fileNodeIds =>
      fold_left
        (fun (acc' : JsMap JsSet * JsMap JsSet) fileNodeId =>
           let '(fileNodeIdToQueryIds, queryNodeIdToFileIds) := acc' in
           let linkedQueryIds :=
             fold_left (fun s q => setAdd q s) queryNodeIds
               (match mapGet fileNodeId fileNodeIdToQueryIds with Some s => s | None => [] end) in
           (mapSet fileNodeId linkedQueryIds fileNodeIdToQueryIds,
            fold_left (fun m q => addToSetOrNew q fileNodeId m) queryNodeIds queryNodeIdToFileIds))
        fileNodeIds acc
  end.

(** The body of the last [for (const node of nodes)]. *)
Definition reassignMetrics (fileNodeIdToQueryIds queryNodeIdToFileIds : JsMap JsSet)
    (node : GraphNode) : GraphNode :=
  match node_kind node with
  | KFile => withMetrics node [("affectedKeys", MNum (sizeAt (node_id node) fileNodeIdToQueryIds))]
  | KQueryKey => withMetrics node [("affectedFiles", MNum (sizeAt (node_id node) queryNodeIdToFileIds))]
  | KAction => node
  end.

Definition countKind (kind : GraphNodeKind) (nodes : list GraphNode) : nat :=
  List.length (filter (fun node => kindEqb (node_kind node) kind) nodes).

(** [buildGraph(roots, analysis)]; the roots are those of [env]. *)
Definition buildGraph {env : HostEnv} (analysis : AnalysisResult) : GraphData :=
  let st := pass2 (pass1 (an_records analysis)) in
  let allNodes := map (assignMetrics st) (map snd (nodeMap st)) in
  let nodes := survivingNodes st allNodes in
  let edges := survivingEdges st nodes in
  let nodeById := fold_left (fun m node => mapSet (node_id node) node m) nodes [] in
  let '(actionToFileNodeIds, actionToQueryNodeIds) :=
    fold_left (linkSurvivingEdge nodeById) edges ([], []) in
  let '(fileNodeIdToQueryIds, queryNodeIdToFileIds) :=
    fold_left (linkFilesAndKeys actionToFileNodeIds) actionToQueryNodeIds ([], []) in
  let nodes' := map (reassignMetrics fileNodeIdToQueryIds queryNodeIdToFileIds) nodes in
  let mappedErrors := mapParseErrors (an_parseErrors analysis) in
  {| g_nodes := nodes';
     g_edges := edges;
     g_summary :=
       {| sum_files := countKind KFile nodes';
          sum_actions := countKind KAction nodes';
          sum_queryKeys := countKind KQueryKey nodes';
          sum_parseErrors := List.length mappedErrors |};
     g_parseErrors := mappedErrors |}.

End GraphBuilder.


(** ** The graph assembler's contract, in the words of the specification *)

Module GraphSpec.
Import Js GraphBuilder.

(** A host for the examples: paths are taken as written, the project scope
    of a file is its first directory ([A/src/x.ts] lies in scope
    [workspace:A]) and strings are compared by code unit. *)
Fixpoint firstDirectory (path : string) : string :=
  match path with
  | EmptyString => EmptyString
  | String c rest => if (nat_of_ascii c =? 47)%nat then EmptyString else String c (firstDirectory rest)
  end.

Definition codeUnitCompare (a b : string) : Z :=
  match String.compare a b with
  | Lt => (-1)%Z
  | Eq => 0%Z
  | Gt => 1%Z
  end.

Definition exampleHost : HostEnv :=
  {| normalizeFilePath := fun file => file;
     toDisplayPath := fun file => file;
     projectScopeForFile := fun file => "workspace:" ++ firstDirectory file;
     hostLocale := {| localeCompare := codeUnitCompare |} |}.

(** The project scope pass 1 computes for a record. *)
Definition scopeOf {env : HostEnv} (record : QueryRecord) : string :=
  projectScopeForFile (normalizeFilePath (rec_file record)).

(** The query-key node of a record's key. *)
Definition nodeIdOf (record : QueryRecord) : string :=
  makeQueryKeyNodeId (key_id (rec_queryKey record)).

(** A record that declares a key: a [declares] record whose key is no wildcard. *)
Definition isDeclaring (record : QueryRecord) : bool :=
  negb (isWildcardQueryKey record) && isDeclarationAnchorRecord (rec_relation record).

(** The entry pass 1 pushes on [pendingActionToQueryLinks] for a record. *)
Definition pendingOf {env : HostEnv} (entry : nat * QueryRecord) : PendingLink :=
  let '(index, record) := entry in
  {| pl_actionNodeId := makeActionNodeId record index;
     pl_operation := rec_operation record;
     pl_relation := rec_relation record;
     pl_resolution := rec_resolution record;
     pl_file := normalizeFilePath (rec_file record);
     pl_projectScope := scopeOf record;
     pl_queryKey := rec_queryKey record;
     pl_wildcard := isWildcardQueryKey record;
     pl_queryKeyNodeId := if isWildcardQueryKey record then None else Some (nodeIdOf record) |}.

(** The key kept for a declared node: that of the first record declaring it. *)
Definition declaredKeyOf (records : list QueryRecord) (queryKeyNodeId : string)
  : option NormalizedQueryKey :=
  option_map rec_queryKey
    (find (fun d => isDeclaring d && (nodeIdOf d =? queryKeyNodeId)) records).

(** [queryKeyNodeId] is declared by a record of project scope [scope]. *)
Definition declaredIn {env : HostEnv} (records : list QueryRecord)
    (queryKeyNodeId scope : string) : Prop :=
  exists d, In d records /\ isDeclaring d = true /\ nodeIdOf d = queryKeyNodeId /\ scopeOf d = scope.

(** "Two segments are compatible if textually equal, or if either is dynamic." *)
Definition compatible (left right : string) : Prop :=
  left = right \/ isDynamicSegment left = true \/ isDynamicSegment right = true.

(** "[prefix] requires the mutation's segments to be a compatible prefix of
    the declared key's segments." *)
Definition compatiblePrefix (mutation declared : list string) : Prop :=
  exists front rest, declared = (front ++ rest)%list /\ Forall2 compatible mutation front.

(** "[exact] requires equal segment count and pairwise compatibility." *)
Definition compatibleExact (mutation declared : list string) : Prop :=
  Forall2 compatible mutation declared.

(** The declared nodes a concrete mutation key matches in its project scope. *)
Definition matchedIn {env : HostEnv} (records : list QueryRecord) (record : QueryRecord)
    (queryKeyNodeId : string) : Prop :=
  declaredIn records queryKeyNodeId (scopeOf record) /\
  exists declaredQueryKey,
    declaredKeyOf records queryKeyNodeId = Some declaredQueryKey /\
    actionAffectsDeclaredQueryKey (rec_queryKey record) declaredQueryKey = true.

(** A key as the normalizer builds it from an array of segments. *)
Definition arrayKey (segments : list string) (mode : MatchMode) (resolution : Resolution)
  : NormalizedQueryKey :=
  {| key_id := orElse (join "|" segments) "empty";
     key_display := "[" ++ join ", " segments ++ "]";
     key_segments := segments;
     key_matchMode := mode;
     key_resolution := resolution;
     key_source := match resolution with Static => SrcLiteral | Dynamic => SrcExpression end |}.

Definition recordAt (relation : GraphRelation) (operation file : string) (line : nat)
    (key : NormalizedQueryKey) : QueryRecord :=
  {| rec_relation := relation; rec_operation := operation; rec_file := file;
     rec_loc := {| loc_line := line; loc_column := 1 |};
     rec_queryKey := key; rec_resolution := key_resolution key;
     rec_declaresDirectly := None |}.

(** The text after the last colon of an identifier, when it has a colon: the
    index of an action node. *)
Fixpoint afterLastColon (s : string) : option string :=
  match s with
  | EmptyString => None
  | String c rest =>
      match afterLastColon rest with
      | Some t => Some t
      | None => if (nat_of_ascii c =? 58)%nat then Some rest else None
      end
  end.

Definition analysisOf (records : list QueryRecord) : AnalysisResult :=
  {| an_records := records; an_scannedFiles := []; an_filesScanned := 0; an_parseErrors := [] |}.

(** The fields of the state pass 2 only reads. *)
Definition Frame (st0 st : BuildState) : Prop :=
  nodeMap st = nodeMap st0
  /\ declaredQueryNodeIds st = declaredQueryNodeIds st0
  /\ declaredQueryKeyByNodeId st = declaredQueryKeyByNodeId st0
  /\ declaredQueryProjectsByNodeId st = declaredQueryProjectsByNodeId st0
  /\ pendingActionToQueryLinks st = pendingActionToQueryLinks st0.

(** Whatever pass 2 writes comes from a pending link and one of the targets
    computed for it on the state [st0] pass 1 left. *)
Definition CallsitesFrom (st0 : BuildState) (pendings : list PendingLink) (st : BuildState) : Prop :=
  forall t n, mapGet t (queryKeyToDeclareCallsites st) = Some n ->
    exists p, In p pendings /\ pl_relation p = Declares /\ In t (pendingTargets st0 p).

Definition AnchoredFrom (st0 : BuildState) (pendings : list PendingLink) (st : BuildState) : Prop :=
  forall t, In t (setAnchoredQueryNodeIds st) ->
    exists p, In p pendings /\ pl_relation p = Sets
              /\ isSetAnchoredConcreteKey (pl_queryKey p) = true
              /\ In t (pendingTargets st0 p).

Definition EdgesFrom (st0 : BuildState) (pendings : list PendingLink) (st : BuildState) : Prop :=
  forall e, In e (map snd (edgeMap st)) ->
    startsWith (edge_source e) "file:" = true
    \/ exists p, In p pendings /\ edge_source e = pl_actionNodeId p
                 /\ In (edge_target e) (pendingTargets st0 p).

Definition Provenance (st0 : BuildState) (pendings : list PendingLink) (st : BuildState) : Prop :=
  Frame st0 st /\ CallsitesFrom st0 pendings st /\ AnchoredFrom st0 pendings st
  /\ EdgesFrom st0 pendings st.

(** The state after both passes, and the nodes with their first metrics. *)
Definition finalState {env : HostEnv} (records : list QueryRecord) : BuildState :=
  pass2 (pass1 records).

Definition allNodesOf {env : HostEnv} (st : BuildState) : list GraphNode :=
  map (assignMetrics st) (map snd (nodeMap st)).

(** A node map whose keys are the identifiers of its nodes, query-key nodes
    under the identifiers that start with [qk:]. *)
Definition NodesKeyed (m : JsMap GraphNode) : Prop :=
  forall k n, In (k, n) m ->
    node_id n = k /\ (startsWith k "qk:" = true -> node_kind n = KQueryKey).

(** "Backed by at least one [declares] record": a record that declares the
    key of the node. *)
Definition backedByDeclares (records : list QueryRecord) (nodeId : string) : Prop :=
  exists r, In r records /\ rec_relation r = Declares /\ isWildcardQueryKey r = false
            /\ nodeId = nodeIdOf r.

(** "Backed by a concrete anchoring [sets] record": a [sets] record of that
    key, the key being no wildcard, no pass-through, and neither the all-cache
    nor the unresolved sentinel. *)
Definition backedByConcreteSets (records : list QueryRecord) (nodeId : string) : Prop :=
  exists r, In r records /\ rec_relation r = Sets /\ isWildcardQueryKey r = false
            /\ isSetAnchoredConcreteKey (rec_queryKey r) = true /\ nodeId = nodeIdOf r.

(** Example records: a declaration of [[todos, $id]] and an invalidation of
    [[todos]] in one file, and a pass-through invalidation. *)
Definition passThroughKey : NormalizedQueryKey :=
  {| key_id := "pass-through-query-key"; key_display := "$queryKey";
     key_segments := ["$queryKey"]; key_matchMode := MPrefix;
     key_resolution := Dynamic; key_source := SrcExpression |}.

Definition allQueryCacheKey : NormalizedQueryKey :=
  {| key_id := "all-query-cache"; key_display := "ALL_QUERY_CACHE (clear all)";
     key_segments := ["ALL_QUERY_CACHE"]; key_matchMode := MAll;
     key_resolution := Static; key_source := SrcWildcard |}.

Definition declareTodosId : QueryRecord :=
  recordAt Declares "useQuery" "app/todos.ts" 3 (arrayKey ["todos"; "$id"] MExact Dynamic).

Definition invalidateTodos : QueryRecord :=
  recordAt Invalidates "invalidateQueries" "app/todos.ts" 9 (arrayKey ["todos"] MPrefix Static).

Definition invalidatePassThrough : QueryRecord :=
  recordAt Invalidates "invalidateQueries" "app/todos.ts" 12 passThroughKey.

Definition kindEqDec (a b : GraphNodeKind) : {a = b} + {a <> b}.
Proof. decide equality. Defined.

(** The keys of the prefix-matching examples. *)
Definition todosKey : NormalizedQueryKey := arrayKey ["todos"] MPrefix Static.
Definition todosDetailKey : NormalizedQueryKey := arrayKey ["todos"; "detail"] MPrefix Static.
Definition todosIdKey : NormalizedQueryKey := arrayKey ["todos"; "$id"] MPrefix Dynamic.
Definition todosListKey : NormalizedQueryKey := arrayKey ["todos"; "list"] MExact Static.

Definition declareTodos : QueryRecord :=
  recordAt Declares "useQuery" "app/todos.ts" 3 (arrayKey ["todos"] MExact Static).

Definition invalidateTodosId : QueryRecord :=
  recordAt Invalidates "invalidateQueries" "app/todos.ts" 9 todosIdKey.

(** Two project scopes that each declare [[items]], and a clear-all in the first. *)
Definition declareItemsA : QueryRecord :=
  recordAt Declares "useQuery" "A/items.ts" 3 (arrayKey ["items"] MExact Static).

Definition declareItemsB : QueryRecord :=
  recordAt Declares "useQuery" "B/items.ts" 3 (arrayKey ["items"] MExact Static).

Definition declareOnlyB : QueryRecord :=
  recordAt Declares "useQuery" "B/other.ts" 4 (arrayKey ["other"] MExact Static).

Definition clearAllA : QueryRecord := recordAt Clears "clear" "A/reset.ts" 7 allQueryCacheKey.

(** A mutation of a key nothing declares, as an invalidation and as a [setQueryData]. *)
Definition invalidateOrphan : QueryRecord :=
  recordAt Invalidates "invalidateQueries" "app/x.ts" 5 (arrayKey ["orphan"] MPrefix Static).

Definition setOrphan : QueryRecord :=
  recordAt Sets "setQueryData" "app/x.ts" 5 (arrayKey ["orphan"] MExact Static).

End GraphSpec.


(** ** What [buildGraph] builds for one record *)

Module GraphShape.
Import Js GraphBuilder GraphSpec.

(** The [absoluteFile] of a record in pass 1. *)
Definition fileOf {env : HostEnv} (record : QueryRecord) : string :=
  normalizeFilePath (rec_file record).

(** The action node pass 1 stores for the record at [index]. *)
Definition actionNodeOf {env : HostEnv} (index : nat) (record : QueryRecord) : GraphNode :=
  actionNode (makeActionNodeId record index) record (fileOf record)
             (toDisplayPath (fileOf record)) (projectScopeForFile (fileOf record)).

(** The edge [edgeA] of pass 1, from the file node of a record to its action node. *)
Definition fileEdgeOf {env : HostEnv} (index : nat) (record : QueryRecord) : GraphEdge :=
  let fileNodeId := makeFileNodeId (fileOf record) in
  let actionNodeId := makeActionNodeId record index in
  {| edge_id := fileNodeId ++ "->" ++ actionNodeId ++ ":" ++ relationName (rec_relation record);
     edge_source := fileNodeId; edge_target := actionNodeId;
     edge_relation := rec_relation record; edge_resolution := rec_resolution record |}.

(** [queryKeyToDeclareCallsites.get(target) ?? 0] *)
Definition callsitesAt (target : string) (st : BuildState) : nat :=
  match mapGet target (queryKeyToDeclareCallsites st) with Some n => n | None => 0 end.

(** How many records declare the key of a node. *)
Definition declaringCount (records : list QueryRecord) (nodeId : string) : nat :=
  List.length (filter (fun r => isDeclaring r && (nodeIdOf r =? nodeId)) records).

(** A map whose keys are the identifiers of its values. *)
Definition KeyedBy {V : Type} (idOf : V -> string) (m : JsMap V) : Prop :=
  forall k v, In (k, v) m -> idOf v = k.

(** The kind of a node shows in the prefix of its identifier. *)
Definition kindPrefix (kind : GraphNodeKind) : string :=
  match kind with KFile => "file:" | KAction => "action:" | KQueryKey => "qk:" end.

Definition KindsByPrefix (m : JsMap GraphNode) : Prop :=
  forall k n, In (k, n) m -> startsWith k (kindPrefix (node_kind n)) = true.

End GraphShape.


(** ** The syntax tree the analysis reads

    [Node] carries, of Babel's nodes, the kinds the analysis tells apart and
    the fields it reads.  Type annotations, decorators and comments are not
    represented; a numeric literal holds a non-negative integer.  Any other
    expression is an [OtherExpression], any other node an [OtherNode], each
    with the child nodes Babel's [VISITOR_KEYS] lists for it. *)

Module Ast.
Import Js.

#[local] Set Warnings "-register-all".

Inductive Node : Type :=
| Identifier (name : string)
| StringLiteral (value : string)
| NumericLiteral (value : nat)
| BooleanLiteral (value : bool)
| BigIntLiteral (value : string)
| NullLiteral
| TemplateLiteral (quasis : list (option string)) (expressions : list Node)
(** The [id] of a function expression is its name, when it has one. *)
| FunctionExpression (id : option string) (params : list Node) (body : Node)
| ArrowFunctionExpression (params : list Node) (body : Node)
| MemberExpression (object property : Node) (computed : bool)
| OptionalMemberExpression (object property : Node) (computed : bool)
| CallExpression (callee : Node) (arguments : list Node)
| OptionalCallExpression (callee : Node) (arguments : list Node)
| ArrayExpression (elements : list (option Node))
| ObjectExpression (properties : list Node)
| UnaryExpression (operator : string) (argument : Node)
| UpdateExpression (operator : string) (argument : Node)
| BinaryExpression (operator : string) (left right : Node)
| LogicalExpression (operator : string) (left right : Node)
| AssignmentExpression (operator : string) (left right : Node)
| ConditionalExpression (test consequent alternate : Node)
| SequenceExpression (expressions : list Node)
| ParenthesizedExpression (expression : Node)
| TSAsExpression (expression : Node)
| TSSatisfiesExpression (expression : Node)
| TypeCastExpression (expression : Node)
| TSNonNullExpression (expression : Node)
| OtherExpression (children : list Node)
(* nodes that are no expressions *)
| ObjectProperty (key value : Node) (computed shorthand : bool)
| ObjectMethod (key : Node) (params : list Node) (body : Node) (computed : bool)
| SpreadElement (argument : Node)
| PrivateName (name : string)
| ReturnStatement (argument : option Node)
| BlockStatement (body : list Node)
| IfStatement (test consequent : Node) (alternate : option Node)
| LabeledStatement (label : string) (body : Node)
(** [for], [for-in], [for-of], [while] and [do-while]: [heads] are the child
    nodes other than the body. *)
| LoopStatement (heads : list Node) (body : Node)
(** A case is its test and its consequent statements. *)
| SwitchStatement (discriminant : Node) (cases : list (option Node * list Node))
(** The handler is the catch clause's parameter and the statements of its body. *)
| TryStatement (block : list Node) (handler : option (option Node * list Node))
    (finalizer : option (list Node))
(** A declarator is its [id] and its [init]. *)
| VariableDeclaration (declarations : list (Node * option Node))
| OtherNode (children : list Node).

(** [t.isExpression] *)
Definition isExpression (node : Node) : bool :=
  match node with
  | Identifier _ | StringLiteral _ | NumericLiteral _ | BooleanLiteral _ | BigIntLiteral _
  | NullLiteral | TemplateLiteral _ _ | FunctionExpression _ _ _ | ArrowFunctionExpression _ _
  | MemberExpression _ _ _ | OptionalMemberExpression _ _ _ | CallExpression _ _
  | OptionalCallExpression _ _ | ArrayExpression _ | ObjectExpression _ | UnaryExpression _ _
  | UpdateExpression _ _ | BinaryExpression _ _ _ | LogicalExpression _ _ _
  | AssignmentExpression _ _ _ | ConditionalExpression _ _ _ | SequenceExpression _
  | ParenthesizedExpression _ | TSAsExpression _ | TSSatisfiesExpression _
  | TypeCastExpression _ | TSNonNullExpression _ | OtherExpression _ => true
  | _ => false
  end.

(** [t.isStatement], for the nodes of this tree. *)
Definition isStatement (node : Node) : bool :=
  match node with
  | ReturnStatement _ | BlockStatement _ | IfStatement _ _ _ | LabeledStatement _ _
  | LoopStatement _ _ | SwitchStatement _ _ | TryStatement _ _ _ | VariableDeclaration _ => true
  | _ => false
  end.

Definition isObjectExpression (node : Node) : bool :=
  match node with ObjectExpression _ => true | _ => false end.

Definition isArrayExpression (node : Node) : bool :=
  match node with ArrayExpression _ => true | _ => false end.

Definition isFunction (node : Node) : bool :=
  match node with FunctionExpression _ _ _ | ArrowFunctionExpression _ _ => true | _ => false end.

(** [symbols.ts]: [unwrapExpression] *)
Fixpoint unwrapExpression (node : Node) : Node :=
  match node with
  | TSAsExpression expression | TSSatisfiesExpression expression
  | TypeCastExpression expression => unwrapExpression expression
  | TSNonNullExpression expression => unwrapExpression expression
  | _ => node
  end.

(** The first [Some] a function gives along a list: a loop that returns from
    inside its body. *)
Fixpoint firstSome {A B : Type} (f : A -> option B) (l : list A) : option B :=
  match l with
  | [] => None
  | x :: rest => match f x with Some y => Some y | None => firstSome f rest end
  end.

(** [symbols.ts]: [firstReturnExpressionFromStatement]; [topLevelReturnExpression]
    is [firstSome firstReturnExpressionFromStatement]. *)
Fixpoint firstReturnExpressionFromStatement (statement : Node) : option Node :=
  match statement with
  | ReturnStatement argument =>
      match argument with
      | Some value => if isExpression value then Some (unwrapExpression value) else None
      | None => None
      end
  | BlockStatement body => firstSome firstReturnExpressionFromStatement body
  | IfStatement _ consequent alternate =>
      match firstReturnExpressionFromStatement consequent with
      | Some fromConsequent => Some fromConsequent
      | None =>
          match alternate with
          | Some alt => if isStatement alt then firstReturnExpressionFromStatement alt else None
          | None => None
          end
      end
  | LabeledStatement _ body => firstReturnExpressionFromStatement body
  | LoopStatement _ body => firstReturnExpressionFromStatement body
  | SwitchStatement _ cases =>
      firstSome (fun switchCase => firstSome firstReturnExpressionFromStatement (snd switchCase))
                cases
  | TryStatement block handler finalizer =>
      match firstSome firstReturnExpressionFromStatement block with
      | Some fromTry => Some fromTry
      | None =>
          match
            match handler with
            | Some clause => firstSome firstReturnExpressionFromStatement (snd clause)
            | None => None
            end
          with
          | Some fromCatch => Some fromCatch
          | None =>
              match finalizer with
              | Some statements => firstSome firstReturnExpressionFromStatement statements
              | None => None
              end
          end
      end
  | _ => None
  end.

Definition topLevelReturnExpression (statements : list Node) : option Node :=
  firstSome firstReturnExpressionFromStatement statements.

(** The declarator the two backward loops of
    [resolveReturnedIdentifierFromStatements] stop at: the last declarator,
    of the last variable declaration that has one, whose [id] is the
    identifier [identifierName]. *)
Definition lastDeclaratorOf (identifierName : string) (statements : list Node)
  : option (Node * option Node) :=
  firstSome
    (fun statement =>
       match statement with
       | VariableDeclaration declarations =>
           find (fun declarator =>
                   match fst declarator with
                   | Identifier name => name =? identifierName
                   | _ => false
                   end)
                (List.rev declarations)
       | _ => None
       end)
    (List.rev statements).

(** The declarators of the top-level variable declarations. *)
Definition declaratorCount (statements : list Node) : nat :=
  list_sum (map (fun statement =>
                   match statement with
                   | VariableDeclaration declarations => List.length declarations
                   | _ => 0
                   end) statements).

(** The names the top-level variable declarations declare, and how many of
    them are not in [seen]. *)
Definition declaredNames (statements : list Node) : list string :=
  flat_map (fun statement =>
              match statement with
              | VariableDeclaration declarations =>
                  flat_map (fun declarator : Node * option Node =>
                              match fst declarator with
                              | Identifier name => [name]
                              | _ => []
                              end) declarations
              | _ => []
              end) statements.

Definition unseenCount (statements : list Node) (seen : JsSet) : nat :=
  List.length (filter (fun name => negb (setHas name seen)) (declaredNames statements)).

(** [symbols.ts]: [resolveReturnedIdentifierFromStatements].  Every call adds
    a name to [seen] and follows a declarator, so the calls nest at most as
    deep as there are declarators; [fuel] counts them. *)
Fixpoint resolveReturnedIdentifierFromStatements (fuel : nat) (identifierName : string)
    (statements : list Node) (seen : JsSet) : option Node :=
  match fuel with
  | 0 => None
  | S fuel' =>
      if setHas identifierName seen then None
      else
        let seen' := setAdd identifierName seen in
        match lastDeclaratorOf identifierName statements with
        | None => None
        | Some (_, None) => None
        | Some (_, Some initNode) =>
            if negb (isExpression initNode) then None
            else
              let init := unwrapExpression initNode in
              match init with
              | Identifier name =>
                  if negb (name =? identifierName) then
                    match resolveReturnedIdentifierFromStatements fuel' name statements seen' with
                    | Some resolved => Some resolved
                    | None => Some init
                    end
                  else Some init
              | _ => Some init
              end
        end
  end.

(** [symbols.ts]: [extractFunctionReturnExpression] *)
Definition extractFunctionReturnExpression (node : Node) : option Node :=
  let fromBlock (body : Node) :=
    match body with
    | BlockStatement statements =>
        match topLevelReturnExpression statements with
        | None => None
        | Some (Identifier name) =>
            match resolveReturnedIdentifierFromStatements
                    (2 + declaratorCount statements) name statements [] with
            | Some resolved => Some resolved
            | None => Some (Identifier name)
            end
        | Some returned => Some returned
        end
    | _ => None
    end in
  match node with
  | ArrowFunctionExpression _ body =>
      if isExpression body then Some (unwrapExpression body) else fromBlock body
  | FunctionExpression _ _ body => fromBlock body
  | _ => None
  end.

(** The number of nodes of a tree: a bound on the nesting the functions that
    walk a tree without a depth test can meet. *)
Fixpoint nodeSize (node : Node) : nat :=
  let all := fun nodes : list Node => list_sum (map nodeSize nodes) in
  let optional := fun child : option Node =>
    match child with Some c => nodeSize c | None => 0 end in
  S match node with
    | Identifier _ | StringLiteral _ | NumericLiteral _ | BooleanLiteral _ | BigIntLiteral _
    | NullLiteral | PrivateName _ => 0
    | TemplateLiteral _ expressions => all expressions
    | FunctionExpression _ params body | ArrowFunctionExpression params body =>
        all params + nodeSize body
    | MemberExpression object property _ | OptionalMemberExpression object property _ =>
        nodeSize object + nodeSize property
    | CallExpression callee args | OptionalCallExpression callee args =>
        nodeSize callee + all args
    | ArrayExpression elements =>
        list_sum (map (fun element =>
                         match element with Some e => nodeSize e | None => 0 end) elements)
    | ObjectExpression properties => all properties
    | UnaryExpression _ argument | UpdateExpression _ argument => nodeSize argument
    | BinaryExpression _ lhs rhs | LogicalExpression _ lhs rhs | AssignmentExpression _ lhs rhs =>
        nodeSize lhs + nodeSize rhs
    | ConditionalExpression test consequent alternate =>
        nodeSize test + nodeSize consequent + nodeSize alternate
    | SequenceExpression expressions => all expressions
    | ParenthesizedExpression expression | TSAsExpression expression
    | TSSatisfiesExpression expression | TypeCastExpression expression
    | TSNonNullExpression expression => nodeSize expression
    | OtherExpression children | OtherNode children => all children
    | ObjectProperty key val _ _ => nodeSize key + nodeSize val
    | ObjectMethod key params body _ => nodeSize key + all params + nodeSize body
    | SpreadElement argument => nodeSize argument
    | ReturnStatement argument => optional argument
    | BlockStatement body => all body
    | IfStatement test consequent alternate =>
        nodeSize test + nodeSize consequent + optional alternate
    | LabeledStatement _ body => nodeSize body
    | LoopStatement heads body => all heads + nodeSize body
    | SwitchStatement discriminant cases =>
        nodeSize discriminant
        + list_sum (map (fun switchCase : option Node * list Node =>
                           let (test, consequent) := switchCase in
                           match test with Some c => nodeSize c | None => 0 end
                           + list_sum (map nodeSize consequent)) cases)
    | TryStatement block handler finalizer =>
        all block
        + match handler with
          | Some (param, body) =>
              match param with Some c => nodeSize c | None => 0 end
              + list_sum (map nodeSize body)
          | None => 0
          end
        + match finalizer with Some body => list_sum (map nodeSize body) | None => 0 end
    | VariableDeclaration declarations =>
        list_sum (map (fun declarator : Node * option Node =>
                         let (id, init) := declarator in
                         nodeSize id + match init with Some c => nodeSize c | None => 0 end)
                      declarations)
    end.

End Ast.


(** ** The cache-key normalizer ([queryKey.ts]) *)

Module Normalizer.
Import Js Ast.

Definition MAX_RESOLVE_DEPTH : nat := 25.
Definition ALL_QUERY_CACHE_ID : string := "all-query-cache".
Definition ALL_QUERY_CACHE_SEGMENT : string := "ALL_QUERY_CACHE".
Definition UNRESOLVED_SEGMENT : string := "UNRESOLVED".
Definition UNRESOLVED_QUERY_KEY : string := "UNRESOLVED_QUERY_KEY".
Definition QUERY_OPTIONS_HELPER_NAMES : list string := ["queryOptions"; "infiniteQueryOptions"].
Definition COLLECTION_TRANSFORM_METHODS : list string :=
  ["join"; "sort"; "slice"; "map"; "filter"; "flat"; "flatMap"; "concat"; "reverse"; "toSorted"].

(** [types.ts]: [SegmentResult] and [QueryKeyResolver] *)
Record SegmentResult := { text : string; isStatic : bool }.

Record QueryKeyResolver := {
  resolveReference : Node -> option Node;
  resolveCallResult : Node -> option Node
}.

(** The result [{ value, isStatic }] of [inferPropertyName]. *)
Record PropertyName := { value : string; valueIsStatic : bool }.

(** The [options] of [normalizeQueryKey]. *)
Record KeyOptions := { defaultMode : option MatchMode; wildcardIfMissing : option bool }.

Definition noOptions : KeyOptions := {| defaultMode := None; wildcardIfMissing := None |}.

Definition unresolvedSegment : SegmentResult := {| text := UNRESOLVED_SEGMENT; isStatic := false |}.

Definition buildAllQueryCacheKey (resolution : Resolution) (display : string) : NormalizedQueryKey :=
  {| key_id := ALL_QUERY_CACHE_ID;
     key_display := display;
     key_segments := [ALL_QUERY_CACHE_SEGMENT];
     key_matchMode := MAll;
     key_resolution := resolution;
     key_source := SrcWildcard |}.

Definition isObjectFreezeCall (callee : Node) : bool :=
  match callee with
  | MemberExpression (Identifier objectName) (Identifier propertyName) false =>
      (objectName =? "Object") && (propertyName =? "freeze")
  | _ => false
  end.

Definition isQueryOptionsLikeCall (callee : Node) : bool :=
  match callee with
  | Identifier name => setHas name QUERY_OPTIONS_HELPER_NAMES
  | MemberExpression _ (Identifier name) false => setHas name QUERY_OPTIONS_HELPER_NAMES
  | _ => false
  end.

Definition isIdentityWrapperCall (callee : Node) : bool :=
  isQueryOptionsLikeCall callee || isObjectFreezeCall callee.

Definition firstExpressionArgument (args : list Node) : option Node :=
  match args with
  | first :: _ => if isExpression first then Some (unwrapExpression first) else None
  | [] => None
  end.

(** [resolveWithResolver(node, resolver, depth)] for a depth below the cap;
    its only caller returns before it at the cap. *)
Definition resolveWithResolver (node : Node) (resolver : option QueryKeyResolver) : option Node :=
  match resolver with
  | None => None
  | Some r =>
      match node with
      | CallExpression callee args =>
          let wrapped :=
            match firstExpressionArgument args with
            | Some firstArg =>
                if (List.length args =? 1)%nat then
                  if isIdentityWrapperCall callee then Some firstArg
                  else if isObjectExpression firstArg || isArrayExpression firstArg then Some firstArg
                  else None
                else None
            | None => None
            end in
          match wrapped with
          | Some firstArg => Some firstArg
          | None =>
              match resolveCallResult r callee with
              | Some callResult => Some callResult
              | None => if isExpression callee then resolveReference r callee else None
              end
          end
      | Identifier _ | MemberExpression _ _ _ => resolveReference r node
      | _ => None
      end
  end.

Definition callCalleeName (callee : Node) : option string :=
  match callee with
  | Identifier name => Some name
  | MemberExpression _ (Identifier name) false => Some name
  | _ => None
  end.

(** [isMemoLikeCall(node)], for the callee of the call. *)
Definition isMemoLikeCall (callee : Node) : bool :=
  match callCalleeName callee with
  | Some calleeName => (calleeName =? "useMemo") || (calleeName =? "useCallback")
  | None => false
  end.

Definition memoLikeCallReturnExpression (callee : Node) (args : list Node) : option Node :=
  if negb (isMemoLikeCall callee) then None
  else
    match firstExpressionArgument args with
    | None => None
    | Some firstArg =>
        if isFunction firstArg then extractFunctionReturnExpression firstArg else Some firstArg
    end.

Definition objectEntryText (key value : string) : string := key ++ ": " ++ value.

Definition isUndefinedObjectValue (segment : SegmentResult) : bool :=
  isStatic segment && (text segment =? "undefined").

Definition isEmptyFallbackExpression (node : Node) : bool :=
  match unwrapExpression node with
  | StringLiteral value => value =? ""
  | TemplateLiteral quasis expressions =>
      match expressions, quasis with
      | [], [cooked] => (match cooked with Some c => c | None => "" end) =? ""
      | _, _ => false
      end
  | ObjectExpression properties => (List.length properties =? 0)%nat
  | ArrayExpression elements => (List.length elements =? 0)%nat
  | NullLiteral => true
  | Identifier name => name =? "undefined"
  | _ => false
  end.

Definition simplifyCollectionMethodCallSegment (objectSegment : SegmentResult)
    (propertySegment : option PropertyName) : option SegmentResult :=
  match propertySegment with
  | None => None
  | Some property =>
      if negb (setHas (value property) COLLECTION_TRANSFORM_METHODS) then None
      else Some objectSegment
  end.

(** [substituteIdentifierInExpression]; [t.cloneNode] copies a node, and a
    copy is the same tree. *)
Fixpoint substituteIdentifierInExpression (expression : Node) (identifierName : string)
    (replacement : Node) : Node :=
  let replaceExpression := fun node => substituteIdentifierInExpression node identifierName replacement in
  match expression with
  | Identifier name => if name =? identifierName then replacement else expression
  | ArrayExpression elements =>
      ArrayExpression
        (map (fun element =>
                match element with
                | None => None
                | Some (SpreadElement argument) =>
                    if negb (isExpression argument) then element
                    else Some (SpreadElement (replaceExpression argument))
                | Some other => if isExpression other then Some (replaceExpression other) else element
                end) elements)
  | ObjectExpression properties =>
      ObjectExpression
        (map (fun property =>
                match property with
                | SpreadElement argument =>
                    if negb (isExpression argument) then property
                    else SpreadElement (replaceExpression argument)
                | ObjectProperty key val computed shorthand =>
                    if isExpression val then
                      let nextValue := replaceExpression val in
                      ObjectProperty key nextValue computed
                        (shorthand &&
                         match key, nextValue with
                         | Identifier keyName, Identifier valueName => keyName =? valueName
                         | _, _ => false
                         end)
                    else property
                | _ => property
                end) properties)
  | MemberExpression object property computed =>
      MemberExpression
        (if isExpression object then replaceExpression object else object)
        (if computed && isExpression property then replaceExpression property else property)
        computed
  | CallExpression callee args =>
      CallExpression
        (if isExpression callee then replaceExpression callee else callee)
        (map (fun arg =>
                match arg with
                | SpreadElement argument =>
                    if isExpression argument then SpreadElement (replaceExpression argument)
                    else arg
                | _ => if isExpression arg then replaceExpression arg else arg
                end) args)
  | TemplateLiteral quasis expressions =>
      TemplateLiteral quasis
        (map (fun expr => if isExpression expr then replaceExpression expr else expr) expressions)
  | UnaryExpression operator argument =>
      UnaryExpression operator
        (if isExpression argument then replaceExpression argument else argument)
  | UpdateExpression operator argument =>
      UpdateExpression operator
        (if isExpression argument then replaceExpression argument else argument)
  | BinaryExpression operator lhs rhs =>
      BinaryExpression operator
        (if isExpression lhs then replaceExpression lhs else lhs)
        (if isExpression rhs then replaceExpression rhs else rhs)
  | LogicalExpression operator lhs rhs =>
      LogicalExpression operator
        (if isExpression lhs then replaceExpression lhs else lhs)
        (if isExpression rhs then replaceExpression rhs else rhs)
  | AssignmentExpression operator lhs rhs =>
      AssignmentExpression operator
        (if isExpression lhs then replaceExpression lhs else lhs)
        (if isExpression rhs then replaceExpression rhs else rhs)
  | ConditionalExpression test consequent alternate =>
      ConditionalExpression (replaceExpression test) (replaceExpression consequent)
                            (replaceExpression alternate)
  | SequenceExpression expressions => SequenceExpression (map replaceExpression expressions)
  | ParenthesizedExpression inner => ParenthesizedExpression (replaceExpression inner)
  | _ => expression
  end.

(** [expressionContainsIdentifier]: the search of the stack loop, with
    [under] the [asReference] flag of the node; the children are those Babel's
    [VISITOR_KEYS] lists, the flag cleared for the key of a property and the
    property of a member access that are not computed, and for the parameters
    of a function. *)
Fixpoint containsIdentifier (identifierName : string) (under : bool) (node : Node) : bool :=
  let go := containsIdentifier identifierName under in
  let off := containsIdentifier identifierName false in
  let optional (child : option Node) := match child with Some c => go c | None => false end in
  match node with
  | Identifier name => under && (name =? identifierName)
  | TemplateLiteral _ expressions => existsb go expressions
  | FunctionExpression id params body =>
      match id with Some name => under && (name =? identifierName) | None => false end
      || existsb off params || go body
  | ArrowFunctionExpression params body => existsb off params || go body
  | MemberExpression object property computed =>
      go object || (if computed then go property else off property)
  | OptionalMemberExpression object property _ => go object || go property
  | CallExpression callee args | OptionalCallExpression callee args =>
      go callee || existsb go args
  | ArrayExpression elements => existsb optional elements
  | ObjectExpression properties => existsb go properties
  | UnaryExpression _ argument | UpdateExpression _ argument => go argument
  | BinaryExpression _ lhs rhs | LogicalExpression _ lhs rhs
  | AssignmentExpression _ lhs rhs => go lhs || go rhs
  | ConditionalExpression test consequent alternate => go test || go consequent || go alternate
  | SequenceExpression expressions => existsb go expressions
  | ParenthesizedExpression inner | TSAsExpression inner | TSSatisfiesExpression inner
  | TypeCastExpression inner | TSNonNullExpression inner => go inner
  | OtherExpression children | OtherNode children => existsb go children
  | ObjectProperty key val computed _ => (if computed then go key else off key) || go val
  | ObjectMethod key params body _ => go key || existsb go params || go body
  | SpreadElement argument => go argument
  | PrivateName name => under && (name =? identifierName)
  | ReturnStatement argument => optional argument
  | BlockStatement body => existsb go body
  | IfStatement test consequent alternate => go test || go consequent || optional alternate
  | LabeledStatement label body => (under && (label =? identifierName)) || go body
  | LoopStatement heads body => existsb go heads || go body
  | SwitchStatement discriminant cases =>
      go discriminant
      || existsb (fun switchCase => optional (fst switchCase) || existsb go (snd switchCase)) cases
  | TryStatement block handler finalizer =>
      existsb go block
      || match handler with
         | Some clause => optional (fst clause) || existsb go (snd clause)
         | None => false
         end
      || match finalizer with Some statements => existsb go statements | None => false end
  | VariableDeclaration declarations =>
      existsb (fun declarator => go (fst declarator) || optional (snd declarator)) declarations
  | _ => false
  end.

Definition expressionContainsIdentifier (node : Node) (identifierName : string) : bool :=
  containsIdentifier identifierName true node.

Definition normalizedUnknownKey (mode : MatchMode) : NormalizedQueryKey :=
  {| key_id := toLowerCase UNRESOLVED_QUERY_KEY;
     key_display := UNRESOLVED_QUERY_KEY;
     key_segments := [UNRESOLVED_SEGMENT];
     key_matchMode := mode;
     key_resolution := Dynamic;
     key_source := SrcExpression |}.

(** [/^\$querykey(s)?$/i] *)
Definition isDollarQueryKey (s : string) : bool :=
  (toLowerCase s =? "$querykey") || (toLowerCase s =? "$querykeys").

(** [/^querykeys?$/i] *)
Definition isQueryKeyName (s : string) : bool :=
  (toLowerCase s =? "querykey") || (toLowerCase s =? "querykeys").

(** [/^query.?keys?$/i]: [query], at most one character that ends no line,
    then [key] or [keys]. *)
Definition isQueryAnyKeyName (s : string) : bool :=
  let lower := toLowerCase s in
  if startsWith lower "query" then
    match substring 5 (String.length lower - 5) lower with
    | String c rest =>
        (String c rest =? "key") || (String c rest =? "keys")
        || (negb ((nat_of_ascii c =? 10) || (nat_of_ascii c =? 13))%nat
            && ((rest =? "key") || (rest =? "keys")))
    | EmptyString => false
    end
  else false.

Definition normalizeSegmentResult (segment : SegmentResult) : SegmentResult :=
  let normalized := orElse (text segment) UNRESOLVED_SEGMENT in
  if (normalized =? "...spread") || (normalized =? "expr") || (normalized =? "call(expr)")
  then unresolvedSegment
  else if isDollarQueryKey normalized then unresolvedSegment
  else {| text := normalized; isStatic := isStatic segment |}.

Definition shouldTreatAsWildcardActionKey (key : NormalizedQueryKey) : bool :=
  if (key_id key =? "empty") && (List.length (key_segments key) =? 0)%nat then true
  else if key_id key =? toLowerCase UNRESOLVED_QUERY_KEY then true
  else match key_segments key with
       | [only] => only =? UNRESOLVED_SEGMENT
       | _ => false
       end.

Definition isPassThroughQueryKeyReference (node : option Node) : bool :=
  match node with
  | None => false
  | Some n =>
      match unwrapExpression n with
      | Identifier name => isQueryKeyName name
      | MemberExpression _ (Identifier name) false => isQueryKeyName name
      | _ => false
      end
  end.

Definition buildPassThroughActionKey (mode : MatchMode) : NormalizedQueryKey :=
  {| key_id := "pass-through-query-key";
     key_display := "$queryKey";
     key_segments := ["$queryKey"];
     key_matchMode := mode;
     key_resolution := Dynamic;
     key_source := SrcExpression |}.

(** The key [normalizeQueryKey] and [inferActionQueryKeyFromPredicate] build
    from the segments of an array. *)
Definition keyOfSegments (segments : list SegmentResult) (mode : MatchMode) : NormalizedQueryKey :=
  let resolution := if forallb isStatic segments then Static else Dynamic in
  let rawSegments := map (fun seg => orElse (text seg) UNRESOLVED_SEGMENT) segments in
  {| key_id := orElse (join "|" rawSegments) "empty";
     key_display := "[" ++ join ", " rawSegments ++ "]";
     key_segments := rawSegments;
     key_matchMode := mode;
     key_resolution := resolution;
     key_source := match resolution with Static => SrcLiteral | Dynamic => SrcExpression end |}.

(** The key [normalizeQueryKey] builds from the segment of an expression that
    is no array. *)
Definition keyOfSegment (segment : SegmentResult) (mode : MatchMode) : NormalizedQueryKey :=
  let resolution := if isStatic segment then Static else Dynamic in
  {| key_id := orElse (text segment) UNRESOLVED_SEGMENT;
     key_display := orElse (text segment) UNRESOLVED_SEGMENT;
     key_segments := [orElse (text segment) UNRESOLVED_SEGMENT];
     key_matchMode := mode;
     key_resolution := resolution;
     key_source := match resolution with Static => SrcLiteral | Dynamic => SrcExpression end |}.

(** [const prop = objectNode.properties.find(...)]: the first property whose
    key is the identifier or the string [propName]. *)
Definition findProperty (properties : list Node) (propName : string) : option Node :=
  find (fun property =>
          match property with
          | ObjectProperty (Identifier name) _ _ _ => name =? propName
          | ObjectProperty (StringLiteral name) _ _ _ => name =? propName
          | _ => false
          end) properties.

Definition readBooleanProperty (properties : list Node) (propName : string) : option bool :=
  match findProperty properties propName with
  | Some (ObjectProperty _ (BooleanLiteral b) _ _) => Some b
  | _ => None
  end.

Definition findObjectPropertyValue (properties : list Node) (propName : string) : option Node :=
  match findProperty properties propName with
  | Some (ObjectProperty _ val _ _) => if isExpression val then Some (unwrapExpression val) else None
  | _ => None
  end.

(** *** The functions that carry a depth

    Every recursive call of the normalizer passes [depth + 1], and the
    functions that test [depth >= MAX_RESOLVE_DEPTH] return at once at the
    cap.  A [Level] holds, for one depth, the functions that recursion goes
    through; the body of a function at depth [d] receives [deeper], where
    [deeper k] is the level of depth [d + 1 + k]. *)

(** [Map<number, SegmentResult>] *)
Definition Constraints : Type := list (nat * SegmentResult).

Fixpoint constraintGet (index : nat) (constraints : Constraints) : option SegmentResult :=
  match constraints with
  | [] => None
  | (i, segment) :: rest => if (i =? index)%nat then Some segment else constraintGet index rest
  end.

Fixpoint constraintSet (index : nat) (segment : SegmentResult) (constraints : Constraints)
  : Constraints :=
  match constraints with
  | [] => [(index, segment)]
  | (i, old) :: rest =>
      if (i =? index)%nat then (i, segment) :: rest
      else (i, old) :: constraintSet index segment rest
  end.

Record Level := {
  call_segmentFromExpression : Node -> SegmentResult;
  call_resolveQueryKeyExpression : Node -> option Node;
  call_resolveObjectPropertyExpression : list Node -> string -> option Node;
  call_collectObjectArgumentSubstitutions : list Node -> JsMap Node -> JsMap Node;
  call_resolveActionOptionsObject : Node -> option (list Node);
  call_queryKeyIndexFromAccessExpression : Node -> option nat;
  call_collectPredicateQueryKeyConstraints : Node -> Constraints -> Constraints;
  call_segmentFromObjectExpression : list Node -> SegmentResult;
  call_segmentsFromArrayElement : option Node -> list SegmentResult
}.

Definition Levels : Type := nat -> Level.

(** The levels a callee at [depth + 1] calls into. *)
Definition below (deeper : Levels) : Levels := fun k => deeper (S k).

(** [x ?? y] *)
Definition orDefault {A : Type} (x : option A) (y : A) : A :=
  match x with Some v => v | None => y end.

Section WithResolver.
Context {locale : Locale}.
Variable resolver : option QueryKeyResolver.

Definition inferPropertyName (deeper : Levels) (property : Node) : option PropertyName :=
  match property with
  | Identifier name => Some {| value := name; valueIsStatic := true |}
  | StringLiteral v => Some {| value := v; valueIsStatic := true |}
  | NumericLiteral n => Some {| value := numberToString n; valueIsStatic := true |}
  | _ =>
      if isExpression property then
        let evaluated := call_segmentFromExpression (deeper 0) property in
        Some {| value := text evaluated; valueIsStatic := isStatic evaluated |}
      else None
  end.

Definition propertyNameFromExpression (deeper : Levels) (property : Node) : option string :=
  match inferPropertyName deeper property with
  | Some inferred => Some (value inferred)
  | None => None
  end.

(** [objectPropertyKeySegment(property, resolver, depth)], for the key and the
    [computed] flag of the property. *)
Definition objectPropertyKeySegment (deeper : Levels) (keyNode : Node) (computed : bool)
  : SegmentResult :=
  let evaluated := normalizeSegmentResult (call_segmentFromExpression (deeper 0) keyNode) in
  match keyNode with
  | Identifier name => if negb computed then {| text := name; isStatic := true |} else evaluated
  | PrivateName name => {| text := "#" ++ name; isStatic := false |}
  | StringLiteral _ | NumericLiteral _ => evaluated
  | BigIntLiteral v => {| text := v; isStatic := true |}
  | _ => if isExpression keyNode then evaluated else unresolvedSegment
  end.

(** The state of the loop of [segmentFromObjectExpression]. *)
Record ObjectScan := {
  entries : list string;
  sortableEntries : list (string * SegmentResult);
  allStatic : bool;
  canCanonicalizeOrder : bool
}.

Definition pushEntry (scan : ObjectScan) (entry : string) (static : bool) : ObjectScan :=
  {| entries := (entries scan ++ [entry])%list;
     sortableEntries := sortableEntries scan;
     allStatic := static;
     canCanonicalizeOrder := false |}.

(** The [canonicalEntries] map: an entry with an undefined value deletes its
    key, any other entry sets it. *)
Definition canonicalEntriesOf (sortable : list (string * SegmentResult)) : JsMap SegmentResult :=
  fold_left (fun canonicalEntries entry =>
               if isUndefinedObjectValue (snd entry) then mapDelete (fst entry) canonicalEntries
               else mapSet (fst entry) (snd entry) canonicalEntries)
            sortable [].

Definition sortedEntryTextOf (sortable : list (string * SegmentResult)) : list string :=
  map (fun entry => objectEntryText (fst entry) (text (snd entry)))
      (sortBy (fun a b => localeCompare (fst a) (fst b)) (canonicalEntriesOf sortable)).

(** The body of the loop of [segmentFromObjectExpression]. *)
Definition scanProperty (deeper : Levels) (scan : ObjectScan) (property : Node) : ObjectScan :=
  match property with
  | SpreadElement argument =>
      if negb (isExpression argument) then pushEntry scan "...UNRESOLVED" false
      else
        let spreadSource :=
          orDefault (call_resolveQueryKeyExpression (deeper 0) argument)
                    (unwrapExpression argument) in
        match spreadSource with
        | ObjectExpression spreadProperties =>
            let spreadSegment := call_segmentFromObjectExpression (deeper 0) spreadProperties in
            let spreadText := trim (text spreadSegment) in
            let static := allStatic scan && isStatic spreadSegment in
            if startsWith spreadText "{" && endsWith spreadText "}" then
              let inner := trim (sliceInner spreadText) in
              if inner =? "" then
                {| entries := entries scan; sortableEntries := sortableEntries scan;
                   allStatic := static; canCanonicalizeOrder := false |}
              else pushEntry scan inner static
            else pushEntry scan ("..." ++ text spreadSegment) static
        | _ =>
            let spreadSegment :=
              normalizeSegmentResult (call_segmentFromExpression (deeper 0) spreadSource) in
            pushEntry scan ("..." ++ text spreadSegment) false
        end
  | ObjectProperty keyNode val computed _ =>
      let keySegment := objectPropertyKeySegment (below deeper) keyNode computed in
      let valueSegment :=
        if isExpression val
        then normalizeSegmentResult (call_segmentFromExpression (deeper 0) val)
        else unresolvedSegment in
      let keyText := if computed then "[" ++ text keySegment ++ "]" else text keySegment in
      {| entries := (entries scan ++ [objectEntryText keyText (text valueSegment)])%list;
         sortableEntries := (sortableEntries scan ++ [(keyText, valueSegment)])%list;
         allStatic := allStatic scan && isStatic keySegment && isStatic valueSegment;
         canCanonicalizeOrder := canCanonicalizeOrder scan |}
  | _ => pushEntry scan "[method]" false
  end.

Definition segmentFromObjectExpression (deeper : Levels) (properties : list Node) : SegmentResult :=
  let scanned :=
    fold_left (scanProperty deeper) properties
      {| entries := []; sortableEntries := []; allStatic := true; canCanonicalizeOrder := true |} in
  if (List.length (entries scanned) =? 0)%nat then {| text := "{}"; isStatic := true |}
  else if canCanonicalizeOrder scanned then
    let sortedEntryText := sortedEntryTextOf (sortableEntries scanned) in
    if (List.length sortedEntryText =? 0)%nat
    then {| text := "{}"; isStatic := allStatic scanned |}
    else {| text := "{" ++ join ", " sortedEntryText ++ "}"; isStatic := allStatic scanned |}
  else {| text := "{" ++ join ", " (entries scanned) ++ "}"; isStatic := allStatic scanned |}.

Definition callArgumentsSegment (deeper : Levels) (args : list Node) : SegmentResult :=
  let segments :=
    map (fun arg =>
           match arg with
           | SpreadElement argument =>
               if negb (isExpression argument)
               then {| text := "..." ++ UNRESOLVED_SEGMENT; isStatic := false |}
               else
                 let spread :=
                   normalizeSegmentResult (call_segmentFromExpression (deeper 0) argument) in
                 {| text := "..." ++ text spread; isStatic := isStatic spread |}
           | _ =>
               if isExpression arg
               then normalizeSegmentResult (call_segmentFromExpression (deeper 0) arg)
               else unresolvedSegment
           end) args in
  {| text := join ", " (map text segments); isStatic := forallb isStatic segments |}.

(** [resolveObjectPropertyExpression], below the cap. *)
Definition resolveObjectPropertyExpression (deeper : Levels) (properties : list Node)
    (propertyName : string) : option Node :=
  firstSome
    (fun property =>
       match property with
       | ObjectProperty keyNode val _ _ =>
           match propertyNameFromExpression (below deeper) keyNode with
           | Some keyName =>
               if (keyName =? propertyName) && isExpression val
               then Some (unwrapExpression val) else None
           | None => None
           end
       | SpreadElement argument =>
           if negb (isExpression argument) then None
           else
             match orDefault (call_resolveQueryKeyExpression (deeper 0) argument)
                             (unwrapExpression argument) with
             | ObjectExpression spreadProperties =>
                 call_resolveObjectPropertyExpression (deeper 0) spreadProperties propertyName
             | _ => None
             end
       | _ => None
       end)
    (List.rev properties).

(** [collectObjectArgumentSubstitutions], below the cap; the [target] map it
    fills is returned. *)
Definition collectObjectArgumentSubstitutions (deeper : Levels) (properties : list Node)
    (target : JsMap Node) : JsMap Node :=
  fold_left
    (fun target property =>
       match property with
       | ObjectProperty keyNode val _ _ =>
           match propertyNameFromExpression (below deeper) keyNode with
           | Some key =>
               if (key =? "") || negb (isExpression val) then target
               else mapSet key (unwrapExpression val) target
           | None => target
           end
       | SpreadElement argument =>
           if negb (isExpression argument) then target
           else
             match orDefault (call_resolveQueryKeyExpression (deeper 0) argument)
                             (unwrapExpression argument) with
             | ObjectExpression spreadProperties =>
                 call_collectObjectArgumentSubstitutions (deeper 0) spreadProperties target
             | _ => target
             end
       | _ => target
       end)
    properties target.

(** [applyObjectArgumentIdentifierHints]; the flag tells whether the result is
    a new node, which the caller tests with [!==]. *)
Definition applyObjectArgumentIdentifierHints (deeper : Levels) (expression : Node)
    (properties : list Node) : Node * bool :=
  let substitutions := call_collectObjectArgumentSubstitutions (deeper 0) properties [] in
  fold_left
    (fun (acc : Node * bool) (entry : string * Node) =>
       if negb (expressionContainsIdentifier (fst acc) (fst entry)) then acc
       else (substituteIdentifierInExpression (fst acc) (fst entry) (snd entry), true))
    substitutions (expression, false).

Definition applyCallArgumentHints (deeper : Levels) (callee : Node) (args : list Node)
    (resolvedCall : Node) : Node :=
  match firstExpressionArgument args with
  | None => resolvedCall
  | Some firstArg =>
      let bothQueryKeys :=
        match resolvedCall, callCalleeName callee with
        | Identifier name, Some calleeName =>
            isQueryAnyKeyName name && negb (calleeName =? "") && isQueryAnyKeyName calleeName
        | _, _ => false
        end in
      let resolvedFirstArg :=
        orDefault (call_resolveQueryKeyExpression (deeper 0) firstArg) firstArg in
      if bothQueryKeys then resolvedFirstArg
      else
        let hinted :=
          match resolvedFirstArg with
          | ObjectExpression properties =>
              applyObjectArgumentIdentifierHints (below deeper) resolvedCall properties
          | _ => (resolvedCall, false)
          end in
        if snd hinted then fst hinted
        else if negb (expressionContainsIdentifier resolvedCall "queryKey") then resolvedCall
        else substituteIdentifierInExpression resolvedCall "queryKey" firstArg
  end.

(** [resolver?.resolveCallResult(callee)] and [resolver?.resolveReference(node)] *)
Definition resolverCallResult (callee : Node) : option Node :=
  match resolver with Some r => resolveCallResult r callee | None => None end.

Definition resolverReference (node : Node) : option Node :=
  match resolver with Some r => resolveReference r node | None => None end.

(** [resolveActionOptionsObject], below the cap. *)
Definition resolveActionOptionsObject (deeper : Levels) (node : Node) : option (list Node) :=
  match unwrapExpression node with
  | ObjectExpression properties => Some properties
  | CallExpression callee args =>
      let throughWrapper :=
        match firstExpressionArgument args with
        | Some firstArg =>
            if (List.length args =? 1)%nat && isIdentityWrapperCall callee then Some firstArg
            else None
        | None => None
        end in
      match throughWrapper with
      | Some firstArg => call_resolveActionOptionsObject (deeper 0) firstArg
      | None =>
          match resolverCallResult callee with
          | Some resolvedCall =>
              let hintedCall := applyCallArgumentHints (below deeper) callee args resolvedCall in
              call_resolveActionOptionsObject (deeper 0) hintedCall
          | None => None
          end
      end
  | (Identifier _ | MemberExpression _ _ _) as unwrapped =>
      match resolverReference unwrapped with
      | Some resolved => call_resolveActionOptionsObject (deeper 0) resolved
      | None => None
      end
  | _ => None
  end.

(** [resolveQueryKeyExpression], below the cap. *)
Definition resolveQueryKeyExpression (deeper : Levels) (node : Node) : option Node :=
  let again := fun resolved : Node =>
    Some (orDefault (call_resolveQueryKeyExpression (deeper 0) resolved) resolved) in
  let unwrapped := unwrapExpression node in
  match unwrapped with
  | ObjectExpression properties =>
      match findObjectPropertyValue properties "queryKey" with
      | Some queryKey => again queryKey
      | None => Some unwrapped
      end
  | CallExpression callee args =>
      let resolvedFirstArg :=
        match firstExpressionArgument args with
        | Some firstArg =>
            if (List.length args =? 1)%nat
            then Some (orDefault (call_resolveQueryKeyExpression (deeper 0) firstArg) firstArg)
            else None
        | None => None
        end in
      let throughFirstArg :=
        match resolvedFirstArg with
        | Some resolvedFirst =>
            match match resolvedFirst with
                  | ObjectExpression properties => findObjectPropertyValue properties "queryKey"
                  | _ => None
                  end with
            | Some queryKey => again queryKey
            | None => if isIdentityWrapperCall callee then again resolvedFirst else None
            end
        | None => None
        end in
      match throughFirstArg with
      | Some result => Some result
      | None =>
          match resolverCallResult callee with
          | Some resolvedCall =>
              again (applyCallArgumentHints (below deeper) callee args resolvedCall)
          | None =>
              match resolvedFirstArg with
              | Some resolvedFirst =>
                  if isObjectExpression resolvedFirst || isArrayExpression resolvedFirst
                  then Some resolvedFirst else Some unwrapped
              | None => Some unwrapped
              end
          end
      end
  | Identifier _ =>
      match resolverReference unwrapped with
      | Some resolved => again resolved
      | None => Some unwrapped
      end
  | MemberExpression object property _ =>
      match resolverReference unwrapped with
      | Some resolved => again resolved
      | None =>
          match propertyNameFromExpression (below deeper) property with
          | None => Some unwrapped
          | Some propertyName =>
              if propertyName =? "" then Some unwrapped
              else
                match match object with
                      | ObjectExpression properties =>
                          call_resolveObjectPropertyExpression (deeper 0) properties propertyName
                      | _ => None
                      end with
                | Some resolved => again resolved
                | None =>
                    if negb (isExpression object) then Some unwrapped
                    else
                      match call_resolveQueryKeyExpression (deeper 0) object with
                      | Some (ObjectExpression properties) =>
                          match call_resolveObjectPropertyExpression (deeper 0) properties
                                  propertyName with
                          | Some resolved => again resolved
                          | None => Some unwrapped
                          end
                      | _ => Some unwrapped
                      end
                end
          end
      end
  | _ => Some unwrapped
  end.

Definition segmentsFromArrayElement (deeper : Levels) (segment : option Node)
  : list SegmentResult :=
  match segment with
  | None => [unresolvedSegment]
  | Some (SpreadElement argument) =>
      if negb (isExpression argument) then [unresolvedSegment]
      else
        match orDefault (call_resolveQueryKeyExpression (deeper 0) argument)
                        (unwrapExpression argument) with
        | ArrayExpression elements =>
            let expanded := flat_map (call_segmentsFromArrayElement (deeper 0)) elements in
            if (0 <? List.length expanded)%nat then expanded else [unresolvedSegment]
        | spreadSource =>
            [normalizeSegmentResult (call_segmentFromExpression (deeper 0) spreadSource)]
        end
  | Some element => [normalizeSegmentResult (call_segmentFromExpression (deeper 0) element)]
  end.

(** The pieces of a template literal, each with whether it is static: the
    cooked text of a quasi when it is not empty, then the expression at the
    same index when there is one. *)
Fixpoint templatePieces (segmentOf : Node -> SegmentResult) (quasis : list (option string))
    (expressions : list Node) : list (string * bool) :=
  match quasis with
  | [] => []
  | quasi :: laterQuasis =>
      let cooked :=
        match quasi with
        | Some c => if c =? "" then [] else [(c, true)]
        | None => []
        end in
      match expressions with
      | [] => (cooked ++ templatePieces segmentOf laterQuasis [])%list
      | expr :: laterExpressions =>
          let segment :=
            if isExpression expr then segmentOf expr else {| text := "type"; isStatic := false |} in
          let piece := ("${" ++ text segment ++ "}", isStatic segment) in
          (cooked ++ piece :: templatePieces segmentOf laterQuasis laterExpressions)%list
      end
  end.

(** The segment of a call of a member: [object.property(args)], and
    [object?.property(args)] when [optional]. *)
Definition methodCallSegment (deeper : Levels) (optional : bool) (object property : Node)
    (computed : bool) (args : list Node) : SegmentResult :=
  let objectSegment :=
    if isExpression object then call_segmentFromExpression (deeper 0) object
    else {| text := "expr"; isStatic := false |} in
  let propertySegment := inferPropertyName (below deeper) property in
  match simplifyCollectionMethodCallSegment objectSegment propertySegment with
  | Some simplified => simplified
  | None =>
      let argsSegment := callArgumentsSegment (below deeper) args in
      let propertyText := match propertySegment with Some p => value p | None => "?" end in
      let access := if optional then "?." else if computed then "" else "." in
      let targetText :=
        if computed then text objectSegment ++ access ++ "[" ++ propertyText ++ "]"
        else text objectSegment ++ access ++ propertyText in
      {| text := targetText ++ "(" ++ text argsSegment ++ ")";
         isStatic := isStatic objectSegment
                     && match propertySegment with Some p => valueIsStatic p | None => false end
                     && isStatic argsSegment |}
  end.

Definition dollar (name : string) : SegmentResult :=
  {| text := "$" ++ name; isStatic := false |}.

Definition exprSegment : SegmentResult := {| text := "expr"; isStatic := false |}.

(** [segmentFromExpression] past the identifier and the resolver: the node is
    unwrapped, is no identifier, and [resolveWithResolver] gave nothing. *)
Definition segmentOfShape (deeper : Levels) (unwrapped : Node) : SegmentResult :=
  let segmentOf := call_segmentFromExpression (deeper 0) in
  match unwrapped with
  | StringLiteral v => {| text := v; isStatic := true |}
  | NumericLiteral n => {| text := numberToString n; isStatic := true |}
  | BooleanLiteral b => {| text := if b then "true" else "false"; isStatic := true |}
  | BigIntLiteral v => {| text := v; isStatic := true |}
  | NullLiteral => {| text := "null"; isStatic := true |}
  | TemplateLiteral quasis expressions =>
      let pieces := templatePieces segmentOf quasis expressions in
      {| text := join "" (map fst pieces); isStatic := forallb snd pieces |}
  | FunctionExpression _ _ _ | ArrowFunctionExpression _ _ =>
      match extractFunctionReturnExpression unwrapped with
      | None => exprSegment
      | Some returned =>
          match orDefault (call_resolveQueryKeyExpression (deeper 0) returned)
                          (unwrapExpression returned) with
          | ArrayExpression elements =>
              match elements with
              | Some first :: _ =>
                  match call_segmentsFromArrayElement (deeper 0) (Some first) with
                  | firstSegment :: _ => normalizeSegmentResult firstSegment
                  | [] => unresolvedSegment
                  end
              | _ => unresolvedSegment
              end
          | resolvedReturn => segmentOf resolvedReturn
          end
      end
  | OptionalMemberExpression object property computed =>
      let objectSegment := segmentOf object in
      match inferPropertyName (below deeper) property with
      | None => {| text := text objectSegment ++ "?.?"; isStatic := false |}
      | Some inferredProperty =>
          {| text := if computed
                     then text objectSegment ++ "?.[" ++ value inferredProperty ++ "]"
                     else text objectSegment ++ "?." ++ value inferredProperty;
             isStatic := isStatic objectSegment && valueIsStatic inferredProperty |}
      end
  | MemberExpression object property _ =>
      let propertyName :=
        match propertyNameFromExpression (below deeper) property with
        | Some name => if name =? "" then None else Some name
        | None => None
        end in
      let objectExpression :=
        match object with
        | ObjectExpression properties => Some properties
        | _ =>
            if isExpression object then
              match call_resolveQueryKeyExpression (deeper 0) object with
              | Some (ObjectExpression properties) => Some properties
              | _ => None
              end
            else None
        end in
      match match propertyName, objectExpression with
            | Some name, Some properties =>
                call_resolveObjectPropertyExpression (deeper 0) properties name
            | _, _ => None
            end with
      | Some resolved => segmentOf resolved
      | None =>
          let objectSegment := segmentOf object in
          match match propertyName with
                | Some name => Some {| value := name; valueIsStatic := true |}
                | None => inferPropertyName (below deeper) property
                end with
          | None => {| text := text objectSegment ++ ".?"; isStatic := false |}
          | Some prop =>
              {| text := text objectSegment ++ "." ++ value prop;
                 isStatic := isStatic objectSegment && valueIsStatic prop |}
          end
      end
  | OptionalCallExpression callee args =>
      match callee with
      | OptionalMemberExpression object property computed =>
          methodCallSegment deeper true object property computed args
      | Identifier name => {| text := "call(" ++ name ++ ")"; isStatic := false |}
      | MemberExpression object property computed =>
          methodCallSegment deeper false object property computed args
      | _ => {| text := "call(expr)"; isStatic := false |}
      end
  | CallExpression callee args =>
      match memoLikeCallReturnExpression callee args with
      | Some memoReturn => segmentOf memoReturn
      | None =>
          let throughCallee :=
            match (if isExpression callee then resolverReference callee else None) with
            | Some resolvedCallee =>
                match (if isFunction resolvedCallee
                       then extractFunctionReturnExpression resolvedCallee else None) with
                | Some returned => Some (segmentOf returned)
                | None =>
                    let resolvedValue := segmentOf resolvedCallee in
                    if text resolvedValue =? "expr" then None else Some resolvedValue
                end
            | None => None
            end in
          match throughCallee with
          | Some segment => segment
          | None =>
              match callee with
              | Identifier name => {| text := "call(" ++ name ++ ")"; isStatic := false |}
              | MemberExpression object property computed =>
                  methodCallSegment deeper false object property computed args
              | _ => {| text := "call(expr)"; isStatic := false |}
              end
          end
      end
  | ArrayExpression elements =>
      let childSegments :=
        map (fun element =>
               match element with
               | None => {| text := "undefined"; isStatic := true |}
               | Some child => segmentOf child
               end) elements in
      {| text := "[" ++ join ", " (map text childSegments) ++ "]";
         isStatic := forallb isStatic childSegments |}
  | ObjectExpression properties =>
      match findObjectPropertyValue properties "queryKey" with
      | Some queryKeyNode => segmentOf queryKeyNode
      | None => call_segmentFromObjectExpression (deeper 0) properties
      end
  | UnaryExpression operator argument =>
      let arg := segmentOf argument in
      {| text := operator ++ text arg; isStatic := isStatic arg |}
  | LogicalExpression operator lhs rhs =>
      let leftSegment := normalizeSegmentResult (segmentOf lhs) in
      let rightSegment := normalizeSegmentResult (segmentOf rhs) in
      if ((operator =? "||") || (operator =? "??"))
         && (isEmptyFallbackExpression rhs || (text rightSegment =? UNRESOLVED_SEGMENT))
      then leftSegment
      else {| text := text leftSegment ++ " " ++ operator ++ " " ++ text rightSegment;
              isStatic := isStatic leftSegment && isStatic rightSegment |}
  | ConditionalExpression _ _ _ => {| text := "cond(...)"; isStatic := false |}
  | _ => exprSegment
  end.

(** [segmentFromExpression], below the cap. *)
Definition segmentFromExpression (deeper : Levels) (node : Node) : SegmentResult :=
  match node with
  | SpreadElement _ => {| text := "...spread"; isStatic := false |}
  | PrivateName name => {| text := "#" ++ name; isStatic := false |}
  | _ =>
      match unwrapExpression node with
      | Identifier name =>
          if name =? "undefined" then {| text := "undefined"; isStatic := true |}
          else
            match resolverReference (Identifier name) with
            | Some resolvedIdentifier =>
                match unwrapExpression resolvedIdentifier with
                | CallExpression callee args =>
                    if isMemoLikeCall callee then dollar name
                    else
                      match callee with
                      | MemberExpression _ _ _ | OptionalMemberExpression _ _ _ => dollar name
                      | _ => call_segmentFromExpression (deeper 0) (CallExpression callee args)
                      end
                | MemberExpression _ _ _ | OptionalMemberExpression _ _ _ => dollar name
                | resolvedValue => call_segmentFromExpression (deeper 0) resolvedValue
                end
            | None => dollar name
            end
      | unwrapped =>
          match resolveWithResolver unwrapped resolver with
          | Some resolved => call_segmentFromExpression (deeper 0) resolved
          | None => segmentOfShape deeper unwrapped
          end
      end
  end.

(** [queryKeyIndexFromAccessExpression], below the cap: the index [i] of an
    access [x.queryKey[i]]. *)
Definition queryKeyIndexFromAccessExpression (deeper : Levels) (expression : Node) : option nat :=
  let access :=
    match unwrapExpression expression with
    | MemberExpression object property computed
    | OptionalMemberExpression object property computed => Some (object, property, computed)
    | _ => None
    end in
  match access with
  | Some (objectNode, indexExpression, true) =>
      if negb (isExpression objectNode) then None
      else
        match match unwrapExpression objectNode with
              | MemberExpression _ property false
              | OptionalMemberExpression _ property false =>
                  inferPropertyName (below deeper) property
              | _ => None
              end with
        | Some property =>
            if negb (value property =? "queryKey") then None
            else
              match indexExpression with
              | NumericLiteral n => Some n
              | StringLiteral s => parseIndex s
              | _ =>
                  if negb (isExpression indexExpression) then None
                  else
                    match orDefault (call_resolveQueryKeyExpression (deeper 0) indexExpression)
                                    (unwrapExpression indexExpression) with
                    | NumericLiteral n => Some n
                    | StringLiteral s => parseIndex s
                    | resolvedIndex =>
                        parseIndex
                          (text (normalizeSegmentResult
                                   (call_segmentFromExpression (deeper 0) resolvedIndex)))
                    end
              end
        | None => None
        end
  | _ => None
  end.

Definition setPredicateQueryKeyConstraint (constraints : Constraints) (index : nat)
    (segment : SegmentResult) : Constraints :=
  let normalized := normalizeSegmentResult segment in
  if text normalized =? UNRESOLVED_SEGMENT then constraints
  else
    match constraintGet index constraints with
    | None => constraintSet index normalized constraints
    | Some existing =>
        if text existing =? text normalized then
          constraintSet index
            {| text := text existing; isStatic := isStatic existing && isStatic normalized |}
            constraints
        else if text existing =? UNRESOLVED_SEGMENT then constraintSet index normalized constraints
        else constraints
    end.

(** [collectPredicateQueryKeyConstraints], below the cap; the map it fills is
    returned. *)
Definition collectPredicateQueryKeyConstraints (deeper : Levels) (expression : Node)
    (constraints : Constraints) : Constraints :=
  match unwrapExpression expression with
  | UnaryExpression _ argument =>
      if isExpression argument
      then call_collectPredicateQueryKeyConstraints (deeper 0) argument constraints
      else constraints
  | LogicalExpression operator lhs rhs =>
      if operator =? "&&" then
        call_collectPredicateQueryKeyConstraints (deeper 0) rhs
          (call_collectPredicateQueryKeyConstraints (deeper 0) lhs constraints)
      else constraints
  | BinaryExpression operator lhs rhs =>
      if negb ((operator =? "===") || (operator =? "==")) then constraints
      else
        let indexOf := fun side : Node =>
          if isExpression side then call_queryKeyIndexFromAccessExpression (deeper 0) side
          else None in
        let constrain := fun (index : nat) (side : Node) =>
          if negb (isExpression side) then constraints
          else
            let resolvedValue :=
              orDefault (call_resolveQueryKeyExpression (deeper 0) side) (unwrapExpression side) in
            setPredicateQueryKeyConstraint constraints index
              (normalizeSegmentResult (call_segmentFromExpression (deeper 0) resolvedValue)) in
        match indexOf lhs, indexOf rhs with
        | Some _, Some _ => constraints
        | Some leftIndex, None => constrain leftIndex rhs
        | None, Some rightIndex => constrain rightIndex lhs
        | None, None => constraints
        end
  | _ => constraints
  end.

(** The functions of one depth below the cap, over those of the depths after it. *)
Definition makeLevel (deeper : Levels) : Level :=
  {| call_segmentFromExpression := segmentFromExpression deeper;
     call_resolveQueryKeyExpression := resolveQueryKeyExpression deeper;
     call_resolveObjectPropertyExpression := resolveObjectPropertyExpression deeper;
     call_collectObjectArgumentSubstitutions := collectObjectArgumentSubstitutions deeper;
     call_resolveActionOptionsObject := resolveActionOptionsObject deeper;
     call_queryKeyIndexFromAccessExpression := queryKeyIndexFromAccessExpression deeper;
     call_collectPredicateQueryKeyConstraints := collectPredicateQueryKeyConstraints deeper;
     call_segmentFromObjectExpression := segmentFromObjectExpression deeper;
     call_segmentsFromArrayElement := segmentsFromArrayElement deeper |}.

(** At [depth >= MAX_RESOLVE_DEPTH] the functions that test the depth return
    at once.  [segmentFromObjectExpression] and [segmentsFromArrayElement]
    have no test: there they recurse only into the spread arguments of the
    node itself, every resolution being refused. *)
Definition cappedWith (objectSegment : list Node -> SegmentResult)
    (arraySegments : option Node -> list SegmentResult) : Level :=
  {| call_segmentFromExpression := fun _ => exprSegment;
     call_resolveQueryKeyExpression := fun _ => None;
     call_resolveObjectPropertyExpression := fun _ _ => None;
     call_collectObjectArgumentSubstitutions := fun _ target => target;
     call_resolveActionOptionsObject := fun _ => None;
     call_queryKeyIndexFromAccessExpression := fun _ => None;
     call_collectPredicateQueryKeyConstraints := fun _ constraints => constraints;
     call_segmentFromObjectExpression := objectSegment;
     call_segmentsFromArrayElement := arraySegments |}.

(** [nesting] bounds how many spreads the two functions may go through. *)
Fixpoint cappedLevel (nesting : nat) : Level :=
  match nesting with
  | 0 => cappedWith (fun _ => unresolvedSegment) (fun _ => [unresolvedSegment])
  | S inner =>
      cappedWith (segmentFromObjectExpression (fun _ => cappedLevel inner))
                 (segmentsFromArrayElement (fun _ => cappedLevel inner))
  end.

Definition capLevel : Level :=
  cappedWith
    (fun properties =>
       call_segmentFromObjectExpression (cappedLevel (nodeSize (ObjectExpression properties)))
         properties)
    (fun segment =>
       call_segmentsFromArrayElement (cappedLevel (nodeSize (ArrayExpression [segment]))) segment).

(** [history n] lists the levels of the depths [MAX_RESOLVE_DEPTH - n],
    [MAX_RESOLVE_DEPTH - n + 1], ... up to the cap. *)
Fixpoint history (n : nat) : list Level :=
  match n with
  | 0 => [capLevel]
  | S m => let later := history m in makeLevel (fun k => nth k later capLevel) :: later
  end.

Definition levelAt (depth : nat) : Level :=
  hd capLevel (history (MAX_RESOLVE_DEPTH - depth)).

(** The calls that leave [depth] at its default, [0]. *)
Definition topLevel : Level := levelAt 0.

Definition normalizeQueryKey (node : option Node) (options : KeyOptions) : NormalizedQueryKey :=
  match node with
  | None =>
      match wildcardIfMissing options with
      | Some true => buildAllQueryCacheKey Dynamic "ALL_QUERY_CACHE"
      | _ => normalizedUnknownKey (orDefault (defaultMode options) MUnknown)
      end
  | Some n =>
      match orDefault (call_resolveQueryKeyExpression topLevel n) (unwrapExpression n) with
      | ArrayExpression elements =>
          keyOfSegments (flat_map (call_segmentsFromArrayElement topLevel) elements)
                        (orDefault (defaultMode options) MPrefix)
      | resolved =>
          keyOfSegment (normalizeSegmentResult (call_segmentFromExpression topLevel resolved))
                       (orDefault (defaultMode options) MExact)
      end
  end.

Definition withMode (mode : MatchMode) : KeyOptions :=
  {| defaultMode := Some mode; wildcardIfMissing := None |}.

Definition sourceIsExpression (key : NormalizedQueryKey) : bool :=
  match key_source key with SrcExpression => true | _ => false end.

(** [isPassThroughQueryKeyReference(node) && normalized.source === 'expression'
    && normalized.segments.length === 1 && !normalized.display.startsWith('[')] *)
Definition isUnresolvedPassThrough (node : option Node) (normalized : NormalizedQueryKey) : bool :=
  isPassThroughQueryKeyReference node
  && sourceIsExpression normalized
  && (List.length (key_segments normalized) =? 1)%nat
  && negb (startsWith (key_display normalized) "[").

Definition normalizeActionKeyOrWildcard (node : option Node) (options : KeyOptions)
  : NormalizedQueryKey :=
  let normalized := normalizeQueryKey node options in
  let mode := orDefault (defaultMode options) (key_matchMode normalized) in
  if isUnresolvedPassThrough node normalized then buildPassThroughActionKey mode
  else if shouldTreatAsWildcardActionKey normalized then
    if isPassThroughQueryKeyReference node then buildPassThroughActionKey mode
    else buildAllQueryCacheKey Dynamic "ALL_QUERY_CACHE (unresolved key)"
  else normalized.

(** The segments at the indexes [index], [index + 1], ... of the constraints,
    up to the first index that has none; [count] bounds how many indexes
    are tried. *)
Fixpoint constrainedSegments (count index : nat) (constraints : Constraints)
  : list SegmentResult :=
  match count with
  | 0 => []
  | S count' =>
      match constraintGet index constraints with
      | None => []
      | Some segment =>
          normalizeSegmentResult segment :: constrainedSegments count' (S index) constraints
      end
  end.

Definition inferActionQueryKeyFromPredicate (predicateNode : Node) : option NormalizedQueryKey :=
  let resolvedPredicate :=
    orDefault (call_resolveQueryKeyExpression topLevel predicateNode)
              (unwrapExpression predicateNode) in
  let conditionExpression :=
    if isFunction resolvedPredicate then extractFunctionReturnExpression resolvedPredicate
    else Some resolvedPredicate in
  match conditionExpression with
  | None => None
  | Some condition =>
      let constraints := call_collectPredicateQueryKeyConstraints topLevel condition [] in
      if (List.length constraints =? 0)%nat then None
      else
        match constrainedSegments (S (List.length constraints)) 0 constraints with
        | [] => None
        | segments => Some (keyOfSegments segments MPrefix)
        end
  end.

Definition setMatchMode (key : NormalizedQueryKey) (mode : MatchMode) : NormalizedQueryKey :=
  {| key_id := key_id key;
     key_display := key_display key;
     key_segments := key_segments key;
     key_matchMode := mode;
     key_resolution := key_resolution key;
     key_source := key_source key |}.

(** What [inferActionQueryKey] does with an options object, which it does
    twice: for the object [resolveActionOptionsObject] finds, and for the one
    [resolveQueryKeyExpression] finds. *)
Definition keyFromActionOptions (properties : list Node) : NormalizedQueryKey :=
  let keyNode := findObjectPropertyValue properties "queryKey" in
  let exact := readBooleanProperty properties "exact" in
  let mode := match exact with Some true => MExact | _ => MPrefix end in
  match keyNode with
  | Some _ => normalizeActionKeyOrWildcard keyNode (withMode mode)
  | None =>
      let predicateNode := findObjectPropertyValue properties "predicate" in
      match match predicateNode with
            | Some predicate => inferActionQueryKeyFromPredicate predicate
            | None => None
            end with
      | Some inferredFromPredicate =>
          setMatchMode inferredFromPredicate
            (match exact with
             | Some true => MExact
             | _ => key_matchMode inferredFromPredicate
             end)
      | None =>
          normalizeQueryKey None
            {| defaultMode := Some (match predicateNode with Some _ => MPredicate | None => MAll end);
               wildcardIfMissing := Some true |}
      end
  end.

Definition inferActionQueryKey (method : string) (args : list Node) : NormalizedQueryKey :=
  if method =? "clear" then buildAllQueryCacheKey Static "ALL_QUERY_CACHE (clear all)"
  else
    match args with
    | [] => normalizeQueryKey None {| defaultMode := Some MAll; wildcardIfMissing := Some true |}
    | first :: _ =>
        if negb (isExpression first) then normalizeQueryKey None (withMode MUnknown)
        else if method =? "setQueryData" then
          let resolvedFirst :=
            orDefault (call_resolveQueryKeyExpression topLevel first) (unwrapExpression first) in
          let normalized := normalizeQueryKey (Some resolvedFirst) (withMode MExact) in
          if shouldTreatAsWildcardActionKey normalized
             || isUnresolvedPassThrough (Some first) normalized
          then buildPassThroughActionKey MExact
          else normalized
        else
          match call_resolveActionOptionsObject topLevel first with
          | Some resolvedActionOptions => keyFromActionOptions resolvedActionOptions
          | None =>
              match orDefault (call_resolveQueryKeyExpression topLevel first)
                              (unwrapExpression first) with
              | ObjectExpression properties => keyFromActionOptions properties
              | resolved => normalizeActionKeyOrWildcard (Some resolved) (withMode MPrefix)
              end
          end
    end.

End WithResolver.
End Normalizer.

(** ** The notions the theorems about the normalizer use *)

Module NormalizerSpec.
Import Js Ast Normalizer.

(** [String.prototype.localeCompare] by code units, for the examples. *)
Definition exampleLocale : Locale := {| localeCompare := GraphSpec.codeUnitCompare |}.

(** A key-value property: no spread element and no method. *)
Definition isPlainProperty (property : Node) : bool :=
  match property with
  | ObjectProperty _ _ _ _ => true
  | _ => false
  end.

(** [rawSegments.join('|') || 'empty'] *)
Definition idOfSegments (segments : list string) : string :=
  orElse (join "|" segments) "empty".

(** The text of an object literal whose entries are [entries], in this order. *)
Definition renderEntries (entries : list (string * SegmentResult)) : string :=
  match entries with
  | [] => "{}"
  | _ => "{" ++ join ", " (map (fun entry => objectEntryText (fst entry) (text (snd entry))) entries)
           ++ "}"
  end.

(** An entry the canonical form keeps: its value is no static [undefined]. *)
Definition keepsEntry (entry : string * SegmentResult) : bool :=
  negb (isUndefinedObjectValue (snd entry)).

(** The size of an element of an array literal; a hole has none. *)
Definition elementSize (element : option Node) : nat :=
  match element with Some e => nodeSize e | None => 0 end.

(** The constraints at the indexes from [index]. *)
Definition constraintsFrom (index : nat) (constraints : Constraints) : nat :=
  List.length (filter (fun entry => (index <=? fst entry)%nat) constraints).

(** No string occurs twice. *)
Fixpoint distinctb (l : list string) : bool :=
  match l with
  | [] => true
  | x :: rest => negb (existsb (String.eqb x) rest) && distinctb rest
  end.

(** The options object carries [exact: true]. *)
Definition exactFlag (properties : list Node) : bool :=
  match readBooleanProperty properties "exact" with
  | Some true => true
  | _ => false
  end.

Definition modeOfFlag (flag : bool) : MatchMode := if flag then MExact else MPrefix.

Section WithResolver.
Context {locale : Locale}.
Variable resolver : option QueryKeyResolver.

(** The levels the functions of [depth] call into. *)
Definition deeperAt (depth : nat) : Levels :=
  fun k => nth k (history resolver (MAX_RESOLVE_DEPTH - depth - 1)) capLevel.

(** The key text and the value segment [segmentFromObjectExpression] records
    for a key-value property. *)
Definition entryOf (deeper : Levels) (property : Node) : string * SegmentResult :=
  match property with
  | ObjectProperty keyNode val computed _ =>
      let keySegment := objectPropertyKeySegment (below deeper) keyNode computed in
      (if computed then "[" ++ text keySegment ++ "]" else text keySegment,
       if isExpression val
       then normalizeSegmentResult (call_segmentFromExpression (deeper 0) val)
       else unresolvedSegment)
  | _ => ("", unresolvedSegment)
  end.

Definition entryIsStatic (deeper : Levels) (property : Node) : bool :=
  match property with
  | ObjectProperty keyNode val computed _ =>
      isStatic (objectPropertyKeySegment (below deeper) keyNode computed)
      && isStatic (snd (entryOf deeper property))
  | _ => false
  end.

(** [normalize(e)] *)
Definition normalize (e : Node) : NormalizedQueryKey :=
  normalizeQueryKey resolver (Some e) noOptions.

(** The entries of an object literal that is the whole key expression: its
    properties are met at depth 1. *)
Definition objectEntries (properties : list Node) : list (string * SegmentResult) :=
  map (entryOf (deeperAt 1)) properties.

Definition isUndefinedValued (property : Node) : bool :=
  isUndefinedObjectValue (snd (entryOf (deeperAt 1) property)).

(** The comparator [(a, b) => a[0].localeCompare(b[0])] of the sort. *)
Definition keyCompare (a b : string * SegmentResult) : Z := localeCompare (fst a) (fst b).

(** The order of two entries under the collation. *)
Definition keyOrder (a b : string * SegmentResult) : Prop :=
  (localeCompare (fst a) (fst b) <= 0)%Z.

(** The collation orders [keys]: it never calls two of them equal unless
    they are the same string, and it is a total, transitive order on them. *)
Record OrdersKeys (keys : list string) : Prop := {
  equal_keys_only : forall a b, In a keys -> In b keys ->
    (localeCompare a b <= 0)%Z -> (localeCompare b a <= 0)%Z -> a = b;
  one_way_or_other : forall a b, In a keys -> In b keys ->
    (0 < localeCompare a b)%Z -> (localeCompare b a <= 0)%Z;
  order_passes_on : forall a b c, In a keys -> In b keys -> In c keys ->
    (localeCompare a b <= 0)%Z -> (localeCompare b c <= 0)%Z -> (localeCompare a c <= 0)%Z
}.

(** The same, as a test. *)
Definition ordersKeysb (keys : list string) : bool :=
  forallb (fun a =>
    forallb (fun b =>
      implb ((localeCompare a b <=? 0)%Z && (localeCompare b a <=? 0)%Z) (a =? b)
      && implb (0 <? localeCompare a b)%Z (localeCompare b a <=? 0)%Z
      && forallb (fun c =>
           implb ((localeCompare a b <=? 0)%Z && (localeCompare b c <=? 0)%Z)
                 (localeCompare a c <=? 0)%Z) keys) keys) keys.

(** The first argument of a mutation call resolves to the options object
    with these properties: as [inferActionQueryKey] finds it. *)
Definition resolvesToOptions (first : Node) (properties : list Node) : Prop :=
  call_resolveActionOptionsObject (topLevel resolver) first = Some properties
  \/ (call_resolveActionOptionsObject (topLevel resolver) first = None
      /\ orDefault (call_resolveQueryKeyExpression (topLevel resolver) first) (unwrapExpression first)
         = ObjectExpression properties).

(** The key of the options collapses to the whole cache: it is empty or
    wholly unresolved, and no reference to a [queryKey] passed through. *)
Definition collapsesToAllCache (keyNode : Node) (mode : MatchMode) : bool :=
  shouldTreatAsWildcardActionKey (normalizeQueryKey resolver (Some keyNode) (withMode mode))
  && negb (isPassThroughQueryKeyReference (Some keyNode)).

End WithResolver.

(** *** Examples *)

Definition todosArray : Node := ArrayExpression [Some (StringLiteral "todos")].

(** [{ queryKey: ['todos'], exact: true }] *)
Definition exactTodosOptions : Node :=
  ObjectExpression [ObjectProperty (Identifier "queryKey") todosArray false false;
                    ObjectProperty (Identifier "exact") (BooleanLiteral true) false false].

(** [{ queryKey: [], exact: true }] *)
Definition exactEmptyOptions : Node :=
  ObjectExpression [ObjectProperty (Identifier "queryKey") (ArrayExpression []) false false;
                    ObjectProperty (Identifier "exact") (BooleanLiteral true) false false].

(** [{ queryKey: [] }] *)
Definition emptyKeyOptions : Node :=
  ObjectExpression [ObjectProperty (Identifier "queryKey") (ArrayExpression []) false false].

Definition plain (name : string) (val : Node) : Node :=
  ObjectProperty (Identifier name) val false false.

Definition method (name : string) : Node :=
  ObjectMethod (Identifier name) [] (BlockStatement []) false.

End NormalizerSpec.


(** ** The key of a hook call *)

Module HookKeys.
Import Js Ast Normalizer.

Section WithResolver.
Context {locale : Locale}.
Variable resolver : option QueryKeyResolver.

(** [inferHookQueryKey(args, resolver)] *)
Definition inferHookQueryKey (args : list Node) : NormalizedQueryKey :=
  match args with
  | [] => normalizeQueryKey resolver None (withMode MUnknown)
  | first :: _ =>
      if negb (isExpression first) then normalizeQueryKey resolver None (withMode MUnknown)
      else
        match orDefault (call_resolveQueryKeyExpression (topLevel resolver) first)
                        (unwrapExpression first) with
        | ObjectExpression properties =>
            normalizeQueryKey resolver (findObjectPropertyValue properties "queryKey")
              (withMode MExact)
        | resolved => normalizeQueryKey resolver (Some resolved) (withMode MExact)
        end
  end.

End WithResolver.

(** The texts [normalizeSegmentResult] replaces: the placeholders of the
    normalizer, and a text that reads [$queryKey] or [$queryKeys]. *)
Definition isPlaceholderText (value : string) : bool :=
  (value =? "...spread") || (value =? "expr") || (value =? "call(expr)")
  || isDollarQueryKey value.

(** The texts a segment keeps: not empty, and no placeholder. *)
Definition isKeptText (value : string) : bool :=
  negb (value =? "") && negb (isPlaceholderText value).

(** The nodes [unwrapExpression] goes through: type assertions, type casts
    and non-null assertions. *)
Definition isTypeWrapper (node : Node) : bool :=
  match node with
  | TSAsExpression _ | TSSatisfiesExpression _ | TypeCastExpression _
  | TSNonNullExpression _ => true
  | _ => false
  end.

(** The options object [{ queryKey: key, queryFn: fetch }]. *)
Definition hookOptions (key : Node) : Node :=
  ObjectExpression
    [ObjectProperty (Identifier "queryKey") key false false;
     ObjectProperty (Identifier "queryFn") (Identifier "fetch") false false].

End HookKeys.


(** ** The segments a predicate gives *)

Module PredicateShape.
Import Js Ast Normalizer HookKeys.

(** The text of a segment that was read: kept, and not [UNRESOLVED]. *)
Definition isReadText (value : string) : bool :=
  isKeptText value && negb (value =? UNRESOLVED_SEGMENT).

(** [Read constraints]: every segment of the map was read. *)
Definition Read (constraints : Constraints) : Prop :=
  Forall (fun entry => isReadText (text (snd entry)) = true) constraints.

(** A level whose [collectPredicateQueryKeyConstraints] adds read segments only. *)
Definition Collects (level : Level) : Prop :=
  forall expression constraints,
    Read constraints ->
    Read (call_collectPredicateQueryKeyConstraints level expression constraints).

(** [(query) => query.queryKey[0] === value] *)
Definition firstSegmentIs (value : Node) : Node :=
  ArrowFunctionExpression [Identifier "query"]
    (BinaryExpression "==="
       (MemberExpression (MemberExpression (Identifier "query") (Identifier "queryKey") false)
                         (NumericLiteral 0) true)
       value).

End PredicateShape.

(** ** The reference and call resolver ([resolver.ts]) *)

Module Resolver.
Import Js Ast.

Definition MAX_DEPTH : nat := 24.

(** [types.ts]: the symbol index *)
Inductive ImportKind := ImportNamed | ImportDefault | ImportNamespace.

Record ImportBinding := {
  import_kind : ImportKind;
  import_source : string;
  import_imported : option string
}.

Record ReExportBinding := {
  reexport_source : string;
  reexport_imported : option string;
  reexport_exported : option string;
  reexport_all : bool
}.

Record FileSymbols := {
  filePath : string;
  values : JsMap Node;
  functions : JsMap Node;
  imports : JsMap ImportBinding;
  exports : JsMap string;
  reExports : list ReExportBinding
}.

Record SymbolIndex := {
  files : JsMap FileSymbols;
  fileSet : JsSet
}.

(** What the resolver takes from its host: the path separator, the
    normalization of paths, the collation, and [resolveModuleFile], which
    reads the alias configuration of the workspace from the disk. *)
Class ResolverHost := {
  pathSep : ascii;
  normalizeAnalyzerPath : string -> string;
  resolveModuleFile : string -> string -> JsSet -> string -> option string;
  resolverLocale : Locale
}.

(** [s.split(sep)] for a separator of one character. *)
Fixpoint splitOn (sep : ascii) (s : string) : list string :=
  match s with
  | EmptyString => [EmptyString]
  | String c rest =>
      if Ascii.eqb c sep then EmptyString :: splitOn sep rest
      else
        match splitOn sep rest with
        | first :: others => String c first :: others
        | [] => [String c EmptyString]
        end
  end.

Fixpoint commonPrefixCount (leftSegments rightSegments : list string) : nat :=
  match leftSegments, rightSegments with
  | l :: ls, r :: rs => if l =? r then S (commonPrefixCount ls rs) else 0
  | _, _ => 0
  end.

Definition commonPathPrefixLength {host : ResolverHost} (left right : string) : nat :=
  let segmentsOf := fun p => filter (fun segment => negb (segment =? "")) (splitOn pathSep p) in
  commonPrefixCount (segmentsOf left) (segmentsOf right).

Definition isLikelyQueryKeyFactoryIdentifier (name : string) : bool :=
  if name =? "" then false
  else
    let normalized := toLowerCase name in
    if includes normalized "querykey" then true else includes normalized "rqkey".

(** A string that is defined and not empty. *)
Definition nonEmpty (s : option string) : option string :=
  match s with
  | Some text => if text =? "" then None else Some text
  | None => None
  end.

Definition orDefault {A : Type} (x : option A) (y : A) : A :=
  match x with Some v => v | None => y end.

Definition objectPropertyValue (properties : list Node) (propertyName : string) : option Node :=
  firstSome
    (fun property =>
       match property with
       | ObjectProperty keyNode val _ _ =>
           let keyName :=
             match keyNode with
             | Identifier name => Some name
             | StringLiteral v => Some v
             | _ => None
             end in
           match nonEmpty keyName with
           | Some name =>
               if (name =? propertyName) && isExpression val then Some (unwrapExpression val)
               else None
           | None => None
           end
       | _ => None
       end)
    properties.

(** [queryKeyPropertyFromCall(node)], for the arguments of the call. *)
Definition queryKeyPropertyFromCall (args : list Node) : option Node :=
  match args with
  | firstArg :: _ =>
      if negb (isExpression firstArg) then None
      else
        match unwrapExpression firstArg with
        | ObjectExpression properties => objectPropertyValue properties "queryKey"
        | _ => None
        end
  | [] => None
  end.

Definition firstExpressionArgument (args : list Node) : option Node :=
  match args with
  | first :: _ => if isExpression first then Some (unwrapExpression first) else None
  | [] => None
  end.

Definition isObjectFreezeCall (callee : Node) : bool :=
  match callee with
  | MemberExpression (Identifier objectName) (Identifier propertyName) false =>
      (objectName =? "Object") && (propertyName =? "freeze")
  | _ => false
  end.

Definition isHelperName (name : string) : bool :=
  (name =? "queryOptions") || (name =? "infiniteQueryOptions").

Definition isIdentityWrapperCall (callee : Node) : bool :=
  match callee with
  | Identifier name => if isHelperName name then true else isObjectFreezeCall callee
  | MemberExpression _ (Identifier name) false =>
      if isHelperName name then true else isObjectFreezeCall callee
  | _ => isObjectFreezeCall callee
  end.

(** The element of an array literal at the index a property name reads as:
    [Number.parseInt(propertyName, 10)], the bounds test, the element. *)
Definition arrayElementAt (elements : list (option Node)) (propertyName : string) : option Node :=
  match parseIndex propertyName with
  | None => None
  | Some indexValue =>
      match nth_error elements indexValue with
      | Some (Some element) =>
          if isExpression element then Some (unwrapExpression element) else None
      | _ => None
      end
  end.

(** *** Resolution as a computation on the [seen] set

    The functions of the resolver share the [seen] set of one call of
    [resolveReference] or [resolveCallResult], and add to it.  A computation
    takes the set and returns its result with the set as it has become.
    [OutOfCalls] is the result of no run of the program: it stands for a
    chain of calls longer than the one the definition was unfolded for. *)
Inductive Outcome (A : Type) : Type :=
| Returned (result : A) (seen : JsSet)
| OutOfCalls.

Arguments Returned {A} result seen.
Arguments OutOfCalls {A}.

Definition Resolving (A : Type) : Type := JsSet -> Outcome A.

Definition ret {A : Type} (x : A) : Resolving A := fun seen => Returned x seen.

Definition bind {A B : Type} (m : Resolving A) (k : A -> Resolving B) : Resolving B :=
  fun seen =>
    match m seen with
    | Returned x seen' => k x seen'
    | OutOfCalls => OutOfCalls
    end.

Notation "x <- m ;; k" := (bind m (fun x => k))
  (at level 61, m at next level, right associativity).

(** [if (seen.has(key)) return undefined; seen.add(key); ...] *)
Definition guarded (key : string) (body : Resolving (option Node)) : Resolving (option Node) :=
  fun seen => if setHas key seen then Returned None seen else body (setAdd key seen).

(** A loop that returns the first result that is defined. *)
Fixpoint firstSomeM {A B : Type} (f : A -> Resolving (option B)) (l : list A)
  : Resolving (option B) :=
  match l with
  | [] => ret None
  | x :: rest =>
      found <- f x ;;
      match found with
      | Some y => ret (Some y)
      | None => firstSomeM f rest
      end
  end.

(** The functions that test [depth > MAX_DEPTH], as a call reaches them. *)
Record Calls := {
  call_resolveExportValue : string -> string -> nat -> Resolving (option Node);
  call_resolveExportFunctionReturn : string -> string -> nat -> Resolving (option Node);
  call_resolveLocalValue : string -> string -> nat -> Resolving (option Node);
  call_resolveLocalFunctionReturn : string -> string -> nat -> Resolving (option Node);
  call_resolveObjectPropertyValue : string -> list Node -> string -> nat -> Resolving (option Node);
  call_resolveReferenceInternal : string -> Node -> nat -> Resolving (option Node);
  call_resolveCallResultInternal : string -> Node -> nat -> Resolving (option Node)
}.

Section WithIndex.
Context {host : ResolverHost}.
Variable index : SymbolIndex.
Variable normalizedWorkspaceRoot : string.

(** [resolveModuleFile(fromFile, source, index.fileSet, normalizedWorkspaceRoot)],
    when the file it names is no empty string. *)
Definition moduleFile (fromFile source : string) : option string :=
  nonEmpty (resolveModuleFile fromFile source (fileSet index) normalizedWorkspaceRoot).

(** The loop over [symbols.reExports], for the function [again] that follows
    an export into another file. *)
Definition throughReExports (again : string -> string -> Resolving (option Node))
    (targetFile exportName : string) (symbols : FileSymbols) : Resolving (option Node) :=
  firstSomeM
    (fun reExport =>
       if reexport_all reExport then
         match moduleFile targetFile (reexport_source reExport) with
         | None => ret None
         | Some nestedFile => again nestedFile exportName
         end
       else
         match reexport_exported reExport with
         | Some exported =>
             if negb (exported =? exportName) then ret None
             else
               match moduleFile targetFile (reexport_source reExport) with
               | None => ret None
               | Some nestedFile =>
                   again nestedFile (orDefault (reexport_imported reExport) exportName)
               end
         | None => ret None
         end)
    (reExports symbols).

Definition resolveExportValue (calls : Calls) (targetFile exportName : string) (depth : nat)
  : Resolving (option Node) :=
  if (MAX_DEPTH <? depth)%nat then ret None
  else
    guarded ("exp-value:" ++ targetFile ++ ":" ++ exportName)
      match mapGet targetFile (files index) with
      | None => ret None
      | Some symbols =>
          match nonEmpty (mapGet exportName (exports symbols)) with
          | Some localName => call_resolveLocalValue calls targetFile localName (depth + 1)
          | None =>
              throughReExports
                (fun nestedFile nestedName =>
                   call_resolveExportValue calls nestedFile nestedName (depth + 1))
                targetFile exportName symbols
          end
      end.

Definition resolveExportFunctionReturn (calls : Calls) (targetFile exportName : string)
    (depth : nat) : Resolving (option Node) :=
  if (MAX_DEPTH <? depth)%nat then ret None
  else
    guarded ("exp-fn:" ++ targetFile ++ ":" ++ exportName)
      match mapGet targetFile (files index) with
      | None => ret None
      | Some symbols =>
          match nonEmpty (mapGet exportName (exports symbols)) with
          | Some localName => call_resolveLocalFunctionReturn calls targetFile localName (depth + 1)
          | None =>
              throughReExports
                (fun nestedFile nestedName =>
                   call_resolveExportFunctionReturn calls nestedFile nestedName (depth + 1))
                targetFile exportName symbols
          end
      end.

(** [binding.kind === 'default' ? 'default' : (binding.imported ?? 'default')] *)
Definition exportNameOf (binding : ImportBinding) : string :=
  match import_kind binding with
  | ImportDefault => "default"
  | _ => orDefault (import_imported binding) "default"
  end.

Definition isNamespace (binding : ImportBinding) : bool :=
  match import_kind binding with ImportNamespace => true | _ => false end.

Definition resolveImportedValue (calls : Calls) (fromFile : string) (binding : ImportBinding)
    (depth : nat) : Resolving (option Node) :=
  if isNamespace binding then ret None
  else
    match moduleFile fromFile (import_source binding) with
    | None => ret None
    | Some targetFile =>
        call_resolveExportValue calls targetFile (exportNameOf binding) (depth + 1)
    end.

Definition resolveImportedFunctionReturn (calls : Calls) (fromFile : string)
    (binding : ImportBinding) (depth : nat) : Resolving (option Node) :=
  if isNamespace binding then ret None
  else
    match moduleFile fromFile (import_source binding) with
    | None => ret None
    | Some targetFile =>
        call_resolveExportFunctionReturn calls targetFile (exportNameOf binding) (depth + 1)
    end.

Definition resolveNamespaceMember (calls : Calls) (fromFile namespaceName memberName : string)
    (depth : nat) : Resolving (option Node) :=
  match match mapGet fromFile (files index) with
        | Some symbols => mapGet namespaceName (imports symbols)
        | None => None
        end with
  | Some binding =>
      if negb (isNamespace binding) then ret None
      else
        match moduleFile fromFile (import_source binding) with
        | None => ret None
        | Some targetFile => call_resolveExportValue calls targetFile memberName (depth + 1)
        end
  | None => ret None
  end.

Definition resolveLocalValue (calls : Calls) (fromFile localName : string) (depth : nat)
  : Resolving (option Node) :=
  if (MAX_DEPTH <? depth)%nat then ret None
  else
    guarded ("local-value:" ++ fromFile ++ ":" ++ localName)
      match mapGet fromFile (files index) with
      | None => ret None
      | Some symbols =>
          match mapGet localName (values symbols) with
          | Some localValue =>
              match localValue with
              | Identifier name =>
                  if negb (name =? localName) then
                    resolvedAlias <- call_resolveLocalValue calls fromFile name (depth + 1) ;;
                    ret (Some (orDefault resolvedAlias localValue))
                  else ret (Some localValue)
              | _ => ret (Some localValue)
              end
          | None =>
              match mapGet localName (functions symbols) with
              | Some localFunctionReturn => ret (Some localFunctionReturn)
              | None =>
                  match mapGet localName (imports symbols) with
                  | None => ret None
                  | Some importBinding =>
                      resolveImportedValue calls fromFile importBinding (depth + 1)
                  end
              end
          end
      end.

Definition resolveLocalFunctionReturn (calls : Calls) (fromFile localName : string) (depth : nat)
  : Resolving (option Node) :=
  if (MAX_DEPTH <? depth)%nat then ret None
  else
    guarded ("local-fn:" ++ fromFile ++ ":" ++ localName)
      match mapGet fromFile (files index) with
      | None => ret None
      | Some symbols =>
          match mapGet localName (functions symbols) with
          | Some localFunctionReturn => ret (Some localFunctionReturn)
          | None =>
              match mapGet localName (values symbols) with
              | Some localValue =>
                  match localValue with
                  | Identifier name =>
                      if negb (name =? localName)
                      then call_resolveLocalFunctionReturn calls fromFile name (depth + 1)
                      else ret None
                  | _ =>
                      if isFunction localValue then ret (extractFunctionReturnExpression localValue)
                      else ret None
                  end
              | None =>
                  match mapGet localName (imports symbols) with
                  | None => ret None
                  | Some importBinding =>
                      resolveImportedFunctionReturn calls fromFile importBinding (depth + 1)
                  end
              end
          end
      end.

(** A candidate of [resolveWorkspaceFunctionReturnByName]. *)
Record Candidate := {
  candidate_filePath : string;
  candidate_expression : Node;
  candidate_score : nat
}.

(** [right.score - left.score || left.filePath.localeCompare(right.filePath)] *)
Definition compareCandidates (left right : Candidate) : Z :=
  let byScore := (Z.of_nat (candidate_score right) - Z.of_nat (candidate_score left))%Z in
  if (byScore =? 0)%Z
  then @localeCompare resolverLocale (candidate_filePath left) (candidate_filePath right)
  else byScore.

Definition resolveWorkspaceFunctionReturnByName (fromFile functionName : string) : option Node :=
  if negb (isLikelyQueryKeyFactoryIdentifier functionName) then None
  else
    let candidates :=
      flat_map
        (fun entry : string * FileSymbols =>
           let (candidateFile, symbols) := entry in
           let scored := fun expression =>
             [{| candidate_filePath := candidateFile;
                 candidate_expression := expression;
                 candidate_score := commonPathPrefixLength fromFile candidateFile |}] in
           match mapGet functionName (functions symbols) with
           | Some fromFunctions => scored fromFunctions
           | None =>
               match mapGet functionName (values symbols) with
               | Some fromValues =>
                   if isFunction fromValues then
                     match extractFunctionReturnExpression fromValues with
                     | Some returned => scored returned
                     | None => []
                     end
                   else []
               | None => []
               end
           end)
        (files index) in
    match sortBy compareCandidates candidates with
    | [] => None
    | [best] => Some (candidate_expression best)
    | best :: second :: _ =>
        if (candidate_score second =? candidate_score best)%nat
           && negb (candidate_filePath second =? candidate_filePath best)
        then None
        else Some (candidate_expression best)
    end.

(** [expressionToLiteralString(filePath, expression, resolveReferenceInternal, depth, seen)] *)
Definition expressionToLiteralString (calls : Calls) (fromFile : string) (expression : Node)
    (depth : nat) : Resolving (option string) :=
  found <- call_resolveReferenceInternal calls fromFile expression (depth + 1) ;;
  match orDefault found (unwrapExpression expression) with
  | StringLiteral v => ret (Some v)
  | NumericLiteral n => ret (Some (numberToString n))
  | BooleanLiteral b => ret (Some (if b then "true" else "false"))
  | _ => ret None
  end.

(** [propertyNameFromMemberExpression(node, input => expressionToLiteralString(...))],
    for the property of the member expression and its [computed] flag. *)
Definition propertyNameFromMemberExpression (calls : Calls) (fromFile : string)
    (property : Node) (computed : bool) (depth : nat) : Resolving (option string) :=
  match property with
  | Identifier name =>
      if negb computed then ret (Some name)
      else expressionToLiteralString calls fromFile property depth
  | StringLiteral v => ret (Some v)
  | NumericLiteral n => ret (Some (numberToString n))
  | _ =>
      if isExpression property then expressionToLiteralString calls fromFile property depth
      else ret None
  end.

Definition resolveObjectPropertyValue (calls : Calls) (fromFile : string)
    (properties : list Node) (propertyName : string) (depth : nat) : Resolving (option Node) :=
  if (MAX_DEPTH <? depth)%nat then ret None
  else
    firstSomeM
      (fun property =>
         match property with
         | ObjectProperty keyNode val _ _ =>
             let keyName :=
               match keyNode with
               | Identifier name => Some name
               | StringLiteral v => Some v
               | NumericLiteral n => Some (numberToString n)
               | _ => None
               end in
             match keyName with
             | Some name =>
                 if (name =? propertyName) && isExpression val
                 then ret (Some (unwrapExpression val)) else ret None
             | None => ret None
             end
         | SpreadElement argument =>
             if negb (isExpression argument) then ret None
             else
               found <- call_resolveReferenceInternal calls fromFile argument (depth + 1) ;;
               match orDefault found (unwrapExpression argument) with
               | ObjectExpression spreadProperties =>
                   call_resolveObjectPropertyValue calls fromFile spreadProperties propertyName
                     (depth + 1)
               | _ => ret None
               end
         | _ => ret None
         end)
      (List.rev properties).

(** What [resolveReferenceInternal] does with a call the object resolved to,
    which it does twice: the [queryKey] of the first argument, then the
    property of the wrapped argument.  [Some result] is a [return]; [None]
    goes on to the statements after. *)
Definition propertyThroughCall (calls : Calls) (fromFile : string) (callCallee : Node)
    (callArgs : list Node) (propertyName : string) (depth : nat)
  : Resolving (option (option Node)) :=
  match (if propertyName =? "queryKey" then queryKeyPropertyFromCall callArgs else None) with
  | Some fromCallArg => ret (Some (Some fromCallArg))
  | None =>
      match firstExpressionArgument callArgs with
      | Some wrappedArg =>
          if isIdentityWrapperCall callCallee
             || ((List.length callArgs =? 1)%nat
                 && (isObjectExpression wrappedArg || isArrayExpression wrappedArg))
          then
            found <- call_resolveReferenceInternal calls fromFile wrappedArg (depth + 1) ;;
            match orDefault found wrappedArg with
            | ObjectExpression properties =>
                value <- call_resolveObjectPropertyValue calls fromFile properties propertyName
                           (depth + 1) ;;
                ret (Some value)
            | ArrayExpression elements => ret (Some (arrayElementAt elements propertyName))
            | _ => ret None
            end
          else ret None
      | None => ret None
      end
  end.

Definition resolveReferenceInternal (calls : Calls) (fromFile : string) (expression : Node)
    (depth : nat) : Resolving (option Node) :=
  if (MAX_DEPTH <? depth)%nat then ret None
  else
    match unwrapExpression expression with
    | Identifier name => call_resolveLocalValue calls fromFile name (depth + 1)
    | MemberExpression object property computed =>
        namespaceValue <-
          match object with
          | Identifier objectName =>
              propertyName <-
                propertyNameFromMemberExpression calls fromFile property computed depth ;;
              match nonEmpty propertyName with
              | Some name => resolveNamespaceMember calls fromFile objectName name (depth + 1)
              | None => ret None
              end
          | _ => ret None
          end ;;
        match namespaceValue with
        | Some value => ret (Some value)
        | None =>
            if negb (isExpression object) then ret None
            else
              found <- call_resolveReferenceInternal calls fromFile object (depth + 1) ;;
              propertyName <-
                propertyNameFromMemberExpression calls fromFile property computed depth ;;
              match nonEmpty propertyName with
              | None => ret None
              | Some name =>
                  match orDefault found (unwrapExpression object) with
                  | ObjectExpression properties =>
                      call_resolveObjectPropertyValue calls fromFile properties name (depth + 1)
                  | CallExpression callCallee callArgs =>
                      early <- propertyThroughCall calls fromFile callCallee callArgs name depth ;;
                      match early with
                      | Some result => ret result
                      | None =>
                          nestedCallResult <-
                            call_resolveCallResultInternal calls fromFile callCallee (depth + 1) ;;
                          match nestedCallResult with
                          | Some (ObjectExpression properties) =>
                              call_resolveObjectPropertyValue calls fromFile properties name
                                (depth + 1)
                          | Some (CallExpression nestedCallee nestedArgs) =>
                              nestedEarly <-
                                propertyThroughCall calls fromFile nestedCallee nestedArgs name
                                  depth ;;
                              ret (match nestedEarly with
                                   | Some result => result
                                   | None => None
                                   end)
                          | _ => ret None
                          end
                      end
                  | ArrayExpression elements => ret (arrayElementAt elements name)
                  | _ => ret None
                  end
              end
        end
    | _ => ret None
    end.

(** The end of [resolveCallResultInternal] for what the callee resolved to. *)
Definition returnOf (calls : Calls) (fromFile : string) (resolved : Node) (depth : nat)
  : Resolving (option Node) :=
  if isFunction resolved then ret (extractFunctionReturnExpression resolved)
  else
    match resolved with
    | Identifier name => call_resolveLocalFunctionReturn calls fromFile name (depth + 1)
    | _ => ret (Some resolved)
    end.

Definition resolveCallResultInternal (calls : Calls) (fromFile : string) (callee : Node)
    (depth : nat) : Resolving (option Node) :=
  if (MAX_DEPTH <? depth)%nat then ret None
  else
    match callee with
    | Identifier name =>
        localFunctionReturn <- call_resolveLocalFunctionReturn calls fromFile name (depth + 1) ;;
        match localFunctionReturn with
        | Some returned => ret (Some returned)
        | None =>
            localValue <- call_resolveLocalValue calls fromFile name (depth + 1) ;;
            match localValue with
            | None => ret (resolveWorkspaceFunctionReturnByName fromFile name)
            | Some value =>
                if isFunction value then ret (extractFunctionReturnExpression value)
                else ret (Some value)
            end
        end
    | MemberExpression object property computed =>
        namespaceFunction <-
          match object, property, computed with
          | Identifier objectName, Identifier propertyName, false =>
              resolveNamespaceMember calls fromFile objectName propertyName (depth + 1)
          | _, _, _ => ret None
          end ;;
        match namespaceFunction with
        | Some resolved => returnOf calls fromFile resolved depth
        | None =>
            resolvedReference <- call_resolveReferenceInternal calls fromFile callee (depth + 1) ;;
            match resolvedReference with
            | None => ret None
            | Some resolved => returnOf calls fromFile resolved depth
            end
        end
    | _ => ret None
    end.

(** The functions, over those a call from them reaches. *)
Definition makeCalls (calls : Calls) : Calls :=
  {| call_resolveExportValue := resolveExportValue calls;
     call_resolveExportFunctionReturn := resolveExportFunctionReturn calls;
     call_resolveLocalValue := resolveLocalValue calls;
     call_resolveLocalFunctionReturn := resolveLocalFunctionReturn calls;
     call_resolveObjectPropertyValue := resolveObjectPropertyValue calls;
     call_resolveReferenceInternal := resolveReferenceInternal calls;
     call_resolveCallResultInternal := resolveCallResultInternal calls |}.

Definition noCalls : Calls :=
  {| call_resolveExportValue := fun _ _ _ _ => OutOfCalls;
     call_resolveExportFunctionReturn := fun _ _ _ _ => OutOfCalls;
     call_resolveLocalValue := fun _ _ _ _ => OutOfCalls;
     call_resolveLocalFunctionReturn := fun _ _ _ _ => OutOfCalls;
     call_resolveObjectPropertyValue := fun _ _ _ _ _ => OutOfCalls;
     call_resolveReferenceInternal := fun _ _ _ _ => OutOfCalls;
     call_resolveCallResultInternal := fun _ _ _ _ => OutOfCalls |}.

(** The functions unfolded for chains of at most [nesting] calls of them. *)
Fixpoint callsWithin (nesting : nat) : Calls :=
  match nesting with
  | 0 => noCalls
  | S inner => makeCalls (callsWithin inner)
  end.

(** [expressionOrigins]: the file each node met so far was marked with.
    [markExpressionOrigin] returns the expression it is given. *)
Definition Origins : Type := Node -> option string.

Definition originForNode (origins : Origins) (node : Node) (fallbackFile : string) : string :=
  orDefault (origins node) fallbackFile.

(** A call from depth 0 goes through [MAX_DEPTH + 1] depths whose functions
    run, and one more that returns at once. *)
Definition enoughCalls : nat := MAX_DEPTH + 2.

End WithIndex.

(** The two functions [createQueryKeyResolver(filePath, index, workspaceRoot)]
    returns, each with a new, empty [seen] set. *)
Definition resolveReference {host : ResolverHost} (filePath : string) (index : SymbolIndex)
    (workspaceRoot : string) (origins : Origins) (node : Node) : Outcome (option Node) :=
  let fromFile := originForNode origins node (normalizeAnalyzerPath filePath) in
  call_resolveReferenceInternal
    (callsWithin index (normalizeAnalyzerPath workspaceRoot) enoughCalls) fromFile node 0 [].

Definition resolveCallResult {host : ResolverHost} (filePath : string) (index : SymbolIndex)
    (workspaceRoot : string) (origins : Origins) (callee : Node) : Outcome (option Node) :=
  let fromFile := originForNode origins callee (normalizeAnalyzerPath filePath) in
  call_resolveCallResultInternal
    (callsWithin index (normalizeAnalyzerPath workspaceRoot) enoughCalls) fromFile callee 0 [].

End Resolver.

(** ** The notions the theorems about the resolver use *)

Module ResolverSpec.
Import Js Ast Resolver.

(** A computation returns, whatever the [seen] set it is given, and keeps in
    the set what was in it. *)
Definition Returns {A : Type} (m : Resolving A) : Prop :=
  forall seen, exists result seen', m seen = Returned result seen' /\ incl seen seen'.

(** Each of the functions returns when it is called at a depth of at least [from]. *)
Record ReturnFrom (calls : Calls) (from : nat) : Prop := {
  returns_resolveExportValue : forall depth file name,
    from <= depth -> Returns (call_resolveExportValue calls file name depth);
  returns_resolveExportFunctionReturn : forall depth file name,
    from <= depth -> Returns (call_resolveExportFunctionReturn calls file name depth);
  returns_resolveLocalValue : forall depth file name,
    from <= depth -> Returns (call_resolveLocalValue calls file name depth);
  returns_resolveLocalFunctionReturn : forall depth file name,
    from <= depth -> Returns (call_resolveLocalFunctionReturn calls file name depth);
  returns_resolveObjectPropertyValue : forall depth file properties name,
    from <= depth -> Returns (call_resolveObjectPropertyValue calls file properties name depth);
  returns_resolveReferenceInternal : forall depth file node,
    from <= depth -> Returns (call_resolveReferenceInternal calls file node depth);
  returns_resolveCallResultInternal : forall depth file node,
    from <= depth -> Returns (call_resolveCallResultInternal calls file node depth)
}.

(** Two computations that return the same from every [seen] set. *)
Definition Same {A : Type} (m m' : Resolving A) : Prop := forall seen, m seen = m' seen.

(** Two unfoldings of the functions give the same results at the depths from [from]. *)
Record AgreeFrom (calls calls' : Calls) (from : nat) : Prop := {
  agree_resolveExportValue : forall depth file name,
    from <= depth ->
    Same (call_resolveExportValue calls file name depth)
         (call_resolveExportValue calls' file name depth);
  agree_resolveExportFunctionReturn : forall depth file name,
    from <= depth ->
    Same (call_resolveExportFunctionReturn calls file name depth)
         (call_resolveExportFunctionReturn calls' file name depth);
  agree_resolveLocalValue : forall depth file name,
    from <= depth ->
    Same (call_resolveLocalValue calls file name depth)
         (call_resolveLocalValue calls' file name depth);
  agree_resolveLocalFunctionReturn : forall depth file name,
    from <= depth ->
    Same (call_resolveLocalFunctionReturn calls file name depth)
         (call_resolveLocalFunctionReturn calls' file name depth);
  agree_resolveObjectPropertyValue : forall depth file properties name,
    from <= depth ->
    Same (call_resolveObjectPropertyValue calls file properties name depth)
         (call_resolveObjectPropertyValue calls' file properties name depth);
  agree_resolveReferenceInternal : forall depth file node,
    from <= depth ->
    Same (call_resolveReferenceInternal calls file node depth)
         (call_resolveReferenceInternal calls' file node depth);
  agree_resolveCallResultInternal : forall depth file node,
    from <= depth ->
    Same (call_resolveCallResultInternal calls file node depth)
         (call_resolveCallResultInternal calls' file node depth)
}.

(** A name a file binds to nothing: no value, no function, no import. *)
Definition unboundIn (index : SymbolIndex) (file name : string) : Prop :=
  match mapGet file (files index) with
  | None => True
  | Some symbols =>
      mapGet name (values symbols) = None
      /\ mapGet name (functions symbols) = None
      /\ mapGet name (imports symbols) = None
  end.

(** No file of the index has a function or a value of this name. *)
Definition unknownEverywhere (index : SymbolIndex) (name : string) : Prop :=
  forall file symbols, In (file, symbols) (files index) ->
    mapGet name (values symbols) = None /\ mapGet name (functions symbols) = None.

(** The keys of the [seen] set. *)
Definition localValueKey (file name : string) : string := "local-value:" ++ file ++ ":" ++ name.
Definition localFunctionKey (file name : string) : string := "local-fn:" ++ file ++ ":" ++ name.
Definition exportValueKey (file name : string) : string := "exp-value:" ++ file ++ ":" ++ name.
Definition exportFunctionKey (file name : string) : string := "exp-fn:" ++ file ++ ":" ++ name.

(** *** Examples *)

(** A host whose module specifiers are the paths of the files. *)
Definition exampleHost : ResolverHost :=
  {| pathSep := "/"%char;
     normalizeAnalyzerPath := fun file => file;
     resolveModuleFile := fun _ source fileSet _ => if setHas source fileSet then Some source else None;
     resolverLocale := {| localeCompare := GraphSpec.codeUnitCompare |} |}.

Definition noOrigins : Origins := fun _ => None.

Definition fileOf (path : string) (values : JsMap Node) (imports : JsMap ImportBinding)
    (reExports : list ReExportBinding) : string * FileSymbols :=
  (path, {| filePath := path; values := values; functions := []; imports := imports;
            exports := []; reExports := reExports |}).

(** [const a = b; const b = a;] *)
Definition cyclicAliases : SymbolIndex :=
  {| files := [fileOf "/src/keys.ts" [("a", Identifier "b"); ("b", Identifier "a")] [] []];
     fileSet := ["/src/keys.ts"] |}.

Definition exportAll (source : string) : ReExportBinding :=
  {| reexport_source := source; reexport_imported := None; reexport_exported := None;
     reexport_all := true |}.

(** [/src/a.ts] has [export * from '/src/b.ts'], [/src/b.ts] has
    [export * from '/src/a.ts'], and [/src/use.ts] imports [key] from [/src/a.ts]. *)
Definition cyclicReExports : SymbolIndex :=
  {| files :=
       [fileOf "/src/a.ts" [] [] [exportAll "/src/b.ts"];
        fileOf "/src/b.ts" [] [] [exportAll "/src/a.ts"];
        fileOf "/src/use.ts" []
          [("key", {| import_kind := ImportNamed; import_source := "/src/a.ts";
                      import_imported := Some "key" |})] []];
     fileSet := ["/src/a.ts"; "/src/b.ts"; "/src/use.ts"] |}.

End ResolverSpec.


(** ** [context.ts]: the certainty of a name, and the text of a configuration *)

Module ParseContext.
Import Js.

Definition isStaticResolution (r : Resolution) : bool :=
  match r with Static => true | Dynamic => false end.

(** [setCertainty(map, key, certainty)]; the map it updates is returned. *)
Definition setCertainty (map : JsMap Resolution) (key : string) (certainty : Resolution)
  : JsMap Resolution :=
  let current := mapGet key map in
  match current with
  | Some Static => map
  | _ =>
      if (match current with None => true | Some _ => false end) || isStaticResolution certainty
      then mapSet key certainty map
      else map
  end.

Definition getCertainty (map : JsMap Resolution) (key : string) : option Resolution :=
  mapGet key map.

End ParseContext.

Module ConfigText.
Import Js.

(** [char === c], for the character of code [code]. *)
Definition isChar (code : nat) (char : ascii) : bool := (nat_of_ascii char =? code)%nat.

Definition QUOTE : nat := 34.
Definition BACKSLASH : nat := 92.
Definition SLASH : nat := 47.
Definition STAR : nat := 42.
Definition NEWLINE : nat := 10.
Definition COMMA : nat := 44.
Definition CLOSE_BRACE : nat := 125.
Definition CLOSE_BRACKET : nat := 93.

(** The loop of [stripJsonComments] from one index on, for the flags as they
    are there; the result is what the loop appends to [output].  [index += 1]
    in the body skips the character after the current one. *)
Fixpoint stripJsonCommentsFrom (inString escaped inLineComment inBlockComment : bool)
    (input : string) : string :=
  match input with
  | EmptyString => EmptyString
  | String char rest =>
      if inLineComment then
        if isChar NEWLINE char
        then String char (stripJsonCommentsFrom inString escaped false inBlockComment rest)
        else stripJsonCommentsFrom inString escaped inLineComment inBlockComment rest
      else if inBlockComment then
        match rest with
        | String next afterNext =>
            if isChar STAR char && isChar SLASH next
            then stripJsonCommentsFrom inString escaped inLineComment false afterNext
            else stripJsonCommentsFrom inString escaped inLineComment inBlockComment rest
        | EmptyString => stripJsonCommentsFrom inString escaped inLineComment inBlockComment rest
        end
      else if inString then
        String char
          (if escaped then stripJsonCommentsFrom inString false inLineComment inBlockComment rest
           else if isChar BACKSLASH char
           then stripJsonCommentsFrom inString true inLineComment inBlockComment rest
           else if isChar QUOTE char
           then stripJsonCommentsFrom false escaped inLineComment inBlockComment rest
           else stripJsonCommentsFrom inString escaped inLineComment inBlockComment rest)
      else if isChar QUOTE char then
        String char (stripJsonCommentsFrom true escaped inLineComment inBlockComment rest)
      else
        match rest with
        | String next afterNext =>
            if isChar SLASH char && isChar SLASH next
            then stripJsonCommentsFrom inString escaped true inBlockComment afterNext
            else if isChar SLASH char && isChar STAR next
            then stripJsonCommentsFrom inString escaped inLineComment true afterNext
            else String char (stripJsonCommentsFrom inString escaped inLineComment inBlockComment rest)
        | EmptyString =>
            String char (stripJsonCommentsFrom inString escaped inLineComment inBlockComment rest)
        end
  end.

Definition stripJsonComments (input : string) : string :=
  stripJsonCommentsFrom false false false false input.

(** [input[lookahead]] after the loop that skips the characters [/\s/] matches. *)
Fixpoint afterWhitespace (input : string) : option ascii :=
  match input with
  | EmptyString => None
  | String char rest => if isWhitespace char then afterWhitespace rest else Some char
  end.

(** The loop of [stripTrailingCommas] from one index on. *)
Fixpoint stripTrailingCommasFrom (inString escaped : bool) (input : string) : string :=
  match input with
  | EmptyString => EmptyString
  | String char rest =>
      if inString then
        String char
          (if escaped then stripTrailingCommasFrom inString false rest
           else if isChar BACKSLASH char then stripTrailingCommasFrom inString true rest
           else if isChar QUOTE char then stripTrailingCommasFrom false escaped rest
           else stripTrailingCommasFrom inString escaped rest)
      else if isChar QUOTE char then String char (stripTrailingCommasFrom true escaped rest)
      else if negb (isChar COMMA char) then String char (stripTrailingCommasFrom inString escaped rest)
      else
        match afterWhitespace rest with
        | Some next =>
            if isChar CLOSE_BRACE next || isChar CLOSE_BRACKET next
            then stripTrailingCommasFrom inString escaped rest
            else String char (stripTrailingCommasFrom inString escaped rest)
        | None => String char (stripTrailingCommasFrom inString escaped rest)
        end
  end.

Definition stripTrailingCommas (input : string) : string :=
  stripTrailingCommasFrom false false input.

(** The text [parseJsonObject] gives to [JSON.parse]:
    [stripTrailingCommas(stripJsonComments(text)).trim()]. *)
Definition cleanJsonText (text : string) : string :=
  trim (stripTrailingCommas (stripJsonComments text)).

(** [s.indexOf(c)] for one character; [None] stands for [-1]. *)
Fixpoint indexOfChar (code : nat) (s : string) : option nat :=
  match s with
  | EmptyString => None
  | String char rest =>
      if isChar code char then Some 0
      else match indexOfChar code rest with Some i => Some (S i) | None => None end
  end.

(** [s.slice(from, to)] for indexes within the string; the result is empty
    when [to <= from]. *)
Definition slice (s : string) (from to : nat) : string := substring from (to - from) s.

Definition aliasCapture (pattern source : string) : option string :=
  match indexOfChar STAR pattern with
  | None => if pattern =? source then Some "" else None
  | Some starIndex =>
      let prefix := slice pattern 0 starIndex in
      let suffix := slice pattern (starIndex + 1) (String.length pattern) in
      if negb (startsWith source prefix) || negb (endsWith source suffix) then None
      else Some (slice source (String.length prefix) (String.length source - String.length suffix))
  end.

End ConfigText.

(** ** The words of a configuration text *)

Module ConfigTextSpec.
Import Js ConfigText.

Definition quote : string := String (ascii_of_nat QUOTE) EmptyString.
Definition newline : string := String (ascii_of_nat NEWLINE) EmptyString.

(** The body of a string literal: read with the escape flag, it has no quote
    that ends the literal, and it does not end in the middle of an escape. *)
Fixpoint closedBody (escaped : bool) (body : string) : bool :=
  match body with
  | EmptyString => negb escaped
  | String char rest =>
      if escaped then closedBody false rest
      else if isChar BACKSLASH char then closedBody true rest
      else if isChar QUOTE char then false
      else closedBody false rest
  end.

Fixpoint allChars (test : ascii -> bool) (s : string) : bool :=
  match s with
  | EmptyString => true
  | String char rest => test char && allChars test rest
  end.

(** A piece of a configuration text: text outside literals and comments,
    a string literal, a comment, or a comma outside literals and comments. *)
Inductive Piece :=
| Plain (text : string)
| Literal (body : string)
| LineComment (text : string)
| BlockComment (text : string)
| Comma.

Definition written (piece : Piece) : string :=
  match piece with
  | Plain text => text
  | Literal body => quote ++ body ++ quote
  | LineComment text => "//" ++ text ++ newline
  | BlockComment text => "/*" ++ text ++ "*/"
  | Comma => ","
  end.

Definition textOf (render : Piece -> string) (pieces : list Piece) : string :=
  fold_right (fun piece rest => render piece ++ rest) EmptyString pieces.

(** The pieces are told apart for [stripJsonComments]: plain text has no
    slash and no quote, the body of a literal is closed, a line comment has
    no line end inside and a block comment no [*/]. *)
Definition commentsMarked (piece : Piece) : bool :=
  match piece with
  | Plain text => allChars (fun c => negb (isChar SLASH c) && negb (isChar QUOTE c)) text
  | Literal body => closedBody false body
  | LineComment text => allChars (fun c => negb (isChar NEWLINE c)) text
  | BlockComment text => negb (includes text "*/")
  | Comma => true
  end.

(** A line comment leaves its line end, a block comment nothing. *)
Definition withoutComment (piece : Piece) : Piece :=
  match piece with
  | LineComment _ => Plain newline
  | BlockComment _ => Plain EmptyString
  | other => other
  end.

(** The pieces are told apart for [stripTrailingCommas]: there is no comment,
    plain text has no comma and no quote, the body of a literal is closed. *)
Definition commasMarked (piece : Piece) : bool :=
  match piece with
  | Plain text => allChars (fun c => negb (isChar COMMA c) && negb (isChar QUOTE c)) text
  | Literal body => closedBody false body
  | LineComment _ | BlockComment _ => false
  | Comma => true
  end.

(** The pieces are told apart for both. *)
Definition marked (piece : Piece) : bool :=
  commentsMarked piece && commasMarked (withoutComment piece).

(** The text goes on, after white space, with a closing brace or bracket. *)
Definition closesNext (rest : string) : bool :=
  match afterWhitespace rest with
  | Some next => isChar CLOSE_BRACE next || isChar CLOSE_BRACKET next
  | None => false
  end.

(** The text without its trailing commas: a comma is left out when the text
    after it closes an object or an array. *)
Fixpoint withoutTrailingCommas (pieces : list Piece) : string :=
  match pieces with
  | [] => EmptyString
  | Comma :: rest =>
      if closesNext (textOf written rest) then withoutTrailingCommas rest
      else "," ++ withoutTrailingCommas rest
  | piece :: rest => written piece ++ withoutTrailingCommas rest
  end.

End ConfigTextSpec.


(** ** The symbols the resolver follows *)

Module ResolverShape.
Import Js Ast Resolver ResolverSpec.

Definition isIdentifier (node : Node) : bool :=
  match node with Identifier _ => true | _ => false end.

(** [const a = b; const b = c; ...]: each name of the list is bound to the
    identifier after it. *)
Fixpoint aliases (symbols : FileSymbols) (names : list string) : Prop :=
  match names with
  | name :: rest =>
      match rest with
      | next :: _ => mapGet name (values symbols) = Some (Identifier next) /\ aliases symbols rest
      | [] => True
      end
  | [] => True
  end.

(** *** Examples *)

(** [const a = b; const b = c; const c = ['todos'];] *)
Definition keyOfTodos : Node := ArrayExpression [Some (StringLiteral "todos")].

Definition aliasedKey : SymbolIndex :=
  {| files := [fileOf "/src/keys.ts"
                 [("a", Identifier "b"); ("b", Identifier "c"); ("c", keyOfTodos)] [] []];
     fileSet := ["/src/keys.ts"] |}.

(** [/src/keys.ts] has [const todosKey = ['todos']; export { todosKey as key };]
    and [/src/use.ts] has [import { key as k } from '/src/keys.ts';]. *)
Definition importedKey : SymbolIndex :=
  {| files :=
       [("/src/keys.ts",
         {| filePath := "/src/keys.ts"; values := [("todosKey", keyOfTodos)]; functions := [];
            imports := []; exports := [("key", "todosKey")]; reExports := [] |});
        fileOf "/src/use.ts" []
          [("k", {| import_kind := ImportNamed; import_source := "/src/keys.ts";
                    import_imported := Some "key" |})] []];
     fileSet := ["/src/keys.ts"; "/src/use.ts"] |}.

End ResolverShape.


(** ** What a file offers the resolver *)

Module ResolverOffers.
Import Js Ast Resolver ResolverSpec.

(** The return expression a file has for a function name, as the loop of
    [resolveWorkspaceFunctionReturnByName] reads it. *)
Definition candidateOf (functionName : string) (symbols : FileSymbols) : option Node :=
  match mapGet functionName (functions symbols) with
  | Some fromFunctions => Some fromFunctions
  | None =>
      match mapGet functionName (values symbols) with
      | Some fromValues =>
          if isFunction fromValues then extractFunctionReturnExpression fromValues else None
      | None => None
      end
  end.

(** A member of an object literal that [resolveObjectPropertyValue] stops
    at for a name: a property of that name with an expression for value, or
    a spread of an expression. *)
Definition mayGive (propertyName : string) (property : Node) : bool :=
  match property with
  | ObjectProperty (Identifier name) val _ _
  | ObjectProperty (StringLiteral name) val _ _ => (name =? propertyName) && isExpression val
  | ObjectProperty (NumericLiteral n) val _ _ =>
      (numberToString n =? propertyName) && isExpression val
  | SpreadElement argument => isExpression argument
  | _ => false
  end.

(** A property [name: value] that [objectPropertyValue] stops at. *)
Definition gives (propertyName : string) (property : Node) : bool :=
  match property with
  | ObjectProperty (Identifier name) val _ _
  | ObjectProperty (StringLiteral name) val _ _ =>
      negb (name =? "") && (name =? propertyName) && isExpression val
  | _ => false
  end.

(** The candidate the loop pushes for one file. *)
Definition offer {host : ResolverHost} (fromFile functionName : string)
    (entry : string * FileSymbols) : list Candidate :=
  match candidateOf functionName (snd entry) with
  | Some expression =>
      [{| candidate_filePath := fst entry; candidate_expression := expression;
          candidate_score := commonPathPrefixLength fromFile (fst entry) |}]
  | None => []
  end.

(** Two files that have a function [todosQueryKey]. *)
Definition twoFactories : SymbolIndex :=
  {| files :=
       [("/lib/keys.ts",
         {| filePath := "/lib/keys.ts"; values := [];
            functions := [("todosQueryKey", ArrayExpression [Some (StringLiteral "lib")])];
            imports := []; exports := []; reExports := [] |});
        ("/src/todos/keys.ts",
         {| filePath := "/src/todos/keys.ts"; values := [];
            functions := [("todosQueryKey", ArrayExpression [Some (StringLiteral "todos")])];
            imports := []; exports := []; reExports := [] |})];
     fileSet := ["/lib/keys.ts"; "/src/todos/keys.ts"] |}.

End ResolverOffers.


(* ===================================================================== *)
(** * Part II: lemmas and theorems                                        *)
(* ===================================================================== *)

(** ** Facts about the JavaScript containers *)

Module JsFacts.
Import Js.

Lemma setHas_In (x : string) (s : JsSet) : setHas x s = true <-> In x s.
Proof.
  unfold setHas. rewrite existsb_exists. split.
  - intros [y [Hy Heq]]. apply String.eqb_eq in Heq. now subst.
  - intros H. exists x. split; [assumption | apply String.eqb_refl].
Qed.

Lemma setHas_false (x : string) (s : JsSet) : setHas x s = false <-> ~ In x s.
Proof.
  rewrite <- setHas_In. destruct (setHas x s); split; congruence.
Qed.

Lemma setAdd_In (x y : string) (s : JsSet) : In y (setAdd x s) <-> y = x \/ In y s.
Proof.
  unfold setAdd. destruct (setHas x s) eqn:E.
  - apply setHas_In in E. split; [now right | intros [-> | H]; assumption].
  - rewrite in_app_iff. simpl. split.
    + intros [H | [H | []]]; [now right | now left].
    + intros [-> | H]; [right; now left | now left].
Qed.

Lemma setAdd_NoDup (x : string) (s : JsSet) : NoDup s -> NoDup (setAdd x s).
Proof.
  intros Hs. unfold setAdd. destruct (setHas x s) eqn:E; [assumption |].
  apply setHas_false in E. apply NoDup_app; [assumption | repeat constructor; intros [] | ].
  intros a Ha [<- | []]. contradiction.
Qed.

Lemma setOfList_from (l : list string) (s0 : JsSet) (x : string) :
  In x (fold_left (fun s y => setAdd y s) l s0) <-> In x s0 \/ In x l.
Proof.
  revert s0. induction l as [| y l IH]; intros s0; simpl.
  - tauto.
  - rewrite IH, setAdd_In. intuition congruence.
Qed.

Lemma setOfList_In (l : list string) (x : string) : In x (setOfList l) <-> In x l.
Proof. unfold setOfList. rewrite setOfList_from. simpl. tauto. Qed.

Lemma mapGet_In {V : Type} (k : string) (v : V) (m : JsMap V) :
  mapGet k m = Some v -> In (k, v) m.
Proof.
  induction m as [| [k' v'] m IH]; simpl; [discriminate |].
  destruct (k' =? k) eqn:E.
  - apply String.eqb_eq in E. intros [= ->]. left. now subst.
  - intros H. right. now apply IH.
Qed.

Lemma mapGet_mapSet_eq {V : Type} (k : string) (v : V) (m : JsMap V) :
  mapGet k (mapSet k v m) = Some v.
Proof.
  induction m as [| [k' v'] m IH]; simpl.
  - now rewrite String.eqb_refl.
  - destruct (k' =? k) eqn:E; simpl; rewrite E; [reflexivity | assumption].
Qed.

Lemma mapGet_mapSet_ne {V : Type} (k k' : string) (v : V) (m : JsMap V) :
  k <> k' -> mapGet k' (mapSet k v m) = mapGet k' m.
Proof.
  intros Hne. induction m as [| [k0 v0] m IH]; simpl.
  - apply String.eqb_neq in Hne. now rewrite Hne.
  - destruct (k0 =? k) eqn:E; simpl.
    + apply String.eqb_eq in E. subst k0.
      apply String.eqb_neq in Hne. now rewrite Hne.
    + destruct (k0 =? k'); [reflexivity | assumption].
Qed.

Lemma mapGet_mapSet {V : Type} (k k' : string) (v : V) (m : JsMap V) :
  mapGet k' (mapSet k v m) = if k =? k' then Some v else mapGet k' m.
Proof.
  destruct (k =? k') eqn:E.
  - apply String.eqb_eq in E. subst. apply mapGet_mapSet_eq.
  - apply String.eqb_neq in E. now apply mapGet_mapSet_ne.
Qed.

Lemma mapSet_values {V : Type} (k : string) (v x : V) (m : JsMap V) :
  In x (map snd (mapSet k v m)) -> x = v \/ In x (map snd m).
Proof.
  induction m as [| [k' v'] m IH]; simpl.
  - intros [<- | []]. now left.
  - destruct (k' =? k); simpl.
    + intros [<- | H]; [now left | right; now right].
    + intros [<- | H]; [right; now left |].
      destruct (IH H) as [-> | H']; [now left | right; now right].
Qed.

Lemma mapSet_fresh {V : Type} (k : string) (v : V) (m : JsMap V) :
  mapGet k m = None -> mapSet k v m = (m ++ [(k, v)])%list.
Proof.
  induction m as [| [k' v'] m IH]; simpl; [reflexivity |].
  destruct (k' =? k); [discriminate |]. intros H. now rewrite IH.
Qed.

Lemma mapHas_true {V : Type} (k : string) (m : JsMap V) :
  mapHas k m = true <-> exists v, mapGet k m = Some v.
Proof.
  unfold mapHas. destruct (mapGet k m) as [v |]; split; try congruence.
  - intros _. now exists v.
  - intros [v [=]].
Qed.

Lemma mapHas_false {V : Type} (k : string) (m : JsMap V) :
  mapHas k m = false <-> mapGet k m = None.
Proof. unfold mapHas. destruct (mapGet k m); split; congruence. Qed.

Lemma mapGet_keys {V : Type} (k : string) (m : JsMap V) :
  mapGet k m = None <-> ~ In k (map fst m).
Proof.
  induction m as [| [k' v'] m IH]; simpl.
  - split; [intros _ [] | reflexivity].
  - destruct (k' =? k) eqn:E.
    + apply String.eqb_eq in E. split; [discriminate | intros H; exfalso; apply H; now left].
    + apply String.eqb_neq in E. rewrite IH. tauto.
Qed.

(** A fold that keeps an invariant. *)
Lemma fold_left_invariant {A B : Type} (P : A -> Prop) (f : A -> B -> A) (l : list B) (a : A) :
  P a -> (forall a' b, In b l -> P a' -> P (f a' b)) -> P (fold_left f l a).
Proof.
  revert a. induction l as [| b l IH]; intros a Ha Hstep; simpl; [assumption |].
  apply IH.
  - apply Hstep; [now left | assumption].
  - intros a' b' Hb'. apply Hstep. now right.
Qed.

End JsFacts.


(** ** Node identifiers *)

Module IdFacts.
Import Js GraphBuilder GraphSpec.

Lemma append_assoc (a b c : string) : (a ++ b) ++ c = a ++ (b ++ c).
Proof. induction a as [| x a IH]; simpl; [reflexivity | now rewrite IH]. Qed.

Lemma makeQueryKeyNodeId_inj (a b : string) :
  makeQueryKeyNodeId a = makeQueryKeyNodeId b -> a = b.
Proof. unfold makeQueryKeyNodeId. simpl. now intros [= ->]. Qed.

Lemma startsWith_qk (queryKeyId : string) : startsWith (makeQueryKeyNodeId queryKeyId) "qk:" = true.
Proof.
  unfold startsWith, makeQueryKeyNodeId. simpl. now destruct queryKeyId.
Qed.

Lemma file_not_action (filePath : string) (record : QueryRecord) (index : nat) :
  makeFileNodeId filePath <> makeActionNodeId record index.
Proof. unfold makeFileNodeId, makeActionNodeId. simpl. discriminate. Qed.

Lemma qk_not_action (queryKeyId : string) (record : QueryRecord) (index : nat) :
  makeQueryKeyNodeId queryKeyId <> makeActionNodeId record index.
Proof. unfold makeQueryKeyNodeId, makeActionNodeId. simpl. discriminate. Qed.

Lemma qk_not_file (queryKeyId filePath : string) :
  makeQueryKeyNodeId queryKeyId <> makeFileNodeId filePath.
Proof. unfold makeQueryKeyNodeId, makeFileNodeId. simpl. discriminate. Qed.

Lemma afterLastColon_append (x d : string) :
  afterLastColon d = None -> afterLastColon (x ++ ":" ++ d) = Some d.
Proof.
  intros Hd. induction x as [| c x IH]; simpl.
  - now rewrite Hd.
  - simpl in IH. now rewrite IH.
Qed.

Lemma digits_have_no_colon (d : uint) : afterLastColon (NilEmpty.string_of_uint d) = None.
Proof. induction d; simpl; try rewrite IHd; reflexivity. Qed.

Lemma numberToString_inj (n m : nat) : numberToString n = numberToString m -> n = m.
Proof.
  unfold numberToString. intros H.
  assert (Hu : Nat.to_uint n = Nat.to_uint m).
  { pose proof (NilEmpty.usu (Nat.to_uint n)) as Hn.
    pose proof (NilEmpty.usu (Nat.to_uint m)) as Hm.
    rewrite H in Hn. rewrite Hn in Hm. now injection Hm. }
  rewrite <- (DecimalNat.Unsigned.of_to n), <- (DecimalNat.Unsigned.of_to m). now rewrite Hu.
Qed.

(** The index ends an action node's identifier, so two records of one run
    never share their action node. *)
Lemma makeActionNodeId_index (r r' : QueryRecord) (i j : nat) :
  makeActionNodeId r i = makeActionNodeId r' j -> i = j.
Proof.
  unfold makeActionNodeId. intros H.
  apply (f_equal afterLastColon) in H.
  repeat rewrite <- append_assoc in H.
  rewrite (append_assoc _ ":" (numberToString i)) in H.
  rewrite (append_assoc _ ":" (numberToString j)) in H.
  rewrite !afterLastColon_append in H by apply digits_have_no_colon.
  injection H. apply numberToString_inj.
Qed.

Lemma action_source_not_file (record : QueryRecord) (index : nat) :
  startsWith (makeActionNodeId record index) "file:" = false.
Proof. reflexivity. Qed.

Lemma file_source (filePath : string) : startsWith (makeFileNodeId filePath) "file:" = true.
Proof. unfold startsWith, makeFileNodeId. simpl. now destruct filePath. Qed.

Lemma action_source_not_qk (record : QueryRecord) (index : nat) :
  startsWith (makeActionNodeId record index) "qk:" = false.
Proof. reflexivity. Qed.

Lemma file_source_not_qk (filePath : string) :
  startsWith (makeFileNodeId filePath) "qk:" = false.
Proof. reflexivity. Qed.

End IdFacts.


(** ** Pass 1 of the graph assembler *)

Module Pass1Facts.
Import Js JsFacts GraphBuilder GraphSpec IdFacts.

Section WithHost.
Context {env : HostEnv}.

Lemma map_snd_indexed_from {A : Type} (l : list A) (start : nat) :
  map snd (combine (seq start (List.length l)) l) = l.
Proof.
  revert start. induction l as [| x l IH]; intros start; simpl; [reflexivity |].
  now rewrite IH.
Qed.

Lemma map_snd_indexed {A : Type} (l : list A) : map snd (indexed l) = l.
Proof. apply map_snd_indexed_from. Qed.

Lemma indexed_In {A : Type} (l : list A) (i : nat) (x : A) :
  In (i, x) (indexed l) <-> nth_error l i = Some x.
Proof.
  unfold indexed.
  assert (H : forall start, In (i, x) (combine (seq start (List.length l)) l)
                            <-> start <= i /\ nth_error l (i - start) = Some x).
  { induction l as [| y l IH]; intros start; simpl.
    - split; [intros [] | intros [_ H]; now destruct (i - start)].
    - rewrite IH. split.
      + intros [[= <- <-] | [Hle Hn]].
        * split; [lia |]. now rewrite Nat.sub_diag.
        * split; [lia |]. replace (i - start) with (S (i - S start)) by lia. assumption.
      + intros [Hle Hn]. destruct (Nat.eq_dec i start) as [-> | Hne].
        * rewrite Nat.sub_diag in Hn. simpl in Hn. injection Hn as ->. now left.
        * right. split; [lia |].
          replace (i - start) with (S (i - S start)) in Hn by lia. assumption. }
  rewrite H. rewrite Nat.sub_0_r. split; [tauto | intros; split; [lia | assumption]].
Qed.

(** *** What one step writes *)

Lemma step_pending (st : BuildState) (entry : nat * QueryRecord) :
  pendingActionToQueryLinks (pass1Step st entry)
  = (pendingActionToQueryLinks st ++ [pendingOf entry])%list.
Proof. now destruct entry. Qed.

Lemma step_declaredIds (st : BuildState) (entry : nat * QueryRecord) :
  declaredQueryNodeIds (pass1Step st entry)
  = if isDeclaring (snd entry) then setAdd (nodeIdOf (snd entry)) (declaredQueryNodeIds st)
    else declaredQueryNodeIds st.
Proof. now destruct entry. Qed.

Lemma step_declaredKey (st : BuildState) (entry : nat * QueryRecord) :
  declaredQueryKeyByNodeId (pass1Step st entry)
  = if isDeclaring (snd entry)
    then setIfAbsent (nodeIdOf (snd entry)) (rec_queryKey (snd entry)) (declaredQueryKeyByNodeId st)
    else declaredQueryKeyByNodeId st.
Proof. now destruct entry. Qed.

Lemma step_declaredProjects (st : BuildState) (entry : nat * QueryRecord) :
  declaredQueryProjectsByNodeId (pass1Step st entry)
  = if isDeclaring (snd entry)
    then mapSet (nodeIdOf (snd entry))
           (setAdd (scopeOf (snd entry))
              (match mapGet (nodeIdOf (snd entry)) (declaredQueryProjectsByNodeId st) with
               | Some projects => projects
               | None => []
               end))
           (declaredQueryProjectsByNodeId st)
    else declaredQueryProjectsByNodeId st.
Proof. now destruct entry. Qed.

Lemma step_callsites (st : BuildState) (entry : nat * QueryRecord) :
  queryKeyToDeclareCallsites (pass1Step st entry) = queryKeyToDeclareCallsites st.
Proof. now destruct entry. Qed.

Lemma step_setAnchored (st : BuildState) (entry : nat * QueryRecord) :
  setAnchoredQueryNodeIds (pass1Step st entry) = setAnchoredQueryNodeIds st.
Proof. now destruct entry. Qed.

(** *** The pending links *)

Lemma pass1_pending_from (l : list (nat * QueryRecord)) (st : BuildState) :
  pendingActionToQueryLinks (fold_left pass1Step l st)
  = (pendingActionToQueryLinks st ++ map pendingOf l)%list.
Proof.
  revert st. induction l as [| e l IH]; intros st; simpl.
  - now rewrite app_nil_r.
  - rewrite IH, step_pending, <- app_assoc. reflexivity.
Qed.

Lemma pass1_pending (records : list QueryRecord) :
  pendingActionToQueryLinks (pass1 records) = map pendingOf (indexed records).
Proof. unfold pass1. now rewrite pass1_pending_from. Qed.

Lemma pass1_callsites (records : list QueryRecord) :
  queryKeyToDeclareCallsites (pass1 records) = [].
Proof.
  unfold pass1. apply fold_left_invariant; [reflexivity |].
  intros st e _ H. now rewrite step_callsites.
Qed.

Lemma pass1_setAnchored (records : list QueryRecord) :
  setAnchoredQueryNodeIds (pass1 records) = [].
Proof.
  unfold pass1. apply fold_left_invariant; [reflexivity |].
  intros st e _ H. now rewrite step_setAnchored.
Qed.

(** *** The declared keys *)

Lemma pass1_declaredIds_from (l : list (nat * QueryRecord)) (st : BuildState) (q : string) :
  In q (declaredQueryNodeIds (fold_left pass1Step l st))
  <-> In q (declaredQueryNodeIds st)
      \/ exists d, In d (map snd l) /\ isDeclaring d = true /\ nodeIdOf d = q.
Proof.
  revert st. induction l as [| e l IH]; intros st; simpl.
  - split; [now left | intros [H | [d [[] _]]]; assumption].
  - rewrite IH, step_declaredIds. destruct (isDeclaring (snd e)) eqn:E.
    + rewrite setAdd_In. split.
      * intros [[-> | H] | [d [Hd Hrest]]].
        -- right. exists (snd e). auto.
        -- now left.
        -- right. exists d. auto.
      * intros [H | [d [[<- | Hd] [Hdecl Hid]]]].
        -- left. now right.
        -- left. left. now symmetry.
        -- right. exists d. auto.
    + split.
      * intros [H | [d [Hd Hrest]]]; [now left | right; exists d; auto].
      * intros [H | [d [[<- | Hd] [Hdecl Hid]]]]; [now left | congruence | right; exists d; auto].
Qed.

Lemma pass1_declaredIds (records : list QueryRecord) (q : string) :
  In q (declaredQueryNodeIds (pass1 records))
  <-> exists d, In d records /\ isDeclaring d = true /\ nodeIdOf d = q.
Proof.
  unfold pass1. rewrite pass1_declaredIds_from, map_snd_indexed. simpl. tauto.
Qed.

Lemma declaredInScope_spec (st : BuildState) (q s : string) :
  declaredInScope st q s = true
  <-> exists projects, mapGet q (declaredQueryProjectsByNodeId st) = Some projects /\ In s projects.
Proof.
  unfold declaredInScope. destruct (mapGet q (declaredQueryProjectsByNodeId st)) as [projects |].
  - rewrite setHas_In. split.
    + intros H. now exists projects.
    + now intros [p [[= <-] H]].
  - split; [discriminate | now intros [p [[=] _]]].
Qed.

Lemma pass1_declaredInScope_from (l : list (nat * QueryRecord)) (st : BuildState) (q s : string) :
  declaredInScope (fold_left pass1Step l st) q s = true
  <-> declaredInScope st q s = true
      \/ exists d, In d (map snd l) /\ isDeclaring d = true /\ nodeIdOf d = q /\ scopeOf d = s.
Proof.
  revert st. induction l as [| e l IH]; intros st; simpl.
  - split; [now left | intros [H | [d [[] _]]]; assumption].
  - rewrite IH. clear IH.
    assert (Hstep : declaredInScope (pass1Step st e) q s = true
                    <-> declaredInScope st q s = true
                        \/ (isDeclaring (snd e) = true /\ nodeIdOf (snd e) = q /\ scopeOf (snd e) = s)).
    { rewrite !declaredInScope_spec, step_declaredProjects.
      destruct (isDeclaring (snd e)) eqn:E.
      - rewrite mapGet_mapSet. destruct (nodeIdOf (snd e) =? q) eqn:Eq.
        + apply String.eqb_eq in Eq. rewrite Eq. split.
          * intros [projects [[= <-] Hin]]. apply setAdd_In in Hin.
            destruct Hin as [-> | Hin]; [right; auto |].
            left. destruct (mapGet q (declaredQueryProjectsByNodeId st)) as [p |]; [| destruct Hin].
            now exists p.
          * intros [[projects [Hget Hin]] | [_ [_ Hs]]].
            -- eexists. split; [reflexivity |]. apply setAdd_In. right. now rewrite Hget.
            -- eexists. split; [reflexivity |]. apply setAdd_In. left. now symmetry.
        + apply String.eqb_neq in Eq. split; [now left |].
          intros [H | [_ [Hq _]]]; [assumption | contradiction].
      - split; [now left | intros [H | [Hd _]]; [assumption | discriminate]]. }
    rewrite Hstep. split.
    + intros [[H | [Hd [Hq Hs]]] | [d [Hin Hrest]]].
      * now left.
      * right. exists (snd e). auto.
      * right. exists d. auto.
    + intros [H | [d [[<- | Hin] Hrest]]].
      * left. now left.
      * left. right. assumption.
      * right. exists d. auto.
Qed.

Lemma pass1_declaredInScope (records : list QueryRecord) (q s : string) :
  declaredInScope (pass1 records) q s = true <-> declaredIn records q s.
Proof.
  unfold pass1, declaredIn. rewrite pass1_declaredInScope_from, map_snd_indexed.
  unfold declaredInScope at 1. simpl. split; [intros [H | H]; [discriminate | assumption] | now right].
Qed.

Lemma declaredKeyOf_cons (d : QueryRecord) (l : list QueryRecord) (q : string) :
  declaredKeyOf (d :: l) q
  = if isDeclaring d && (nodeIdOf d =? q) then Some (rec_queryKey d) else declaredKeyOf l q.
Proof.
  unfold declaredKeyOf. cbn [find].
  now destruct (isDeclaring d && (nodeIdOf d =? q)).
Qed.

Lemma pass1_declaredKey_from (l : list (nat * QueryRecord)) (st : BuildState) (q : string) :
  mapGet q (declaredQueryKeyByNodeId (fold_left pass1Step l st))
  = match mapGet q (declaredQueryKeyByNodeId st) with
    | Some key => Some key
    | None => declaredKeyOf (map snd l) q
    end.
Proof.
  revert st. induction l as [| e l IH]; intros st; cbn [fold_left map].
  - now destruct (mapGet q (declaredQueryKeyByNodeId st)).
  - rewrite IH, step_declaredKey, declaredKeyOf_cons.
    destruct (isDeclaring (snd e)) eqn:E; cbn [andb]; [| reflexivity].
    unfold setIfAbsent.
    destruct (mapHas (nodeIdOf (snd e)) (declaredQueryKeyByNodeId st)) eqn:Eh; cbn [negb].
    + apply mapHas_true in Eh. destruct Eh as [v Hv].
      destruct (nodeIdOf (snd e) =? q) eqn:Eq.
      * apply String.eqb_eq in Eq. rewrite <- Eq, Hv. reflexivity.
      * reflexivity.
    + apply mapHas_false in Eh. rewrite mapGet_mapSet.
      destruct (nodeIdOf (snd e) =? q) eqn:Eq.
      * apply String.eqb_eq in Eq. rewrite <- Eq, Eh. reflexivity.
      * reflexivity.
Qed.

Lemma pass1_declaredKey (records : list QueryRecord) (q : string) :
  mapGet q (declaredQueryKeyByNodeId (pass1 records)) = declaredKeyOf records q.
Proof. unfold pass1. now rewrite pass1_declaredKey_from, map_snd_indexed. Qed.

Lemma declaredKeyOf_declared (records : list QueryRecord) (q : string) :
  (exists d, In d records /\ isDeclaring d = true /\ nodeIdOf d = q)
  -> exists key, declaredKeyOf records q = Some key.
Proof.
  intros [d [Hin [Hdecl Hid]]]. unfold declaredKeyOf.
  destruct (find (fun d0 => isDeclaring d0 && (nodeIdOf d0 =? q)) records) as [d' |] eqn:E.
  - now exists (rec_queryKey d').
  - exfalso. apply (find_none _ _ E) in Hin. cbv beta in Hin.
    rewrite Hdecl, Hid, String.eqb_refl in Hin. discriminate.
Qed.

Lemma declaredKeyOf_id (records : list QueryRecord) (q : string) (key : NormalizedQueryKey) :
  declaredKeyOf records q = Some key -> makeQueryKeyNodeId (key_id key) = q.
Proof.
  unfold declaredKeyOf.
  destruct (find (fun d0 => isDeclaring d0 && (nodeIdOf d0 =? q)) records) as [d' |] eqn:E;
    [| discriminate].
  intros [= <-]. apply find_some in E. destruct E as [_ E].
  apply andb_true_iff in E. destruct E as [_ E]. now apply String.eqb_eq in E.
Qed.

End WithHost.
End Pass1Facts.


(** ** Pass 2 of the graph assembler *)

Module Pass2Facts.
Import Js JsFacts GraphBuilder GraphSpec IdFacts Pass1Facts.

Lemma Frame_refl (st : BuildState) : Frame st st.
Proof. repeat split. Qed.

Lemma linkTarget_frame (st0 st : BuildState) (p : PendingLink) (t : string) :
  Frame st0 st -> Frame st0 (linkTarget p st t).
Proof. intros H. exact H. Qed.

Lemma pendingTargets_frame (st0 st : BuildState) (p : PendingLink) :
  Frame st0 st -> pendingTargets st p = pendingTargets st0 p.
Proof.
  intros [_ [Hids [Hkey [Hproj _]]]].
  unfold pendingTargets, declaredInScope. now rewrite Hids, Hkey, Hproj.
Qed.

Lemma pass2Step_frame (st0 st : BuildState) (p : PendingLink) :
  Frame st0 st -> Frame st0 (pass2Step st p).
Proof.
  intros H. unfold pass2Step. apply fold_left_invariant; [assumption |].
  intros st' t _ H'. now apply linkTarget_frame.
Qed.

Lemma mapSet_In {V : Type} (k : string) (v : V) (m : JsMap V) (x : string * V) :
  In x (mapSet k v m) -> x = (k, v) \/ In x m.
Proof.
  induction m as [| [k' v'] m IH]; simpl.
  - intros [<- | []]. now left.
  - destruct (k' =? k) eqn:E; simpl.
    + apply String.eqb_eq in E. subst k'. intros [<- | H]; [now left | right; now right].
    + intros [<- | H]; [right; now left |].
      destruct (IH H) as [-> | H']; [now left | right; now right].
Qed.

Lemma setIfAbsent_In {V : Type} (k : string) (v : V) (m : JsMap V) (x : string * V) :
  In x (setIfAbsent k v m) -> x = (k, v) \/ In x m.
Proof.
  unfold setIfAbsent. destruct (negb (mapHas k m)); [apply mapSet_In | now right].
Qed.

Lemma incrementAt_get (k t : string) (m : JsMap nat) (n : nat) :
  mapGet t (incrementAt k m) = Some n -> t = k \/ mapGet t m = Some n.
Proof.
  unfold incrementAt. rewrite mapGet_mapSet. destruct (k =? t) eqn:E.
  - apply String.eqb_eq in E. now left.
  - now right.
Qed.

(** *** What pass 2 writes comes from a pending link and one of its targets *)

Section Provenance.
Variable st0 : BuildState.
Variable pendings : list PendingLink.

Lemma relationEqb_eq (a b : GraphRelation) : relationEqb a b = true <-> a = b.
Proof. destruct a, b; simpl; split; congruence. Qed.

Lemma linkTarget_provenance (st : BuildState) (p : PendingLink) (t : string) :
  In p pendings -> In t (pendingTargets st0 p) -> Provenance st0 pendings st -> Provenance st0 pendings (linkTarget p st t).
Proof.
  intros Hp Ht [Hframe [Hcalls [Hanch Hedges]]].
  split; [exact Hframe |]. split; [| split].
  - intros t' n. cbn [linkTarget queryKeyToDeclareCallsites].
    unfold isDeclarationAnchorRecord.
    destruct (relationEqb (pl_relation p) Declares) eqn:E; [| apply Hcalls].
    apply relationEqb_eq in E. intros H. apply incrementAt_get in H.
    destruct H as [-> | H]; [exists p; auto | now apply (Hcalls _ n)].
  - intros t'. cbn [linkTarget setAnchoredQueryNodeIds].
    destruct (relationEqb (pl_relation p) Sets) eqn:E; cbn [andb]; [| apply Hanch].
    destruct (startsWith t "qk:"); cbn [andb]; [| apply Hanch].
    destruct (isSetAnchoredConcreteKey (pl_queryKey p)) eqn:Ea; [| apply Hanch].
    apply relationEqb_eq in E. intros H. apply setAdd_In in H.
    destruct H as [-> | H]; [exists p; auto | now apply Hanch].
  - intros e. cbn [linkTarget edgeMap]. intros H.
    apply in_map_iff in H. destruct H as [[k e'] [He Hin]]. cbn [snd] in He. subst e'.
    apply setIfAbsent_In in Hin. destruct Hin as [[= _ ->] | Hin].
    + right. exists p. cbn [edge_source edge_target]. auto.
    + apply Hedges. apply in_map_iff. now exists (k, e).
Qed.

Lemma pass2Step_provenance (st : BuildState) (p : PendingLink) :
  In p pendings -> Provenance st0 pendings st -> Provenance st0 pendings (pass2Step st p).
Proof.
  intros Hp Hst. unfold pass2Step.
  assert (Htargets : pendingTargets st p = pendingTargets st0 p).
  { apply pendingTargets_frame. apply Hst. }
  rewrite Htargets. apply fold_left_invariant; [assumption |].
  intros st' t Ht Hst'. now apply linkTarget_provenance.
Qed.

End Provenance.

Lemma pass2_provenance (st0 : BuildState) :
  queryKeyToDeclareCallsites st0 = [] ->
  setAnchoredQueryNodeIds st0 = [] ->
  (forall e, In e (map snd (edgeMap st0)) -> startsWith (edge_source e) "file:" = true) ->
  Provenance st0 (pendingActionToQueryLinks st0) (pass2 st0).
Proof.
  intros Hc Ha He. unfold pass2. apply fold_left_invariant.
  - split; [apply Frame_refl |]. split; [| split].
    + intros t n. rewrite Hc. discriminate.
    + intros t. rewrite Ha. intros [].
    + intros e Hin. left. now apply He.
  - intros st p Hp Hst. now apply pass2Step_provenance.
Qed.

(** *** A concrete [sets] record anchors each of its targets *)

Lemma linkTarget_anchored_mono (p : PendingLink) (st : BuildState) (t t' : string) :
  In t' (setAnchoredQueryNodeIds st) -> In t' (setAnchoredQueryNodeIds (linkTarget p st t)).
Proof.
  intros H. cbn [linkTarget setAnchoredQueryNodeIds].
  destruct (relationEqb (pl_relation p) Sets && startsWith t "qk:"
            && isSetAnchoredConcreteKey (pl_queryKey p)); [| assumption].
  apply setAdd_In. now right.
Qed.

Lemma links_anchored_mono (p : PendingLink) (ts : list string) (st : BuildState) (t' : string) :
  In t' (setAnchoredQueryNodeIds st) ->
  In t' (setAnchoredQueryNodeIds (fold_left (linkTarget p) ts st)).
Proof.
  revert st. induction ts as [| t ts IH]; intros st H; simpl; [assumption |].
  apply IH. now apply linkTarget_anchored_mono.
Qed.

Lemma links_anchor (p : PendingLink) (ts : list string) (st : BuildState) (t : string) :
  pl_relation p = Sets -> isSetAnchoredConcreteKey (pl_queryKey p) = true ->
  startsWith t "qk:" = true -> In t ts ->
  In t (setAnchoredQueryNodeIds (fold_left (linkTarget p) ts st)).
Proof.
  intros Hrel Hanch Hqk. revert st.
  induction ts as [| t0 ts IH]; intros st Hin; [destruct Hin |].
  destruct Hin as [<- | Hin]; simpl.
  - apply links_anchored_mono. cbn [linkTarget setAnchoredQueryNodeIds].
    rewrite Hrel, Hqk, Hanch. cbn [relationEqb andb]. apply setAdd_In. now left.
  - now apply IH.
Qed.

Lemma steps_anchored_mono (l : list PendingLink) (st : BuildState) (t' : string) :
  In t' (setAnchoredQueryNodeIds st) ->
  In t' (setAnchoredQueryNodeIds (fold_left pass2Step l st)).
Proof.
  revert st. induction l as [| p l IH]; intros st H; simpl; [assumption |].
  apply IH. unfold pass2Step. now apply links_anchored_mono.
Qed.

Lemma steps_anchor (st0 : BuildState) (l : list PendingLink) (st : BuildState)
    (p : PendingLink) (t : string) :
  Frame st0 st -> In p l ->
  pl_relation p = Sets -> isSetAnchoredConcreteKey (pl_queryKey p) = true ->
  startsWith t "qk:" = true -> In t (pendingTargets st0 p) ->
  In t (setAnchoredQueryNodeIds (fold_left pass2Step l st)).
Proof.
  intros Hframe Hin Hrel Hanch Hqk Ht. revert st Hframe.
  induction l as [| p0 l IH]; intros st Hframe; [destruct Hin |].
  simpl. destruct Hin as [-> | Hin].
  - apply steps_anchored_mono. unfold pass2Step.
    rewrite (pendingTargets_frame st0 st p Hframe). now apply links_anchor.
  - apply IH; [assumption |]. now apply pass2Step_frame.
Qed.

Lemma pass2_anchor (st0 : BuildState) (p : PendingLink) (t : string) :
  In p (pendingActionToQueryLinks st0) ->
  pl_relation p = Sets -> isSetAnchoredConcreteKey (pl_queryKey p) = true ->
  startsWith t "qk:" = true -> In t (pendingTargets st0 p) ->
  In t (setAnchoredQueryNodeIds (pass2 st0)).
Proof. intros. unfold pass2. eapply steps_anchor; eauto using Frame_refl. Qed.

Lemma pass2_frame (st0 : BuildState) : Frame st0 (pass2 st0).
Proof.
  unfold pass2. apply fold_left_invariant; [apply Frame_refl |].
  intros st p _ H. now apply pass2Step_frame.
Qed.

End Pass2Facts.


(** ** The graph [buildGraph] returns *)

Module GraphFacts.
Import Js JsFacts GraphBuilder GraphSpec IdFacts Pass1Facts Pass2Facts.

Section WithHost.
Context {env : HostEnv}.

(** *** Edges and nodes after pass 1 *)

Lemma step_edgeMap (st : BuildState) (index : nat) (record : QueryRecord) :
  edgeMap (pass1Step st (index, record))
  = let fileNodeId := makeFileNodeId (normalizeFilePath (rec_file record)) in
    let actionNodeId := makeActionNodeId record index in
    let edgeA := fileNodeId ++ "->" ++ actionNodeId ++ ":" ++ relationName (rec_relation record) in
    setIfAbsent edgeA
      {| edge_id := edgeA; edge_source := fileNodeId; edge_target := actionNodeId;
         edge_relation := rec_relation record; edge_resolution := rec_resolution record |}
      (edgeMap st).
Proof. reflexivity. Qed.

Lemma pass1_edges (records : list QueryRecord) (e : GraphEdge) :
  In e (map snd (edgeMap (pass1 records))) -> startsWith (edge_source e) "file:" = true.
Proof.
  revert e. unfold pass1.
  apply (fold_left_invariant
           (fun st => forall e, In e (map snd (edgeMap st)) -> startsWith (edge_source e) "file:" = true)).
  - intros e [].
  - intros st [index record] _ IH e. rewrite step_edgeMap. cbv zeta. intros H.
    apply in_map_iff in H. destruct H as [[k e'] [He Hin]]. cbn [snd] in He. subst e'.
    apply setIfAbsent_In in Hin. destruct Hin as [[= _ ->] | Hin].
    + cbn [edge_source]. apply file_source.
    + apply IH. apply in_map_iff. now exists (k, e).
Qed.

Lemma step_nodeMap (st : BuildState) (index : nat) (record : QueryRecord) :
  nodeMap (pass1Step st (index, record))
  = let absoluteFile := normalizeFilePath (rec_file record) in
    let displayFile := toDisplayPath absoluteFile in
    let projectScope := projectScopeForFile absoluteFile in
    let fileNodeId := makeFileNodeId absoluteFile in
    let actionNodeId := makeActionNodeId record index in
    let queryKeyNodeId := nodeIdOf record in
    let nodes2 :=
      setIfAbsent actionNodeId (actionNode actionNodeId record absoluteFile displayFile projectScope)
        (setIfAbsent fileNodeId (fileNode fileNodeId displayFile absoluteFile) (nodeMap st)) in
    if negb (isWildcardQueryKey record) && negb (mapHas queryKeyNodeId nodes2)
    then mapSet queryKeyNodeId (queryKeyNode queryKeyNodeId record) nodes2
    else nodes2.
Proof. reflexivity. Qed.

Lemma step_nodes_keyed (st : BuildState) (entry : nat * QueryRecord) :
  NodesKeyed (nodeMap st) -> NodesKeyed (nodeMap (pass1Step st entry)).
Proof.
  destruct entry as [index record]. intros IH. rewrite step_nodeMap. cbv zeta.
  set (nodes2 := setIfAbsent _ _ (setIfAbsent _ _ _)).
  assert (H2 : NodesKeyed nodes2).
  { intros k n Hin. unfold nodes2 in Hin.
    apply setIfAbsent_In in Hin. destruct Hin as [[= -> ->] | Hin].
    - split; [reflexivity |]. now rewrite action_source_not_qk.
    - apply setIfAbsent_In in Hin. destruct Hin as [[= -> ->] | Hin].
      + split; [reflexivity |]. now rewrite file_source_not_qk.
      + now apply IH. }
  destruct (negb (isWildcardQueryKey record) && negb (mapHas (nodeIdOf record) nodes2));
    [| assumption].
  intros k n Hin. apply mapSet_In in Hin. destruct Hin as [[= -> ->] | Hin].
  - split; reflexivity.
  - now apply H2.
Qed.

Lemma pass1_nodes_keyed (records : list QueryRecord) : NodesKeyed (nodeMap (pass1 records)).
Proof.
  unfold pass1. apply fold_left_invariant.
  - intros k n [].
  - intros st e _. apply step_nodes_keyed.
Qed.

Lemma mapHas_mapSet_mono {V : Type} (k k' : string) (v : V) (m : JsMap V) :
  mapHas k' m = true -> mapHas k' (mapSet k v m) = true.
Proof.
  unfold mapHas. rewrite mapGet_mapSet. destruct (k =? k'); [reflexivity | trivial].
Qed.

Lemma mapHas_setIfAbsent_mono {V : Type} (k k' : string) (v : V) (m : JsMap V) :
  mapHas k' m = true -> mapHas k' (setIfAbsent k v m) = true.
Proof.
  unfold setIfAbsent. destruct (negb (mapHas k m)); [apply mapHas_mapSet_mono | trivial].
Qed.

Lemma step_nodes_mono (st : BuildState) (entry : nat * QueryRecord) (k : string) :
  mapHas k (nodeMap st) = true -> mapHas k (nodeMap (pass1Step st entry)) = true.
Proof.
  destruct entry as [index record]. intros H. rewrite step_nodeMap. cbv zeta.
  set (nodes2 := setIfAbsent _ _ (setIfAbsent _ _ _)).
  assert (H2 : mapHas k nodes2 = true) by now apply mapHas_setIfAbsent_mono, mapHas_setIfAbsent_mono.
  destruct (negb (isWildcardQueryKey record) && negb (mapHas (nodeIdOf record) nodes2));
    [now apply mapHas_mapSet_mono | assumption].
Qed.

Lemma step_nodes_own (st : BuildState) (index : nat) (record : QueryRecord) :
  isWildcardQueryKey record = false ->
  mapHas (nodeIdOf record) (nodeMap (pass1Step st (index, record))) = true.
Proof.
  intros Hw. rewrite step_nodeMap. cbv zeta. rewrite Hw. cbn [negb andb].
  set (nodes2 := setIfAbsent _ _ (setIfAbsent _ _ _)).
  destruct (mapHas (nodeIdOf record) nodes2) eqn:E; cbn [negb]; [assumption |].
  unfold mapHas. now rewrite mapGet_mapSet_eq.
Qed.

Lemma pass1_nodes_own_from (l : list (nat * QueryRecord)) (st : BuildState)
    (entry : nat * QueryRecord) :
  In entry l -> isWildcardQueryKey (snd entry) = false ->
  mapHas (nodeIdOf (snd entry)) (nodeMap (fold_left pass1Step l st)) = true.
Proof.
  intros Hin Hw. revert st. induction l as [| e l IH]; intros st; [destruct Hin |].
  simpl. destruct Hin as [-> | Hin].
  - apply (fold_left_invariant (fun st' => mapHas (nodeIdOf (snd entry)) (nodeMap st') = true)).
    + destruct entry as [index record]. now apply step_nodes_own.
    + intros st' e' _. apply step_nodes_mono.
  - now apply IH.
Qed.

(** A record whose key is no wildcard has its query-key node after pass 1. *)
Lemma pass1_own_node (records : list QueryRecord) (record : QueryRecord) :
  In record records -> isWildcardQueryKey record = false ->
  exists n, In n (map snd (nodeMap (pass1 records)))
            /\ node_id n = nodeIdOf record /\ node_kind n = KQueryKey.
Proof.
  intros Hin Hw. apply In_nth_error in Hin. destruct Hin as [i Hi].
  apply indexed_In in Hi.
  pose proof (pass1_nodes_own_from (indexed records) emptyState (i, record) Hi Hw) as Hhas.
  apply mapHas_true in Hhas. destruct Hhas as [n Hn]. apply mapGet_In in Hn.
  destruct (pass1_nodes_keyed records _ _ Hn) as [Hid Hkind].
  exists n. split; [| split].
  - apply in_map_iff. now exists (nodeIdOf record, n).
  - assumption.
  - apply Hkind. apply startsWith_qk.
Qed.

(** *** The shape of the result *)

Lemma withMetrics_id (node : GraphNode) (updates : list (string * MetricValue)) :
  node_id (withMetrics node updates) = node_id node.
Proof. reflexivity. Qed.

Lemma assignMetrics_id (st : BuildState) (node : GraphNode) :
  node_id (assignMetrics st node) = node_id node.
Proof. unfold assignMetrics. now destruct (node_kind node). Qed.

Lemma assignMetrics_kind (st : BuildState) (node : GraphNode) :
  node_kind (assignMetrics st node) = node_kind node.
Proof. unfold assignMetrics. now destruct (node_kind node) eqn:E. Qed.

Lemma reassignMetrics_id (a b : JsMap JsSet) (node : GraphNode) :
  node_id (reassignMetrics a b node) = node_id node.
Proof. unfold reassignMetrics. now destruct (node_kind node). Qed.

Lemma reassignMetrics_kind (a b : JsMap JsSet) (node : GraphNode) :
  node_kind (reassignMetrics a b node) = node_kind node.
Proof. unfold reassignMetrics. now destruct (node_kind node) eqn:E. Qed.

Lemma declaredCallsites_assigned (st : BuildState) (node : GraphNode) :
  node_kind node = KQueryKey ->
  declaredCallsitesOf (assignMetrics st node)
  = match mapGet (node_id node) (queryKeyToDeclareCallsites st) with
    | Some n => n
    | None => 0
    end.
Proof.
  intros Hk. unfold assignMetrics. rewrite Hk.
  unfold declaredCallsitesOf, withMetrics. cbn [node_metrics fold_left fst snd].
  rewrite mapGet_mapSet_ne by discriminate. now rewrite mapGet_mapSet_eq.
Qed.

Lemma buildGraph_nodes (analysis : AnalysisResult) :
  exists a b,
    g_nodes (buildGraph analysis)
    = map (reassignMetrics a b)
          (survivingNodes (finalState (an_records analysis))
             (allNodesOf (finalState (an_records analysis)))).
Proof.
  unfold buildGraph. cbv zeta.
  destruct (fold_left (linkSurvivingEdge _) _ _) as [a b].
  destruct (fold_left (linkFilesAndKeys _) _ _) as [c d].
  now exists c, d.
Qed.

Lemma buildGraph_edges (analysis : AnalysisResult) :
  g_edges (buildGraph analysis)
  = survivingEdges (finalState (an_records analysis))
      (survivingNodes (finalState (an_records analysis))
         (allNodesOf (finalState (an_records analysis)))).
Proof.
  unfold buildGraph. cbv zeta.
  destruct (fold_left (linkSurvivingEdge _) _ _) as [a b].
  destruct (fold_left (linkFilesAndKeys _) _ _) as [c d].
  reflexivity.
Qed.

Lemma finalState_provenance (records : list QueryRecord) :
  Provenance (pass1 records) (map pendingOf (indexed records)) (finalState records).
Proof.
  rewrite <- pass1_pending. apply pass2_provenance.
  - apply pass1_callsites.
  - apply pass1_setAnchored.
  - apply pass1_edges.
Qed.

(** The targets of a pending link are declared nodes, or the link's own node. *)
Lemma pendingTargets_cases (records : list QueryRecord) (entry : nat * QueryRecord) (t : string) :
  In t (pendingTargets (pass1 records) (pendingOf entry)) ->
  (isWildcardQueryKey (snd entry) = false /\ t = nodeIdOf (snd entry))
  \/ (rec_relation (snd entry) <> Declares
      /\ In t (declaredQueryNodeIds (pass1 records))
      /\ declaredInScope (pass1 records) t (scopeOf (snd entry)) = true).
Proof.
  destruct entry as [index record]. unfold pendingTargets, pendingOf.
  cbn [pl_relation pl_queryKeyNodeId pl_wildcard pl_projectScope pl_queryKey snd].
  destruct (relationEqb (rec_relation record) Declares) eqn:Erel.
  - destruct (isWildcardQueryKey record); [intros [] |].
    intros [<- | []]. now left.
  - assert (Hrel : rec_relation record <> Declares).
    { intros H. rewrite H in Erel. discriminate. }
    destruct (isWildcardQueryKey record) eqn:Ew.
    + intros H. apply filter_In in H. right. tauto.
    + match goal with |- context [filter ?f ?l] => set (matched := filter f l) end.
      destruct (0 <? List.length matched)%nat.
      * intros H. unfold matched in H. apply filter_In in H. destruct H as [Hin Hf].
        right. split; [assumption |]. split; [assumption |].
        destruct (mapGet t (declaredQueryKeyByNodeId (pass1 records))); [| discriminate].
        now destruct (declaredInScope (pass1 records) t (scopeOf record)).
      * intros [<- | []]. now left.
Qed.

Lemma In_indexed_records {A : Type} (l : list A) (entry : nat * A) :
  In entry (indexed l) -> In (snd entry) l.
Proof.
  destruct entry as [i x]. intros H. apply indexed_In in H. now apply nth_error_In in H.
Qed.

Lemma declared_backed (records : list QueryRecord) (t : string) :
  In t (declaredQueryNodeIds (pass1 records)) -> backedByDeclares records t.
Proof.
  intros H. apply pass1_declaredIds in H. destruct H as [d [Hin [Hdecl Hid]]].
  unfold isDeclaring in Hdecl. apply andb_true_iff in Hdecl. destruct Hdecl as [Hw Hrel].
  exists d. repeat split; try assumption.
  - now apply relationEqb_eq in Hrel.
  - now destruct (isWildcardQueryKey d).
  - now symmetry.
Qed.

(** A query-key node survives the pruning only when the key is declared or
    concretely set. *)
Lemma surviving_queryKey_backed (records : list QueryRecord) (n : GraphNode) :
  In n (survivingNodes (finalState records) (allNodesOf (finalState records))) ->
  node_kind n = KQueryKey ->
  backedByDeclares records (node_id n) \/ backedByConcreteSets records (node_id n).
Proof.
  intros Hin Hkind.
  destruct (finalState_provenance records) as [_ [Hcalls [Hanch _]]].
  unfold survivingNodes in Hin. apply filter_In in Hin. destruct Hin as [_ Hkeep].
  rewrite Hkind in Hkeep. cbn [kindEqb negb orb] in Hkeep.
  apply setHas_In, setOfList_In, in_map_iff in Hkeep.
  destruct Hkeep as [n2 [Hid Hin2]].
  apply filter_In in Hin2. destruct Hin2 as [Hin2 Hdefined].
  apply filter_In in Hin2. destruct Hin2 as [Hin2 Hk2].
  unfold allNodesOf in Hin2. apply in_map_iff in Hin2. destruct Hin2 as [n0 [<- Hin0]].
  rewrite assignMetrics_kind in Hk2. rewrite assignMetrics_id in Hid, Hdefined.
  assert (Hk0 : node_kind n0 = KQueryKey) by now destruct (node_kind n0).
  rewrite declaredCallsites_assigned in Hdefined by assumption.
  rewrite <- Hid.
  assert (Hfrom : forall p, In p (map pendingOf (indexed records)) ->
            In (node_id n0) (pendingTargets (pass1 records) p) ->
            (pl_relation p = Declares \/
             (pl_relation p = Sets /\ isSetAnchoredConcreteKey (pl_queryKey p) = true)) ->
            backedByDeclares records (node_id n0) \/ backedByConcreteSets records (node_id n0)).
  { intros p Hp Ht Hrel. apply in_map_iff in Hp. destruct Hp as [entry [<- Hentry]].
    apply In_indexed_records in Hentry.
    destruct (pendingTargets_cases records entry _ Ht) as [[Hw Hown] | [Hnd [Hdecl _]]].
    - destruct entry as [index record]. cbn [snd] in *.
      cbn [pendingOf pl_relation pl_queryKey] in Hrel.
      destruct Hrel as [Hrel | [Hrel Hconcrete]].
      + left. exists record. auto.
      + right. exists record. auto 6.
    - left. now apply declared_backed. }
  destruct (mapGet (node_id n0) (queryKeyToDeclareCallsites (finalState records))) as [c |] eqn:Ec.
  - destruct (0 <? c)%nat eqn:Epos.
    + destruct (Hcalls _ _ Ec) as [p [Hp [Hrel Ht]]]. apply (Hfrom p); auto.
    + apply setHas_In in Hdefined. destruct (Hanch _ Hdefined) as [p [Hp [Hrel [Hc Ht]]]].
      apply (Hfrom p); auto.
  - cbn [Nat.ltb Nat.leb] in Hdefined.
    apply setHas_In in Hdefined. destruct (Hanch _ Hdefined) as [p [Hp [Hrel [Hc Ht]]]].
    apply (Hfrom p); auto.
Qed.

(** *** The declared nodes a concrete mutation key matches *)

Lemma matched_filter (records : list QueryRecord) (record : QueryRecord) (q : string) :
  In q (filter (fun queryKeyNodeId =>
                  match mapGet queryKeyNodeId (declaredQueryKeyByNodeId (pass1 records)) with
                  | None => false
                  | Some declaredQueryKey =>
                      if negb (declaredInScope (pass1 records) queryKeyNodeId (scopeOf record))
                      then false
                      else actionAffectsDeclaredQueryKey (rec_queryKey record) declaredQueryKey
                  end)
          (declaredQueryNodeIds (pass1 records)))
  <-> matchedIn records record q.
Proof.
  rewrite filter_In, pass1_declaredKey. unfold matchedIn.
  rewrite <- pass1_declaredInScope. split.
  - intros [Hin Hf]. destruct (declaredKeyOf records q) as [dk |]; [| discriminate].
    destruct (declaredInScope (pass1 records) q (scopeOf record)); [| discriminate].
    split; [reflexivity |]. now exists dk.
  - intros [Hscope [dk [Hdk Haff]]]. split.
    + apply pass1_declaredIds. apply pass1_declaredInScope in Hscope.
      destruct Hscope as [d [Hin [Hdecl [Hid _]]]]. now exists d.
    + now rewrite Hdk, Hscope.
Qed.

(** The targets of a mutation whose key is concrete: the declared nodes it
    matches in its scope, and its own node when it matches none. *)
Lemma concrete_targets (records : list QueryRecord) (index : nat) (record : QueryRecord) :
  rec_relation record <> Declares -> isWildcardQueryKey record = false ->
  let targets := pendingTargets (pass1 records) (pendingOf (index, record)) in
  ((exists q, matchedIn records record q) -> forall q, In q targets <-> matchedIn records record q)
  /\ ((forall q, ~ matchedIn records record q) -> targets = [nodeIdOf record]).
Proof.
  intros Hrel Hw. unfold pendingTargets, pendingOf.
  cbn [pl_relation pl_queryKeyNodeId pl_wildcard pl_projectScope pl_queryKey].
  destruct (relationEqb (rec_relation record) Declares) eqn:Erel.
  { apply relationEqb_eq in Erel. contradiction. }
  rewrite Hw. cbv zeta.
  match goal with |- context [filter ?f ?l] => set (matched := filter f l) end.
  assert (Hm : forall q, In q matched <-> matchedIn records record q)
    by (intros q; apply matched_filter).
  split.
  - intros [q0 Hq0]. apply Hm in Hq0.
    destruct matched as [| x matched']; [destruct Hq0 |]. exact Hm.
  - intros Hnone. destruct matched as [| x matched']; [reflexivity |].
    exfalso. apply (Hnone x). apply Hm. now left.
Qed.

(** The targets of a wildcard mutation: the nodes declared in its scope. *)
Lemma wildcard_targets (records : list QueryRecord) (index : nat) (record : QueryRecord) (q : string) :
  rec_relation record <> Declares -> isWildcardQueryKey record = true ->
  (In q (pendingTargets (pass1 records) (pendingOf (index, record)))
   <-> declaredIn records q (scopeOf record)).
Proof.
  intros Hrel Hw. unfold pendingTargets, pendingOf.
  cbn [pl_relation pl_queryKeyNodeId pl_wildcard pl_projectScope pl_queryKey].
  destruct (relationEqb (rec_relation record) Declares) eqn:Erel.
  { apply relationEqb_eq in Erel. contradiction. }
  rewrite Hw, filter_In, pass1_declaredInScope. split; [tauto |].
  intros H. split; [| assumption]. apply pass1_declaredIds.
  destruct H as [d [Hin [Hdecl [Hid _]]]]. now exists d.
Qed.

(** *** Edges leave the action node of the record they come from *)

Lemma edges_of_action (records : list QueryRecord) (index : nat) (record : QueryRecord)
    (e : GraphEdge) :
  nth_error records index = Some record ->
  In e (map snd (edgeMap (finalState records))) ->
  edge_source e = makeActionNodeId record index ->
  In (edge_target e) (pendingTargets (pass1 records) (pendingOf (index, record))).
Proof.
  intros Hnth Hin Hsrc.
  destruct (finalState_provenance records) as [_ [_ [_ Hedges]]].
  destruct (Hedges e Hin) as [Hfile | [p [Hp [Hsource Ht]]]].
  - rewrite Hsrc, action_source_not_file in Hfile. discriminate.
  - apply in_map_iff in Hp. destruct Hp as [[j r'] [<- Hentry]].
    cbn [pendingOf pl_actionNodeId] in Hsource.
    rewrite Hsrc in Hsource. apply makeActionNodeId_index in Hsource. subst j.
    apply indexed_In in Hentry. rewrite Hnth in Hentry. injection Hentry as <-.
    exact Ht.
Qed.

Lemma survivingEdges_In (st : BuildState) (nodes : list GraphNode) (e : GraphEdge) :
  In e (survivingEdges st nodes)
  <-> In e (map snd (edgeMap st))
      /\ In (edge_source e) (map node_id nodes) /\ In (edge_target e) (map node_id nodes).
Proof.
  unfold survivingEdges. rewrite filter_In, andb_true_iff, !setHas_In, !setOfList_In. tauto.
Qed.

(** A query-key node that a concrete [sets] record anchors survives the pruning. *)
Lemma anchored_node_survives (records : list QueryRecord) (n0 : GraphNode) :
  In n0 (map snd (nodeMap (pass1 records))) ->
  node_kind n0 = KQueryKey ->
  In (node_id n0) (setAnchoredQueryNodeIds (finalState records)) ->
  In (assignMetrics (finalState records) n0)
     (survivingNodes (finalState records) (allNodesOf (finalState records))).
Proof.
  intros Hin Hkind Hanch.
  assert (Hall : In (assignMetrics (finalState records) n0) (allNodesOf (finalState records))).
  { unfold allNodesOf. apply in_map.
    destruct (pass2_frame (pass1 records)) as [Hnodes _].
    unfold finalState. now rewrite Hnodes. }
  unfold survivingNodes. apply filter_In. split; [assumption |].
  rewrite assignMetrics_kind, Hkind. cbn [kindEqb negb orb].
  apply setHas_In, setOfList_In, in_map. apply filter_In. split.
  - apply filter_In. split; [assumption |]. now rewrite assignMetrics_kind, Hkind.
  - rewrite assignMetrics_id. apply setHas_In in Hanch. rewrite Hanch.
    now destruct (0 <? _)%nat.
Qed.

End WithHost.
End GraphFacts.


(** ** Segment compatibility *)

Module SegmentFacts.
Import Js JsFacts GraphBuilder GraphSpec.

Lemma segmentsCompatible_spec (left right : string) :
  segmentsCompatible left right = true <-> compatible left right.
Proof.
  unfold segmentsCompatible, compatible.
  destruct (left =? right) eqn:E.
  - apply String.eqb_eq in E. split; [now left | reflexivity].
  - apply String.eqb_neq in E.
    destruct (isDynamicSegment left), (isDynamicSegment right); cbn [orb];
      split; try reflexivity; try (intros _; auto; fail); try discriminate.
    intros [H | [H | H]]; [contradiction | discriminate | discriminate].
Qed.

Lemma forallb_seq_shift (f : nat -> bool) (n : nat) :
  forallb f (seq 1 n) = forallb (fun i => f (S i)) (seq 0 n).
Proof.
  rewrite <- seq_shift. generalize (seq 0 n) as l.
  induction l as [| i l IH]; simpl; [reflexivity | now rewrite IH].
Qed.

Lemma hasPrefixSegments_nil (value : list string) : hasPrefixSegments [] value = true.
Proof. unfold hasPrefixSegments. now destruct value. Qed.

Lemma hasPrefixSegments_cons_nil (x : string) (prefix : list string) :
  hasPrefixSegments (x :: prefix) [] = false.
Proof. reflexivity. Qed.

Lemma hasPrefixSegments_cons (x y : string) (prefix value : list string) :
  hasPrefixSegments (x :: prefix) (y :: value)
  = segmentsCompatible x y && hasPrefixSegments prefix value.
Proof.
  unfold hasPrefixSegments. cbn [List.length].
  change (S (List.length value) <? S (List.length prefix))%nat
    with (List.length value <? List.length prefix)%nat.
  destruct (List.length value <? List.length prefix)%nat; [now rewrite andb_false_r |].
  cbn [seq forallb nth]. now rewrite forallb_seq_shift.
Qed.

Lemma hasPrefixSegments_spec (prefix value : list string) :
  hasPrefixSegments prefix value = true <-> compatiblePrefix prefix value.
Proof.
  revert value. induction prefix as [| x prefix IH]; intros value.
  - rewrite hasPrefixSegments_nil. split; [| reflexivity].
    intros _. exists [], value. split; [reflexivity | constructor].
  - destruct value as [| y value].
    + rewrite hasPrefixSegments_cons_nil. split; [discriminate |].
      intros [front [rest [Heq H]]]. inversion H; subst. discriminate.
    + rewrite hasPrefixSegments_cons, andb_true_iff, segmentsCompatible_spec, IH. split.
      * intros [Hxy [front [rest [-> H]]]]. exists (y :: front), rest.
        split; [reflexivity | now constructor].
      * intros [front [rest [Heq H]]]. inversion H as [| x' y' l l' Hxy Hrest]; subst.
        injection Heq as -> ->. split; [assumption |]. now exists l', rest.
Qed.

Lemma exact_spec (mutation declared : list string) :
  (List.length mutation =? List.length declared)%nat && hasPrefixSegments mutation declared = true
  <-> compatibleExact mutation declared.
Proof.
  rewrite andb_true_iff, Nat.eqb_eq, hasPrefixSegments_spec. unfold compatibleExact. split.
  - intros [Hlen [front [rest [-> H]]]].
    pose proof (Forall2_length H) as Hl. rewrite length_app in Hlen.
    assert (rest = []) by (apply length_zero_iff_nil; lia). subst. now rewrite app_nil_r.
  - intros H. split; [exact (Forall2_length H) |].
    exists declared, []. now rewrite app_nil_r.
Qed.

Lemma length_eqb_zero {A : Type} (l : list A) : (List.length l =? 0)%nat = true <-> l = [].
Proof. destruct l; simpl; split; congruence. Qed.

(** The decision of [actionAffectsDeclaredQueryKey] for a concrete key that
    is matched by prefix or exactly. *)
Lemma actionAffects_concrete (action declared : NormalizedQueryKey) :
  key_id action <> "pass-through-query-key" ->
  key_source action <> SrcWildcard ->
  key_matchMode action <> MAll -> key_matchMode action <> MPredicate ->
  (actionAffectsDeclaredQueryKey action declared = true
   <-> key_id action = key_id declared
       \/ (normalizeComparableSegments action <> []
           /\ normalizeComparableSegments declared <> []
           /\ if matchModeEqb (key_matchMode action) MExact
              then compatibleExact (normalizeComparableSegments action)
                                   (normalizeComparableSegments declared)
              else compatiblePrefix (normalizeComparableSegments action)
                                    (normalizeComparableSegments declared))).
Proof.
  intros Hpass Hsrc Hall Hpred. unfold actionAffectsDeclaredQueryKey.
  apply String.eqb_neq in Hpass. rewrite Hpass.
  assert (Hw : isWildcardSource (key_source action) = false)
    by (destruct (key_source action); [reflexivity | reflexivity | contradiction]).
  assert (Ha : matchModeEqb (key_matchMode action) MAll = false)
    by (destruct (key_matchMode action); try reflexivity; contradiction).
  assert (Hp : matchModeEqb (key_matchMode action) MPredicate = false)
    by (destruct (key_matchMode action); try reflexivity; contradiction).
  rewrite Hw, Ha, Hp. cbn [orb].
  destruct (key_id action =? key_id declared) eqn:Eid.
  - apply String.eqb_eq in Eid. split; [now left | reflexivity].
  - apply String.eqb_neq in Eid. cbv zeta.
    set (a := normalizeComparableSegments action).
    set (d := normalizeComparableSegments declared).
    destruct (List.length a =? 0)%nat eqn:Ea; cbn [orb].
    + apply length_eqb_zero in Ea. split; [discriminate |].
      intros [H | [H _]]; contradiction.
    + destruct (List.length d =? 0)%nat eqn:Ed.
      * apply length_eqb_zero in Ed. split; [discriminate |].
        intros [H | [_ [H _]]]; contradiction.
      * assert (a <> []) by (intros H; apply length_eqb_zero in H; congruence).
        assert (d <> []) by (intros H'; apply length_eqb_zero in H'; congruence).
        destruct (matchModeEqb (key_matchMode action) MExact).
        -- rewrite exact_spec. split; [intros; right; auto |].
           intros [Hc | [_ [_ Hc]]]; [contradiction | assumption].
        -- rewrite hasPrefixSegments_spec. split; [intros; right; auto |].
           intros [Hc | [_ [_ Hc]]]; [contradiction | assumption].
Qed.

End SegmentFacts.

(** ** Sorting with a comparator *)

Module SortFacts.
Import Js.

Section WithComparator.
Variable A : Type.
Variable cmp : A -> A -> Z.

Lemma insertSorted_perm (x : A) (l : list A) : Permutation (insertSorted cmp x l) (x :: l).
Proof.
  induction l as [|y rest IH]; cbn [insertSorted].
  - apply Permutation_refl.
  - destruct (0 <? cmp y x)%Z.
    + apply Permutation_refl.
    + eapply perm_trans; [apply perm_skip, IH | apply perm_swap].
Qed.

Lemma sortBy_from_perm (l acc : list A) :
  Permutation (fold_left (fun acc x => insertSorted cmp x acc) l acc) (acc ++ l)%list.
Proof.
  revert acc; induction l as [|x rest IH]; intros acc; cbn [fold_left].
  - rewrite app_nil_r. apply Permutation_refl.
  - eapply perm_trans; [apply IH|].
    eapply perm_trans; [apply Permutation_app_tail, insertSorted_perm|].
    cbn [app]. apply Permutation_middle.
Qed.

Lemma sortBy_perm (l : list A) : Permutation (sortBy cmp l) l.
Proof. apply (sortBy_from_perm l []). Qed.

Lemma sortBy_In (l : list A) (x : A) : In x (sortBy cmp l) <-> In x l.
Proof.
  split; apply Permutation_in; [apply sortBy_perm | apply Permutation_sym, sortBy_perm].
Qed.

(** The comparator is an order on the elements that satisfy [dom]. *)
Variable dom : A -> Prop.
Hypothesis one_way_or_other : forall a b, dom a -> dom b -> (0 < cmp a b)%Z -> before cmp b a.
Hypothesis passes_on : forall a b c, dom a -> dom b -> dom c ->
  before cmp a b -> before cmp b c -> before cmp a c.

Lemma insertSorted_sorted (x : A) (l : list A) :
  dom x -> Forall dom l -> StronglySorted (before cmp) l ->
  StronglySorted (before cmp) (insertSorted cmp x l).
Proof.
  intros Hx Hdom Hsorted.
  induction Hsorted as [|y rest Hrest IH Hy]; cbn [insertSorted].
  - constructor; constructor.
  - inversion Hdom as [|? ? Hdy Hdrest]; subst.
    destruct (0 <? cmp y x)%Z eqn:Hcmp.
    + apply Z.ltb_lt in Hcmp.
      assert (Hxy : before cmp x y) by (apply one_way_or_other; assumption).
      constructor; [constructor; assumption|].
      constructor; [exact Hxy|].
      rewrite Forall_forall in Hy, Hdrest |- *.
      intros z Hz. apply (passes_on x y z); auto.
    + apply Z.ltb_ge in Hcmp.
      constructor; [apply IH; assumption|].
      rewrite Forall_forall in Hy |- *.
      intros z Hz.
      apply (Permutation_in _ (insertSorted_perm x rest)) in Hz.
      destruct Hz as [<- | Hz]; [exact Hcmp | apply Hy, Hz].
Qed.

Lemma insertSorted_dom (x : A) (l : list A) :
  dom x -> Forall dom l -> Forall dom (insertSorted cmp x l).
Proof.
  intros Hx Hl. rewrite Forall_forall in Hl |- *.
  intros z Hz. apply (Permutation_in _ (insertSorted_perm x l)) in Hz.
  destruct Hz as [<- | Hz]; auto.
Qed.

Lemma sortBy_from_sorted (l acc : list A) :
  Forall dom l -> Forall dom acc -> StronglySorted (before cmp) acc ->
  StronglySorted (before cmp) (fold_left (fun acc x => insertSorted cmp x acc) l acc).
Proof.
  revert acc; induction l as [|x rest IH]; intros acc Hl Hacc Hsorted; cbn [fold_left].
  - exact Hsorted.
  - inversion Hl; subst.
    apply IH; [assumption | apply insertSorted_dom; assumption
              | apply insertSorted_sorted; assumption].
Qed.

Lemma sortBy_sorted (l : list A) : Forall dom l -> StronglySorted (before cmp) (sortBy cmp l).
Proof. intros Hl. apply sortBy_from_sorted; [exact Hl | constructor | constructor]. Qed.

End WithComparator.

(** Two sorted arrangements of the same elements are the same list, when the
    comparator calls no two distinct elements equal. *)
Lemma sorted_unique {A : Type} (cmp : A -> A -> Z) (l1 l2 : list A) :
  (forall a b, In a l1 -> In b l1 -> before cmp a b -> before cmp b a -> a = b) ->
  StronglySorted (before cmp) l1 -> StronglySorted (before cmp) l2 ->
  Permutation l1 l2 -> l1 = l2.
Proof.
  intros Hanti Hs1; revert l2 Hanti.
  induction Hs1 as [|x rest1 Hrest1 IH Hx]; intros l2 Hanti Hs2 Hperm.
  - apply Permutation_nil in Hperm. now subst.
  - destruct Hs2 as [|y rest2 Hrest2 Hy].
    + apply Permutation_sym, Permutation_nil in Hperm. discriminate.
    + assert (Hxy : x = y).
      { assert (Hyin : In y (x :: rest1))
          by (apply (Permutation_in _ (Permutation_sym Hperm)); left; reflexivity).
        assert (Hxin : In x (y :: rest2)) by (apply (Permutation_in _ Hperm); left; reflexivity).
        destruct Hyin as [Heq | Hyin]; [exact Heq|].
        destruct Hxin as [Heq | Hxin]; [now symmetry|].
        rewrite Forall_forall in Hx, Hy.
        apply Hanti; [left; reflexivity | right; exact Hyin | apply Hx, Hyin | apply Hy, Hxin]. }
      subst y. f_equal.
      apply IH; [| exact Hrest2 | exact (Permutation_cons_inv Hperm)].
      intros a b Ha Hb. apply Hanti; right; assumption.
Qed.

(** Sorting forgets the order of the input, for such a comparator. *)
Lemma sortBy_permutation {A : Type} (cmp : A -> A -> Z) (l1 l2 : list A) :
  (forall a b, In a l1 -> In b l1 -> before cmp a b -> before cmp b a -> a = b) ->
  (forall a b, In a l1 -> In b l1 -> (0 < cmp a b)%Z -> before cmp b a) ->
  (forall a b c, In a l1 -> In b l1 -> In c l1 ->
     before cmp a b -> before cmp b c -> before cmp a c) ->
  Permutation l1 l2 -> sortBy cmp l1 = sortBy cmp l2.
Proof.
  intros Hanti Htotal Htrans Hperm.
  apply (sorted_unique cmp).
  - intros a b Ha Hb. apply Hanti; apply (sortBy_In _ cmp); assumption.
  - apply (sortBy_sorted A cmp (fun a => In a l1) Htotal Htrans).
    apply Forall_forall; auto.
  - apply (sortBy_sorted A cmp (fun a => In a l1) Htotal Htrans).
    apply Forall_forall. intros a Ha. apply (Permutation_in _ (Permutation_sym Hperm) Ha).
  - eapply perm_trans; [apply sortBy_perm|].
    eapply perm_trans; [exact Hperm | apply Permutation_sym, sortBy_perm].
Qed.

End SortFacts.

(** ** The returned identifier of a function *)

Module AstFacts.
Import Js Ast JsFacts.

Lemma firstSome_Some {A B : Type} (f : A -> option B) (l : list A) (y : B) :
  firstSome f l = Some y -> exists x, In x l /\ f x = Some y.
Proof.
  induction l as [|x rest IH]; cbn [firstSome]; [discriminate|].
  destruct (f x) as [found|] eqn:Hfx.
  - intros [= ->]. exists x. split; [left; reflexivity | exact Hfx].
  - intros Hrest. destruct (IH Hrest) as [x' [Hin Hx']]. exists x'. split; [right|]; assumption.
Qed.

Lemma lastDeclaratorOf_declared (name : string) (statements : list Node)
    (declarator : Node * option Node) :
  lastDeclaratorOf name statements = Some declarator -> In name (declaredNames statements).
Proof.
  unfold lastDeclaratorOf, declaredNames. intros Hfound.
  apply firstSome_Some in Hfound. destruct Hfound as [statement [Hin Hfind]].
  apply in_rev in Hin. apply in_flat_map. exists statement. split; [exact Hin|].
  destruct statement; try discriminate Hfind.
  apply find_some in Hfind. destruct Hfind as [Hdeclarator Hname].
  apply in_rev in Hdeclarator. apply in_flat_map. exists declarator. split; [exact Hdeclarator|].
  destruct (fst declarator); try discriminate Hname.
  apply String.eqb_eq in Hname. left. exact Hname.
Qed.

Lemma filter_length_mono {A : Type} (f g : A -> bool) (l : list A) :
  (forall x, g x = true -> f x = true) ->
  List.length (filter g l) <= List.length (filter f l).
Proof.
  intros Hle. induction l as [|x rest IH]; cbn [filter]; [apply Nat.le_refl|].
  destruct (g x) eqn:Hg.
  - rewrite (Hle x Hg). cbn [List.length]. lia.
  - destruct (f x); cbn [List.length]; lia.
Qed.

Lemma filter_length_lt {A : Type} (f g : A -> bool) (l : list A) (a : A) :
  (forall x, g x = true -> f x = true) ->
  In a l -> f a = true -> g a = false ->
  List.length (filter g l) < List.length (filter f l).
Proof.
  intros Hle Hin Hf Hg. induction l as [|x rest IH]; [destruct Hin|].
  pose proof (filter_length_mono f g rest Hle) as Hrest.
  cbn [filter]. destruct Hin as [-> | Hin].
  - rewrite Hf, Hg. cbn [List.length]. lia.
  - specialize (IH Hin). destruct (g x) eqn:Hgx.
    + rewrite (Hle x Hgx). cbn [List.length]. lia.
    + destruct (f x); cbn [List.length]; lia.
Qed.

(** Following a declared name that is not in [seen] leaves fewer names to follow. *)
Lemma unseenCount_setAdd (statements : list Node) (seen : JsSet) (name : string) :
  In name (declaredNames statements) -> setHas name seen = false ->
  unseenCount statements (setAdd name seen) < unseenCount statements seen.
Proof.
  intros Hdeclared Hunseen. unfold unseenCount.
  apply (filter_length_lt _ _ _ name); [| exact Hdeclared | now rewrite Hunseen |].
  - intros x. rewrite !negb_true_iff. intros Hx.
    destruct (setHas x seen) eqn:Hseen; [|reflexivity].
    apply setHas_In in Hseen.
    assert (Hadd : setHas x (setAdd name seen) = true)
      by (apply setHas_In, setAdd_In; right; exact Hseen).
    congruence.
  - rewrite negb_false_iff. apply setHas_In, setAdd_In. left. reflexivity.
Qed.

(** The result of [resolveReturnedIdentifierFromStatements] is that of any
    count of calls greater than the number of declared names not yet seen. *)
Lemma resolveReturnedIdentifier_enough (statements : list Node) (fuel fuel' : nat)
    (name : string) (seen : JsSet) :
  unseenCount statements seen < fuel -> unseenCount statements seen < fuel' ->
  resolveReturnedIdentifierFromStatements fuel name statements seen
  = resolveReturnedIdentifierFromStatements fuel' name statements seen.
Proof.
  revert fuel' name seen. induction fuel as [|fuel IH]; intros fuel' name seen Hfuel Hfuel';
    [lia|].
  destruct fuel' as [|fuel']; [lia|].
  cbn [resolveReturnedIdentifierFromStatements].
  destruct (setHas name seen) eqn:Hseen; [reflexivity|].
  destruct (lastDeclaratorOf name statements) as [[id [initNode|]]|] eqn:Hlast; try reflexivity.
  destruct (negb (isExpression initNode)); [reflexivity|].
  destruct (unwrapExpression initNode); try reflexivity.
  destruct (negb (_ =? name)); [|reflexivity].
  pose proof (unseenCount_setAdd statements seen name
                (lastDeclaratorOf_declared _ _ _ Hlast) Hseen) as Hless.
  rewrite (IH fuel') by lia. reflexivity.
Qed.

Lemma declaredNames_count (statements : list Node) :
  List.length (declaredNames statements) <= declaratorCount statements.
Proof.
  unfold declaredNames, declaratorCount, list_sum.
  induction statements as [|statement rest IH]; cbn [flat_map map fold_right List.length];
    [apply Nat.le_refl|].
  rewrite length_app.
  assert (Hhere : List.length
                    match statement with
                    | VariableDeclaration declarations =>
                        flat_map (fun declarator : Node * option Node =>
                                    match fst declarator with
                                    | Identifier name => [name]
                                    | _ => []
                                    end) declarations
                    | _ => []
                    end
                  <= match statement with
                     | VariableDeclaration declarations => List.length declarations
                     | _ => 0
                     end).
  { destruct statement; cbn [List.length]; try lia.
    induction declarations as [|declarator more IHmore]; cbn [flat_map List.length]; [lia|].
    rewrite length_app. destruct (fst declarator); cbn [List.length]; lia. }
  lia.
Qed.

(** [extractFunctionReturnExpression] follows the returned identifier as far
    as any larger count of calls would. *)
Lemma returned_identifier_followed (statements : list Node) (name : string) (fuel : nat) :
  2 + declaratorCount statements <= fuel ->
  resolveReturnedIdentifierFromStatements fuel name statements []
  = resolveReturnedIdentifierFromStatements (2 + declaratorCount statements) name statements [].
Proof.
  intros Hfuel.
  assert (Hcount : unseenCount statements [] <= declaratorCount statements).
  { unfold unseenCount. eapply Nat.le_trans; [apply List.filter_length_le | apply declaredNames_count]. }
  apply resolveReturnedIdentifier_enough; lia.
Qed.

End AstFacts.

(** ** The normalizer *)

Module NormalizerFacts.
Import Js Ast Normalizer NormalizerSpec JsFacts SortFacts.

(** *** The canonical entries of an object literal *)

Lemma mapDelete_absent {V : Type} (k : string) (m : JsMap V) :
  ~ In k (map fst m) -> mapDelete k m = m.
Proof.
  induction m as [|[k' v'] m IH]; cbn [mapDelete map fst]; [reflexivity|].
  intros Hnot. destruct (k' =? k) eqn:E.
  - apply String.eqb_eq in E. exfalso. apply Hnot. left. exact E.
  - rewrite IH; [reflexivity|]. intros Hin. apply Hnot. right. exact Hin.
Qed.

Lemma canonical_from (sortable acc : list (string * SegmentResult)) :
  NoDup (map fst sortable) ->
  (forall k, In k (map fst sortable) -> ~ In k (map fst acc)) ->
  fold_left (fun canonicalEntries entry =>
               if isUndefinedObjectValue (snd entry) then mapDelete (fst entry) canonicalEntries
               else mapSet (fst entry) (snd entry) canonicalEntries) sortable acc
  = (acc ++ filter keepsEntry sortable)%list.
Proof.
  revert acc; induction sortable as [|[k v] rest IH]; intros acc Hnodup Hfresh.
  - cbn [fold_left filter]. now rewrite app_nil_r.
  - cbn [map fst] in Hnodup. inversion Hnodup as [|? ? Hk Hrest]; subst.
    assert (Hkacc : ~ In k (map fst acc)) by (apply Hfresh; left; reflexivity).
    cbn [fold_left filter fst snd]. unfold keepsEntry at 1. cbn [snd].
    destruct (isUndefinedObjectValue v); cbn [negb].
    + rewrite mapDelete_absent by exact Hkacc.
      apply IH; [exact Hrest|]. intros k' Hk'. apply Hfresh. right. exact Hk'.
    + rewrite mapSet_fresh by (apply mapGet_keys; exact Hkacc).
      rewrite IH; [now rewrite <- app_assoc | exact Hrest |].
      intros k' Hk'. rewrite map_app, in_app_iff. cbn [map fst In].
      intros [Hin | [<- | []]]; [| exact (Hk Hk')].
      apply (Hfresh k'); [right; exact Hk' | exact Hin].
Qed.

Lemma canonical_filter (sortable : list (string * SegmentResult)) :
  NoDup (map fst sortable) -> canonicalEntriesOf sortable = filter keepsEntry sortable.
Proof.
  intros Hnodup. unfold canonicalEntriesOf.
  rewrite canonical_from; [reflexivity | exact Hnodup | intros k _ []].
Qed.

Lemma Permutation_filter {A : Type} (f : A -> bool) (l1 l2 : list A) :
  Permutation l1 l2 -> Permutation (filter f l1) (filter f l2).
Proof.
  induction 1 as [| x l l' _ IH | x y l | l l' l'' _ IH1 _ IH2]; cbn [filter].
  - constructor.
  - destruct (f x); [now constructor | exact IH].
  - destruct (f x), (f y); try apply Permutation_refl. apply perm_swap.
  - eapply perm_trans; eassumption.
Qed.

Lemma forallb_permutation {A : Type} (f : A -> bool) (l1 l2 : list A) :
  Permutation l1 l2 -> forallb f l1 = forallb f l2.
Proof.
  induction 1 as [| x l l' _ IH | x y l | l l' l'' _ IH1 _ IH2]; cbn [forallb].
  - reflexivity.
  - now rewrite IH.
  - destruct (f x), (f y); reflexivity.
  - congruence.
Qed.

Lemma NoDup_fst_inj {A B : Type} (l : list (A * B)) (a b : A * B) :
  NoDup (map fst l) -> In a l -> In b l -> fst a = fst b -> a = b.
Proof.
  induction l as [|x rest IH]; intros Hnodup Ha Hb Heq; [destruct Ha|].
  cbn [map] in Hnodup. inversion Hnodup as [|? ? Hx Hrest]; subst.
  destruct Ha as [<- | Ha], Hb as [<- | Hb].
  - reflexivity.
  - exfalso. apply Hx. rewrite Heq. now apply in_map.
  - exfalso. apply Hx. rewrite <- Heq. now apply in_map.
  - now apply IH.
Qed.

Lemma distinctb_NoDup (l : list string) : distinctb l = true -> NoDup l.
Proof.
  induction l as [|x rest IH]; cbn [distinctb]; [constructor|].
  rewrite andb_true_iff, negb_true_iff. intros [Hx Hrest].
  constructor; [|now apply IH].
  intros Hin. apply (setHas_In x rest) in Hin. unfold setHas in Hin. congruence.
Qed.

Lemma find_none_iff {A : Type} (f : A -> bool) (l : list A) :
  find f l = None <-> forall x, In x l -> f x = false.
Proof.
  split; [apply find_none|].
  induction l as [|y rest IH]; intros Hall; cbn [find]; [reflexivity|].
  rewrite (Hall y) by (left; reflexivity).
  apply IH. intros x Hx. apply Hall. right. exact Hx.
Qed.

Lemma findProperty_incl (properties properties' : list Node) (name : string) :
  incl properties' properties ->
  findProperty properties name = None -> findProperty properties' name = None.
Proof.
  unfold findProperty. rewrite !find_none_iff. intros Hincl Hall x Hx. apply Hall, Hincl, Hx.
Qed.

Section WithResolver.
Context {locale : Locale}.
Variable resolver : option QueryKeyResolver.

Lemma ordersKeysb_spec (keys : list string) : ordersKeysb keys = true -> OrdersKeys keys.
Proof.
  unfold ordersKeysb. rewrite forallb_forall. intros Hall.
  assert (Hpair : forall a b, In a keys -> In b keys ->
    implb ((localeCompare a b <=? 0)%Z && (localeCompare b a <=? 0)%Z) (a =? b) = true
    /\ implb (0 <? localeCompare a b)%Z (localeCompare b a <=? 0)%Z = true
    /\ forall c, In c keys ->
         implb ((localeCompare a b <=? 0)%Z && (localeCompare b c <=? 0)%Z)
               (localeCompare a c <=? 0)%Z = true).
  { intros a b Ha Hb. specialize (Hall a Ha). rewrite forallb_forall in Hall.
    specialize (Hall b Hb). rewrite !andb_true_iff, forallb_forall in Hall.
    destruct Hall as [[H1 H2] H3]. auto. }
  split.
  - intros a b Ha Hb Hab Hba. destruct (Hpair a b Ha Hb) as [H _].
    apply Z.leb_le in Hab, Hba. rewrite Hab, Hba in H. now apply String.eqb_eq.
  - intros a b Ha Hb Hab. destruct (Hpair a b Ha Hb) as [_ [H _]].
    apply Z.ltb_lt in Hab. rewrite Hab in H. now apply Z.leb_le.
  - intros a b c Ha Hb Hc Hab Hbc. destruct (Hpair a b Ha Hb) as [_ [_ H]].
    specialize (H c Hc). apply Z.leb_le in Hab, Hbc. rewrite Hab, Hbc in H. now apply Z.leb_le.
Qed.

(** *** The scan of the properties *)

Lemma scan_plain (deeper : Levels) (properties : list Node) (scan : ObjectScan) :
  Forall (fun property => isPlainProperty property = true) properties ->
  fold_left (scanProperty deeper) properties scan
  = {| entries :=
         (entries scan
          ++ map (fun property =>
                    objectEntryText (fst (entryOf deeper property))
                                    (text (snd (entryOf deeper property)))) properties)%list;
       sortableEntries := (sortableEntries scan ++ map (entryOf deeper) properties)%list;
       allStatic := allStatic scan && forallb (entryIsStatic deeper) properties;
       canCanonicalizeOrder := canCanonicalizeOrder scan |}.
Proof.
  intros Hplain; revert scan.
  induction Hplain as [|property rest Hproperty _ IH]; intros scan.
  - cbn [fold_left map forallb]. rewrite !app_nil_r, andb_true_r. now destruct scan.
  - destruct property; try discriminate Hproperty.
    cbn [fold_left]. rewrite IH.
    unfold scanProperty, entryIsStatic, entryOf.
    cbn [entries sortableEntries allStatic canCanonicalizeOrder map forallb fst snd].
    rewrite <- !app_assoc. cbn [app].
    rewrite !andb_assoc. reflexivity.
Qed.

Lemma segment_plain (deeper : Levels) (properties : list Node) :
  Forall (fun property => isPlainProperty property = true) properties ->
  segmentFromObjectExpression deeper properties
  = {| text := renderEntries
                 (sortBy keyCompare (canonicalEntriesOf (map (entryOf deeper) properties)));
       isStatic := forallb (entryIsStatic deeper) properties |}.
Proof.
  intros Hplain. unfold segmentFromObjectExpression.
  rewrite (scan_plain deeper properties _ Hplain).
  cbn [entries sortableEntries allStatic canCanonicalizeOrder app andb].
  rewrite !app_nil_l.
  destruct properties as [|property rest]; [reflexivity|].
  rewrite length_map. cbn [List.length Nat.eqb].
  unfold sortedEntryTextOf. rewrite length_map.
  fold keyCompare.
  destruct (sortBy keyCompare (canonicalEntriesOf (map (entryOf deeper) (property :: rest))));
    reflexivity.
Qed.


(** *** Order and undefined values *)

Lemma keyCompare_laws (entries : list (string * SegmentResult)) :
  NoDup (map fst entries) -> OrdersKeys (map fst entries) ->
  (forall a b, In a entries -> In b entries ->
     before keyCompare a b -> before keyCompare b a -> a = b)
  /\ (forall a b, In a entries -> In b entries ->
        (0 < keyCompare a b)%Z -> before keyCompare b a)
  /\ (forall a b c, In a entries -> In b entries -> In c entries ->
        before keyCompare a b -> before keyCompare b c -> before keyCompare a c).
Proof.
  intros Hnodup [Hequal Htotal Htrans]. unfold before, keyCompare.
  repeat split.
  - intros a b Ha Hb Hab Hba. apply (NoDup_fst_inj entries); auto.
    apply Hequal; auto using in_map.
  - intros a b Ha Hb. apply Htotal; auto using in_map.
  - intros a b c Ha Hb Hc. apply Htrans; auto using in_map.
Qed.

Lemma OrdersKeys_incl (keys keys' : list string) :
  incl keys' keys -> OrdersKeys keys -> OrdersKeys keys'.
Proof.
  intros Hincl [Hequal Htotal Htrans]. split.
  - intros a b Ha Hb. apply Hequal; auto.
  - intros a b Ha Hb. apply Htotal; auto.
  - intros a b c Ha Hb Hc. apply Htrans; auto.
Qed.

Lemma filter_keys_incl (entries : list (string * SegmentResult)) :
  incl (map fst (filter keepsEntry entries)) (map fst entries).
Proof.
  intros k Hk. apply in_map_iff in Hk. destruct Hk as [e [<- He]].
  apply filter_In in He. apply in_map. tauto.
Qed.

Lemma filter_keys_NoDup (entries : list (string * SegmentResult)) :
  NoDup (map fst entries) -> NoDup (map fst (filter keepsEntry entries)).
Proof.
  induction entries as [|e rest IH]; cbn [filter map]; [constructor|].
  intros Hnodup. inversion Hnodup as [|? ? He Hrest]; subst.
  destruct (keepsEntry e); [|now apply IH].
  cbn [map]. constructor; [|now apply IH].
  intros Hin. apply He. now apply filter_keys_incl.
Qed.

(** The segment of an object of plain properties is that of any
    rearrangement of them. *)
Lemma segment_permutation (deeper : Levels) (properties properties' : list Node) :
  Forall (fun property => isPlainProperty property = true) properties ->
  NoDup (map fst (map (entryOf deeper) properties)) ->
  OrdersKeys (map fst (map (entryOf deeper) properties)) ->
  Permutation properties properties' ->
  segmentFromObjectExpression deeper properties' = segmentFromObjectExpression deeper properties.
Proof.
  intros Hplain Hnodup Horders Hperm.
  assert (Hplain' : Forall (fun property => isPlainProperty property = true) properties').
  { rewrite Forall_forall in Hplain |- *. intros p Hp. apply Hplain.
    apply (Permutation_in _ (Permutation_sym Hperm) Hp). }
  assert (Hentries : Permutation (map (entryOf deeper) properties)
                                 (map (entryOf deeper) properties'))
    by now apply Permutation_map.
  assert (Hnodup' : NoDup (map fst (map (entryOf deeper) properties'))).
  { apply (Permutation_NoDup (l := map fst (map (entryOf deeper) properties)));
      [now apply Permutation_map | exact Hnodup]. }
  rewrite !segment_plain by assumption.
  rewrite !canonical_filter by assumption.
  f_equal; [| symmetry; now apply forallb_permutation].
  f_equal. symmetry.
  destruct (keyCompare_laws (filter keepsEntry (map (entryOf deeper) properties)))
    as [Hequal [Htotal Htrans]].
  - now apply filter_keys_NoDup.
  - apply (OrdersKeys_incl (map fst (map (entryOf deeper) properties)));
      [apply filter_keys_incl | exact Horders].
  - apply sortBy_permutation; try assumption. now apply Permutation_filter.
Qed.

(** The text of an object of plain properties is that of the object without
    one whose value is a static [undefined]. *)
Lemma segment_without_undefined (deeper : Levels) (front back : list Node) (property : Node) :
  Forall (fun p => isPlainProperty p = true) (front ++ property :: back) ->
  NoDup (map fst (map (entryOf deeper) (front ++ property :: back))) ->
  isUndefinedObjectValue (snd (entryOf deeper property)) = true ->
  text (segmentFromObjectExpression deeper (front ++ property :: back))
  = text (segmentFromObjectExpression deeper (front ++ back)).
Proof.
  intros Hplain Hnodup Hundefined.
  assert (Hplain' : Forall (fun p => isPlainProperty p = true) (front ++ back)).
  { rewrite Forall_forall in Hplain |- *. intros p Hp. apply Hplain.
    rewrite in_app_iff in Hp |- *. cbn [In]. tauto. }
  assert (Hnodup' : NoDup (map fst (map (entryOf deeper) (front ++ back)))).
  { rewrite !map_app in Hnodup |- *. cbn [map] in Hnodup.
    exact (NoDup_remove_1 _ _ _ Hnodup). }
  rewrite !segment_plain by assumption. cbn [text].
  rewrite !canonical_filter by assumption.
  rewrite !map_app, !filter_app. cbn [map filter].
  unfold keepsEntry at 2. rewrite Hundefined. reflexivity.
Qed.

(** The entries of the text are those the canonical form keeps, in order. *)
Lemma segment_sorted (deeper : Levels) (properties : list Node) :
  Forall (fun property => isPlainProperty property = true) properties ->
  NoDup (map fst (map (entryOf deeper) properties)) ->
  OrdersKeys (map fst (map (entryOf deeper) properties)) ->
  exists sorted,
    Permutation sorted (filter keepsEntry (map (entryOf deeper) properties))
    /\ StronglySorted keyOrder sorted
    /\ text (segmentFromObjectExpression deeper properties) = renderEntries sorted.
Proof.
  intros Hplain Hnodup Horders.
  exists (sortBy keyCompare (filter keepsEntry (map (entryOf deeper) properties))).
  destruct (keyCompare_laws (filter keepsEntry (map (entryOf deeper) properties)))
    as [_ [Htotal Htrans]].
  - now apply filter_keys_NoDup.
  - apply (OrdersKeys_incl (map fst (map (entryOf deeper) properties)));
      [apply filter_keys_incl | exact Horders].
  - split; [apply sortBy_perm|]. split.
    + apply (sortBy_sorted _ keyCompare
               (fun e => In e (filter keepsEntry (map (entryOf deeper) properties)))
               Htotal Htrans).
      apply Forall_forall; auto.
    + rewrite segment_plain by assumption. cbn [text].
      now rewrite canonical_filter.
Qed.


(** *** The levels *)

Lemma history_succ (n : nat) :
  history resolver (S n)
  = makeLevel resolver (fun k => nth k (history resolver n) capLevel) :: history resolver n.
Proof. reflexivity. Qed.

(** Below the cap a level is made of the bodies of the functions. *)
Lemma levelAt_below (depth : nat) :
  depth < MAX_RESOLVE_DEPTH -> levelAt resolver depth = makeLevel resolver (deeperAt resolver depth).
Proof.
  intros Hdepth. unfold levelAt, deeperAt.
  generalize MAX_RESOLVE_DEPTH Hdepth. clear Hdepth. intros cap Hdepth.
  destruct (cap - depth) as [|m] eqn:Hm; [lia|].
  replace (S m - 1) with m by lia.
  rewrite history_succ. reflexivity.
Qed.

(** The first level the functions of a depth call into is that of the next depth. *)
Lemma deeperAt_next (depth : nat) : deeperAt resolver depth 0 = levelAt resolver (S depth).
Proof.
  unfold levelAt, deeperAt.
  replace (MAX_RESOLVE_DEPTH - S depth) with (MAX_RESOLVE_DEPTH - depth - 1) by lia.
  now destruct (history resolver (MAX_RESOLVE_DEPTH - depth - 1)).
Qed.

Lemma levelAt_zero : topLevel resolver = makeLevel resolver (deeperAt resolver 0).
Proof. apply levelAt_below. unfold MAX_RESOLVE_DEPTH. lia. Qed.

Lemma deeperAt_zero_next : deeperAt resolver 0 0 = makeLevel resolver (deeperAt resolver 1).
Proof. rewrite deeperAt_next. apply levelAt_below. unfold MAX_RESOLVE_DEPTH. lia. Qed.

Lemma resolveWithResolver_object (properties : list Node) :
  resolveWithResolver (ObjectExpression properties) resolver = None.
Proof. unfold resolveWithResolver. now destruct resolver. Qed.

Lemma findObjectPropertyValue_none (properties : list Node) (name : string) :
  findProperty properties name = None -> findObjectPropertyValue properties name = None.
Proof. unfold findObjectPropertyValue. now intros ->. Qed.

(** *** Segments are never empty *)

Lemma orElse_nonempty (a b : string) : b <> "" -> orElse a b <> "".
Proof.
  unfold orElse. destruct (a =? "") eqn:E; [auto|].
  intros _ Ha. apply String.eqb_neq in E. contradiction.
Qed.

Lemma orElse_id (a b : string) : a <> "" -> orElse a b = a.
Proof. unfold orElse. intros Ha. apply String.eqb_neq in Ha. now rewrite Ha. Qed.

Lemma normalizeSegmentResult_nonempty (segment : SegmentResult) :
  text (normalizeSegmentResult segment) <> "".
Proof.
  unfold normalizeSegmentResult.
  set (normalized := orElse (text segment) UNRESOLVED_SEGMENT).
  assert (Hne : normalized <> "") by (apply orElse_nonempty; discriminate).
  destruct ((normalized =? "...spread") || (normalized =? "expr") || (normalized =? "call(expr)"));
    [discriminate|].
  destruct (isDollarQueryKey normalized); [discriminate | exact Hne].
Qed.

(** A text that opens with a brace is kept as it is. *)
Lemma normalizeSegmentResult_brace (rest : string) (static : bool) :
  normalizeSegmentResult {| text := String "{" rest; isStatic := static |}
  = {| text := String "{" rest; isStatic := static |}.
Proof. reflexivity. Qed.

Lemma renderEntries_brace (entries : list (string * SegmentResult)) :
  exists rest, renderEntries entries = String "{" rest.
Proof. destruct entries; eexists; reflexivity. Qed.

(** *** An object literal as the whole key *)

Lemma normalize_object (options : KeyOptions) (properties : list Node) :
  findProperty properties "queryKey" = None ->
  normalizeQueryKey resolver (Some (ObjectExpression properties)) options
  = keyOfSegment
      (normalizeSegmentResult (segmentFromObjectExpression (deeperAt resolver 1) properties))
      (orDefault (defaultMode options) MExact).
Proof.
  intros Hnone. apply findObjectPropertyValue_none in Hnone.
  unfold normalizeQueryKey. rewrite levelAt_zero.
  cbn [call_resolveQueryKeyExpression call_segmentFromExpression makeLevel].
  unfold resolveQueryKeyExpression at 1.
  cbn [unwrapExpression]. rewrite Hnone. cbn [orDefault].
  unfold segmentFromExpression. cbn [unwrapExpression].
  rewrite resolveWithResolver_object.
  unfold segmentOfShape. rewrite Hnone.
  rewrite deeperAt_zero_next. reflexivity.
Qed.


(** *** The keys [normalizeQueryKey] builds *)

Lemma normalizeSegmentResult_text (s1 s2 : SegmentResult) :
  text s1 = text s2 -> text (normalizeSegmentResult s1) = text (normalizeSegmentResult s2).
Proof.
  unfold normalizeSegmentResult. intros ->.
  set (normalized := orElse (text s2) UNRESOLVED_SEGMENT).
  destruct ((normalized =? "...spread") || (normalized =? "expr") || (normalized =? "call(expr)"));
    [reflexivity|].
  now destruct (isDollarQueryKey normalized).
Qed.

Lemma keyOfSegment_id (segment : SegmentResult) (mode : MatchMode) :
  key_id (keyOfSegment segment mode) = idOfSegments (key_segments (keyOfSegment segment mode)).
Proof.
  unfold keyOfSegment, idOfSegments. cbn [key_id key_segments join String.concat].
  symmetry. apply orElse_id. apply orElse_nonempty. discriminate.
Qed.

Lemma keyOfSegments_id (segments : list SegmentResult) (mode : MatchMode) :
  key_id (keyOfSegments segments mode)
  = idOfSegments (key_segments (keyOfSegments segments mode)).
Proof. reflexivity. Qed.

Lemma normalizeQueryKey_id (options : KeyOptions) (e : Node) :
  key_id (normalizeQueryKey resolver (Some e) options)
  = idOfSegments (key_segments (normalizeQueryKey resolver (Some e) options)).
Proof.
  unfold normalizeQueryKey.
  destruct (orDefault (call_resolveQueryKeyExpression (topLevel resolver) e) (unwrapExpression e));
    first [apply keyOfSegment_id | apply keyOfSegments_id].
Qed.


(** *** The key of a mutation *)

Lemma normalizeQueryKey_mode (mode : MatchMode) (e : Node) :
  key_matchMode (normalizeQueryKey resolver (Some e) (withMode mode)) = mode.
Proof.
  unfold normalizeQueryKey.
  destruct (orDefault (call_resolveQueryKeyExpression (topLevel resolver) e) (unwrapExpression e));
    reflexivity.
Qed.

Lemma unresolvedPassThrough_passThrough (node : option Node) (normalized : NormalizedQueryKey) :
  isUnresolvedPassThrough node normalized = true -> isPassThroughQueryKeyReference node = true.
Proof.
  unfold isUnresolvedPassThrough. rewrite !andb_true_iff. tauto.
Qed.

Lemma normalizeActionKeyOrWildcard_mode (mode : MatchMode) (keyNode : Node) :
  (collapsesToAllCache resolver keyNode mode = true ->
   normalizeActionKeyOrWildcard resolver (Some keyNode) (withMode mode)
   = buildAllQueryCacheKey Dynamic "ALL_QUERY_CACHE (unresolved key)")
  /\ (collapsesToAllCache resolver keyNode mode = false ->
      key_matchMode (normalizeActionKeyOrWildcard resolver (Some keyNode) (withMode mode)) = mode).
Proof.
  unfold collapsesToAllCache, normalizeActionKeyOrWildcard.
  cbn [defaultMode withMode orDefault].
  set (normalized := normalizeQueryKey resolver (Some keyNode) (withMode mode)).
  destruct (isUnresolvedPassThrough (Some keyNode) normalized) eqn:Hunresolved.
  - apply unresolvedPassThrough_passThrough in Hunresolved. rewrite Hunresolved.
    rewrite andb_false_r. split; [discriminate | reflexivity].
  - destruct (shouldTreatAsWildcardActionKey normalized) eqn:Hwild; cbn [andb].
    + destruct (isPassThroughQueryKeyReference (Some keyNode)); cbn [negb];
        split; try discriminate; reflexivity.
    + split; [discriminate|]. intros _. apply normalizeQueryKey_mode.
Qed.

Lemma predicate_key_mode (predicateNode : Node) (inferred : NormalizedQueryKey) :
  inferActionQueryKeyFromPredicate resolver predicateNode = Some inferred ->
  key_matchMode inferred = MPrefix.
Proof.
  unfold inferActionQueryKeyFromPredicate.
  destruct (if isFunction _ then _ else _) as [condition|]; [|discriminate].
  destruct (List.length _ =? 0)%nat; [discriminate|].
  destruct (constrainedSegments _ 0 _); [discriminate|].
  intros [= <-]. reflexivity.
Qed.

Lemma keyFromActionOptions_mode (properties : list Node) :
  (forall keyNode,
      findObjectPropertyValue properties "queryKey" = Some keyNode ->
      keyFromActionOptions resolver properties
      = normalizeActionKeyOrWildcard resolver (Some keyNode)
          (withMode (modeOfFlag (exactFlag properties))))
  /\ (forall predicateNode inferred,
        findObjectPropertyValue properties "queryKey" = None ->
        findObjectPropertyValue properties "predicate" = Some predicateNode ->
        inferActionQueryKeyFromPredicate resolver predicateNode = Some inferred ->
        keyFromActionOptions resolver properties
        = setMatchMode inferred (modeOfFlag (exactFlag properties))).
Proof.
  unfold keyFromActionOptions, exactFlag, modeOfFlag. split.
  - intros keyNode ->.
    destruct (readBooleanProperty properties "exact") as [[|]|]; reflexivity.
  - intros predicateNode inferred -> -> Hinferred. rewrite Hinferred.
    rewrite (predicate_key_mode _ _ Hinferred).
    destruct (readBooleanProperty properties "exact") as [[|]|]; reflexivity.
Qed.

Lemma inferActionQueryKey_options (method : string) (first : Node) (rest properties : list Node) :
  method <> "clear" -> method <> "setQueryData" ->
  isExpression first = true ->
  resolvesToOptions resolver first properties ->
  inferActionQueryKey resolver method (first :: rest) = keyFromActionOptions resolver properties.
Proof.
  intros Hclear Hset Hexpression Hoptions.
  unfold inferActionQueryKey.
  apply String.eqb_neq in Hclear, Hset. rewrite Hclear, Hset, Hexpression. cbn [negb].
  destruct Hoptions as [-> | [-> ->]]; reflexivity.
Qed.


End WithResolver.

(** *** The constraints of a predicate *)

Lemma constraintGet_In (index : nat) (constraints : Constraints) (segment : SegmentResult) :
  constraintGet index constraints = Some segment -> In (index, segment) constraints.
Proof.
  induction constraints as [|[i s] rest IH]; cbn [constraintGet]; [discriminate|].
  destruct (Nat.eqb_spec i index) as [-> | Hne].
  - intros [= ->]. left. reflexivity.
  - intros Hrest. right. apply IH, Hrest.
Qed.

Lemma constraintsFrom_next (index : nat) (constraints : Constraints) (segment : SegmentResult) :
  constraintGet index constraints = Some segment ->
  constraintsFrom (S index) constraints < constraintsFrom index constraints.
Proof.
  intros Hfound. apply constraintGet_In in Hfound. unfold constraintsFrom.
  apply (AstFacts.filter_length_lt _ _ _ (index, segment)); [| exact Hfound | |]; cbn [fst].
  - intros entry Hentry. apply Nat.leb_le in Hentry. apply Nat.leb_le. lia.
  - apply Nat.leb_refl.
  - apply Nat.leb_gt. lia.
Qed.

(** The loop over the indexes stops before the count of tried indexes does. *)
Lemma constrainedSegments_enough (constraints : Constraints) (count count' index : nat) :
  constraintsFrom index constraints < count -> constraintsFrom index constraints < count' ->
  constrainedSegments count index constraints = constrainedSegments count' index constraints.
Proof.
  revert count' index. induction count as [|count IH]; intros count' index Hcount Hcount'; [lia|].
  destruct count' as [|count']; [lia|].
  cbn [constrainedSegments].
  destruct (constraintGet index constraints) as [segment|] eqn:Hfound; [|reflexivity].
  pose proof (constraintsFrom_next index constraints segment Hfound) as Hnext.
  rewrite (IH count' (S index)) by lia. reflexivity.
Qed.

Lemma constrainedSegments_all (constraints : Constraints) (count : nat) :
  List.length constraints < count ->
  constrainedSegments count 0 constraints
  = constrainedSegments (S (List.length constraints)) 0 constraints.
Proof.
  intros Hcount.
  assert (Hfrom : constraintsFrom 0 constraints <= List.length constraints)
    by apply List.filter_length_le.
  apply constrainedSegments_enough; lia.
Qed.

(** *** Past the cap

    [segmentFromObjectExpression] and [segmentsFromArrayElement] go, past the
    cap, through the spread arguments of the node only: a nesting of the size
    of the node is enough, and a larger one changes nothing. *)

Lemma nodeSize_unwrapExpression (e : Node) : nodeSize (unwrapExpression e) <= nodeSize e.
Proof.
  induction e; cbn [unwrapExpression]; try apply Nat.le_refl;
    (eapply Nat.le_trans; [eassumption|]);
    match goal with
    | |- nodeSize ?inner <= nodeSize ?outer => change (nodeSize outer) with (S (nodeSize inner))
    end; lia.
Qed.

Lemma nodeSize_In (nodes : list Node) (node : Node) :
  In node nodes -> nodeSize node <= list_sum (map nodeSize nodes).
Proof.
  unfold list_sum.
  induction nodes as [|x rest IH]; intros Hin; [destruct Hin|].
  cbn [map fold_right]. destruct Hin as [<- | Hin]; [lia|].
  specialize (IH Hin). lia.
Qed.

Lemma nodeSize_ObjectExpression (properties : list Node) :
  nodeSize (ObjectExpression properties) = S (list_sum (map nodeSize properties)).
Proof. reflexivity. Qed.

Lemma nodeSize_SpreadElement (argument : Node) :
  nodeSize (SpreadElement argument) = S (nodeSize argument).
Proof. reflexivity. Qed.

Lemma nodeSize_ArrayExpression (elements : list (option Node)) :
  nodeSize (ArrayExpression elements) = S (list_sum (map elementSize elements)).
Proof. reflexivity. Qed.

Lemma elementSize_In (elements : list (option Node)) (element : option Node) :
  In element elements -> elementSize element <= list_sum (map elementSize elements).
Proof.
  unfold list_sum.
  induction elements as [|x rest IH]; intros Hin; [destruct Hin|].
  cbn [map fold_right]. destruct Hin as [<- | Hin]; [lia|].
  specialize (IH Hin). lia.
Qed.

Lemma fold_left_ext_in {A B : Type} (f g : A -> B -> A) (l : list B) (a : A) :
  (forall x, In x l -> forall acc, f acc x = g acc x) -> fold_left f l a = fold_left g l a.
Proof.
  revert a; induction l as [|x rest IH]; intros a Hall; cbn [fold_left]; [reflexivity|].
  rewrite (Hall x) by (left; reflexivity). apply IH. intros y Hy. apply Hall. right. exact Hy.
Qed.

Lemma flat_map_ext_in {A B : Type} (f g : A -> list B) (l : list A) :
  (forall x, In x l -> f x = g x) -> flat_map f l = flat_map g l.
Proof.
  induction l as [|x rest IH]; intros Hall; cbn [flat_map]; [reflexivity|].
  rewrite (Hall x) by (left; reflexivity). f_equal. apply IH.
  intros y Hy. apply Hall. right. exact Hy.
Qed.

Section Capped.
Context {locale : Locale}.

Lemma capped_segmentFromExpression (nesting : nat) :
  call_segmentFromExpression (cappedLevel nesting) = fun _ => exprSegment.
Proof. now destruct nesting. Qed.

Lemma capped_resolveQueryKeyExpression (nesting : nat) :
  call_resolveQueryKeyExpression (cappedLevel nesting) = fun _ => None.
Proof. now destruct nesting. Qed.

Lemma capped_nesting_enough (nesting nesting' : nat) :
  (forall properties,
      nodeSize (ObjectExpression properties) <= nesting ->
      nodeSize (ObjectExpression properties) <= nesting' ->
      call_segmentFromObjectExpression (cappedLevel nesting) properties
      = call_segmentFromObjectExpression (cappedLevel nesting') properties)
  /\ (forall segment,
        nodeSize (ArrayExpression [segment]) <= nesting ->
        nodeSize (ArrayExpression [segment]) <= nesting' ->
        call_segmentsFromArrayElement (cappedLevel nesting) segment
        = call_segmentsFromArrayElement (cappedLevel nesting') segment).
Proof.
  revert nesting'. induction nesting as [|inner IH]; intros nesting'.
  { split; intros x Hsize; [rewrite nodeSize_ObjectExpression in Hsize
                           | rewrite nodeSize_ArrayExpression in Hsize]; lia. }
  destruct nesting' as [|inner'].
  { split; intros x _ Hsize; [rewrite nodeSize_ObjectExpression in Hsize
                             | rewrite nodeSize_ArrayExpression in Hsize]; lia. }
  destruct (IH inner') as [IHobject IHarray].
  cbn [cappedLevel cappedWith call_segmentFromObjectExpression call_segmentsFromArrayElement].
  split.
  - intros properties Hsize Hsize'. rewrite nodeSize_ObjectExpression in Hsize, Hsize'.
    unfold segmentFromObjectExpression.
    rewrite (fold_left_ext_in (scanProperty (fun _ => cappedLevel inner))
                              (scanProperty (fun _ => cappedLevel inner'))); [reflexivity|].
    intros property Hin scan. pose proof (nodeSize_In properties property Hin) as Hproperty.
    unfold scanProperty, objectPropertyKeySegment, below.
    rewrite !capped_segmentFromExpression, !capped_resolveQueryKeyExpression.
    destruct property; try reflexivity.
    rewrite nodeSize_SpreadElement in Hproperty.
    destruct (negb (isExpression property)); [reflexivity|].
    cbn [orDefault].
    pose proof (nodeSize_unwrapExpression property) as Hunwrap.
    remember (unwrapExpression property) as source eqn:Hsource in *.
    destruct source; try reflexivity.
    rewrite nodeSize_ObjectExpression in Hunwrap.
    rewrite IHobject by (rewrite nodeSize_ObjectExpression; lia). reflexivity.
  - intros segment Hsize Hsize'. rewrite nodeSize_ArrayExpression in Hsize, Hsize'.
    cbn [map list_sum fold_right elementSize] in Hsize, Hsize'.
    unfold segmentsFromArrayElement.
    rewrite !capped_segmentFromExpression, !capped_resolveQueryKeyExpression.
    destruct segment as [element|]; [|reflexivity].
    destruct element; try reflexivity.
    cbn [elementSize] in Hsize, Hsize'. rewrite nodeSize_SpreadElement in Hsize, Hsize'.
    destruct (negb (isExpression element)); [reflexivity|].
    cbn [orDefault].
    pose proof (nodeSize_unwrapExpression element) as Hunwrap.
    remember (unwrapExpression element) as source eqn:Hsource in *.
    destruct source; try reflexivity.
    rewrite nodeSize_ArrayExpression in Hunwrap.
    rewrite (flat_map_ext_in (call_segmentsFromArrayElement (cappedLevel inner))
                             (call_segmentsFromArrayElement (cappedLevel inner'))); [reflexivity|].
    intros nested Hin. pose proof (elementSize_In _ nested Hin) as Hnested.
    apply IHarray; rewrite nodeSize_ArrayExpression; cbn [map list_sum fold_right]; lia.
Qed.

End Capped.
End NormalizerFacts.

(** ** The resolver *)

Module ResolverFacts.
Import Js Ast Resolver ResolverSpec JsFacts.

(** *** Computations that return *)

Lemma incl_setAdd (key : string) (seen : JsSet) : incl seen (setAdd key seen).
Proof.
  unfold setAdd. destruct (setHas key seen); [apply incl_refl|].
  intros x Hx. apply in_or_app. left. exact Hx.
Qed.

Lemma Returns_ret {A : Type} (x : A) : Returns (ret x).
Proof. intros seen. exists x, seen. split; [reflexivity | apply incl_refl]. Qed.

Lemma Returns_bind {A B : Type} (m : Resolving A) (k : A -> Resolving B) :
  Returns m -> (forall x, Returns (k x)) -> Returns (bind m k).
Proof.
  intros Hm Hk seen. unfold bind.
  destruct (Hm seen) as [x [seen1 [-> Hincl1]]].
  destruct (Hk x seen1) as [y [seen2 [-> Hincl2]]].
  exists y, seen2. split; [reflexivity | eapply incl_tran; eassumption].
Qed.

Lemma Returns_guarded (key : string) (body : Resolving (option Node)) :
  Returns body -> Returns (guarded key body).
Proof.
  intros Hbody seen. unfold guarded. destruct (setHas key seen).
  - exists None, seen. split; [reflexivity | apply incl_refl].
  - destruct (Hbody (setAdd key seen)) as [result [seen' [-> Hincl]]].
    exists result, seen'. split; [reflexivity|].
    eapply incl_tran; [apply incl_setAdd | exact Hincl].
Qed.

(** A guarded function leaves its key in the [seen] set. *)
Lemma guarded_marks (key : string) (body : Resolving (option Node)) (seen seen' : JsSet)
    (result : option Node) :
  Returns body -> guarded key body seen = Returned result seen' -> setHas key seen' = true.
Proof.
  intros Hbody. unfold guarded. destruct (setHas key seen) eqn:Hseen.
  - intros [= _ <-]. exact Hseen.
  - destruct (Hbody (setAdd key seen)) as [r [s [-> Hincl]]]. intros [= _ <-].
    apply setHas_In, Hincl, setAdd_In. left. reflexivity.
Qed.

Lemma Returns_firstSomeM {A B : Type} (f : A -> Resolving (option B)) (l : list A) :
  (forall x, Returns (f x)) -> Returns (firstSomeM f l).
Proof.
  intros Hf. induction l as [|x rest IH]; cbn [firstSomeM].
  - apply Returns_ret.
  - apply Returns_bind; [apply Hf|]. intros [y|]; [apply Returns_ret | exact IH].
Qed.

(** One step of a proof that a computation returns: a [return], a sequence,
    a guard, a loop, a call, or a case of the program. *)
Ltac returns_call Hcalls :=
  first
    [ apply (returns_resolveExportValue _ _ Hcalls)
    | apply (returns_resolveExportFunctionReturn _ _ Hcalls)
    | apply (returns_resolveLocalValue _ _ Hcalls)
    | apply (returns_resolveLocalFunctionReturn _ _ Hcalls)
    | apply (returns_resolveObjectPropertyValue _ _ Hcalls)
    | apply (returns_resolveReferenceInternal _ _ Hcalls)
    | apply (returns_resolveCallResultInternal _ _ Hcalls) ]; lia.

Ltac returns_step Hcalls :=
  match goal with
  | |- Returns (ret _) => apply Returns_ret
  | |- Returns (bind _ _) => apply Returns_bind; [|intros]
  | |- Returns (guarded _ _) => apply Returns_guarded
  | |- Returns (firstSomeM _ _) => apply Returns_firstSomeM; intros
  | |- Returns (match ?x with _ => _ end) => destruct x
  | |- Returns _ => returns_call Hcalls
  end.

(** *** Computations that agree *)

Lemma Same_refl {A : Type} (m : Resolving A) : Same m m.
Proof. intros seen. reflexivity. Qed.

Lemma Same_bind {A B : Type} (m m' : Resolving A) (k k' : A -> Resolving B) :
  Same m m' -> (forall x, Same (k x) (k' x)) -> Same (bind m k) (bind m' k').
Proof.
  intros Hm Hk seen. unfold bind. rewrite (Hm seen).
  destruct (m' seen) as [x seen'|]; [apply Hk | reflexivity].
Qed.

Lemma Same_guarded (key : string) (body body' : Resolving (option Node)) :
  Same body body' -> Same (guarded key body) (guarded key body').
Proof. intros Hbody seen. unfold guarded. now rewrite (Hbody (setAdd key seen)). Qed.

Lemma Same_firstSomeM {A B : Type} (f f' : A -> Resolving (option B)) (l : list A) :
  (forall x, Same (f x) (f' x)) -> Same (firstSomeM f l) (firstSomeM f' l).
Proof.
  intros Hf. induction l as [|x rest IH]; cbn [firstSomeM].
  - apply Same_refl.
  - apply Same_bind; [apply Hf|]. intros [y|]; [apply Same_refl | exact IH].
Qed.

Ltac same_call Hagree :=
  first
    [ apply (agree_resolveExportValue _ _ _ Hagree)
    | apply (agree_resolveExportFunctionReturn _ _ _ Hagree)
    | apply (agree_resolveLocalValue _ _ _ Hagree)
    | apply (agree_resolveLocalFunctionReturn _ _ _ Hagree)
    | apply (agree_resolveObjectPropertyValue _ _ _ Hagree)
    | apply (agree_resolveReferenceInternal _ _ _ Hagree)
    | apply (agree_resolveCallResultInternal _ _ _ Hagree) ]; lia.

Ltac same_step Hagree :=
  match goal with
  | |- Same (ret _) (ret _) => apply Same_refl
  | |- Same (bind _ _) (bind _ _) => apply Same_bind; [|intros]
  | |- Same (guarded _ _) (guarded _ _) => apply Same_guarded
  | |- Same (firstSomeM _ _) (firstSomeM _ _) => apply Same_firstSomeM; intros
  | |- Same (match ?x with _ => _ end) (match ?x with _ => _ end) => destruct x
  | |- Same _ _ => same_call Hagree
  end.

Section WithIndex.
Context {host : ResolverHost}.
Variable index : SymbolIndex.
Variable root : string.

Section Bodies.
Variable calls : Calls.
Variable depth : nat.
Hypothesis Hcalls : ReturnFrom calls (S depth).

Lemma returns_throughReExports (again : string -> string -> Resolving (option Node))
    (targetFile exportName : string) (symbols : FileSymbols) :
  (forall file name, Returns (again file name)) ->
  Returns (throughReExports index root again targetFile exportName symbols).
Proof.
  intros Hagain. unfold throughReExports.
  repeat first [apply Hagain | returns_step Hcalls].
Qed.

Lemma returns_resolveImportedValue (fromFile : string) (binding : ImportBinding) (d : nat) :
  depth <= d -> Returns (resolveImportedValue index root calls fromFile binding d).
Proof. intros Hd. unfold resolveImportedValue. repeat returns_step Hcalls. Qed.

Lemma returns_resolveImportedFunctionReturn (fromFile : string) (binding : ImportBinding)
    (d : nat) :
  depth <= d -> Returns (resolveImportedFunctionReturn index root calls fromFile binding d).
Proof. intros Hd. unfold resolveImportedFunctionReturn. repeat returns_step Hcalls. Qed.

Lemma returns_resolveNamespaceMember (fromFile namespaceName memberName : string) (d : nat) :
  depth <= d -> Returns (resolveNamespaceMember index root calls fromFile namespaceName memberName d).
Proof. intros Hd. unfold resolveNamespaceMember. repeat returns_step Hcalls. Qed.

Lemma returns_expressionToLiteralString (fromFile : string) (expression : Node) :
  Returns (expressionToLiteralString calls fromFile expression depth).
Proof. unfold expressionToLiteralString. repeat returns_step Hcalls. Qed.

Lemma returns_propertyNameFromMemberExpression (fromFile : string) (property : Node)
    (computed : bool) :
  Returns (propertyNameFromMemberExpression calls fromFile property computed depth).
Proof.
  unfold propertyNameFromMemberExpression.
  repeat first [apply returns_expressionToLiteralString | returns_step Hcalls].
Qed.

Lemma returns_propertyThroughCall (fromFile : string) (callCallee : Node) (callArgs : list Node)
    (propertyName : string) :
  Returns (propertyThroughCall calls fromFile callCallee callArgs propertyName depth).
Proof. unfold propertyThroughCall. repeat returns_step Hcalls. Qed.

Lemma returns_returnOf (fromFile : string) (resolved : Node) :
  Returns (returnOf calls fromFile resolved depth).
Proof. unfold returnOf. repeat returns_step Hcalls. Qed.

Lemma returns_body_resolveExportValue (targetFile exportName : string) :
  Returns (resolveExportValue index root calls targetFile exportName depth).
Proof.
  unfold resolveExportValue.
  repeat first [apply returns_throughReExports; intros | returns_step Hcalls].
Qed.

Lemma returns_body_resolveExportFunctionReturn (targetFile exportName : string) :
  Returns (resolveExportFunctionReturn index root calls targetFile exportName depth).
Proof.
  unfold resolveExportFunctionReturn.
  repeat first [apply returns_throughReExports; intros | returns_step Hcalls].
Qed.

Lemma returns_body_resolveLocalValue (fromFile localName : string) :
  Returns (resolveLocalValue index root calls fromFile localName depth).
Proof.
  unfold resolveLocalValue.
  repeat first [apply returns_resolveImportedValue; lia | returns_step Hcalls].
Qed.

Lemma returns_body_resolveLocalFunctionReturn (fromFile localName : string) :
  Returns (resolveLocalFunctionReturn index root calls fromFile localName depth).
Proof.
  unfold resolveLocalFunctionReturn.
  repeat first [apply returns_resolveImportedFunctionReturn; lia | returns_step Hcalls].
Qed.

Lemma returns_body_resolveObjectPropertyValue (fromFile : string) (properties : list Node)
    (propertyName : string) :
  Returns (resolveObjectPropertyValue calls fromFile properties propertyName depth).
Proof. unfold resolveObjectPropertyValue. repeat returns_step Hcalls. Qed.

Lemma returns_body_resolveReferenceInternal (fromFile : string) (expression : Node) :
  Returns (resolveReferenceInternal index root calls fromFile expression depth).
Proof.
  unfold resolveReferenceInternal.
  repeat first [ apply returns_propertyNameFromMemberExpression
               | apply returns_propertyThroughCall
               | apply returns_resolveNamespaceMember; lia
               | returns_step Hcalls ].
Qed.

Lemma returns_body_resolveCallResultInternal (fromFile : string) (callee : Node) :
  Returns (resolveCallResultInternal index root calls fromFile callee depth).
Proof.
  unfold resolveCallResultInternal.
  repeat first [ apply returns_returnOf
               | apply returns_resolveNamespaceMember; lia
               | returns_step Hcalls ].
Qed.

(** Below the cap, each function that records a key leaves it in the set. *)
Lemma marks_resolveExportValue (file name : string) (seen seen' : JsSet)
    (result : option Node) :
  depth <= MAX_DEPTH ->
  resolveExportValue index root calls file name depth seen = Returned result seen' ->
  setHas (exportValueKey file name) seen' = true.
Proof.
  intros Hdepth. unfold resolveExportValue, exportValueKey.
  rewrite (proj2 (Nat.ltb_ge _ _) Hdepth). apply guarded_marks.
  repeat first [apply returns_throughReExports; intros | returns_step Hcalls].
Qed.

Lemma marks_resolveExportFunctionReturn (file name : string) (seen seen' : JsSet)
    (result : option Node) :
  depth <= MAX_DEPTH ->
  resolveExportFunctionReturn index root calls file name depth seen = Returned result seen' ->
  setHas (exportFunctionKey file name) seen' = true.
Proof.
  intros Hdepth. unfold resolveExportFunctionReturn, exportFunctionKey.
  rewrite (proj2 (Nat.ltb_ge _ _) Hdepth). apply guarded_marks.
  repeat first [apply returns_throughReExports; intros | returns_step Hcalls].
Qed.

Lemma marks_resolveLocalValue (file name : string) (seen seen' : JsSet) (result : option Node) :
  depth <= MAX_DEPTH ->
  resolveLocalValue index root calls file name depth seen = Returned result seen' ->
  setHas (localValueKey file name) seen' = true.
Proof.
  intros Hdepth. unfold resolveLocalValue, localValueKey.
  rewrite (proj2 (Nat.ltb_ge _ _) Hdepth). apply guarded_marks.
  repeat first [apply returns_resolveImportedValue; lia | returns_step Hcalls].
Qed.

Lemma marks_resolveLocalFunctionReturn (file name : string) (seen seen' : JsSet)
    (result : option Node) :
  depth <= MAX_DEPTH ->
  resolveLocalFunctionReturn index root calls file name depth seen = Returned result seen' ->
  setHas (localFunctionKey file name) seen' = true.
Proof.
  intros Hdepth. unfold resolveLocalFunctionReturn, localFunctionKey.
  rewrite (proj2 (Nat.ltb_ge _ _) Hdepth). apply guarded_marks.
  repeat first [apply returns_resolveImportedFunctionReturn; lia | returns_step Hcalls].
Qed.

End Bodies.

Section BodiesAgree.
Variables calls calls' : Calls.
Variable depth : nat.
Hypothesis Hagree : AgreeFrom calls calls' (S depth).

Lemma same_throughReExports (again again' : string -> string -> Resolving (option Node))
    (targetFile exportName : string) (symbols : FileSymbols) :
  (forall file name, Same (again file name) (again' file name)) ->
  Same (throughReExports index root again targetFile exportName symbols)
       (throughReExports index root again' targetFile exportName symbols).
Proof.
  intros Hagain. unfold throughReExports.
  repeat first [apply Hagain | same_step Hagree].
Qed.

Lemma same_resolveImportedValue (fromFile : string) (binding : ImportBinding) (d : nat) :
  depth <= d ->
  Same (resolveImportedValue index root calls fromFile binding d)
       (resolveImportedValue index root calls' fromFile binding d).
Proof. intros Hd. unfold resolveImportedValue. repeat same_step Hagree. Qed.

Lemma same_resolveImportedFunctionReturn (fromFile : string) (binding : ImportBinding) (d : nat) :
  depth <= d ->
  Same (resolveImportedFunctionReturn index root calls fromFile binding d)
       (resolveImportedFunctionReturn index root calls' fromFile binding d).
Proof. intros Hd. unfold resolveImportedFunctionReturn. repeat same_step Hagree. Qed.

Lemma same_resolveNamespaceMember (fromFile namespaceName memberName : string) (d : nat) :
  depth <= d ->
  Same (resolveNamespaceMember index root calls fromFile namespaceName memberName d)
       (resolveNamespaceMember index root calls' fromFile namespaceName memberName d).
Proof. intros Hd. unfold resolveNamespaceMember. repeat same_step Hagree. Qed.

Lemma same_expressionToLiteralString (fromFile : string) (expression : Node) :
  Same (expressionToLiteralString calls fromFile expression depth)
       (expressionToLiteralString calls' fromFile expression depth).
Proof. unfold expressionToLiteralString. repeat same_step Hagree. Qed.

Lemma same_propertyNameFromMemberExpression (fromFile : string) (property : Node)
    (computed : bool) :
  Same (propertyNameFromMemberExpression calls fromFile property computed depth)
       (propertyNameFromMemberExpression calls' fromFile property computed depth).
Proof.
  unfold propertyNameFromMemberExpression.
  repeat first [apply same_expressionToLiteralString | same_step Hagree].
Qed.

Lemma same_propertyThroughCall (fromFile : string) (callCallee : Node) (callArgs : list Node)
    (propertyName : string) :
  Same (propertyThroughCall calls fromFile callCallee callArgs propertyName depth)
       (propertyThroughCall calls' fromFile callCallee callArgs propertyName depth).
Proof. unfold propertyThroughCall. repeat same_step Hagree. Qed.

Lemma same_returnOf (fromFile : string) (resolved : Node) :
  Same (returnOf calls fromFile resolved depth) (returnOf calls' fromFile resolved depth).
Proof. unfold returnOf. repeat same_step Hagree. Qed.

Lemma same_body_resolveExportValue (targetFile exportName : string) :
  Same (resolveExportValue index root calls targetFile exportName depth)
       (resolveExportValue index root calls' targetFile exportName depth).
Proof.
  unfold resolveExportValue.
  repeat first [apply same_throughReExports; intros | same_step Hagree].
Qed.

Lemma same_body_resolveExportFunctionReturn (targetFile exportName : string) :
  Same (resolveExportFunctionReturn index root calls targetFile exportName depth)
       (resolveExportFunctionReturn index root calls' targetFile exportName depth).
Proof.
  unfold resolveExportFunctionReturn.
  repeat first [apply same_throughReExports; intros | same_step Hagree].
Qed.

Lemma same_body_resolveLocalValue (fromFile localName : string) :
  Same (resolveLocalValue index root calls fromFile localName depth)
       (resolveLocalValue index root calls' fromFile localName depth).
Proof.
  unfold resolveLocalValue.
  repeat first [apply same_resolveImportedValue; lia | same_step Hagree].
Qed.

Lemma same_body_resolveLocalFunctionReturn (fromFile localName : string) :
  Same (resolveLocalFunctionReturn index root calls fromFile localName depth)
       (resolveLocalFunctionReturn index root calls' fromFile localName depth).
Proof.
  unfold resolveLocalFunctionReturn.
  repeat first [apply same_resolveImportedFunctionReturn; lia | same_step Hagree].
Qed.

Lemma same_body_resolveObjectPropertyValue (fromFile : string) (properties : list Node)
    (propertyName : string) :
  Same (resolveObjectPropertyValue calls fromFile properties propertyName depth)
       (resolveObjectPropertyValue calls' fromFile properties propertyName depth).
Proof. unfold resolveObjectPropertyValue. repeat same_step Hagree. Qed.

Lemma same_body_resolveReferenceInternal (fromFile : string) (expression : Node) :
  Same (resolveReferenceInternal index root calls fromFile expression depth)
       (resolveReferenceInternal index root calls' fromFile expression depth).
Proof.
  unfold resolveReferenceInternal.
  repeat first [ apply same_propertyNameFromMemberExpression
               | apply same_propertyThroughCall
               | apply same_resolveNamespaceMember; lia
               | same_step Hagree ].
Qed.

Lemma same_body_resolveCallResultInternal (fromFile : string) (callee : Node) :
  Same (resolveCallResultInternal index root calls fromFile callee depth)
       (resolveCallResultInternal index root calls' fromFile callee depth).
Proof.
  unfold resolveCallResultInternal.
  repeat first [ apply same_returnOf
               | apply same_resolveNamespaceMember; lia
               | same_step Hagree ].
Qed.

End BodiesAgree.

(** *** Past the cap *)

Section Capped.
Variable calls : Calls.
Variable depth : nat.
Hypothesis Hdepth : MAX_DEPTH < depth.

Lemma capped_resolveExportValue (file name : string) :
  resolveExportValue index root calls file name depth = ret None.
Proof. unfold resolveExportValue. now rewrite (proj2 (Nat.ltb_lt _ _) Hdepth). Qed.

Lemma capped_resolveExportFunctionReturn (file name : string) :
  resolveExportFunctionReturn index root calls file name depth = ret None.
Proof. unfold resolveExportFunctionReturn. now rewrite (proj2 (Nat.ltb_lt _ _) Hdepth). Qed.

Lemma capped_resolveLocalValue (file name : string) :
  resolveLocalValue index root calls file name depth = ret None.
Proof. unfold resolveLocalValue. now rewrite (proj2 (Nat.ltb_lt _ _) Hdepth). Qed.

Lemma capped_resolveLocalFunctionReturn (file name : string) :
  resolveLocalFunctionReturn index root calls file name depth = ret None.
Proof. unfold resolveLocalFunctionReturn. now rewrite (proj2 (Nat.ltb_lt _ _) Hdepth). Qed.

Lemma capped_resolveObjectPropertyValue (file : string) (properties : list Node) (name : string) :
  resolveObjectPropertyValue calls file properties name depth = ret None.
Proof. unfold resolveObjectPropertyValue. now rewrite (proj2 (Nat.ltb_lt _ _) Hdepth). Qed.

Lemma capped_resolveReferenceInternal (file : string) (node : Node) :
  resolveReferenceInternal index root calls file node depth = ret None.
Proof. unfold resolveReferenceInternal. now rewrite (proj2 (Nat.ltb_lt _ _) Hdepth). Qed.

Lemma capped_resolveCallResultInternal (file : string) (node : Node) :
  resolveCallResultInternal index root calls file node depth = ret None.
Proof. unfold resolveCallResultInternal. now rewrite (proj2 (Nat.ltb_lt _ _) Hdepth). Qed.

End Capped.

(** *** Enough calls *)

(** The functions unfolded for [nesting] calls return at every depth from
    [from], when [nesting] calls reach past the cap from there. *)
Lemma callsWithin_returns (nesting from : nat) :
  MAX_DEPTH + 2 <= nesting + from -> 1 <= nesting ->
  ReturnFrom (callsWithin index root nesting) from.
Proof.
  revert from. induction nesting as [|nesting IH]; intros from Hsum Hpos; [lia|].
  assert (Hinner : forall depth, from <= depth -> depth <= MAX_DEPTH ->
                     ReturnFrom (callsWithin index root nesting) (S depth))
    by (intros depth Hfrom Hcap; apply IH; lia).
  constructor; intros depth; intros; cbn [callsWithin makeCalls
    call_resolveExportValue call_resolveExportFunctionReturn call_resolveLocalValue
    call_resolveLocalFunctionReturn call_resolveObjectPropertyValue
    call_resolveReferenceInternal call_resolveCallResultInternal];
    (destruct (Nat.ltb_spec MAX_DEPTH depth) as [Hcap | Hcap]).
  - rewrite capped_resolveExportValue by exact Hcap. apply Returns_ret.
  - apply returns_body_resolveExportValue. now apply Hinner.
  - rewrite capped_resolveExportFunctionReturn by exact Hcap. apply Returns_ret.
  - apply returns_body_resolveExportFunctionReturn. now apply Hinner.
  - rewrite capped_resolveLocalValue by exact Hcap. apply Returns_ret.
  - apply returns_body_resolveLocalValue. now apply Hinner.
  - rewrite capped_resolveLocalFunctionReturn by exact Hcap. apply Returns_ret.
  - apply returns_body_resolveLocalFunctionReturn. now apply Hinner.
  - rewrite capped_resolveObjectPropertyValue by exact Hcap. apply Returns_ret.
  - apply returns_body_resolveObjectPropertyValue. now apply Hinner.
  - rewrite capped_resolveReferenceInternal by exact Hcap. apply Returns_ret.
  - apply returns_body_resolveReferenceInternal. now apply Hinner.
  - rewrite capped_resolveCallResultInternal by exact Hcap. apply Returns_ret.
  - apply returns_body_resolveCallResultInternal. now apply Hinner.
Qed.

(** Unfolding the functions for more calls changes no result. *)
Lemma callsWithin_agree (nesting nesting' from : nat) :
  MAX_DEPTH + 2 <= nesting + from -> 1 <= nesting ->
  MAX_DEPTH + 2 <= nesting' + from -> 1 <= nesting' ->
  AgreeFrom (callsWithin index root nesting) (callsWithin index root nesting') from.
Proof.
  revert nesting' from.
  induction nesting as [|nesting IH]; intros nesting' from Hsum Hpos Hsum' Hpos'; [lia|].
  destruct nesting' as [|nesting']; [lia|].
  assert (Hinner : forall depth, from <= depth -> depth <= MAX_DEPTH ->
                     AgreeFrom (callsWithin index root nesting) (callsWithin index root nesting')
                               (S depth))
    by (intros depth Hfrom Hcap; apply IH; lia).
  constructor; intros depth; intros; cbn [callsWithin makeCalls
    call_resolveExportValue call_resolveExportFunctionReturn call_resolveLocalValue
    call_resolveLocalFunctionReturn call_resolveObjectPropertyValue
    call_resolveReferenceInternal call_resolveCallResultInternal];
    (destruct (Nat.ltb_spec MAX_DEPTH depth) as [Hcap | Hcap]).
  - rewrite !capped_resolveExportValue by exact Hcap. apply Same_refl.
  - apply same_body_resolveExportValue. now apply Hinner.
  - rewrite !capped_resolveExportFunctionReturn by exact Hcap. apply Same_refl.
  - apply same_body_resolveExportFunctionReturn. now apply Hinner.
  - rewrite !capped_resolveLocalValue by exact Hcap. apply Same_refl.
  - apply same_body_resolveLocalValue. now apply Hinner.
  - rewrite !capped_resolveLocalFunctionReturn by exact Hcap. apply Same_refl.
  - apply same_body_resolveLocalFunctionReturn. now apply Hinner.
  - rewrite !capped_resolveObjectPropertyValue by exact Hcap. apply Same_refl.
  - apply same_body_resolveObjectPropertyValue. now apply Hinner.
  - rewrite !capped_resolveReferenceInternal by exact Hcap. apply Same_refl.
  - apply same_body_resolveReferenceInternal. now apply Hinner.
  - rewrite !capped_resolveCallResultInternal by exact Hcap. apply Same_refl.
  - apply same_body_resolveCallResultInternal. now apply Hinner.
Qed.

(** *** The [seen] set *)

Lemma guarded_seen (key : string) (body : Resolving (option Node)) (seen : JsSet) :
  setHas key seen = true -> guarded key body seen = Returned None seen.
Proof. intros Hseen. unfold guarded. now rewrite Hseen. Qed.

Lemma seen_resolveLocalValue (calls : Calls) (file name : string) (depth : nat) (seen : JsSet) :
  setHas (localValueKey file name) seen = true ->
  resolveLocalValue index root calls file name depth seen = Returned None seen.
Proof.
  intros Hseen. unfold resolveLocalValue.
  destruct (MAX_DEPTH <? depth)%nat; [reflexivity | now apply guarded_seen].
Qed.

Lemma seen_resolveLocalFunctionReturn (calls : Calls) (file name : string) (depth : nat)
    (seen : JsSet) :
  setHas (localFunctionKey file name) seen = true ->
  resolveLocalFunctionReturn index root calls file name depth seen = Returned None seen.
Proof.
  intros Hseen. unfold resolveLocalFunctionReturn.
  destruct (MAX_DEPTH <? depth)%nat; [reflexivity | now apply guarded_seen].
Qed.

Lemma seen_resolveExportValue (calls : Calls) (file name : string) (depth : nat) (seen : JsSet) :
  setHas (exportValueKey file name) seen = true ->
  resolveExportValue index root calls file name depth seen = Returned None seen.
Proof.
  intros Hseen. unfold resolveExportValue.
  destruct (MAX_DEPTH <? depth)%nat; [reflexivity | now apply guarded_seen].
Qed.

Lemma seen_resolveExportFunctionReturn (calls : Calls) (file name : string) (depth : nat)
    (seen : JsSet) :
  setHas (exportFunctionKey file name) seen = true ->
  resolveExportFunctionReturn index root calls file name depth seen = Returned None seen.
Proof.
  intros Hseen. unfold resolveExportFunctionReturn.
  destruct (MAX_DEPTH <? depth)%nat; [reflexivity | now apply guarded_seen].
Qed.

(** *** Names bound to nothing *)

Lemma unbound_resolveLocalValue (calls : Calls) (file name : string) (depth : nat)
    (seen : JsSet) :
  unboundIn index file name ->
  exists seen', resolveLocalValue index root calls file name depth seen = Returned None seen'.
Proof.
  unfold unboundIn, resolveLocalValue, guarded. intros Hunbound.
  destruct (MAX_DEPTH <? depth)%nat; [eexists; reflexivity|].
  destruct (setHas _ seen); [eexists; reflexivity|].
  destruct (mapGet file (files index)) as [symbols|]; [|eexists; reflexivity].
  destruct Hunbound as [-> [-> ->]]. eexists; reflexivity.
Qed.

Lemma unbound_resolveLocalFunctionReturn (calls : Calls) (file name : string) (depth : nat)
    (seen : JsSet) :
  unboundIn index file name ->
  exists seen',
    resolveLocalFunctionReturn index root calls file name depth seen = Returned None seen'.
Proof.
  unfold unboundIn, resolveLocalFunctionReturn, guarded. intros Hunbound.
  destruct (MAX_DEPTH <? depth)%nat; [eexists; reflexivity|].
  destruct (setHas _ seen); [eexists; reflexivity|].
  destruct (mapGet file (files index)) as [symbols|]; [|eexists; reflexivity].
  destruct Hunbound as [-> [-> ->]]. eexists; reflexivity.
Qed.

Lemma flat_map_nil {A B : Type} (f : A -> list B) (l : list A) :
  (forall x, In x l -> f x = []) -> flat_map f l = [].
Proof.
  induction l as [|x rest IH]; intros Hall; cbn [flat_map]; [reflexivity|].
  rewrite (Hall x) by (left; reflexivity). apply IH. intros y Hy. apply Hall. right. exact Hy.
Qed.

Lemma unknown_resolveWorkspaceFunctionReturnByName (fromFile name : string) :
  unknownEverywhere index name -> resolveWorkspaceFunctionReturnByName index fromFile name = None.
Proof.
  intros Hunknown. unfold resolveWorkspaceFunctionReturnByName.
  destruct (negb (isLikelyQueryKeyFactoryIdentifier name)); [reflexivity|].
  rewrite flat_map_nil; [reflexivity|].
  intros [file symbols] Hin. destruct (Hunknown file symbols Hin) as [-> ->]. reflexivity.
Qed.

Lemma unbound_reference (nesting : nat) (file name : string) (seen : JsSet) :
  unboundIn index file name ->
  exists seen',
    call_resolveReferenceInternal (callsWithin index root (S (S nesting))) file
      (Identifier name) 0 seen = Returned None seen'.
Proof.
  intros Hunbound.
  cbn [callsWithin makeCalls call_resolveReferenceInternal].
  unfold resolveReferenceInternal.
  cbn [Nat.ltb Nat.leb unwrapExpression call_resolveLocalValue makeCalls].
  now apply unbound_resolveLocalValue.
Qed.

Lemma unbound_call (nesting : nat) (file name : string) (seen : JsSet) :
  unboundIn index file name -> unknownEverywhere index name ->
  exists seen',
    call_resolveCallResultInternal (callsWithin index root (S (S nesting))) file
      (Identifier name) 0 seen = Returned None seen'.
Proof.
  intros Hunbound Hunknown.
  cbn [callsWithin makeCalls call_resolveCallResultInternal].
  unfold resolveCallResultInternal.
  cbn [Nat.ltb Nat.leb call_resolveLocalFunctionReturn call_resolveLocalValue makeCalls].
  unfold bind.
  destruct (unbound_resolveLocalFunctionReturn (callsWithin index root nesting) file name
              (0 + 1) seen Hunbound) as [seen1 ->].
  destruct (unbound_resolveLocalValue (callsWithin index root nesting) file name
              (0 + 1) seen1 Hunbound) as [seen2 ->].
  rewrite unknown_resolveWorkspaceFunctionReturnByName by exact Hunknown.
  eexists; reflexivity.
Qed.

End WithIndex.
End ResolverFacts.


(** ** The graph assembler: main theorems *)

Module GraphClaims.
Import Js JsFacts GraphBuilder GraphSpec IdFacts Pass1Facts Pass2Facts GraphFacts.

Lemma final_nodes_surviving {env : HostEnv} (analysis : AnalysisResult) (n : GraphNode) :
  In n (g_nodes (buildGraph analysis)) ->
  exists n1, In n1 (survivingNodes (finalState (an_records analysis))
                      (allNodesOf (finalState (an_records analysis))))
             /\ node_id n = node_id n1 /\ node_kind n = node_kind n1.
Proof.
  destruct (buildGraph_nodes analysis) as [a [b Hnodes]]. rewrite Hnodes.
  intros H. apply in_map_iff in H. destruct H as [n1 [<- Hin]].
  exists n1. now rewrite reassignMetrics_id, reassignMetrics_kind.
Qed.

Lemma surviving_final {env : HostEnv} (analysis : AnalysisResult) (n1 : GraphNode) :
  In n1 (survivingNodes (finalState (an_records analysis))
           (allNodesOf (finalState (an_records analysis)))) ->
  exists n, In n (g_nodes (buildGraph analysis))
            /\ node_id n = node_id n1 /\ node_kind n = node_kind n1.
Proof.
  destruct (buildGraph_nodes analysis) as [a [b Hnodes]]. rewrite Hnodes.
  intros H. exists (reassignMetrics a b n1). split.
  - now apply in_map.
  - now rewrite reassignMetrics_id, reassignMetrics_kind.
Qed.

Lemma final_node_keyed {env : HostEnv} (analysis : AnalysisResult) (n : GraphNode) :
  In n (g_nodes (buildGraph analysis)) ->
  startsWith (node_id n) "qk:" = true -> node_kind n = KQueryKey.
Proof.
  intros Hin Hqk. apply final_nodes_surviving in Hin.
  destruct Hin as [n1 [Hin [Hid Hkind]]].
  unfold survivingNodes in Hin. apply filter_In in Hin. destruct Hin as [Hin _].
  unfold allNodesOf in Hin. apply in_map_iff in Hin. destruct Hin as [n0 [<- Hin0]].
  rewrite assignMetrics_id in Hid. rewrite assignMetrics_kind in Hkind.
  destruct (pass2_frame (pass1 (an_records analysis))) as [Hnodes _].
  unfold finalState in Hin0. rewrite Hnodes in Hin0.
  apply in_map_iff in Hin0. destruct Hin0 as [[k n0'] [Heq Hin0]]. cbn [snd] in Heq. subst n0'.
  destruct (pass1_nodes_keyed _ _ _ Hin0) as [Hk Hq].
  rewrite Hkind. apply Hq. now rewrite <- Hk, <- Hid.
Qed.

(** C3.  In the graph [buildGraph] returns, a query-key node is present only
    if a [declares] record declares its key, or a [sets] record whose key is
    concrete (no wildcard, no pass-through, neither the all-cache nor the
    unresolved sentinel) sets it.  In particular, when every record of a key
    is a mutation that does not anchor it (such as the unresolved pass-through
    key) and none declares it, the graph has no node for that key. *)
Theorem C3_queryKey_nodes_are_backed {env : HostEnv} (analysis : AnalysisResult) :
  (forall n, In n (g_nodes (buildGraph analysis)) -> node_kind n = KQueryKey ->
     backedByDeclares (an_records analysis) (node_id n)
     \/ backedByConcreteSets (an_records analysis) (node_id n))
  /\ (forall queryKeyId,
        (forall r, In r (an_records analysis) -> key_id (rec_queryKey r) = queryKeyId ->
           rec_relation r <> Declares /\ isSetAnchoredConcreteKey (rec_queryKey r) = false) ->
        forall n, In n (g_nodes (buildGraph analysis)) ->
          node_id n <> makeQueryKeyNodeId queryKeyId).
Proof.
  assert (Hbacked : forall n, In n (g_nodes (buildGraph analysis)) -> node_kind n = KQueryKey ->
     backedByDeclares (an_records analysis) (node_id n)
     \/ backedByConcreteSets (an_records analysis) (node_id n)).
  { intros n Hin Hkind. apply final_nodes_surviving in Hin.
    destruct Hin as [n1 [Hin [Hid Hk]]]. rewrite Hid.
    apply surviving_queryKey_backed; [assumption | congruence]. }
  split; [exact Hbacked |].
  intros queryKeyId Honly n Hin Hid.
  assert (Hkind : node_kind n = KQueryKey).
  { apply (final_node_keyed analysis); [assumption |]. rewrite Hid. apply startsWith_qk. }
  destruct (Hbacked n Hin Hkind) as [[r [Hr [Hrel [_ Hown]]]] | [r [Hr [_ [_ [Hanch Hown]]]]]];
    rewrite Hid in Hown; apply makeQueryKeyNodeId_inj in Hown;
    destruct (Honly r Hr (eq_sym Hown)) as [Hnd Hna]; congruence.
Qed.

(** A declared key keeps its node; the key of a pass-through invalidation has none. *)
Lemma C3_witness :
  (backedByDeclares [declareTodosId; invalidateTodos] "qk:todos|$id"
   \/ backedByConcreteSets [declareTodosId; invalidateTodos] "qk:todos|$id")
  /\ ~ In "qk:pass-through-query-key"
         (map node_id
            (g_nodes (@buildGraph exampleHost (analysisOf [declareTodosId; invalidatePassThrough])))).
Proof.
  split.
  - apply (proj1 (@C3_queryKey_nodes_are_backed exampleHost
                    (analysisOf [declareTodosId; invalidateTodos]))
             (nth 2 (g_nodes (@buildGraph exampleHost
                                (analysisOf [declareTodosId; invalidateTodos])))
                  (fileNode "" "" ""))).
    + vm_compute. right. right. left. reflexivity.
    + reflexivity.
  - intros Hin. apply in_map_iff in Hin. destruct Hin as [n [Hid Hn]].
    apply (proj2 (@C3_queryKey_nodes_are_backed exampleHost
                    (analysisOf [declareTodosId; invalidatePassThrough]))
             "pass-through-query-key") with (n := n); [| assumption | assumption].
    intros r [<- | [<- | []]] Hkey; [discriminate Hkey |].
    split; [discriminate | reflexivity].
Defined.

Lemma countKind_count_occ (kind : GraphNodeKind) (nodes : list GraphNode) :
  countKind kind nodes = count_occ kindEqDec (map node_kind nodes) kind.
Proof.
  unfold countKind. induction nodes as [| n nodes IH]; [reflexivity |].
  cbn [filter map count_occ].
  destruct (kindEqDec (node_kind n) kind) as [-> | Hne].
  - replace (kindEqb kind kind) with true by now destruct kind.
    cbn [List.length]. now rewrite IH.
  - replace (kindEqb (node_kind n) kind) with false
      by (destruct (node_kind n), kind; try reflexivity; contradiction).
    exact IH.
Qed.

Lemma buildGraph_summary {env : HostEnv} (analysis : AnalysisResult) :
  g_summary (buildGraph analysis)
  = {| sum_files := countKind KFile (g_nodes (buildGraph analysis));
       sum_actions := countKind KAction (g_nodes (buildGraph analysis));
       sum_queryKeys := countKind KQueryKey (g_nodes (buildGraph analysis));
       sum_parseErrors := List.length (g_parseErrors (buildGraph analysis)) |}.
Proof.
  unfold buildGraph. cbv zeta.
  destruct (fold_left (linkSurvivingEdge _) _ _) as [a b].
  destruct (fold_left (linkFilesAndKeys _) _ _) as [c d].
  reflexivity.
Qed.

Lemma final_edge_endpoints {env : HostEnv} (analysis : AnalysisResult) (e : GraphEdge) :
  In e (g_edges (buildGraph analysis)) ->
  In (edge_source e) (map node_id (g_nodes (buildGraph analysis)))
  /\ In (edge_target e) (map node_id (g_nodes (buildGraph analysis))).
Proof.
  rewrite buildGraph_edges. intros H. apply survivingEdges_In in H.
  destruct H as [_ [Hs Ht]].
  destruct (buildGraph_nodes analysis) as [a [b Hnodes]]. rewrite Hnodes, map_map.
  rewrite (map_ext _ node_id) by (intros n; apply reassignMetrics_id). now split.
Qed.

(** C10.  In every graph [buildGraph] returns, the source and the target of
    each edge are identifiers of returned nodes, so a pruned node leaves no
    incident edge; and the summary counts the returned nodes of each kind and
    the returned parse errors. *)
Theorem C10_edges_closed_and_summary_counts {env : HostEnv} (analysis : AnalysisResult) :
  let g := buildGraph analysis in
  (forall e, In e (g_edges g) ->
     (exists n, In n (g_nodes g) /\ node_id n = edge_source e)
     /\ (exists n, In n (g_nodes g) /\ node_id n = edge_target e))
  /\ (forall nodeId, ~ In nodeId (map node_id (g_nodes g)) ->
        forall e, In e (g_edges g) -> edge_source e <> nodeId /\ edge_target e <> nodeId)
  /\ sum_files (g_summary g) = count_occ kindEqDec (map node_kind (g_nodes g)) KFile
  /\ sum_actions (g_summary g) = count_occ kindEqDec (map node_kind (g_nodes g)) KAction
  /\ sum_queryKeys (g_summary g) = count_occ kindEqDec (map node_kind (g_nodes g)) KQueryKey
  /\ sum_parseErrors (g_summary g) = List.length (g_parseErrors g)
  /\ List.length (g_parseErrors g) = List.length (an_parseErrors analysis).
Proof.
  cbv zeta. split; [| split].
  - intros e He. destruct (final_edge_endpoints analysis e He) as [Hs Ht].
    apply in_map_iff in Hs. apply in_map_iff in Ht.
    destruct Hs as [n [Hn Hin]]. destruct Ht as [n' [Hn' Hin']].
    split; [now exists n | now exists n'].
  - intros nodeId Hgone e He. destruct (final_edge_endpoints analysis e He) as [Hs Ht].
    split; intros Heq; apply Hgone; now rewrite <- Heq.
  - rewrite buildGraph_summary. cbn [sum_files sum_actions sum_queryKeys sum_parseErrors].
    rewrite !countKind_count_occ. repeat split.
    unfold buildGraph. cbv zeta.
    destruct (fold_left (linkSurvivingEdge _) _ _) as [a b].
    destruct (fold_left (linkFilesAndKeys _) _ _) as [c d].
    cbn [g_parseErrors]. unfold mapParseErrors. apply length_map.
Qed.

(** The graph of an orphan invalidation: its key node is pruned, and no edge
    of the result reaches it. *)
Lemma C10_witness :
  Forall (fun e => edge_source e <> "qk:orphan" /\ edge_target e <> "qk:orphan")
         (g_edges (@buildGraph exampleHost (analysisOf [invalidateOrphan]))).
Proof.
  apply Forall_forall.
  apply (proj1 (proj2 (@C10_edges_closed_and_summary_counts exampleHost
                         (analysisOf [invalidateOrphan]))) "qk:orphan").
  vm_compute. intros [H | [H | []]]; discriminate H.
Defined.

Lemma final_edge_targets {env : HostEnv} (analysis : AnalysisResult)
    (index : nat) (record : QueryRecord) (e : GraphEdge) :
  nth_error (an_records analysis) index = Some record ->
  In e (g_edges (buildGraph analysis)) ->
  edge_source e = makeActionNodeId record index ->
  In (edge_target e)
     (pendingTargets (pass1 (an_records analysis)) (pendingOf (index, record))).
Proof.
  intros Hnth He Hsrc. rewrite buildGraph_edges in He.
  apply survivingEdges_In in He. destruct He as [He _].
  now apply (edges_of_action (an_records analysis) index record e).
Qed.

(** C2, as the code has it.  A wildcard mutation is linked to exactly the
    query-key nodes that some record of its own project scope declares, and
    every edge that leaves its action node in the returned graph ends at such
    a node.  Nodes are keyed by the key alone: two scopes that declare the
    same key share its node. *)
Theorem C2_wildcard_links_stay_in_scope {env : HostEnv} (analysis : AnalysisResult)
    (index : nat) (record : QueryRecord) :
  nth_error (an_records analysis) index = Some record ->
  rec_relation record <> Declares ->
  isWildcardQueryKey record = true ->
  (forall q, In q (pendingTargets (pass1 (an_records analysis)) (pendingOf (index, record)))
             <-> declaredIn (an_records analysis) q (scopeOf record))
  /\ (forall e, In e (g_edges (buildGraph analysis)) ->
         edge_source e = makeActionNodeId record index ->
         declaredIn (an_records analysis) (edge_target e) (scopeOf record)).
Proof.
  intros Hnth Hrel Hw. split.
  - intros q. now apply wildcard_targets.
  - intros e He Hsrc. apply (wildcard_targets _ index record _ Hrel Hw).
    now apply final_edge_targets.
Qed.

(** The clear-all of scope [A] reaches the node of [[items]] and not the node
    of the key only scope [B] declares. *)
Lemma C2_witness :
  Forall (fun e => edge_source e = makeActionNodeId clearAllA 3 ->
                   @declaredIn exampleHost
                     [declareItemsA; declareItemsB; declareOnlyB; clearAllA]
                     (edge_target e) "workspace:A")
         (g_edges (@buildGraph exampleHost
                     (analysisOf [declareItemsA; declareItemsB; declareOnlyB; clearAllA]))).
Proof.
  apply Forall_forall.
  apply (proj2 (@C2_wildcard_links_stay_in_scope exampleHost
                  (analysisOf [declareItemsA; declareItemsB; declareOnlyB; clearAllA])
                  3 clearAllA eq_refl ltac:(discriminate) eq_refl)).
Defined.

(** With scopes [A] and [B] each declaring [[items]], the clear-all recorded
    under [A] has an edge to the node of [B]'s declaration: both declarations
    share the node [qk:items]. *)
Lemma C2_counterexample :
  ~ (forall e,
       In e (g_edges (@buildGraph exampleHost
                        (analysisOf [declareItemsA; declareItemsB; clearAllA]))) ->
       edge_source e = makeActionNodeId clearAllA 2 ->
       edge_target e = nodeIdOf declareItemsA /\ edge_target e <> nodeIdOf declareItemsB).
Proof.
  intros H.
  destruct (H {| edge_id := "action:A/reset.ts:7:1:clear:2->qk:items:clears";
                 edge_source := "action:A/reset.ts:7:1:clear:2";
                 edge_target := "qk:items";
                 edge_relation := Clears; edge_resolution := Static |}) as [_ Hne].
  - vm_compute. do 5 right. left. reflexivity.
  - reflexivity.
  - apply Hne. reflexivity.
Qed.


Lemma nothing_declared_nothing_matched {env : HostEnv} (records : list QueryRecord)
    (record : QueryRecord) :
  (forall d, In d records -> isDeclaring d = false) ->
  forall q, ~ matchedIn records record q.
Proof.
  intros Hnone q [[d [Hin [Hdecl _]]] _]. rewrite (Hnone d Hin) in Hdecl. discriminate.
Qed.






End GraphClaims.


(** ** The certainty lattice *)

Module CertaintyClaims.
Import Certainty.

(** C6.  [mergeResolution] is the join of the two-point lattice
    [static < dynamic]: merging two static values is static, a dynamic value
    on either side gives dynamic, and the merge is commutative and idempotent. *)
Theorem C6_mergeResolution_lattice :
  mergeResolution Static Static = Static
  /\ (forall a, mergeResolution a Dynamic = Dynamic)
  /\ (forall b, mergeResolution Dynamic b = Dynamic)
  /\ (forall a b, mergeResolution a b = mergeResolution b a)
  /\ (forall a, mergeResolution a a = a).
Proof.
  repeat split.
  - intros a. now destruct a.
  - intros a b. now destruct a, b.
  - intros a. now destruct a.
Qed.

End CertaintyClaims.

(** ** The normalizer: main theorems *)

Module NormalizerClaims.
Import Js Ast Normalizer NormalizerSpec NormalizerFacts SortFacts.

(** C7.  Normalizing an expression is a function of the expression, the
    options and the resolver: any two results for the same expression have
    the same id and the same display.  The id of the result is computed from
    its segments alone, joined with a bar, or [empty] for no segment; so two
    normalizations that give the same segments give the same id, whatever
    the expressions, the options and the resolvers. *)
Theorem C7_normalize_deterministic {locale : Locale} (resolver : option QueryKeyResolver)
    (options : KeyOptions) (e : Node) :
  (forall k1 k2,
      k1 = normalizeQueryKey resolver (Some e) options ->
      k2 = normalizeQueryKey resolver (Some e) options ->
      key_id k1 = key_id k2 /\ key_display k1 = key_display k2)
  /\ key_id (normalizeQueryKey resolver (Some e) options)
     = idOfSegments (key_segments (normalizeQueryKey resolver (Some e) options))
  /\ (forall resolver' options' e',
        key_segments (normalizeQueryKey resolver' (Some e') options')
        = key_segments (normalizeQueryKey resolver (Some e) options) ->
        key_id (normalizeQueryKey resolver' (Some e') options')
        = key_id (normalizeQueryKey resolver (Some e) options)).
Proof.
  split; [|split].
  - intros k1 k2 -> ->. split; reflexivity.
  - apply normalizeQueryKey_id.
  - intros resolver' options' e' Hsegments.
    rewrite !normalizeQueryKey_id. now rewrite Hsegments.
Qed.

(** C5, as the code has it.  Take an object literal that is the whole key
    expression, whose properties are all key-value properties (no spread
    element and no method; a key may be computed), none of them named
    [queryKey], whose rendered keys are pairwise distinct and are ordered by
    the collation.  Then every rearrangement of its properties normalizes to
    the same key; leaving out a property whose value is a static [undefined]
    changes neither the id, nor the display, nor the segments; and the
    display lists the kept entries sorted by key. *)
Theorem C5_plain_object_canonical_form {locale : Locale} (resolver : option QueryKeyResolver)
    (options : KeyOptions) (properties : list Node) :
  Forall (fun property => isPlainProperty property = true) properties ->
  findProperty properties "queryKey" = None ->
  NoDup (map fst (objectEntries resolver properties)) ->
  OrdersKeys (map fst (objectEntries resolver properties)) ->
  (forall properties',
      Permutation properties properties' ->
      normalizeQueryKey resolver (Some (ObjectExpression properties')) options
      = normalizeQueryKey resolver (Some (ObjectExpression properties)) options)
  /\ (forall front property back,
        properties = (front ++ property :: back)%list ->
        isUndefinedValued resolver property = true ->
        let without := normalizeQueryKey resolver (Some (ObjectExpression (front ++ back))) options in
        let whole := normalizeQueryKey resolver (Some (ObjectExpression properties)) options in
        key_id without = key_id whole
        /\ key_display without = key_display whole
        /\ key_segments without = key_segments whole)
  /\ (exists sorted,
        Permutation sorted (filter keepsEntry (objectEntries resolver properties))
        /\ StronglySorted keyOrder sorted
        /\ key_display (normalizeQueryKey resolver (Some (ObjectExpression properties)) options)
           = renderEntries sorted).
Proof.
  intros Hplain HnoKey Hnodup Horders. unfold objectEntries in *.
  split; [|split].
  - intros properties' Hperm.
    rewrite !normalize_object; [| exact HnoKey |].
    + now rewrite (segment_permutation (deeperAt resolver 1) properties properties').
    + apply (findProperty_incl properties); [|exact HnoKey].
      intros p Hp. apply (Permutation_in _ (Permutation_sym Hperm) Hp).
  - intros front property back Heq Hundefined. subst properties. cbv zeta.
    rewrite !normalize_object; [| exact HnoKey |].
    + assert (Htext : text (normalizeSegmentResult
                              (segmentFromObjectExpression (deeperAt resolver 1) (front ++ back)))
                      = text (normalizeSegmentResult
                                (segmentFromObjectExpression (deeperAt resolver 1)
                                   (front ++ property :: back)))).
      { apply normalizeSegmentResult_text. symmetry.
        now apply segment_without_undefined. }
      unfold keyOfSegment. cbn [key_id key_display key_segments].
      rewrite Htext. repeat split.
    + apply (findProperty_incl (front ++ property :: back)); [|exact HnoKey].
      intros p. rewrite !in_app_iff. cbn [In]. tauto.
  - destruct (segment_sorted (deeperAt resolver 1) properties Hplain Hnodup Horders)
      as [sorted [Hperm [Hsorted Htext]]].
    exists sorted. split; [exact Hperm|]. split; [exact Hsorted|].
    rewrite normalize_object by exact HnoKey.
    destruct (segmentFromObjectExpression (deeperAt resolver 1) properties) as [t static].
    cbn [text] in Htext. subst t.
    destruct (renderEntries_brace sorted) as [rest ->].
    rewrite normalizeSegmentResult_brace. reflexivity.
Qed.

(** [normalize({a: 1, b: 2})] and [normalize({b: 2, a: 1})] are the same key,
    and [normalize({a: 1, b: undefined})] has the id and the display of
    [normalize({a: 1})]. *)
Lemma C5_witness :
  @normalize exampleLocale None
    (ObjectExpression [plain "b" (NumericLiteral 2); plain "a" (NumericLiteral 1)])
  = @normalize exampleLocale None
      (ObjectExpression [plain "a" (NumericLiteral 1); plain "b" (NumericLiteral 2)])
  /\ key_id (@normalize exampleLocale None (ObjectExpression [plain "a" (NumericLiteral 1)]))
     = key_id (@normalize exampleLocale None
                 (ObjectExpression [plain "a" (NumericLiteral 1);
                                    plain "b" (Identifier "undefined")]))
  /\ key_display (@normalize exampleLocale None (ObjectExpression [plain "a" (NumericLiteral 1)]))
     = key_display (@normalize exampleLocale None
                      (ObjectExpression [plain "a" (NumericLiteral 1);
                                         plain "b" (Identifier "undefined")])).
Proof.
  split.
  - apply (proj1 (@C5_plain_object_canonical_form exampleLocale None noOptions
                    [plain "a" (NumericLiteral 1); plain "b" (NumericLiteral 2)]
                    ltac:(repeat constructor) eq_refl
                    ltac:(apply distinctb_NoDup; vm_compute; reflexivity)
                    ltac:(apply ordersKeysb_spec; vm_compute; reflexivity))).
    apply perm_swap.
  - destruct (proj1 (proj2 (@C5_plain_object_canonical_form exampleLocale None noOptions
                    [plain "a" (NumericLiteral 1); plain "b" (Identifier "undefined")]
                    ltac:(repeat constructor) eq_refl
                    ltac:(apply distinctb_NoDup; vm_compute; reflexivity)
                    ltac:(apply ordersKeysb_spec; vm_compute; reflexivity)))
                [plain "a" (NumericLiteral 1)] (plain "b" (Identifier "undefined")) []
                eq_refl eq_refl) as [Hid [Hdisplay _]].
    split; [exact Hid | exact Hdisplay].
Defined.

(** An object literal with a method has no spread element and no computed
    key, and its display follows the order of its members; an undefined
    value beside a method is kept. *)
Lemma C5_counterexample :
  key_display (@normalize exampleLocale None
                 (ObjectExpression [plain "a" (NumericLiteral 1); method "m"]))
  = "{a: 1, [method]}"
  /\ key_display (@normalize exampleLocale None
                    (ObjectExpression [method "m"; plain "a" (NumericLiteral 1)]))
     = "{[method], a: 1}"
  /\ key_display (@normalize exampleLocale None
                    (ObjectExpression [plain "a" (NumericLiteral 1);
                                       plain "b" (Identifier "undefined"); method "m"]))
     = "{a: 1, b: undefined, [method]}".
Proof. repeat split; vm_compute; reflexivity. Qed.

(** C9, as the code has it.  Take a mutation call of a method other than
    [clear] and [setQueryData] whose first argument resolves to an options
    object.  If the object has a [queryKey], the key of the call is the
    whole-cache key, of mode [all], when that key is empty or wholly
    unresolved; otherwise its mode is [exact] when the object carries
    [exact: true] and [prefix] when it does not.  If the object has no
    [queryKey] and a key is inferred from its [predicate], the key of the
    call is the inferred key with the same choice of mode. *)
Theorem C9_exact_flag_selects_match_mode {locale : Locale} (resolver : option QueryKeyResolver)
    (method : string) (first : Node) (rest properties : list Node) :
  method <> "clear" -> method <> "setQueryData" ->
  isExpression first = true ->
  resolvesToOptions resolver first properties ->
  let key := inferActionQueryKey resolver method (first :: rest) in
  let mode := modeOfFlag (exactFlag properties) in
  (forall keyNode,
      findObjectPropertyValue properties "queryKey" = Some keyNode ->
      (collapsesToAllCache resolver keyNode mode = true ->
       key = buildAllQueryCacheKey Dynamic "ALL_QUERY_CACHE (unresolved key)")
      /\ (collapsesToAllCache resolver keyNode mode = false -> key_matchMode key = mode))
  /\ (forall predicateNode inferred,
        findObjectPropertyValue properties "queryKey" = None ->
        findObjectPropertyValue properties "predicate" = Some predicateNode ->
        inferActionQueryKeyFromPredicate resolver predicateNode = Some inferred ->
        key = setMatchMode inferred mode).
Proof.
  intros Hclear Hset Hexpression Hoptions key mode. subst key mode.
  rewrite (inferActionQueryKey_options resolver method first rest properties) by assumption.
  destruct (keyFromActionOptions_mode resolver properties) as [Hkey Hpredicate].
  split.
  - intros keyNode HkeyNode. rewrite (Hkey keyNode HkeyNode).
    apply normalizeActionKeyOrWildcard_mode.
  - exact Hpredicate.
Qed.

(** [invalidateQueries({ queryKey: ['todos'], exact: true })] has mode [exact]. *)
Lemma C9_witness :
  key_matchMode (@inferActionQueryKey exampleLocale None "invalidateQueries" [exactTodosOptions])
  = MExact.
Proof.
  apply (proj2 (proj1 (@C9_exact_flag_selects_match_mode exampleLocale None "invalidateQueries"
                         exactTodosOptions []
                         [ObjectProperty (Identifier "queryKey") todosArray false false;
                          ObjectProperty (Identifier "exact") (BooleanLiteral true) false false]
                         ltac:(discriminate) ltac:(discriminate) eq_refl
                         ltac:(left; vm_compute; reflexivity))
                      todosArray eq_refl)).
  vm_compute. reflexivity.
Defined.

(** [invalidateQueries({ queryKey: [], exact: true })]: the first argument is
    an options object with a [queryKey] and [exact: true], and the mode of
    the key is [all]; so it is without the flag. *)
Lemma C9_counterexample :
  @resolvesToOptions exampleLocale None exactEmptyOptions
    [ObjectProperty (Identifier "queryKey") (ArrayExpression []) false false;
     ObjectProperty (Identifier "exact") (BooleanLiteral true) false false]
  /\ readBooleanProperty
       [ObjectProperty (Identifier "queryKey") (ArrayExpression []) false false;
        ObjectProperty (Identifier "exact") (BooleanLiteral true) false false] "exact"
     = Some true
  /\ key_matchMode (@inferActionQueryKey exampleLocale None "invalidateQueries" [exactEmptyOptions])
     = MAll
  /\ key_matchMode (@inferActionQueryKey exampleLocale None "invalidateQueries" [emptyKeyOptions])
     = MAll.
Proof.
  split; [left; vm_compute; reflexivity|].
  repeat split; vm_compute; reflexivity.
Qed.

(** An identifier the resolver knows nothing of normalizes to [$name], a
    dynamic key of one segment, unless it is [undefined] or a name that
    reads [queryKey] or [queryKeys]. *)
Theorem unresolved_identifier_is_dynamic {locale : Locale} (resolver : option QueryKeyResolver)
    (name : string) :
  resolverReference resolver (Identifier name) = None ->
  name <> "undefined" ->
  isDollarQueryKey ("$" ++ name) = false ->
  normalizeQueryKey resolver (Some (Identifier name)) noOptions
  = {| key_id := "$" ++ name;
       key_display := "$" ++ name;
       key_segments := ["$" ++ name];
       key_matchMode := MExact;
       key_resolution := Dynamic;
       key_source := SrcExpression |}.
Proof.
  intros Hunresolved Hname Hdollar.
  unfold normalizeQueryKey. rewrite levelAt_zero.
  cbn [call_resolveQueryKeyExpression call_segmentFromExpression makeLevel].
  unfold resolveQueryKeyExpression at 1. cbn [unwrapExpression].
  rewrite Hunresolved. cbn [orDefault].
  unfold segmentFromExpression. cbn [unwrapExpression].
  apply String.eqb_neq in Hname. rewrite Hname, Hunresolved.
  unfold dollar, normalizeSegmentResult. cbn [text isStatic].
  change (orElse ("$" ++ name) UNRESOLVED_SEGMENT) with ("$" ++ name).
  rewrite Hdollar. reflexivity.
Qed.

Lemma unresolved_identifier_example :
  key_display (@normalize exampleLocale None (Identifier "todoId")) = "$todoId"
  /\ key_resolution (@normalize exampleLocale None (Identifier "todoId")) = Dynamic.
Proof.
  unfold normalize.
  rewrite (@unresolved_identifier_is_dynamic exampleLocale None "todoId" eq_refl
             ltac:(discriminate) eq_refl).
  split; reflexivity.
Defined.

(** A conditional expression is not evaluated: it normalizes to the
    placeholder [cond(...)], a dynamic key, whatever its branches and
    whatever the resolver. *)
Theorem conditional_is_a_placeholder {locale : Locale} (resolver : option QueryKeyResolver)
    (test consequent alternate : Node) :
  normalizeQueryKey resolver (Some (ConditionalExpression test consequent alternate)) noOptions
  = {| key_id := "cond(...)";
       key_display := "cond(...)";
       key_segments := ["cond(...)"];
       key_matchMode := MExact;
       key_resolution := Dynamic;
       key_source := SrcExpression |}.
Proof.
  unfold normalizeQueryKey. rewrite levelAt_zero.
  cbn [call_resolveQueryKeyExpression call_segmentFromExpression makeLevel].
  unfold resolveQueryKeyExpression at 1. cbn [unwrapExpression orDefault].
  unfold segmentFromExpression. cbn [unwrapExpression].
  replace (resolveWithResolver (ConditionalExpression test consequent alternate) resolver)
    with (@None Node) by (unfold resolveWithResolver; now destruct resolver).
  reflexivity.
Qed.

End NormalizerClaims.

(** ** The resolver: main theorems *)

Module ResolverClaims.
Import Js Ast Resolver ResolverSpec ResolverFacts.


(** With [const a = b; const b = a;] a reference to [a] comes back to [a],
    whose key is in the [seen] set: the resolver returns the alias it stopped
    at.  With two files that re-export each other, a name imported from one
    of them resolves to [undefined], each file having been visited once. *)
Lemma resolver_cycles :
  @resolveReference exampleHost "/src/keys.ts" cyclicAliases "/" noOrigins (Identifier "a")
  = Returned (Some (Identifier "a")) ["local-value:/src/keys.ts:a"; "local-value:/src/keys.ts:b"]
  /\ @resolveReference exampleHost "/src/use.ts" cyclicReExports "/" noOrigins (Identifier "key")
     = Returned None ["local-value:/src/use.ts:key"; "exp-value:/src/a.ts:key";
                      "exp-value:/src/b.ts:key"]
  /\ @resolveCallResult exampleHost "/src/use.ts" cyclicReExports "/" noOrigins (Identifier "key")
     = Returned None ["local-fn:/src/use.ts:key"; "exp-fn:/src/a.ts:key"; "exp-fn:/src/b.ts:key";
                      "local-value:/src/use.ts:key"; "exp-value:/src/a.ts:key";
                      "exp-value:/src/b.ts:key"].
Proof. repeat split; vm_compute; reflexivity. Qed.

End ResolverClaims.


(** ** Facts about strings *)

Module StringFacts.
Import Js IdFacts.


Lemma append_nil_r (s : string) : s ++ "" = s.
Proof. induction s as [| c s IH]; simpl; [reflexivity | now rewrite IH]. Qed.

Lemma length_append (a b : string) : String.length (a ++ b) = String.length a + String.length b.
Proof. induction a as [| c a IH]; simpl; [reflexivity | now rewrite IH]. Qed.

Lemma substring_zero (n : nat) (s : string) : substring n 0 s = "".
Proof.
  revert s. induction n as [| n IH]; intros [| c s]; simpl; try reflexivity. apply IH.
Qed.

Lemma substring_prefix (a b : string) : substring 0 (String.length a) (a ++ b) = a.
Proof.
  induction a as [| c a IH]; simpl.
  - now destruct b.
  - now rewrite IH.
Qed.

Lemma substring_skip (a b : string) (n m : nat) :
  substring (String.length a + n) m (a ++ b) = substring n m b.
Proof. induction a as [| c a IH]; simpl; [reflexivity | assumption]. Qed.

Lemma prefix_refl_append (p s : string) : String.prefix p (p ++ s) = true.
Proof.
  induction p as [| c p IH]; simpl.
  - now destruct s.
  - destruct (ascii_dec c c); [assumption | contradiction].
Qed.

Lemma prefix_split (p s : string) : String.prefix p s = true -> exists r, s = p ++ r.
Proof.
  revert s. induction p as [| c p IH]; intros s H.
  - now exists s.
  - destruct s as [| d s]; [discriminate |]. simpl in H.
    destruct (ascii_dec c d) as [-> | _]; [| discriminate].
    destruct (IH s H) as [r ->]. now exists r.
Qed.

Lemma revString_append (a b : string) : revString (a ++ b) = revString b ++ revString a.
Proof.
  induction a as [| c a IH]; simpl.
  - now rewrite append_nil_r.
  - now rewrite IH, append_assoc.
Qed.

Lemma revString_involutive (s : string) : revString (revString s) = s.
Proof.
  induction s as [| c s IH]; simpl; [reflexivity |].
  now rewrite revString_append, IH.
Qed.

Lemma endsWith_append (a b : string) : endsWith (a ++ b) b = true.
Proof. unfold endsWith. rewrite revString_append. apply prefix_refl_append. Qed.

Lemma endsWith_split (s p : string) : endsWith s p = true -> exists r, s = r ++ p.
Proof.
  unfold endsWith. intros H. apply prefix_split in H. destruct H as [r Hr].
  exists (revString r). apply (f_equal revString) in Hr.
  now rewrite revString_involutive, revString_append, revString_involutive in Hr.
Qed.

Lemma append_cancel_l (a b c : string) : a ++ b = a ++ c -> b = c.
Proof. induction a as [| x a IH]; simpl; [trivial |]. intros [= H]. now apply IH. Qed.

(** Two ways to cut one string: the shorter front is a front of the longer. *)
Lemma append_cut (a b c d : string) :
  a ++ b = c ++ d -> String.length a <= String.length c ->
  exists m, c = a ++ m /\ b = m ++ d.
Proof.
  revert c. induction a as [| x a IH]; intros c H Hlen.
  - exists c. split; [reflexivity | assumption].
  - destruct c as [| y c]; [simpl in Hlen; lia |].
    simpl in H. injection H as -> H. simpl in Hlen.
    destruct (IH c H ltac:(lia)) as [m [-> ->]]. now exists m.
Qed.

Lemma startsWith_append (p s : string) : startsWith (p ++ s) p = true.
Proof.
  unfold startsWith. induction p as [| c p IH]; simpl.
  - now destruct s.
  - destruct (ascii_dec c c); [assumption | contradiction].
Qed.

Lemma append_cancel_r (a b c : string) : a ++ c = b ++ c -> a = b.
Proof.
  revert b. induction a as [| x a IH]; intros [| y b] H; simpl in H.
  - reflexivity.
  - apply (f_equal String.length) in H. simpl in H. rewrite length_append in H. lia.
  - apply (f_equal String.length) in H. simpl in H. rewrite length_append in H. lia.
  - injection H as -> H. f_equal. now apply IH.
Qed.

End StringFacts.

(** ** Invariants of the graph assembler *)

Module GraphInvariants.
Import Js JsFacts GraphBuilder GraphSpec GraphShape IdFacts StringFacts Pass1Facts Pass2Facts
  GraphFacts.

(** *** Maps that only grow *)

Lemma mapSet_keys {V : Type} (k : string) (v : V) (m : JsMap V) :
  map fst (mapSet k v m) = if mapHas k m then map fst m else (map fst m ++ [k])%list.
Proof.
  unfold mapHas. induction m as [| [k' v'] m IH]; simpl; [reflexivity |].
  destruct (k' =? k) eqn:E; simpl; [reflexivity |].
  rewrite IH. now destruct (mapGet k m).
Qed.

Lemma mapSet_keys_NoDup {V : Type} (k : string) (v : V) (m : JsMap V) :
  NoDup (map fst m) -> NoDup (map fst (mapSet k v m)).
Proof.
  intros H. rewrite mapSet_keys. destruct (mapHas k m) eqn:E; [assumption |].
  apply mapHas_false, mapGet_keys in E.
  apply NoDup_app; [assumption | repeat constructor; intros [] |].
  intros a Ha [<- | []]. contradiction.
Qed.

Lemma setIfAbsent_keys_NoDup {V : Type} (k : string) (v : V) (m : JsMap V) :
  NoDup (map fst m) -> NoDup (map fst (setIfAbsent k v m)).
Proof.
  unfold setIfAbsent. destruct (negb (mapHas k m)); [apply mapSet_keys_NoDup | trivial].
Qed.

Lemma setIfAbsent_absent {V : Type} (k : string) (v : V) (m : JsMap V) :
  mapHas k m = false -> setIfAbsent k v m = (m ++ [(k, v)])%list.
Proof.
  intros H. unfold setIfAbsent. rewrite H. simpl. apply mapSet_fresh. now apply mapHas_false.
Qed.

Lemma setIfAbsent_present {V : Type} (k : string) (v : V) (m : JsMap V) :
  mapHas k m = true -> setIfAbsent k v m = m.
Proof. intros H. unfold setIfAbsent. now rewrite H. Qed.

Lemma setIfAbsent_keeps {V : Type} (k : string) (v : V) (m : JsMap V) (x : string * V) :
  In x m -> In x (setIfAbsent k v m).
Proof.
  intros H. destruct (mapHas k m) eqn:E.
  - now rewrite setIfAbsent_present.
  - rewrite setIfAbsent_absent by assumption. apply in_or_app. now left.
Qed.

Lemma setIfAbsent_KeyedBy {V : Type} (idOf : V -> string) (k : string) (v : V) (m : JsMap V) :
  idOf v = k -> KeyedBy idOf m -> KeyedBy idOf (setIfAbsent k v m).
Proof.
  intros Hv Hm k' v' Hin. apply setIfAbsent_In in Hin.
  destruct Hin as [[= -> ->] | Hin]; [assumption | now apply Hm].
Qed.

Lemma KeyedBy_ids {V : Type} (idOf : V -> string) (m : JsMap V) :
  KeyedBy idOf m -> map idOf (map snd m) = map fst m.
Proof.
  intros H. induction m as [| [k v] m IH]; simpl; [reflexivity |].
  rewrite (H k v) by now left. f_equal. apply IH. intros k' v' Hin. apply H. now right.
Qed.

Lemma mapHas_In {V : Type} (k : string) (m : JsMap V) :
  mapHas k m = true <-> In k (map fst m).
Proof.
  destruct (mapHas k m) eqn:E.
  - split; [intros _ | reflexivity].
    destruct (in_dec string_dec k (map fst m)) as [H | H]; [assumption |].
    apply mapGet_keys, mapHas_false in H. congruence.
  - apply mapHas_false, mapGet_keys in E. split; [discriminate | contradiction].
Qed.

Section Pruning.
Context {Item Key : Type} (idOf : Item -> Key) (keeps : Item -> bool).

Lemma pruning_keeps_ids_distinct (items : list Item) :
  NoDup (map idOf items) -> NoDup (map idOf (filter keeps items)).
Proof.
  induction items as [| item items IH]; cbn [map filter]; [trivial |].
  intros Hdistinct. apply NoDup_cons_iff in Hdistinct. destruct Hdistinct as [Hfresh Hrest].
  destruct (keeps item); cbn [map]; [| now apply IH].
  apply NoDup_cons; [| now apply IH].
  intros Hin. apply Hfresh. apply in_map_iff in Hin. destruct Hin as [other [Hid Hin]].
  apply filter_In in Hin. apply in_map_iff. exists other. tauto.
Qed.

End Pruning.

Lemma action_source (record : QueryRecord) (index : nat) :
  startsWith (makeActionNodeId record index) "action:" = true.
Proof. apply startsWith_append. Qed.

Section WithHost.
Context {env : HostEnv}.

(** *** Pass 1, one record after the other *)

Lemma combine_snoc {A B : Type} (l : list A) (l' : list B) (x : A) (y : B) :
  List.length l = List.length l' ->
  combine (l ++ [x]) (l' ++ [y]) = (combine l l' ++ [(x, y)])%list.
Proof.
  revert l'. induction l as [| a l IH]; intros [| b l'] H; simpl in *; try discriminate.
  - reflexivity.
  - f_equal. apply IH. now injection H.
Qed.

Lemma indexed_snoc {A : Type} (l : list A) (x : A) :
  indexed (l ++ [x]) = (indexed l ++ [(List.length l, x)])%list.
Proof.
  unfold indexed. rewrite length_app. simpl. rewrite Nat.add_1_r, seq_S. simpl.
  apply combine_snoc. apply length_seq.
Qed.

Lemma pass1_snoc (records : list QueryRecord) (record : QueryRecord) :
  pass1 (records ++ [record]) = pass1Step (pass1 records) (List.length records, record).
Proof. unfold pass1. now rewrite indexed_snoc, fold_left_app. Qed.

(** The node map after one more record. *)
Lemma nodeMap_snoc (records : list QueryRecord) (record : QueryRecord) :
  nodeMap (pass1 (records ++ [record]))
  = let nodes2 :=
      setIfAbsent (makeActionNodeId record (List.length records))
        (actionNodeOf (List.length records) record)
        (setIfAbsent (makeFileNodeId (fileOf record))
           (fileNode (makeFileNodeId (fileOf record)) (toDisplayPath (fileOf record)) (fileOf record))
           (nodeMap (pass1 records))) in
    if negb (isWildcardQueryKey record) && negb (mapHas (nodeIdOf record) nodes2)
    then mapSet (nodeIdOf record) (queryKeyNode (nodeIdOf record) record) nodes2
    else nodes2.
Proof. rewrite pass1_snoc. apply step_nodeMap. Qed.

Lemma edgeMap_snoc (records : list QueryRecord) (record : QueryRecord) :
  edgeMap (pass1 (records ++ [record]))
  = setIfAbsent (edge_id (fileEdgeOf (List.length records) record))
      (fileEdgeOf (List.length records) record) (edgeMap (pass1 records)).
Proof. rewrite pass1_snoc. apply step_edgeMap. Qed.

(** *** Identifiers are keys, and keys are unique *)

Lemma pass1_node_keys_NoDup (records : list QueryRecord) :
  NoDup (map fst (nodeMap (pass1 records))).
Proof.
  induction records as [| record records IH] using rev_ind; [constructor |].
  rewrite nodeMap_snoc. cbv zeta.
  set (nodes2 := setIfAbsent _ _ (setIfAbsent _ _ _)).
  assert (H2 : NoDup (map fst nodes2)) by now apply setIfAbsent_keys_NoDup, setIfAbsent_keys_NoDup.
  destruct (negb (isWildcardQueryKey record) && negb (mapHas (nodeIdOf record) nodes2));
    [now apply mapSet_keys_NoDup | assumption].
Qed.

Lemma pass1_nodes_kinds (records : list QueryRecord) : KindsByPrefix (nodeMap (pass1 records)).
Proof.
  induction records as [| record records IH] using rev_ind; [intros k n [] |].
  rewrite nodeMap_snoc. cbv zeta.
  set (nodes2 := setIfAbsent _ _ (setIfAbsent _ _ _)).
  assert (H2 : KindsByPrefix nodes2).
  { intros k n Hin. unfold nodes2 in Hin.
    apply setIfAbsent_In in Hin. destruct Hin as [[= -> ->] | Hin]; [apply action_source |].
    apply setIfAbsent_In in Hin. destruct Hin as [[= -> ->] | Hin]; [apply file_source |].
    now apply IH. }
  destruct (negb (isWildcardQueryKey record) && negb (mapHas (nodeIdOf record) nodes2));
    [| assumption].
  intros k n Hin. apply mapSet_In in Hin. destruct Hin as [[= -> ->] | Hin].
  - apply startsWith_qk.
  - now apply H2.
Qed.

Lemma final_nodeMap (records : list QueryRecord) :
  nodeMap (finalState records) = nodeMap (pass1 records).
Proof. unfold finalState. now destruct (pass2_frame (pass1 records)) as [H _]. Qed.

Lemma allNodes_ids (records : list QueryRecord) :
  map node_id (allNodesOf (finalState records)) = map fst (nodeMap (pass1 records)).
Proof.
  unfold allNodesOf. rewrite final_nodeMap, map_map.
  rewrite (map_ext _ node_id) by (intros n; apply assignMetrics_id).
  apply KeyedBy_ids. intros k n Hin. now destruct (pass1_nodes_keyed records k n Hin).
Qed.

Lemma final_node_ids (analysis : AnalysisResult) :
  map node_id (g_nodes (buildGraph analysis))
  = map node_id (survivingNodes (finalState (an_records analysis))
                   (allNodesOf (finalState (an_records analysis)))).
Proof.
  destruct (buildGraph_nodes analysis) as [a [b Hnodes]]. rewrite Hnodes, map_map.
  apply map_ext. intros n. apply reassignMetrics_id.
Qed.

(** *** Edges are keyed by their identifiers *)

Lemma linkTarget_edgeMap (p : PendingLink) (st : BuildState) (t : string) :
  edgeMap (linkTarget p st t)
  = let edgeB := pl_actionNodeId p ++ "->" ++ t ++ ":" ++ relationName (pl_relation p) in
    setIfAbsent edgeB
      {| edge_id := edgeB; edge_source := pl_actionNodeId p; edge_target := t;
         edge_relation := pl_relation p; edge_resolution := pl_resolution p |}
      (edgeMap st).
Proof. reflexivity. Qed.

Lemma pass2_edges_invariant (P : JsMap GraphEdge -> Prop) (st0 : BuildState) :
  P (edgeMap st0) ->
  (forall k e m, edge_id e = k -> P m -> P (setIfAbsent k e m)) ->
  P (edgeMap (pass2 st0)).
Proof.
  intros H0 Hstep. unfold pass2.
  apply (fold_left_invariant (fun st => P (edgeMap st))); [assumption |].
  intros st p _ Hst. unfold pass2Step.
  apply (fold_left_invariant (fun st => P (edgeMap st))); [assumption |].
  intros st' t _ Hst'. rewrite linkTarget_edgeMap. cbv zeta. now apply Hstep.
Qed.

Lemma pass1_edges_invariant (P : JsMap GraphEdge -> Prop) (records : list QueryRecord) :
  P [] ->
  (forall k e m, edge_id e = k -> P m -> P (setIfAbsent k e m)) ->
  P (edgeMap (pass1 records)).
Proof.
  intros H0 Hstep.
  induction records as [| record records IH] using rev_ind; [assumption |].
  rewrite edgeMap_snoc. now apply Hstep.
Qed.

Lemma final_edges_invariant (P : JsMap GraphEdge -> Prop) (records : list QueryRecord) :
  P [] ->
  (forall k e m, edge_id e = k -> P m -> P (setIfAbsent k e m)) ->
  P (edgeMap (finalState records)).
Proof.
  intros H0 Hstep. unfold finalState.
  apply pass2_edges_invariant; [| assumption]. now apply pass1_edges_invariant.
Qed.

Lemma final_edge_ids (records : list QueryRecord) :
  map edge_id (map snd (edgeMap (finalState records))) = map fst (edgeMap (finalState records))
  /\ NoDup (map fst (edgeMap (finalState records))).
Proof.
  apply (final_edges_invariant
           (fun m => map edge_id (map snd m) = map fst m /\ NoDup (map fst m))).
  - split; [reflexivity | constructor].
  - intros k e m He [Hk Hn]. split.
    + apply KeyedBy_ids. apply setIfAbsent_KeyedBy; [assumption |].
      intros k' e' Hin. clear Hn. induction m as [| [k0 e0] m IH]; [destruct Hin |].
      simpl in Hk. injection Hk as Hk0 Hk. destruct Hin as [[= <- <-] | Hin]; [assumption |].
      now apply IH.
    + now apply setIfAbsent_keys_NoDup.
Qed.

(** *** The keys of the node map *)

Lemma setIfAbsent_keys {V : Type} (k : string) (v : V) (m : JsMap V) (k' : string) :
  mapHas k' (setIfAbsent k v m) = true <-> mapHas k' m = true \/ k' = k.
Proof.
  destruct (mapHas k m) eqn:E.
  - rewrite setIfAbsent_present by assumption. split; [now left | intros [H | ->]; assumption].
  - rewrite setIfAbsent_absent by assumption.
    rewrite !mapHas_In, map_app, in_app_iff. simpl. intuition congruence.
Qed.

Lemma nodeMap_snoc_keys (records : list QueryRecord) (record : QueryRecord) (k : string) :
  mapHas k (nodeMap (pass1 (records ++ [record]))) = true
  <-> mapHas k (nodeMap (pass1 records)) = true
      \/ k = makeFileNodeId (fileOf record)
      \/ k = makeActionNodeId record (List.length records)
      \/ (isWildcardQueryKey record = false /\ k = nodeIdOf record).
Proof.
  rewrite nodeMap_snoc. cbv zeta.
  set (nodes2 := setIfAbsent _ _ (setIfAbsent _ _ _)).
  assert (H2 : mapHas k nodes2 = true
               <-> mapHas k (nodeMap (pass1 records)) = true
                   \/ k = makeFileNodeId (fileOf record)
                   \/ k = makeActionNodeId record (List.length records)).
  { unfold nodes2. rewrite !setIfAbsent_keys. tauto. }
  destruct (isWildcardQueryKey record) eqn:Ew; cbn [negb andb].
  - rewrite H2. intuition congruence.
  - destruct (mapHas (nodeIdOf record) nodes2) eqn:Eown; cbn [negb].
    + rewrite H2. split; [tauto |]. intros [H | [H | [H | [_ ->]]]]; tauto.
    + unfold mapHas at 1. rewrite mapGet_mapSet.
      destruct (nodeIdOf record =? k) eqn:Ek.
      * apply String.eqb_eq in Ek. subst k. intuition.
      * apply String.eqb_neq in Ek. fold (mapHas k nodes2). rewrite H2.
        intuition congruence.
Qed.

Lemma nodeMap_snoc_keeps (records : list QueryRecord) (record : QueryRecord)
    (x : string * GraphNode) :
  In x (nodeMap (pass1 records)) -> In x (nodeMap (pass1 (records ++ [record]))).
Proof.
  intros H. rewrite nodeMap_snoc. cbv zeta.
  set (nodes2 := setIfAbsent _ _ (setIfAbsent _ _ _)).
  assert (H2 : In x nodes2) by now apply setIfAbsent_keeps, setIfAbsent_keeps.
  destruct (negb (isWildcardQueryKey record)); cbn [andb]; [| assumption].
  destruct (mapHas (nodeIdOf record) nodes2) eqn:E; cbn [negb]; [assumption |].
  rewrite mapSet_fresh by now apply mapHas_false. apply in_or_app. now left.
Qed.

(** An action node is stored under an identifier that ends in the index of
    its record. *)
Lemma pass1_action_keys (records : list QueryRecord) (k : string) :
  mapHas k (nodeMap (pass1 records)) = true -> startsWith k "action:" = true ->
  exists r i, i < List.length records /\ k = makeActionNodeId r i.
Proof.
  induction records as [| record records IH] using rev_ind; [discriminate |].
  intros Hk Haction. apply nodeMap_snoc_keys in Hk. rewrite length_app. simpl.
  destruct Hk as [Hk | [-> | [-> | [_ ->]]]].
  - destruct (IH Hk Haction) as [r [i [Hi Heq]]]. exists r, i. split; [lia | assumption].
  - discriminate Haction.
  - exists record, (List.length records). split; [lia | reflexivity].
  - discriminate Haction.
Qed.

Lemma pass1_action_fresh (records : list QueryRecord) (record : QueryRecord) (f d a : string) :
  mapHas (makeActionNodeId record (List.length records))
         (setIfAbsent (makeFileNodeId f) (fileNode (makeFileNodeId f) d a)
            (nodeMap (pass1 records))) = false.
Proof.
  match goal with |- ?b = false => destruct b eqn:E end; [| reflexivity].
  apply setIfAbsent_keys in E. destruct E as [E | E].
  - destruct (pass1_action_keys records _ E (action_source _ _)) as [r [i [Hi Heq]]].
    apply makeActionNodeId_index in Heq. lia.
  - symmetry in E. now apply file_not_action in E.
Qed.

(** Every record has its action node after pass 1. *)
Lemma pass1_action_node (records : list QueryRecord) (index : nat) (record : QueryRecord) :
  nth_error records index = Some record ->
  In (makeActionNodeId record index, actionNodeOf index record) (nodeMap (pass1 records)).
Proof.
  revert index record. induction records as [| last records IH] using rev_ind.
  - intros [| index] record H; discriminate H.
  - intros index record Hnth.
    destruct (Nat.lt_ge_cases index (List.length records)) as [Hlt | Hge].
    + rewrite nth_error_app1 in Hnth by assumption. now apply nodeMap_snoc_keeps, IH.
    + rewrite nth_error_app2 in Hnth by assumption.
      destruct (index - List.length records) as [| [| n]] eqn:Ei; try discriminate Hnth.
      injection Hnth as <-. assert (index = List.length records) by lia. subst index.
      rewrite nodeMap_snoc. cbv zeta.
      rewrite (setIfAbsent_absent (makeActionNodeId last (List.length records)))
        by apply pass1_action_fresh.
      match goal with |- context [if ?c then _ else _] => destruct c eqn:Ec end.
      * apply andb_true_iff in Ec. destruct Ec as [_ Ec]. apply negb_true_iff in Ec.
        rewrite mapSet_fresh by now apply mapHas_false.
        apply in_or_app. left. apply in_or_app. right. now left.
      * apply in_or_app. right. now left.
Qed.

(** *** Counting the nodes of a kind *)

Lemma countKind_app (kind : GraphNodeKind) (l l' : list GraphNode) :
  countKind kind (l ++ l') = countKind kind l + countKind kind l'.
Proof. unfold countKind. now rewrite filter_app, length_app. Qed.

Lemma countKind_map (kind : GraphNodeKind) (f : GraphNode -> GraphNode) (l : list GraphNode) :
  (forall n, node_kind (f n) = node_kind n) -> countKind kind (map f l) = countKind kind l.
Proof.
  intros Hf. unfold countKind. induction l as [| n l IH]; simpl; [reflexivity |].
  rewrite Hf. destruct (kindEqb (node_kind n) kind); simpl; now rewrite IH.
Qed.

Lemma countKind_filter (kind : GraphNodeKind) (keep : GraphNode -> bool) (l : list GraphNode) :
  (forall n, kindEqb (node_kind n) kind = true -> keep n = true) ->
  countKind kind (filter keep l) = countKind kind l.
Proof.
  intros Hkeep. unfold countKind. induction l as [| n l IH]; simpl; [reflexivity |].
  destruct (kindEqb (node_kind n) kind) eqn:E.
  - rewrite (Hkeep n E). simpl. rewrite E. simpl. now rewrite IH.
  - destruct (keep n); simpl; [rewrite E |]; exact IH.
Qed.

Lemma countKind_setIfAbsent (kind : GraphNodeKind) (k : string) (n : GraphNode)
    (m : JsMap GraphNode) :
  countKind kind (map snd (setIfAbsent k n m))
  = countKind kind (map snd m)
    + (if mapHas k m then 0 else if kindEqb (node_kind n) kind then 1 else 0).
Proof.
  destruct (mapHas k m) eqn:E.
  - rewrite setIfAbsent_present by assumption. lia.
  - rewrite setIfAbsent_absent by assumption. rewrite map_app, countKind_app.
    unfold countKind at 2. simpl. now destruct (kindEqb (node_kind n) kind).
Qed.

Lemma countKind_snoc (kind : GraphNodeKind) (records : list QueryRecord) (record : QueryRecord) :
  kind <> KQueryKey ->
  countKind kind (map snd (nodeMap (pass1 (records ++ [record]))))
  = countKind kind (map snd (nodeMap (pass1 records)))
    + (if mapHas (makeFileNodeId (fileOf record)) (nodeMap (pass1 records)) then 0
       else if kindEqb KFile kind then 1 else 0)
    + (if kindEqb KAction kind then 1 else 0).
Proof.
  intros Hkind. rewrite nodeMap_snoc. cbv zeta.
  set (nodes2 := setIfAbsent _ _ (setIfAbsent _ _ _)).
  assert (H2 : countKind kind (map snd nodes2)
               = countKind kind (map snd (nodeMap (pass1 records)))
                 + (if mapHas (makeFileNodeId (fileOf record)) (nodeMap (pass1 records)) then 0
                    else if kindEqb KFile kind then 1 else 0)
                 + (if kindEqb KAction kind then 1 else 0)).
  { unfold nodes2. rewrite !countKind_setIfAbsent, pass1_action_fresh. reflexivity. }
  destruct (negb (isWildcardQueryKey record)); cbn [andb]; [| assumption].
  destruct (mapHas (nodeIdOf record) nodes2) eqn:E; cbn [negb]; [assumption |].
  rewrite mapSet_fresh by now apply mapHas_false.
  rewrite map_app, countKind_app, H2. unfold countKind at 2. simpl.
  destruct kind; try contradiction; simpl; lia.
Qed.

Lemma pass1_action_count (records : list QueryRecord) :
  countKind KAction (map snd (nodeMap (pass1 records))) = List.length records.
Proof.
  induction records as [| record records IH] using rev_ind; [reflexivity |].
  rewrite countKind_snoc by discriminate. rewrite IH, length_app. simpl.
  destruct (mapHas _ _); lia.
Qed.

Lemma setOfList_snoc (l : list string) (x : string) :
  setOfList (l ++ [x]) = setAdd x (setOfList l).
Proof. unfold setOfList. now rewrite fold_left_app. Qed.

Lemma makeFileNodeId_inj (a b : string) : makeFileNodeId a = makeFileNodeId b -> a = b.
Proof. unfold makeFileNodeId. simpl. now intros [= ->]. Qed.

Lemma pass1_file_keys (records : list QueryRecord) (f : string) :
  mapHas (makeFileNodeId f) (nodeMap (pass1 records)) = true
  <-> In f (setOfList (map fileOf records)).
Proof.
  induction records as [| record records IH] using rev_ind.
  - split; [discriminate | intros []].
  - rewrite nodeMap_snoc_keys, map_app. cbn [map]. rewrite setOfList_snoc, setAdd_In, IH. split.
    + intros [H | [H | [H | [_ H]]]].
      * now right.
      * left. now apply makeFileNodeId_inj.
      * now apply file_not_action in H.
      * symmetry in H. now apply qk_not_file in H.
    + intros [-> | H]; [right; now left | now left].
Qed.

Lemma pass1_file_count (records : list QueryRecord) :
  countKind KFile (map snd (nodeMap (pass1 records)))
  = List.length (setOfList (map fileOf records)).
Proof.
  induction records as [| record records IH] using rev_ind; [reflexivity |].
  rewrite countKind_snoc by discriminate. rewrite IH, map_app. cbn [map kindEqb].
  rewrite setOfList_snoc. unfold setAdd.
  destruct (mapHas (makeFileNodeId (fileOf record)) (nodeMap (pass1 records))) eqn:E.
  - apply pass1_file_keys, setHas_In in E. rewrite E. lia.
  - destruct (setHas (fileOf record) (setOfList (map fileOf records))) eqn:E'.
    + apply setHas_In, pass1_file_keys in E'. congruence.
    + rewrite length_app. simpl. lia.
Qed.

(** Nodes that are no query-key nodes are never pruned. *)
Lemma final_count (analysis : AnalysisResult) (kind : GraphNodeKind) :
  kind <> KQueryKey ->
  countKind kind (g_nodes (buildGraph analysis))
  = countKind kind (map snd (nodeMap (pass1 (an_records analysis)))).
Proof.
  intros Hkind. destruct (buildGraph_nodes analysis) as [a [b Hnodes]]. rewrite Hnodes.
  rewrite countKind_map by apply reassignMetrics_kind.
  unfold survivingNodes. rewrite countKind_filter.
  - unfold allNodesOf. rewrite countKind_map by apply assignMetrics_kind.
    now rewrite final_nodeMap.
  - intros n Hn. destruct (node_kind n), kind; try discriminate Hn; try reflexivity.
    contradiction.
Qed.

Lemma kept_node (analysis : AnalysisResult) (k : string) (n : GraphNode) :
  In (k, n) (nodeMap (pass1 (an_records analysis))) ->
  node_kind n <> KQueryKey ->
  exists n', In n' (g_nodes (buildGraph analysis))
             /\ node_id n' = k /\ node_kind n' = node_kind n
             /\ (node_kind n = KAction -> n' = n).
Proof.
  intros Hin Hkind. destruct (buildGraph_nodes analysis) as [a [b Hnodes]]. rewrite Hnodes.
  exists (reassignMetrics a b (assignMetrics (finalState (an_records analysis)) n)).
  split; [| split; [| split]].
  - apply in_map. unfold survivingNodes. apply filter_In. split.
    + unfold allNodesOf. rewrite final_nodeMap. apply in_map, in_map_iff. now exists (k, n).
    + rewrite assignMetrics_kind. destruct (node_kind n); try reflexivity. contradiction.
  - rewrite reassignMetrics_id, assignMetrics_id.
    now destruct (pass1_nodes_keyed _ _ _ Hin).
  - now rewrite reassignMetrics_kind, assignMetrics_kind.
  - intros Ha. unfold reassignMetrics. rewrite assignMetrics_kind, Ha.
    unfold assignMetrics. now rewrite Ha.
Qed.

(** *** The edge from a file to a call site *)

Lemma relationName_no_colon (r : GraphRelation) : afterLastColon (relationName r) = None.
Proof. now destruct r. Qed.

Lemma relationName_inj (a b : GraphRelation) : relationName a = relationName b -> a = b.
Proof. destruct a, b; simpl; intros H; try reflexivity; discriminate H. Qed.

(** The identifier of the edge to a call site ends in the index of the
    record, then its relation. *)
Lemma fileEdge_index (r r' : QueryRecord) (i j : nat) :
  edge_id (fileEdgeOf i r) = edge_id (fileEdgeOf j r') -> i = j.
Proof.
  unfold fileEdgeOf. cbn [edge_id]. intros H.
  assert (Hrel : relationName (rec_relation r) = relationName (rec_relation r')).
  { apply (f_equal afterLastColon) in H.
    rewrite <- !append_assoc in H.
    rewrite (append_assoc _ ":" (relationName (rec_relation r))) in H.
    rewrite (append_assoc _ ":" (relationName (rec_relation r'))) in H.
    rewrite !afterLastColon_append in H by apply relationName_no_colon.
    now injection H. }
  rewrite Hrel in H. rewrite <- !append_assoc in H.
  rewrite (append_assoc _ ":" (relationName (rec_relation r'))) in H.
  rewrite (append_assoc ((makeFileNodeId (fileOf r') ++ "->") ++ _) ":"
             (relationName (rec_relation r'))) in H.
  apply append_cancel_r in H.
  unfold makeActionNodeId in H. apply (f_equal afterLastColon) in H.
  rewrite <- !append_assoc in H.
  rewrite (append_assoc _ ":" (numberToString i)) in H.
  rewrite (append_assoc _ ":" (numberToString j)) in H.
  rewrite !afterLastColon_append in H by apply digits_have_no_colon.
  injection H. apply numberToString_inj.
Qed.

Lemma pass1_edge_keys (records : list QueryRecord) (k : string) :
  mapHas k (edgeMap (pass1 records)) = true ->
  exists r i, i < List.length records /\ k = edge_id (fileEdgeOf i r).
Proof.
  induction records as [| record records IH] using rev_ind; [discriminate |].
  rewrite edgeMap_snoc, setIfAbsent_keys, length_app. simpl. intros [H | ->].
  - destruct (IH H) as [r [i [Hi Heq]]]. exists r, i. split; [lia | assumption].
  - exists record, (List.length records). split; [lia | reflexivity].
Qed.

Lemma pass1_file_edge (records : list QueryRecord) (index : nat) (record : QueryRecord) :
  nth_error records index = Some record ->
  In (edge_id (fileEdgeOf index record), fileEdgeOf index record) (edgeMap (pass1 records)).
Proof.
  revert index record. induction records as [| last records IH] using rev_ind.
  - intros [| index] record H; discriminate H.
  - intros index record Hnth. rewrite edgeMap_snoc.
    destruct (Nat.lt_ge_cases index (List.length records)) as [Hlt | Hge].
    + rewrite nth_error_app1 in Hnth by assumption. now apply setIfAbsent_keeps, IH.
    + rewrite nth_error_app2 in Hnth by assumption.
      destruct (index - List.length records) as [| [| n]] eqn:Ei; try discriminate Hnth.
      injection Hnth as <-. assert (index = List.length records) by lia. subst index.
      rewrite setIfAbsent_absent; [apply in_or_app; right; now left |].
      match goal with |- ?b = false => destruct b eqn:E end; [| reflexivity].
      destruct (pass1_edge_keys records _ E) as [r [i [Hi Heq]]].
      apply fileEdge_index in Heq. lia.
Qed.

Lemma final_edge_kept (records : list QueryRecord) (x : string * GraphEdge) :
  In x (edgeMap (pass1 records)) -> In x (edgeMap (finalState records)).
Proof.
  intros H. unfold finalState.
  apply (pass2_edges_invariant (fun m => In x m)); [assumption |].
  intros k e m _. apply setIfAbsent_keeps.
Qed.

(** *** The declarations counted for a key *)

Lemma callsitesAt_linkTarget (p : PendingLink) (st : BuildState) (target t : string) :
  callsitesAt t (linkTarget p st target)
  = callsitesAt t st
    + (if isDeclarationAnchorRecord (pl_relation p) && (target =? t) then 1 else 0).
Proof.
  unfold callsitesAt, linkTarget. cbn [queryKeyToDeclareCallsites].
  destruct (isDeclarationAnchorRecord (pl_relation p)); cbn [andb]; [| lia].
  unfold incrementAt. rewrite mapGet_mapSet.
  destruct (target =? t) eqn:E; [| lia].
  apply String.eqb_eq in E. subst t. reflexivity.
Qed.

Lemma callsitesAt_links (p : PendingLink) (targets : list string) (st : BuildState) (t : string) :
  isDeclarationAnchorRecord (pl_relation p) = false ->
  callsitesAt t (fold_left (linkTarget p) targets st) = callsitesAt t st.
Proof.
  intros Hp. revert st. induction targets as [| x targets IH]; intros st; simpl; [reflexivity |].
  rewrite IH, callsitesAt_linkTarget, Hp. simpl. lia.
Qed.

Lemma callsitesAt_pass2Step (st : BuildState) (entry : nat * QueryRecord) (t : string) :
  callsitesAt t (pass2Step st (pendingOf entry))
  = callsitesAt t st
    + (if isDeclaring (snd entry) && (nodeIdOf (snd entry) =? t) then 1 else 0).
Proof.
  destruct entry as [index record]. unfold pass2Step, isDeclaring. cbn [snd].
  destruct (isDeclarationAnchorRecord (rec_relation record)) eqn:Edecl.
  - unfold pendingTargets. cbn [pendingOf pl_relation pl_queryKeyNodeId].
    unfold isDeclarationAnchorRecord in Edecl. rewrite Edecl.
    destruct (isWildcardQueryKey record); cbn [negb andb fold_left].
    + lia.
    + rewrite callsitesAt_linkTarget. cbn [pendingOf pl_relation].
      unfold isDeclarationAnchorRecord. now rewrite Edecl.
  - rewrite callsitesAt_links by assumption. rewrite andb_false_r. simpl. lia.
Qed.

Lemma callsitesAt_steps (l : list (nat * QueryRecord)) (st : BuildState) (t : string) :
  callsitesAt t (fold_left pass2Step (map pendingOf l) st)
  = callsitesAt t st + declaringCount (map snd l) t.
Proof.
  revert st. induction l as [| entry l IH]; intros st; cbn [map fold_left].
  - unfold declaringCount. simpl. lia.
  - rewrite IH, callsitesAt_pass2Step. unfold declaringCount. cbn [filter].
    destruct (isDeclaring (snd entry) && (nodeIdOf (snd entry) =? t)); cbn [List.length]; lia.
Qed.

(** The counter of a key after both passes: the records that declare it. *)
Lemma final_callsites (records : list QueryRecord) (t : string) :
  callsitesAt t (finalState records) = declaringCount records t.
Proof.
  unfold finalState, pass2. rewrite pass1_pending, callsitesAt_steps, map_snd_indexed.
  unfold callsitesAt. now rewrite pass1_callsites.
Qed.

Lemma reassignMetrics_callsites (a b : JsMap JsSet) (node : GraphNode) :
  declaredCallsitesOf (reassignMetrics a b node) = declaredCallsitesOf node.
Proof.
  unfold reassignMetrics, declaredCallsitesOf, withMetrics.
  destruct (node_kind node); cbn [node_metrics fold_left fst snd]; try reflexivity;
    rewrite mapGet_mapSet_ne by discriminate; now destruct (node_metrics node).
Qed.

End WithHost.
End GraphInvariants.


(** ** The graph assembler: what every graph has *)

Module GraphProperties.
Import Js JsFacts GraphBuilder GraphSpec GraphShape IdFacts Pass1Facts Pass2Facts GraphFacts.
Import GraphInvariants.

(** No two nodes of a graph [buildGraph] returns share an identifier, and no
    two edges do: the identifiers can key the nodes and edges of a view. *)
Theorem graph_ids_are_unique {env : HostEnv} (analysis : AnalysisResult) :
  NoDup (map node_id (g_nodes (buildGraph analysis)))
  /\ NoDup (map edge_id (g_edges (buildGraph analysis))).
Proof.
  split.
  - rewrite final_node_ids. unfold survivingNodes. apply pruning_keeps_ids_distinct.
    rewrite allNodes_ids. apply pass1_node_keys_NoDup.
  - rewrite buildGraph_edges. unfold survivingEdges. apply pruning_keeps_ids_distinct.
    destruct (final_edge_ids (an_records analysis)) as [Hids Hnodup]. now rewrite Hids.
Qed.

(** Call sites and files are never merged or pruned: the graph has one
    action node for each record, the node pass 1 builds for it, the summary
    counts as many actions as there are records, and as many files as the
    records have distinct normalized paths. *)
Theorem one_action_node_per_record {env : HostEnv} (analysis : AnalysisResult) :
  let g := buildGraph analysis in
  sum_actions (g_summary g) = List.length (an_records analysis)
  /\ sum_files (g_summary g) = List.length (setOfList (map fileOf (an_records analysis)))
  /\ (forall index record,
        nth_error (an_records analysis) index = Some record ->
        In (actionNodeOf index record) (g_nodes g)).
Proof.
  cbv zeta. rewrite GraphClaims.buildGraph_summary. cbn [sum_actions sum_files].
  split; [| split].
  - rewrite final_count by discriminate. apply pass1_action_count.
  - rewrite final_count by discriminate. apply pass1_file_count.
  - intros index record Hnth.
    destruct (kept_node analysis _ _ (pass1_action_node _ _ _ Hnth)) as [n [Hin [_ [_ Heq]]]];
      [discriminate |].
    now rewrite <- Heq.
Qed.

(** The two records of one file give two action nodes and one file node. *)
Lemma one_action_node_per_record_example :
  sum_actions (g_summary (@buildGraph exampleHost (analysisOf [declareTodosId; invalidateTodos]))) = 2
  /\ sum_files (g_summary (@buildGraph exampleHost (analysisOf [declareTodosId; invalidateTodos]))) = 1
  /\ In (@actionNodeOf exampleHost 1 invalidateTodos)
        (g_nodes (@buildGraph exampleHost (analysisOf [declareTodosId; invalidateTodos]))).
Proof.
  destruct (@one_action_node_per_record exampleHost (analysisOf [declareTodosId; invalidateTodos]))
    as [Hactions [Hfiles Hnode]].
  split; [exact Hactions | split; [exact Hfiles |]].
  apply Hnode. reflexivity.
Defined.

(** Every call site stays attached to its file: for each record the graph
    has the edge from the node of its file to its action node, with the
    relation and the resolution of the record. *)
Theorem file_edge_of_every_record {env : HostEnv} (analysis : AnalysisResult)
    (index : nat) (record : QueryRecord) :
  nth_error (an_records analysis) index = Some record ->
  In (fileEdgeOf index record) (g_edges (buildGraph analysis))
  /\ (exists n, In n (g_nodes (buildGraph analysis))
                /\ node_id n = edge_source (fileEdgeOf index record) /\ node_kind n = KFile).
Proof.
  intros Hnth.
  assert (Hfile : exists n, In (makeFileNodeId (fileOf record), n)
                              (nodeMap (pass1 (an_records analysis)))).
  { assert (H : mapHas (makeFileNodeId (fileOf record))
                       (nodeMap (pass1 (an_records analysis))) = true).
    { apply pass1_file_keys, setOfList_In, in_map. now apply nth_error_In in Hnth. }
    apply mapHas_true in H. destruct H as [n Hn]. exists n. now apply mapGet_In. }
  destruct Hfile as [n0 Hn0].
  assert (Hkind0 : node_kind n0 = KFile).
  { pose proof (pass1_nodes_kinds _ _ _ Hn0) as Hp.
    destruct (node_kind n0); [reflexivity | discriminate Hp | discriminate Hp]. }
  destruct (kept_node analysis _ _ Hn0) as [n [Hn [Hid [Hkind _]]]]; [congruence |].
  destruct (kept_node analysis _ _ (pass1_action_node _ _ _ Hnth)) as [a [Ha [Haid _]]];
    [discriminate |].
  split.
  - rewrite buildGraph_edges. apply survivingEdges_In. split; [| split].
    + apply in_map_iff. exists (edge_id (fileEdgeOf index record), fileEdgeOf index record).
      split; [reflexivity |]. now apply final_edge_kept, pass1_file_edge.
    + rewrite <- final_node_ids. apply in_map_iff. now exists n.
    + rewrite <- final_node_ids. apply in_map_iff. now exists a.
  - exists n. split; [assumption |]. split; [assumption | congruence].
Qed.

(** The invalidation of [[todos]] hangs under its file. *)
Lemma file_edge_of_every_record_example :
  In (@fileEdgeOf exampleHost 1 invalidateTodos)
     (g_edges (@buildGraph exampleHost (analysisOf [declareTodosId; invalidateTodos]))).
Proof.
  apply (@file_edge_of_every_record exampleHost (analysisOf [declareTodosId; invalidateTodos])
           1 invalidateTodos).
  reflexivity.
Defined.

(** The [declaredCallsites] metric of a query-key node is the number of
    records that declare its key. *)
Theorem declared_callsites_are_counted {env : HostEnv} (analysis : AnalysisResult)
    (n : GraphNode) :
  In n (g_nodes (buildGraph analysis)) -> node_kind n = KQueryKey ->
  declaredCallsitesOf n = declaringCount (an_records analysis) (node_id n).
Proof.
  intros Hin Hkind. destruct (buildGraph_nodes analysis) as [a [b Hnodes]].
  rewrite Hnodes in Hin. apply in_map_iff in Hin. destruct Hin as [n1 [<- Hin]].
  rewrite reassignMetrics_kind in Hkind. rewrite reassignMetrics_callsites, reassignMetrics_id.
  unfold survivingNodes in Hin. apply filter_In in Hin. destruct Hin as [Hin _].
  unfold allNodesOf in Hin. apply in_map_iff in Hin. destruct Hin as [n0 [<- _]].
  rewrite assignMetrics_kind in Hkind.
  rewrite declaredCallsites_assigned by assumption. rewrite assignMetrics_id.
  apply final_callsites.
Qed.

(** The node of [[todos, $id]] counts its one declaration. *)
Lemma declared_callsites_are_counted_example :
  declaredCallsitesOf
    (nth 2 (g_nodes (@buildGraph exampleHost (analysisOf [declareTodosId; invalidateTodos])))
         (fileNode "" "" "")) = 1.
Proof.
  apply (@declared_callsites_are_counted exampleHost
           (analysisOf [declareTodosId; invalidateTodos])).
  - vm_compute. right. right. left. reflexivity.
  - reflexivity.
Defined.

(** A declared key is never pruned: a [declares] record whose key is no
    wildcard has the node of its key in the graph. *)
Theorem declared_key_keeps_its_node {env : HostEnv} (analysis : AnalysisResult)
    (record : QueryRecord) :
  In record (an_records analysis) ->
  rec_relation record = Declares -> isWildcardQueryKey record = false ->
  exists n, In n (g_nodes (buildGraph analysis))
            /\ node_id n = nodeIdOf record /\ node_kind n = KQueryKey.
Proof.
  intros Hin Hrel Hw.
  destruct (pass1_own_node (an_records analysis) record Hin Hw) as [n0 [Hin0 [Hid0 Hkind0]]].
  assert (Hcount : 0 < declaringCount (an_records analysis) (node_id n0)).
  { unfold declaringCount.
    assert (Hf : In record (filter (fun r => isDeclaring r && (nodeIdOf r =? node_id n0))
                              (an_records analysis))).
    { apply filter_In. split; [assumption |]. unfold isDeclaring.
      rewrite Hw, Hrel, Hid0, String.eqb_refl. reflexivity. }
    destruct (filter _ _); [destruct Hf | simpl; lia]. }
  set (st := finalState (an_records analysis)).
  assert (Hcalls : declaredCallsitesOf (assignMetrics st n0)
                   = declaringCount (an_records analysis) (node_id n0)).
  { rewrite declaredCallsites_assigned by assumption. apply final_callsites. }
  destruct (GraphClaims.surviving_final analysis (assignMetrics st n0)) as [n [Hn [Hid Hkind]]].
  { assert (Hall : In (assignMetrics st n0) (allNodesOf st)).
    { unfold allNodesOf, st. rewrite final_nodeMap. now apply in_map. }
    unfold survivingNodes. apply filter_In. split; [assumption |].
    rewrite assignMetrics_kind, Hkind0. cbn [kindEqb negb orb].
    apply setHas_In, setOfList_In, in_map. apply filter_In. split.
    - apply filter_In. split; [assumption |]. now rewrite assignMetrics_kind, Hkind0.
    - rewrite Hcalls. apply Nat.ltb_lt in Hcount. now rewrite Hcount. }
  exists n. rewrite assignMetrics_id in Hid. rewrite assignMetrics_kind in Hkind.
  split; [assumption |]. split; congruence.
Qed.

(** The declared key [[todos, $id]] has its node. *)
Lemma declared_key_keeps_its_node_example :
  exists n, In n (g_nodes (@buildGraph exampleHost (analysisOf [declareTodosId; invalidateTodos])))
            /\ node_id n = "qk:todos|$id" /\ node_kind n = KQueryKey.
Proof.
  apply (@declared_key_keeps_its_node exampleHost (analysisOf [declareTodosId; invalidateTodos])
           declareTodosId).
  - now left.
  - reflexivity.
  - reflexivity.
Defined.

(** Matching by prefix is hierarchical: a key matched by prefix that affects
    a declared key through its segments affects every declared key whose
    comparable segments extend those of the first. *)
Theorem prefix_match_extends (action declared longer : NormalizedQueryKey)
    (extra : list string) :
  key_matchMode action = MPrefix ->
  key_id action <> key_id declared ->
  normalizeComparableSegments longer = (normalizeComparableSegments declared ++ extra)%list ->
  actionAffectsDeclaredQueryKey action declared = true ->
  actionAffectsDeclaredQueryKey action longer = true.
Proof.
  intros Hmode Hid Hlonger. unfold actionAffectsDeclaredQueryKey.
  destruct (key_id action =? "pass-through-query-key"); [discriminate |].
  destruct (isWildcardSource (key_source action) || _ || _); [reflexivity |].
  apply String.eqb_neq in Hid. rewrite Hid, Hmode. cbv zeta. cbn [matchModeEqb].
  destruct (key_id action =? key_id longer); [reflexivity |].
  rewrite Hlonger.
  set (a := normalizeComparableSegments action).
  set (d := normalizeComparableSegments declared).
  destruct (List.length a =? 0)%nat; cbn [orb]; [discriminate |].
  destruct (List.length d =? 0)%nat eqn:Ed; [discriminate |].
  assert (Hlen : (List.length (d ++ extra) =? 0)%nat = false).
  { rewrite length_app. apply Nat.eqb_neq. apply Nat.eqb_neq in Ed. lia. }
  rewrite Hlen. intros H. apply SegmentFacts.hasPrefixSegments_spec in H.
  apply SegmentFacts.hasPrefixSegments_spec.
  destruct H as [front [rest [Heq H]]]. exists front, (rest ++ extra)%list.
  split; [| assumption]. now rewrite Heq, app_assoc.
Qed.

(** The invalidation of [[todos]] affects [[todos, list]], so it affects
    [[todos, list, done]]. *)
Lemma prefix_match_extends_example :
  actionAffectsDeclaredQueryKey todosKey (arrayKey ["todos"; "list"; "done"] MExact Static) = true.
Proof.
  apply (prefix_match_extends todosKey todosListKey _ ["done"]); try reflexivity.
  discriminate.
Defined.

(** Matching exactly is stricter than matching by prefix: a key that affects
    a declared key in exact mode affects it in prefix mode. *)
Theorem exact_match_is_a_prefix_match (action declared : NormalizedQueryKey) :
  actionAffectsDeclaredQueryKey (Normalizer.setMatchMode action MExact) declared = true ->
  actionAffectsDeclaredQueryKey (Normalizer.setMatchMode action MPrefix) declared = true.
Proof.
  unfold actionAffectsDeclaredQueryKey, normalizeComparableSegments, Normalizer.setMatchMode.
  cbn [key_id key_source key_matchMode key_segments matchModeEqb orb].
  destruct (key_id action =? "pass-through-query-key"); [trivial |].
  destruct (isWildcardSource (key_source action)); [trivial |].
  destruct (key_id action =? key_id declared); [trivial |].
  cbn [orb].
  match goal with |- (if ?c then false else _) = true -> _ => destruct c end; [trivial |].
  intros H. now apply andb_true_iff in H.
Qed.

(** [[todos, detail]] affects the declared [[todos, $id]] exactly, hence by prefix. *)
Lemma exact_match_is_a_prefix_match_example :
  actionAffectsDeclaredQueryKey (Normalizer.setMatchMode todosDetailKey MPrefix)
                                (arrayKey ["todos"; "$id"] MExact Dynamic) = true.
Proof.
  apply exact_match_is_a_prefix_match. reflexivity.
Defined.

End GraphProperties.

(** ** The certainty of a name *)

Module ParseContextFacts.
Import Js JsFacts ParseContext.

Lemma getCertainty_setCertainty (map : JsMap Resolution) (key other : string)
    (certainty : Resolution) :
  getCertainty (setCertainty map key certainty) other
  = if key =? other
    then Some (match getCertainty map key with Some Static => Static | _ => certainty end)
    else getCertainty map other.
Proof.
  unfold getCertainty, setCertainty.
  destruct (key =? other) eqn:E.
  - apply String.eqb_eq in E. subst other.
    destruct (mapGet key map) as [[|] |] eqn:Eg; cbn [orb].
    + assumption.
    + destruct certainty; cbn [isStaticResolution]; [apply mapGet_mapSet_eq | assumption].
    + apply mapGet_mapSet_eq.
  - apply String.eqb_neq in E.
    destruct (mapGet key map) as [[|] |]; cbn [orb]; try reflexivity.
    + destruct certainty; cbn [isStaticResolution]; [now apply mapGet_mapSet_ne | reflexivity].
    + now apply mapGet_mapSet_ne.
Qed.

End ParseContextFacts.

(** ** The text of a configuration *)

Module ConfigTextFacts.
Import Js JsFacts IdFacts StringFacts ConfigText ConfigTextSpec.

Lemma isChar_eq (code : nat) (c : ascii) : isChar code c = true -> c = ascii_of_nat code.
Proof.
  unfold isChar. intros H. apply Nat.eqb_eq in H. rewrite <- H. symmetry. apply ascii_nat_embedding.
Qed.

(** *** [indexOf] *)

Lemma indexOfChar_found (code : nat) (front back : string) (c : ascii) :
  allChars (fun x => negb (isChar code x)) front = true -> isChar code c = true ->
  indexOfChar code (front ++ String c back) = Some (String.length front).
Proof.
  intros Hfront Hc. induction front as [| x front IH]; simpl.
  - now rewrite Hc.
  - simpl in Hfront. apply andb_true_iff in Hfront. destruct Hfront as [Hx Hfront].
    apply negb_true_iff in Hx. now rewrite Hx, IH.
Qed.

Lemma indexOfChar_split (code : nat) (s : string) (i : nat) :
  indexOfChar code s = Some i ->
  s = substring 0 i s ++ String (ascii_of_nat code) (substring (i + 1) (String.length s - (i + 1)) s)
  /\ String.length (substring 0 i s) = i
  /\ String.length (substring (i + 1) (String.length s - (i + 1)) s) = String.length s - (i + 1)
  /\ allChars (fun x => negb (isChar code x)) (substring 0 i s) = true.
Proof.
  revert i. induction s as [| c s IH]; intros i; simpl; [discriminate |].
  destruct (isChar code c) eqn:Ec.
  - intros [= <-]. simpl. rewrite Nat.sub_0_r.
    assert (Hall : substring 0 (String.length s) s = s).
    { rewrite <- (append_nil_r s) at 2. apply substring_prefix. }
    rewrite Hall. apply isChar_eq in Ec. subst c. auto.
  - destruct (indexOfChar code s) as [j |]; [| discriminate]. intros [= <-].
    destruct (IH j eq_refl) as [Hs [Hl1 [Hl2 Hno]]]. simpl.
    rewrite <- Hs, Hl1, Hl2, Ec, Hno. auto.
Qed.

Lemma allChars_append (test : ascii -> bool) (a b : string) :
  allChars test (a ++ b) = allChars test a && allChars test b.
Proof. induction a as [| c a IH]; simpl; [reflexivity | now rewrite IH, andb_assoc]. Qed.


(** *** [stripJsonComments], piece by piece *)


Lemma strip_plain (text rest : string) :
  allChars (fun c => negb (isChar SLASH c) && negb (isChar QUOTE c)) text = true ->
  stripJsonCommentsFrom false false false false (text ++ rest) = text ++ stripJsonCommentsFrom false false false false rest.
Proof.
  induction text as [| c text IH]; intros H; [reflexivity |].
  simpl in H. apply andb_true_iff in H. destruct H as [Hc H].
  apply andb_true_iff in Hc. destruct Hc as [Hslash Hquote].
  apply negb_true_iff in Hslash, Hquote.
  cbn [stripJsonCommentsFrom append]. rewrite Hquote, Hslash. cbn [andb].
  rewrite <- (IH H). now destruct (text ++ rest).
Qed.

Lemma strip_body (body rest : string) (escaped : bool) :
  closedBody escaped body = true ->
  stripJsonCommentsFrom true escaped false false (body ++ quote ++ rest)
  = body ++ quote ++ stripJsonCommentsFrom false false false false rest.
Proof.
  revert escaped. induction body as [| c body IH]; intros escaped H.
  - simpl in H. apply negb_true_iff in H. subst escaped. reflexivity.
  - change ((String c body) ++ quote ++ rest) with (String c (body ++ quote ++ rest)).
    cbn [stripJsonCommentsFrom]. cbn [closedBody] in H.
    change ((String c body) ++ quote ++ stripJsonCommentsFrom false false false false rest)
      with (String c (body ++ quote ++ stripJsonCommentsFrom false false false false rest)).
    f_equal. destruct escaped; [now apply IH |].
    destruct (isChar BACKSLASH c); [now apply IH |].
    destruct (isChar QUOTE c); [discriminate | now apply IH].
Qed.

Lemma strip_literal (body rest : string) :
  closedBody false body = true ->
  stripJsonCommentsFrom false false false false ((quote ++ body ++ quote) ++ rest) = (quote ++ body ++ quote) ++ stripJsonCommentsFrom false false false false rest.
Proof.
  intros H. rewrite !append_assoc.
  change (stripJsonCommentsFrom false false false false (quote ++ body ++ quote ++ rest))
    with (quote ++ stripJsonCommentsFrom true false false false (body ++ quote ++ rest)).
  now rewrite strip_body.
Qed.

Lemma strip_line (text rest : string) :
  allChars (fun c => negb (isChar NEWLINE c)) text = true ->
  stripJsonCommentsFrom false false true false (text ++ newline ++ rest) = newline ++ stripJsonCommentsFrom false false false false rest.
Proof.
  induction text as [| c text IH]; intros H; [reflexivity |].
  simpl in H. apply andb_true_iff in H. destruct H as [Hc H]. apply negb_true_iff in Hc.
  change ((String c text) ++ newline ++ rest) with (String c (text ++ newline ++ rest)).
  cbn [stripJsonCommentsFrom]. rewrite Hc. now apply IH.
Qed.

Lemma strip_lineComment (text rest : string) :
  allChars (fun c => negb (isChar NEWLINE c)) text = true ->
  stripJsonCommentsFrom false false false false (("//" ++ text ++ newline) ++ rest) = newline ++ stripJsonCommentsFrom false false false false rest.
Proof.
  intros H. rewrite !append_assoc.
  change (stripJsonCommentsFrom false false false false ("//" ++ text ++ newline ++ rest))
    with (stripJsonCommentsFrom false false true false (text ++ newline ++ rest)).
  now apply strip_line.
Qed.

Lemma prefix_star_slash (c n : ascii) (t : string) :
  String.prefix "*/" (String c (String n t)) = isChar STAR c && isChar SLASH n.
Proof.
  cbn [String.prefix].
  destruct (ascii_dec "*" c) as [<- | Hc].
  - destruct (ascii_dec "/" n) as [<- | Hn]; [now destruct t |].
    destruct (isChar SLASH n) eqn:E; [| now rewrite andb_false_r].
    apply isChar_eq in E. subst n. now contradiction Hn.
  - destruct (isChar STAR c) eqn:E; [| reflexivity].
    apply isChar_eq in E. subst c. now contradiction Hc.
Qed.

Lemma block_step (c n : ascii) (t : string) :
  stripJsonCommentsFrom false false false true (String c (String n t))
  = if isChar STAR c && isChar SLASH n
    then stripJsonCommentsFrom false false false false t
    else stripJsonCommentsFrom false false false true (String n t).
Proof. reflexivity. Qed.

Lemma strip_block (text rest : string) :
  includes text "*/" = false ->
  stripJsonCommentsFrom false false false true (text ++ "*/" ++ rest)
  = stripJsonCommentsFrom false false false false rest.
Proof.
  induction text as [| c text IH]; intros H; [reflexivity |].
  cbn [includes] in H. apply orb_false_iff in H. destruct H as [Hhere H].
  specialize (IH H). destruct text as [| n text].
  - change (("" ++ "*/" ++ rest)) with (String "*" (String "/" rest)) in IH.
    change ((String c "") ++ "*/" ++ rest) with (String c (String "*" (String "/" rest))).
    rewrite block_step. replace (isChar SLASH "*") with false by reflexivity.
    now rewrite andb_false_r.
  - change ((String c (String n text)) ++ "*/" ++ rest)
      with (String c (String n (text ++ "*/" ++ rest))).
    rewrite block_step. rewrite prefix_star_slash in Hhere. rewrite Hhere. exact IH.
Qed.

Lemma strip_blockComment (text rest : string) :
  includes text "*/" = false ->
  stripJsonCommentsFrom false false false false (("/*" ++ text ++ "*/") ++ rest) = stripJsonCommentsFrom false false false false rest.
Proof.
  intros H. rewrite !append_assoc.
  change (stripJsonCommentsFrom false false false false ("/*" ++ text ++ "*/" ++ rest))
    with (stripJsonCommentsFrom false false false true (text ++ "*/" ++ rest)).
  now apply strip_block.
Qed.

Lemma strip_piece (piece : Piece) (rest : string) :
  commentsMarked piece = true ->
  stripJsonCommentsFrom false false false false (written piece ++ rest) = written (withoutComment piece) ++ stripJsonCommentsFrom false false false false rest.
Proof.
  destruct piece as [text | body | text | text |]; cbn [commentsMarked written withoutComment].
  - apply strip_plain.
  - apply strip_literal.
  - apply strip_lineComment.
  - intros H. apply negb_true_iff in H. now apply strip_blockComment.
  - intros _. now apply (strip_plain "," rest).
Qed.

Lemma strip_pieces (pieces : list Piece) :
  forallb commentsMarked pieces = true ->
  stripJsonComments (textOf written pieces) = textOf written (map withoutComment pieces).
Proof.
  unfold stripJsonComments. induction pieces as [| piece pieces IH]; [reflexivity |].
  cbn [forallb textOf fold_right map]. intros H. apply andb_true_iff in H. destruct H as [Hp H].
  fold (textOf written pieces). fold (textOf written (map withoutComment pieces)).
  rewrite strip_piece by assumption. now rewrite IH.
Qed.

(** *** [stripTrailingCommas], piece by piece *)

Lemma commas_plain (text rest : string) :
  allChars (fun c => negb (isChar COMMA c) && negb (isChar QUOTE c)) text = true ->
  stripTrailingCommasFrom false false (text ++ rest)
  = text ++ stripTrailingCommasFrom false false rest.
Proof.
  induction text as [| c text IH]; intros H; [reflexivity |].
  simpl in H. apply andb_true_iff in H. destruct H as [Hc H].
  apply andb_true_iff in Hc. destruct Hc as [Hcomma Hquote].
  apply negb_true_iff in Hcomma, Hquote.
  cbn [stripTrailingCommasFrom append]. rewrite Hquote, Hcomma. cbn [negb].
  now rewrite (IH H).
Qed.

Lemma commas_body (body rest : string) (escaped : bool) :
  closedBody escaped body = true ->
  stripTrailingCommasFrom true escaped (body ++ quote ++ rest)
  = body ++ quote ++ stripTrailingCommasFrom false false rest.
Proof.
  revert escaped. induction body as [| c body IH]; intros escaped H.
  - simpl in H. apply negb_true_iff in H. subst escaped. reflexivity.
  - change ((String c body) ++ quote ++ rest) with (String c (body ++ quote ++ rest)).
    cbn [stripTrailingCommasFrom]. cbn [closedBody] in H.
    change ((String c body) ++ quote ++ stripTrailingCommasFrom false false rest)
      with (String c (body ++ quote ++ stripTrailingCommasFrom false false rest)).
    f_equal. destruct escaped; [now apply IH |].
    destruct (isChar BACKSLASH c); [now apply IH |].
    destruct (isChar QUOTE c); [discriminate | now apply IH].
Qed.

Lemma commas_literal (body rest : string) :
  closedBody false body = true ->
  stripTrailingCommasFrom false false ((quote ++ body ++ quote) ++ rest)
  = (quote ++ body ++ quote) ++ stripTrailingCommasFrom false false rest.
Proof.
  intros H. rewrite !append_assoc.
  change (stripTrailingCommasFrom false false (quote ++ body ++ quote ++ rest))
    with (quote ++ stripTrailingCommasFrom true false (body ++ quote ++ rest)).
  now rewrite commas_body.
Qed.

Lemma commas_comma (rest : string) :
  stripTrailingCommasFrom false false ("," ++ rest)
  = if closesNext rest then stripTrailingCommasFrom false false rest
    else "," ++ stripTrailingCommasFrom false false rest.
Proof.
  unfold closesNext. change ("," ++ rest) with (String "," rest).
  cbn [stripTrailingCommasFrom]. replace (isChar QUOTE ",") with false by reflexivity.
  replace (isChar COMMA ",") with true by reflexivity. cbn [negb].
  destruct (afterWhitespace rest) as [next |]; [| reflexivity].
  now destruct (isChar CLOSE_BRACE next || isChar CLOSE_BRACKET next).
Qed.

Lemma commas_pieces (pieces : list Piece) :
  forallb commasMarked pieces = true ->
  stripTrailingCommas (textOf written pieces) = withoutTrailingCommas pieces.
Proof.
  unfold stripTrailingCommas. induction pieces as [| piece pieces IH]; [reflexivity |].
  cbn [forallb textOf fold_right]. intros H. apply andb_true_iff in H. destruct H as [Hp H].
  fold (textOf written pieces). specialize (IH H).
  destruct piece as [text | body | text | text |]; cbn [commasMarked written] in *;
    try discriminate Hp.
  - rewrite commas_plain by assumption. cbn [withoutTrailingCommas written]. now rewrite IH.
  - rewrite commas_literal by assumption. cbn [withoutTrailingCommas written]. now rewrite IH.
  - rewrite commas_comma. cbn [withoutTrailingCommas]. now rewrite IH.
Qed.

End ConfigTextFacts.


(** ** [context.ts]: what its helpers do *)

Module ParseContextProperties.
Import Js JsFacts ParseContext ParseContextFacts.

(** A name is as certain as its most certain registration: after any calls
    of [setCertainty] on a map, a name that was [static] is [static]; a name
    that was not is [static] when one of its calls was, [dynamic] when it
    has calls and none was, and what it was when it has none.  In particular
    no later call makes a [static] name [dynamic]. *)
Theorem certainty_is_the_most_certain_registration (calls : list (string * Resolution))
    (map : JsMap Resolution) (key : string) :
  getCertainty (fold_left (fun m call => setCertainty m (fst call) (snd call)) calls map) key
  = match getCertainty map key with
    | Some Static => Some Static
    | before =>
        if existsb (fun call => (fst call =? key) && isStaticResolution (snd call)) calls
        then Some Static
        else if existsb (fun call => fst call =? key) calls then Some Dynamic
        else before
    end.
Proof.
  revert map. induction calls as [| [k c] calls IH]; intros map; cbn [fold_left existsb fst snd].
  - now destruct (getCertainty map key) as [[|] |].
  - rewrite IH, getCertainty_setCertainty.
    destruct (k =? key) eqn:E; cbn [andb orb].
    + apply String.eqb_eq in E. subst k.
      destruct (getCertainty map key) as [[|] |]; destruct c; cbn [isStaticResolution orb];
        repeat match goal with
               | |- context [existsb ?f calls] => destruct (existsb f calls)
               end; reflexivity.
    + reflexivity.
Qed.

End ParseContextProperties.

Module ConfigTextProperties.
Import Js JsFacts IdFacts StringFacts ConfigText ConfigTextSpec ConfigTextFacts.

(** The capture of a path alias.  A pattern [prefix*suffix] gives back the
    text the star stands for: the source [prefix ++ captured ++ suffix]
    captures [captured].  What [aliasCapture] returns for a pattern with a
    star fills the star when the source is long enough to hold the prefix
    and the suffix one after the other.  The two are tested apart: a source
    in which they overlap is accepted too, with an empty capture, as [x]
    against [x*x]. *)
Theorem alias_capture_fills_the_star :
  (forall prefix captured suffix,
     allChars (fun c => negb (isChar STAR c)) prefix = true ->
     aliasCapture (prefix ++ "*" ++ suffix) (prefix ++ captured ++ suffix) = Some captured)
  /\ (forall pattern source captured starIndex,
        indexOfChar STAR pattern = Some starIndex ->
        aliasCapture pattern source = Some captured ->
        let prefix := slice pattern 0 starIndex in
        let suffix := slice pattern (starIndex + 1) (String.length pattern) in
        pattern = prefix ++ "*" ++ suffix
        /\ (String.length prefix + String.length suffix <= String.length source ->
            source = prefix ++ captured ++ suffix)
        /\ (String.length source < String.length prefix + String.length suffix ->
            captured = ""))
  /\ (forall pattern source captured,
        indexOfChar STAR pattern = None ->
        (aliasCapture pattern source = Some captured <-> pattern = source /\ captured = ""))
  /\ (forall x,
        allChars (fun c => negb (isChar STAR c)) x = true ->
        aliasCapture (x ++ "*" ++ x) x = Some "").
Proof.
  assert (Hparts : forall prefix suffix,
            allChars (fun c => negb (isChar STAR c)) prefix = true ->
            indexOfChar STAR (prefix ++ "*" ++ suffix) = Some (String.length prefix)
            /\ slice (prefix ++ "*" ++ suffix) 0 (String.length prefix) = prefix
            /\ slice (prefix ++ "*" ++ suffix) (String.length prefix + 1)
                     (String.length (prefix ++ "*" ++ suffix)) = suffix).
  { intros prefix suffix Hprefix. split; [| split].
    - now apply indexOfChar_found.
    - unfold slice. rewrite Nat.sub_0_r. apply substring_prefix.
    - unfold slice. rewrite substring_skip, length_append. simpl.
      replace (String.length prefix + S (String.length suffix) - (String.length prefix + 1))
        with (String.length suffix) by lia.
      rewrite <- (append_nil_r suffix) at 2. apply substring_prefix. }
  split; [| split; [| split]].
  - intros prefix captured suffix Hprefix. unfold aliasCapture.
    destruct (Hparts prefix suffix Hprefix) as [-> [-> ->]].
    unfold startsWith. rewrite prefix_refl_append.
    rewrite <- (append_assoc prefix captured suffix) at 1. rewrite endsWith_append.
    cbn [negb orb]. f_equal. unfold slice.
    rewrite <- (Nat.add_0_r (String.length prefix)) at 1. rewrite substring_skip.
    rewrite !length_append.
    replace (String.length prefix + (String.length captured + String.length suffix)
             - String.length suffix - String.length prefix)
      with (String.length captured) by lia.
    apply substring_prefix.
  - intros pattern source captured starIndex Hstar. unfold aliasCapture. rewrite Hstar. cbv zeta.
    destruct (indexOfChar_split _ _ _ Hstar) as [Hpattern [Hl1 [Hl2 _]]].
    unfold slice. rewrite !Nat.sub_0_r.
    set (prefix := substring 0 starIndex pattern) in *.
    set (suffix := substring (starIndex + 1) (String.length pattern - (starIndex + 1)) pattern) in *.
    destruct (startsWith source prefix) eqn:Estart; [| discriminate].
    destruct (endsWith source suffix) eqn:Eend; [| discriminate].
    cbn [negb orb]. intros [= <-].
    split; [exact Hpattern |].
    apply prefix_split in Estart. destruct Estart as [r1 Hr1].
    apply endsWith_split in Eend. destruct Eend as [r2 Hr2].
    split.
    + intros Hlen.
      assert (Hcut : exists m, r2 = prefix ++ m /\ r1 = m ++ suffix).
      { apply append_cut; [congruence |].
        apply (f_equal String.length) in Hr2. rewrite length_append in Hr2. lia. }
      destruct Hcut as [m [-> ->]].
      assert (Hcap : substring (String.length prefix)
                       (String.length source - String.length suffix - String.length prefix)
                       source = m).
      { rewrite Hr1. rewrite <- (Nat.add_0_r (String.length prefix)) at 1.
        rewrite substring_skip, !length_append.
        replace (String.length prefix + (String.length m + String.length suffix)
                 - String.length suffix - String.length prefix)
          with (String.length m) by lia.
        apply substring_prefix. }
      rewrite Hcap. exact Hr1.
    + intros Hlen.
      replace (String.length source - String.length suffix - String.length prefix) with 0 by lia.
      apply substring_zero.
  - intros pattern source captured Hnone. unfold aliasCapture. rewrite Hnone.
    destruct (pattern =? source) eqn:E.
    + apply String.eqb_eq in E. split; [intros [= <-]; now split | intros [_ ->]; reflexivity].
    + apply String.eqb_neq in E. split; [discriminate | intros [H _]; contradiction].
  - intros x Hx. unfold aliasCapture.
    destruct (Hparts x x Hx) as [-> [-> ->]].
    unfold startsWith.
    rewrite <- (append_nil_r x) at 2. rewrite prefix_refl_append.
    change x with ("" ++ x) at 1. rewrite endsWith_append.
    cbn [negb orb]. f_equal. unfold slice.
    replace (String.length x - String.length x - String.length x) with 0 by lia.
    apply substring_zero.
Qed.

(** The alias [@/*] captures what follows [@/]. *)
Lemma alias_capture_example :
  aliasCapture "@/*" "@/features/todos" = Some "features/todos"
  /\ aliasCapture "ab*ab" "ab" = Some "".
Proof.
  destruct alias_capture_fills_the_star as [Hfill [_ [_ Hoverlap]]].
  split.
  - apply (Hfill "@/" "features/todos" ""). reflexivity.
  - apply (Hoverlap "ab"). reflexivity.
Defined.


(** [stripJsonComments] takes the comments out of a configuration text and
    nothing else: of a text made of plain text, string literals, line
    comments and block comments, it leaves the plain text and the literals
    as they are (a literal that holds [//] or [/*] too), the line end of
    each line comment, and nothing of a block comment. *)
Theorem comments_are_stripped (pieces : list Piece) :
  forallb commentsMarked pieces = true ->
  stripJsonComments (textOf written pieces) = textOf written (map withoutComment pieces).
Proof. apply strip_pieces. Qed.

(** The configuration [{ "paths": { "@/*": ["src/*"] } }] with two comments:
    the stars and slashes of the literals stay. *)
Lemma comments_are_stripped_example :
  stripJsonComments
    (textOf written
       [Plain "{ "; Literal "paths"; Plain ": { "; LineComment " aliases";
        Literal "@/*"; Plain ": ["; Literal "src/*"; BlockComment " one "; Plain "] } }"])
  = textOf written
      [Plain "{ "; Literal "paths"; Plain ": { "; Plain newline;
       Literal "@/*"; Plain ": ["; Literal "src/*"; Plain ""; Plain "] } }"].
Proof.
  apply (comments_are_stripped
           [Plain "{ "; Literal "paths"; Plain ": { "; LineComment " aliases";
            Literal "@/*"; Plain ": ["; Literal "src/*"; BlockComment " one "; Plain "] } }"]).
  reflexivity.
Defined.

(** [stripTrailingCommas] leaves out the commas that end an object or an
    array, and nothing else: of a text made of plain text, string literals
    and commas, it keeps the plain text and the literals as they are (a comma
    inside a literal too), and leaves out a comma exactly when the text after
    it goes on, after white space, with a closing brace or bracket. *)
Theorem trailing_commas_are_stripped (pieces : list Piece) :
  forallb commasMarked pieces = true ->
  stripTrailingCommas (textOf written pieces) = withoutTrailingCommas pieces.
Proof. apply commas_pieces. Qed.

(** In [["a,b", 1, ]] the comma of the literal and the separator stay, the
    last comma goes. *)
Lemma trailing_commas_are_stripped_example :
  stripTrailingCommas
    (textOf written [Plain "["; Literal "a,b"; Comma; Plain " 1"; Comma; Plain " ]"])
  = textOf written [Plain "["; Literal "a,b"; Comma; Plain " 1"; Plain " ]"].
Proof.
  apply (trailing_commas_are_stripped
           [Plain "["; Literal "a,b"; Comma; Plain " 1"; Comma; Plain " ]"]).
  reflexivity.
Defined.

(** The text [parseJsonObject] parses is the configuration without its
    comments and without its trailing commas, trimmed; a comma is trailing
    when, the comments taken out, a closing brace or bracket comes next, so
    a comma followed by a comment and then the bracket goes as well. *)
Theorem json_text_is_cleaned (pieces : list Piece) :
  forallb marked pieces = true ->
  cleanJsonText (textOf written pieces)
  = trim (withoutTrailingCommas (map withoutComment pieces)).
Proof.
  intros H. rewrite forallb_forall in H.
  assert (Hmarked : forall piece, In piece pieces ->
            commentsMarked piece = true /\ commasMarked (withoutComment piece) = true).
  { intros piece Hin. apply andb_true_iff. exact (H piece Hin). }
  unfold cleanJsonText. f_equal. rewrite strip_pieces.
  - apply commas_pieces. apply forallb_forall. intros piece Hin.
    apply in_map_iff in Hin. destruct Hin as [original [<- Hin]]. now apply Hmarked.
  - apply forallb_forall. intros piece Hin. now apply Hmarked.
Qed.

(** [[1, /* last */ ]] is parsed as [[1 ]]. *)
Lemma json_text_is_cleaned_example :
  cleanJsonText (textOf written [Plain " [1"; Comma; Plain " "; BlockComment " last "; Plain " ]"])
  = "[1  ]".
Proof.
  apply (json_text_is_cleaned [Plain " [1"; Comma; Plain " "; BlockComment " last "; Plain " ]"]).
  reflexivity.
Defined.

End ConfigTextProperties.

(** ** The resolver, one symbol after the other *)

Module ResolverChains.
Import Js JsFacts Ast Resolver ResolverSpec ResolverShape ResolverFacts IdFacts StringFacts.

Lemma localValueKey_inj (file a b : string) : localValueKey file a = localValueKey file b -> a = b.
Proof.
  unfold localValueKey. intros H.
  apply append_cancel_l in H. apply append_cancel_l in H. now apply append_cancel_l in H.
Qed.

Lemma setAdd_new (key : string) (seen : JsSet) :
  ~ In key seen -> setHas key seen = false /\ setAdd key seen = (seen ++ [key])%list.
Proof.
  intros H. apply setHas_false in H. unfold setAdd. now rewrite H.
Qed.

Lemma last_nonempty {A : Type} (y d d' : A) (l : list A) : last (y :: l) d = last (y :: l) d'.
Proof.
  revert y. induction l as [| z l IH]; intros y; [reflexivity |].
  change (last (y :: z :: l) d) with (last (z :: l) d).
  change (last (y :: z :: l) d') with (last (z :: l) d'). apply IH.
Qed.

Lemma last_cons {A : Type} (x y d : A) (l : list A) : last (x :: y :: l) d = last (y :: l) x.
Proof. change (last (x :: y :: l) d) with (last (y :: l) d). apply last_nonempty. Qed.

Section WithIndex.
Context {host : ResolverHost}.
Variable index : SymbolIndex.
Variable root : string.
Variable file : string.
Variable symbols : FileSymbols.
Hypothesis Hfile : mapGet file (files index) = Some symbols.

Lemma callsWithin_S (nesting : nat) :
  callsWithin index root (S nesting) = makeCalls index root (callsWithin index root nesting).
Proof. reflexivity. Qed.

(** One name of a chain: the value is an alias, and the name after it is resolved. *)
Lemma alias_step (calls : Calls) (name next : string) (depth : nat) (seen : JsSet) :
  depth <= MAX_DEPTH -> ~ In (localValueKey file name) seen ->
  mapGet name (values symbols) = Some (Identifier next) -> next <> name ->
  resolveLocalValue index root calls file name depth seen
  = match call_resolveLocalValue calls file next (depth + 1)
            (seen ++ [localValueKey file name])%list with
    | Returned resolvedAlias seen' =>
        Returned (Some (orDefault resolvedAlias (Identifier next))) seen'
    | OutOfCalls => OutOfCalls
    end.
Proof.
  intros Hdepth Hseen Hvalue Hne. unfold resolveLocalValue.
  replace (MAX_DEPTH <? depth)%nat with false by (symmetry; apply Nat.ltb_ge; lia).
  unfold guarded. fold (localValueKey file name).
  destruct (setAdd_new _ _ Hseen) as [-> ->].
  rewrite Hfile, Hvalue. apply String.eqb_neq in Hne. rewrite Hne. cbn [negb].
  unfold bind, ret. now destruct (call_resolveLocalValue _ _ _ _ _).
Qed.

Lemma value_step (calls : Calls) (name : string) (value : Node) (depth : nat) (seen : JsSet) :
  depth <= MAX_DEPTH -> ~ In (localValueKey file name) seen ->
  mapGet name (values symbols) = Some value -> isIdentifier value = false ->
  resolveLocalValue index root calls file name depth seen
  = Returned (Some value) (seen ++ [localValueKey file name])%list.
Proof.
  intros Hdepth Hseen Hvalue Hid. unfold resolveLocalValue.
  replace (MAX_DEPTH <? depth)%nat with false by (symmetry; apply Nat.ltb_ge; lia).
  unfold guarded. fold (localValueKey file name).
  destruct (setAdd_new _ _ Hseen) as [-> ->].
  rewrite Hfile, Hvalue. destruct value; try reflexivity. discriminate Hid.
Qed.

Lemma chain_unseen (first next : string) (rest : list string) (seen : JsSet) :
  NoDup (first :: next :: rest) ->
  (forall x, In x (first :: next :: rest) -> ~ In (localValueKey file x) seen) ->
  next <> first
  /\ NoDup (next :: rest)
  /\ (forall x, In x (next :: rest) ->
        ~ In (localValueKey file x) (seen ++ [localValueKey file first])%list).
Proof.
  intros Hnodup Hseen. inversion Hnodup as [| ? ? Hfirst Hrest]; subst.
  split; [| split].
  - intros ->. apply Hfirst. now left.
  - assumption.
  - intros x Hx Hin. apply in_app_iff in Hin. destruct Hin as [Hin | [Hin | []]].
    + apply (Hseen x); [now right | assumption].
    + apply localValueKey_inj in Hin. subst x. contradiction.
Qed.

(** A chain that ends in a value, within the cap. *)
Lemma chain_resolves (value : Node) (names : list string) :
  forall (first : string) (depth nesting : nat) (seen : JsSet),
    aliases symbols (first :: names) -> NoDup (first :: names) ->
    (forall x, In x (first :: names) -> ~ In (localValueKey file x) seen) ->
    mapGet (last names first) (values symbols) = Some value -> isIdentifier value = false ->
    depth + List.length names <= MAX_DEPTH -> List.length names < nesting ->
    call_resolveLocalValue (callsWithin index root nesting) file first depth seen
    = Returned (Some value) (seen ++ map (localValueKey file) (first :: names))%list.
Proof.
  induction names as [| next rest IH];
    intros first depth nesting seen Haliases Hnodup Hseen Hvalue Hid Hdepth Hnesting;
    (destruct nesting as [| nesting]; [lia |]);
    rewrite callsWithin_S; cbn [makeCalls call_resolveLocalValue].
  - apply value_step; try assumption; [simpl in Hdepth; lia | apply Hseen; now left].
  - destruct Haliases as [Hbound Haliases].
    destruct (chain_unseen _ _ _ _ Hnodup Hseen) as [Hne [Hnodup' Hseen']].
    cbn [List.length] in Hdepth, Hnesting.
    rewrite (alias_step _ first next depth seen ltac:(lia) (Hseen first (or_introl eq_refl))
               Hbound Hne).
    rewrite (IH next (depth + 1) nesting); try assumption; try lia.
    + cbn [orDefault map]. now rewrite <- app_assoc.
    + destruct rest; [exact Hvalue | now rewrite <- last_cons with (d := first)].
Qed.

(** A chain that is longer than the cap: the resolution stops at the name
    met at depth [MAX_DEPTH + 1], and returns the alias for it. *)
Lemma chain_capped (names : list string) :
  forall (first : string) (depth nesting : nat) (seen : JsSet),
    aliases symbols (first :: names) -> NoDup (first :: names) ->
    (forall x, In x (first :: names) -> ~ In (localValueKey file x) seen) ->
    names <> [] ->
    depth + List.length names = MAX_DEPTH + 1 -> List.length names < nesting ->
    call_resolveLocalValue (callsWithin index root nesting) file first depth seen
    = Returned (Some (Identifier (last names first)))
               (seen ++ map (localValueKey file) (removelast (first :: names)))%list.
Proof.
  induction names as [| next rest IH];
    intros first depth nesting seen Haliases Hnodup Hseen Hsome Hdepth Hnesting;
    [contradiction |].
  destruct nesting as [| nesting]; [lia |].
  rewrite callsWithin_S. cbn [makeCalls call_resolveLocalValue].
  destruct Haliases as [Hbound Haliases].
  destruct (chain_unseen _ _ _ _ Hnodup Hseen) as [Hne [Hnodup' Hseen']].
  cbn [List.length] in Hdepth, Hnesting.
  rewrite (alias_step _ first next depth seen ltac:(lia) (Hseen first (or_introl eq_refl))
             Hbound Hne).
  destruct rest as [| next' rest].
  - destruct nesting as [| nesting]; [lia |].
    rewrite callsWithin_S. cbn [makeCalls call_resolveLocalValue].
    rewrite capped_resolveLocalValue
      by (cbn [List.length] in Hdepth; unfold MAX_DEPTH in *; lia).
    reflexivity.
  - rewrite (IH next (depth + 1) nesting); try assumption; try lia; [| discriminate].
    cbn [orDefault]. rewrite <- app_assoc, (last_cons next next' first rest). reflexivity.
Qed.

End WithIndex.

Section Imports.
Context {host : ResolverHost}.
Variable index : SymbolIndex.
Variable root : string.

(** A name a file imports: the export of the module is resolved. *)
Lemma import_step (calls : Calls) (file name : string) (symbols : FileSymbols)
    (binding : ImportBinding) (target : string) (depth : nat) (seen : JsSet) :
  mapGet file (files index) = Some symbols ->
  depth <= MAX_DEPTH -> ~ In (localValueKey file name) seen ->
  mapGet name (values symbols) = None -> mapGet name (functions symbols) = None ->
  mapGet name (imports symbols) = Some binding -> isNamespace binding = false ->
  moduleFile index root file (import_source binding) = Some target ->
  resolveLocalValue index root calls file name depth seen
  = call_resolveExportValue calls target (exportNameOf binding) (depth + 1 + 1)
      (seen ++ [localValueKey file name])%list.
Proof.
  intros Hfile Hdepth Hseen Hvalue Hfunction Himport Hnamespace Hmodule.
  unfold resolveLocalValue.
  replace (MAX_DEPTH <? depth)%nat with false by (symmetry; apply Nat.ltb_ge; lia).
  unfold guarded. fold (localValueKey file name).
  destruct (setAdd_new _ _ Hseen) as [-> ->].
  rewrite Hfile, Hvalue, Hfunction, Himport. unfold resolveImportedValue.
  now rewrite Hnamespace, Hmodule.
Qed.

(** A name a file exports under the name of a local symbol. *)
Lemma export_step (calls : Calls) (target exportName localName : string)
    (symbols : FileSymbols) (depth : nat) (seen : JsSet) :
  mapGet target (files index) = Some symbols ->
  depth <= MAX_DEPTH -> ~ In (exportValueKey target exportName) seen ->
  mapGet exportName (exports symbols) = Some localName -> localName <> "" ->
  resolveExportValue index root calls target exportName depth seen
  = call_resolveLocalValue calls target localName (depth + 1)
      (seen ++ [exportValueKey target exportName])%list.
Proof.
  intros Hfile Hdepth Hseen Hexport Hname. unfold resolveExportValue.
  replace (MAX_DEPTH <? depth)%nat with false by (symmetry; apply Nat.ltb_ge; lia).
  unfold guarded. fold (exportValueKey target exportName).
  destruct (setAdd_new _ _ Hseen) as [-> ->].
  rewrite Hfile, Hexport. unfold nonEmpty. apply String.eqb_neq in Hname. now rewrite Hname.
Qed.

End Imports.
End ResolverChains.


(** ** The resolver: what it finds *)

Module ResolverProperties.
Import Js JsFacts Ast Resolver ResolverSpec ResolverShape ResolverFacts ResolverChains.

(** A chain of aliases [const a = b; const b = c; ...] of one file is
    followed to its end: when the chain has at most [MAX_DEPTH = 24] names
    and the last is bound to an expression that is no identifier, a
    reference to the first name resolves to that expression, every name of
    the chain visited once.  A chain of [MAX_DEPTH + 1] names or more is not
    followed to its end: the reference resolves to the identifier of the
    name the cap stops at. *)
Theorem alias_chain_is_followed {host : ResolverHost} (filePath : string) (index : SymbolIndex)
    (workspaceRoot : string) (origins : Origins) (symbols : FileSymbols)
    (first : string) (names : list string) :
  let file := originForNode origins (Identifier first) (normalizeAnalyzerPath filePath) in
  mapGet file (files index) = Some symbols ->
  NoDup (first :: names) -> aliases symbols (first :: names) ->
  (forall value,
     List.length (first :: names) <= MAX_DEPTH ->
     mapGet (last names first) (values symbols) = Some value -> isIdentifier value = false ->
     resolveReference filePath index workspaceRoot origins (Identifier first)
     = Returned (Some value) (map (localValueKey file) (first :: names)))
  /\ (List.length (first :: names) = MAX_DEPTH + 1 ->
      resolveReference filePath index workspaceRoot origins (Identifier first)
      = Returned (Some (Identifier (last names first)))
                 (map (localValueKey file) (removelast (first :: names)))).
Proof.
  intros file Hfile Hnodup Haliases. unfold resolveReference. fold file.
  change enoughCalls with (S 25). rewrite callsWithin_S.
  cbn [makeCalls call_resolveReferenceInternal].
  unfold resolveReferenceInternal. cbn [Nat.ltb Nat.leb MAX_DEPTH unwrapExpression].
  split.
  - intros value Hlength Hvalue Hid. cbn [List.length] in Hlength. unfold MAX_DEPTH in Hlength.
    apply (chain_resolves index _ file symbols Hfile value names first (0 + 1) 25 []);
      try assumption; [intros x _ [] | lia].
  - intros Hlength. cbn [List.length] in Hlength. unfold MAX_DEPTH in Hlength.
    apply (chain_capped index _ file symbols Hfile names first (0 + 1) 25 []);
      try assumption; [intros x _ [] | intros ->; discriminate Hlength | lia].
Qed.

(** [a] is an alias of [b], [b] of [c], and [c] is the key [['todos']]. *)
Lemma alias_chain_is_followed_example :
  @resolveReference exampleHost "/src/keys.ts" aliasedKey "/" noOrigins (Identifier "a")
  = Returned (Some keyOfTodos)
      ["local-value:/src/keys.ts:a"; "local-value:/src/keys.ts:b"; "local-value:/src/keys.ts:c"].
Proof.
  apply (proj1 (@alias_chain_is_followed exampleHost "/src/keys.ts" aliasedKey "/" noOrigins
                  (snd (fileOf "/src/keys.ts"
                          [("a", Identifier "b"); ("b", Identifier "c"); ("c", keyOfTodos)] [] []))
                  "a" ["b"; "c"] eq_refl
                  ltac:(repeat constructor; simpl; intuition discriminate)
                  ltac:(simpl; auto))).
  - unfold MAX_DEPTH. simpl. lia.
  - reflexivity.
  - reflexivity.
Defined.

(** A name imported from another file resolves to the value the file
    exports under that name: the import is followed to the module, the
    export to the local symbol, and the symbol to its initializer. *)
Theorem imported_value_is_resolved {host : ResolverHost} (filePath : string) (index : SymbolIndex)
    (workspaceRoot : string) (origins : Origins) (importing exporting : FileSymbols)
    (name : string) (binding : ImportBinding) (target localName : string) (value : Node) :
  let file := originForNode origins (Identifier name) (normalizeAnalyzerPath filePath) in
  mapGet file (files index) = Some importing ->
  mapGet name (values importing) = None -> mapGet name (functions importing) = None ->
  mapGet name (imports importing) = Some binding -> isNamespace binding = false ->
  moduleFile index (normalizeAnalyzerPath workspaceRoot) file (import_source binding)
  = Some target ->
  mapGet target (files index) = Some exporting ->
  mapGet (exportNameOf binding) (exports exporting) = Some localName -> localName <> "" ->
  mapGet localName (values exporting) = Some value -> isIdentifier value = false ->
  localValueKey target localName <> localValueKey file name ->
  resolveReference filePath index workspaceRoot origins (Identifier name)
  = Returned (Some value)
      [localValueKey file name; exportValueKey target (exportNameOf binding);
       localValueKey target localName].
Proof.
  intros file Hfile Hvalue Hfunction Himport Hnamespace Hmodule Htarget Hexport Hname
         Hlocal Hid Hkeys.
  unfold resolveReference. fold file.
  change enoughCalls with (S (S (S (S 22)))). rewrite callsWithin_S.
  cbn [makeCalls call_resolveReferenceInternal].
  unfold resolveReferenceInternal. cbn [Nat.ltb Nat.leb MAX_DEPTH unwrapExpression].
  rewrite callsWithin_S. cbn [makeCalls call_resolveLocalValue].
  rewrite (import_step index _ _ file name importing binding target (0 + 1) []);
    try assumption; [| unfold MAX_DEPTH; lia | intros []].
  rewrite callsWithin_S. cbn [makeCalls call_resolveExportValue].
  rewrite (export_step index _ _ target (exportNameOf binding) localName exporting);
    try assumption; [| unfold MAX_DEPTH; lia | intros [H | []]; discriminate H].
  rewrite callsWithin_S. cbn [makeCalls call_resolveLocalValue].
  rewrite (value_step index _ target exporting Htarget _ localName value);
    try assumption; [reflexivity | unfold MAX_DEPTH; lia |].
  intros [H | [H | []]]; [now symmetry in H | discriminate H].
Qed.

(** [k], imported as [key] from [/src/keys.ts], is the key [['todos']]. *)
Lemma imported_value_is_resolved_example :
  @resolveReference exampleHost "/src/use.ts" importedKey "/" noOrigins (Identifier "k")
  = Returned (Some keyOfTodos)
      ["local-value:/src/use.ts:k"; "exp-value:/src/keys.ts:key";
       "local-value:/src/keys.ts:todosKey"].
Proof.
  apply (@imported_value_is_resolved exampleHost "/src/use.ts" importedKey "/" noOrigins
           (snd (nth 1 (files importedKey) (fileOf "" [] [] [])))
           (snd (nth 0 (files importedKey) (fileOf "" [] [] [])))
           "k"
           {| import_kind := ImportNamed; import_source := "/src/keys.ts";
              import_imported := Some "key" |}
           "/src/keys.ts" "todosKey" keyOfTodos);
    try reflexivity; discriminate.
Defined.

End ResolverProperties.

(** ** Ranking the candidates of a name *)

Module RankFacts.
Import Js JsFacts SortFacts.

Section Ranked.
Variable A : Type.
Variable cmp : A -> A -> Z.
(** [above a b]: [a] ranks at least as high as [b]. *)
Variable above : A -> A -> Prop.
Hypothesis above_first : forall x y, (0 < cmp y x)%Z -> above x y.
Hypothesis above_kept : forall x y, (cmp y x <= 0)%Z -> above y x.
Hypothesis above_trans : forall a b c, above a b -> above b c -> above a c.

Lemma insertSorted_ranked (x : A) (l : list A) :
  StronglySorted above l -> StronglySorted above (insertSorted cmp x l).
Proof.
  intros Hsorted. induction Hsorted as [| y rest Hrest IH Hy]; cbn [insertSorted].
  - constructor; constructor.
  - destruct (0 <? cmp y x)%Z eqn:Hcmp.
    + apply Z.ltb_lt in Hcmp. constructor; [constructor; assumption |].
      constructor; [now apply above_first |].
      rewrite Forall_forall in Hy |- *. intros z Hz.
      apply (above_trans x y z); [now apply above_first | now apply Hy].
    + apply Z.ltb_ge in Hcmp. constructor; [exact IH |].
      rewrite Forall_forall in Hy |- *. intros z Hz.
      apply (Permutation_in _ (insertSorted_perm A cmp x rest)) in Hz.
      destruct Hz as [<- | Hz]; [now apply above_kept | now apply Hy].
Qed.

Lemma sortBy_ranked (l : list A) : StronglySorted above (sortBy cmp l).
Proof.
  unfold sortBy.
  apply (fold_left_invariant (StronglySorted above)); [constructor |].
  intros acc x _. apply insertSorted_ranked.
Qed.

End Ranked.
End RankFacts.

Module ResolverOfferFacts.
Import Js JsFacts Ast Resolver ResolverSpec ResolverShape ResolverOffers ResolverFacts SortFacts
  RankFacts.

Section WithIndex.
Context {host : ResolverHost}.
Variable index : SymbolIndex.
Variable root : string.

Lemma byName_offers (fromFile functionName : string) :
  resolveWorkspaceFunctionReturnByName index fromFile functionName
  = if negb (isLikelyQueryKeyFactoryIdentifier functionName) then None
    else
      match sortBy compareCandidates (flat_map (offer fromFile functionName) (files index)) with
      | [] => None
      | [best] => Some (candidate_expression best)
      | best :: second :: _ =>
          if (candidate_score second =? candidate_score best)%nat
             && negb (candidate_filePath second =? candidate_filePath best)
          then None
          else Some (candidate_expression best)
      end.
Proof.
  unfold resolveWorkspaceFunctionReturnByName.
  destruct (negb (isLikelyQueryKeyFactoryIdentifier functionName)); [reflexivity |].
  cbv zeta.
  replace (flat_map (offer fromFile functionName) (files index))
    with (flat_map
            (fun entry : string * FileSymbols =>
               let (candidateFile, symbols) := entry in
               let scored := fun expression =>
                 [{| candidate_filePath := candidateFile;
                     candidate_expression := expression;
                     candidate_score := commonPathPrefixLength fromFile candidateFile |}] in
               match mapGet functionName (functions symbols) with
               | Some fromFunctions => scored fromFunctions
               | None =>
                   match mapGet functionName (values symbols) with
                   | Some fromValues =>
                       if isFunction fromValues then
                         match extractFunctionReturnExpression fromValues with
                         | Some returned => scored returned
                         | None => []
                         end
                       else []
                   | None => []
                   end
               end)
            (files index)); [reflexivity |].
  apply flat_map_ext. intros [file symbols]. unfold offer, candidateOf. cbn [fst snd].
  destruct (mapGet functionName (functions symbols)); [reflexivity |].
  destruct (mapGet functionName (values symbols)) as [fromValues |]; [| reflexivity].
  destruct (isFunction fromValues); [| reflexivity].
  now destruct (extractFunctionReturnExpression fromValues).
Qed.

Lemma In_offers (fromFile functionName : string) (entries : list (string * FileSymbols))
    (candidate : Candidate) :
  In candidate (flat_map (offer fromFile functionName) entries)
  <-> exists file symbols,
        In (file, symbols) entries
        /\ candidateOf functionName symbols = Some (candidate_expression candidate)
        /\ candidate_filePath candidate = file
        /\ candidate_score candidate = commonPathPrefixLength fromFile file.
Proof.
  rewrite in_flat_map. split.
  - intros [[file symbols] [Hin Hoffer]]. unfold offer in Hoffer. cbn [fst snd] in Hoffer.
    destruct (candidateOf functionName symbols) as [expression |] eqn:E; [| destruct Hoffer].
    destruct Hoffer as [<- | []]. exists file, symbols. cbn. auto.
  - intros [file [symbols [Hin [Hc [Hf Hs]]]]]. exists (file, symbols). split; [assumption |].
    unfold offer. cbn [fst snd]. rewrite Hc. left. destruct candidate. cbn in *. now subst.
Qed.

Lemma offers_paths (fromFile functionName : string) (entries : list (string * FileSymbols)) :
  NoDup (map fst entries) ->
  NoDup (map candidate_filePath (flat_map (offer fromFile functionName) entries)).
Proof.
  induction entries as [| [file symbols] entries IH]; [constructor |].
  cbn [map flat_map fst]. intros H. inversion H as [| ? ? Hfile Hrest]; subst.
  unfold offer at 1. cbn [fst snd].
  destruct (candidateOf functionName symbols); [| now apply IH].
  cbn [app map candidate_filePath]. constructor; [| now apply IH].
  intros Hin. apply Hfile. apply in_map_iff in Hin. destruct Hin as [c [Hpath Hc]].
  apply In_offers in Hc. destruct Hc as [file' [symbols' [Hin' [_ [Hfile' _]]]]].
  apply in_map_iff. exists (file', symbols'). split; [| assumption].
  cbn [fst]. rewrite <- Hfile'. exact Hpath.
Qed.

Lemma candidates_ranked (candidates : list Candidate) :
  StronglySorted (fun a b => candidate_score b <= candidate_score a)
                 (sortBy compareCandidates candidates).
Proof.
  apply sortBy_ranked.
  - intros x y. unfold compareCandidates.
    destruct (Z.of_nat (candidate_score x) - Z.of_nat (candidate_score y) =? 0)%Z eqn:E.
    + apply Z.eqb_eq in E. lia.
    + lia.
  - intros x y. unfold compareCandidates.
    destruct (Z.of_nat (candidate_score x) - Z.of_nat (candidate_score y) =? 0)%Z eqn:E.
    + apply Z.eqb_eq in E. lia.
    + lia.
  - intros a b c. lia.
Qed.

(** The candidate [resolveWorkspaceFunctionReturnByName] returns outranks
    the candidate of every other file. *)
Lemma byName_best (fromFile functionName : string) (returned : Node) :
  NoDup (map fst (files index)) ->
  resolveWorkspaceFunctionReturnByName index fromFile functionName = Some returned ->
  exists best,
    In best (flat_map (offer fromFile functionName) (files index))
    /\ candidate_expression best = returned
    /\ forall other, In other (flat_map (offer fromFile functionName) (files index)) ->
         candidate_filePath other <> candidate_filePath best ->
         candidate_score other < candidate_score best.
Proof.
  intros Hkeys. rewrite byName_offers.
  destruct (negb (isLikelyQueryKeyFactoryIdentifier functionName)); [discriminate |].
  set (candidates := flat_map (offer fromFile functionName) (files index)).
  pose proof (candidates_ranked candidates) as Hranked.
  pose proof (sortBy_perm _ compareCandidates candidates) as Hperm.
  assert (Hpaths : NoDup (map candidate_filePath (sortBy compareCandidates candidates))).
  { apply (Permutation_NoDup (l := map candidate_filePath candidates)).
    - apply Permutation_map, Permutation_sym, Hperm.
    - now apply offers_paths. }
  destruct (sortBy compareCandidates candidates) as [| best [| second rest]].
  - discriminate.
  - intros [= <-]. exists best. split; [| split; [reflexivity |]].
    + apply (Permutation_in _ Hperm). now left.
    + intros other Hother Hpath.
      apply (Permutation_in _ (Permutation_sym Hperm)) in Hother.
      destruct Hother as [<- | []]. contradiction.
  - assert (Hdistinct : candidate_filePath second <> candidate_filePath best).
    { cbn [map] in Hpaths. inversion Hpaths as [| ? ? Hbest _]; subst.
      intros Heq. apply Hbest. left. exact Heq. }
    apply String.eqb_neq in Hdistinct. rewrite Hdistinct. cbn [negb]. rewrite andb_true_r.
    destruct (candidate_score second =? candidate_score best)%nat eqn:Escore; [discriminate |].
    apply Nat.eqb_neq in Escore. intros [= <-].
    inversion Hranked as [| ? ? Hrest Hbest]; subst.
    inversion Hrest as [| ? ? _ Hsecond]; subst.
    rewrite Forall_forall in Hbest, Hsecond.
    assert (Htop : candidate_score second < candidate_score best).
    { specialize (Hbest second (or_introl eq_refl)). lia. }
    exists best. split; [| split; [reflexivity |]].
    + apply (Permutation_in _ Hperm). now left.
    + intros other Hother Hpath.
      apply (Permutation_in _ (Permutation_sym Hperm)) in Hother.
      destruct Hother as [<- | [<- | Hother]]; [contradiction | assumption |].
      specialize (Hsecond other Hother). lia.
Qed.

(** *** The members of an object literal *)

Lemma firstSomeM_skips {A B : Type} (f : A -> Resolving (option B)) (skipped rest : list A)
    (seen : JsSet) :
  (forall x, In x skipped -> f x seen = Returned None seen) ->
  firstSomeM f (skipped ++ rest) seen = firstSomeM f rest seen.
Proof.
  induction skipped as [| x skipped IH]; intros H; [reflexivity |].
  change ((x :: skipped) ++ rest)%list with (x :: (skipped ++ rest))%list.
  cbn [firstSomeM]. unfold bind. rewrite (H x) by now left.
  apply IH. intros y Hy. apply H. now right.
Qed.

Lemma firstSome_skips {A B : Type} (f : A -> option B) (skipped rest : list A) :
  (forall x, In x skipped -> f x = None) ->
  firstSome f (skipped ++ rest) = firstSome f rest.
Proof.
  induction skipped as [| x skipped IH]; intros H; [reflexivity |].
  change ((x :: skipped) ++ rest)%list with (x :: (skipped ++ rest))%list.
  cbn [firstSome]. rewrite (H x) by now left.
  apply IH. intros y Hy. apply H. now right.
Qed.

End WithIndex.
End ResolverOfferFacts.

(** ** The score of a candidate file *)

Module PathFacts.
Import Js Resolver.

Lemma commonPrefixCount_sym (left right : list string) :
  commonPrefixCount left right = commonPrefixCount right left.
Proof.
  revert right. induction left as [| l ls IH]; intros [| r rs]; cbn [commonPrefixCount];
    try reflexivity.
  rewrite (String.eqb_sym l r). destruct (r =? l); [now rewrite IH | reflexivity].
Qed.

Lemma commonPrefixCount_self (segments : list string) :
  commonPrefixCount segments segments = List.length segments.
Proof.
  induction segments as [| s rest IH]; [reflexivity |].
  cbn [commonPrefixCount List.length]. now rewrite String.eqb_refl, IH.
Qed.

Lemma commonPrefixCount_le (left right : list string) :
  commonPrefixCount left right <= List.length left.
Proof.
  revert right. induction left as [| l ls IH]; intros [| r rs]; cbn [commonPrefixCount List.length];
    try lia.
  destruct (l =? r); [specialize (IH rs) |]; lia.
Qed.

End PathFacts.


(** ** The resolver: what it chooses *)

Module ResolverOfferProperties.
Import Js JsFacts Ast Resolver ResolverSpec ResolverShape ResolverOffers ResolverFacts.
Import ResolverOfferFacts.

(** A factory found by its name alone is never a guess between rivals: when
    [resolveWorkspaceFunctionReturnByName] returns an expression, the name
    reads as a key factory, one file of the index has that return expression
    for the name, and every other file that has a candidate for the name
    shares strictly fewer leading path segments with the calling file. *)
Theorem workspace_function_has_no_rival {host : ResolverHost} (index : SymbolIndex)
    (fromFile functionName : string) (returned : Node) :
  NoDup (map fst (files index)) ->
  resolveWorkspaceFunctionReturnByName index fromFile functionName = Some returned ->
  isLikelyQueryKeyFactoryIdentifier functionName = true
  /\ exists file symbols,
       In (file, symbols) (files index)
       /\ candidateOf functionName symbols = Some returned
       /\ forall file' symbols',
            In (file', symbols') (files index) ->
            candidateOf functionName symbols' <> None -> file' <> file ->
            commonPathPrefixLength fromFile file' < commonPathPrefixLength fromFile file.
Proof.
  intros Hkeys Hreturned. split.
  - rewrite byName_offers in Hreturned.
    destruct (isLikelyQueryKeyFactoryIdentifier functionName); [reflexivity | discriminate].
  - destruct (byName_best index fromFile functionName returned Hkeys Hreturned)
      as [best [Hbest [Hexpression Hrivals]]].
    apply In_offers in Hbest. destruct Hbest as [file [symbols [Hin [Hc [Hfile Hscore]]]]].
    exists file, symbols. split; [assumption |]. split; [congruence |].
    intros file' symbols' Hin' Hcandidate Hne.
    destruct (candidateOf functionName symbols') as [expression |] eqn:E; [| contradiction].
    specialize (Hrivals {| candidate_filePath := file'; candidate_expression := expression;
                           candidate_score := commonPathPrefixLength fromFile file' |}).
    cbn [candidate_filePath candidate_score] in Hrivals. rewrite <- Hscore. apply Hrivals.
    + apply In_offers. exists file', symbols'. cbn. auto.
    + congruence.
Qed.

(** Called from [/src/todos/list.ts], [todosQueryKey] is the factory of
    [/src/todos/keys.ts], not the one of [/lib/keys.ts]. *)
Lemma workspace_function_has_no_rival_example :
  exists file symbols,
    In (file, symbols) (files twoFactories)
    /\ candidateOf "todosQueryKey" symbols = Some (ArrayExpression [Some (StringLiteral "todos")])
    /\ forall file' symbols',
         In (file', symbols') (files twoFactories) ->
         candidateOf "todosQueryKey" symbols' <> None -> file' <> file ->
         @commonPathPrefixLength exampleHost "/src/todos/list.ts" file'
         < @commonPathPrefixLength exampleHost "/src/todos/list.ts" file.
Proof.
  apply (@workspace_function_has_no_rival exampleHost twoFactories "/src/todos/list.ts"
           "todosQueryKey" (ArrayExpression [Some (StringLiteral "todos")])).
  - repeat constructor; simpl; intuition discriminate.
  - reflexivity.
Defined.

(** An object literal with a repeated key.  [resolveObjectPropertyValue]
    reads it as JavaScript evaluates it, the last property of a name giving
    its value; [objectPropertyValue], which reads the [queryKey] of the
    options of a call, returns the first. *)
Theorem repeated_property_last_and_first (calls : Calls) (file : string)
    (front back : list Node) (name : string) (value : Node) (computed shorthand : bool) :
  isExpression value = true ->
  let properties :=
    (front ++ ObjectProperty (Identifier name) value computed shorthand :: back)%list in
  (forall depth seen,
     depth <= MAX_DEPTH -> forallb (fun member => negb (mayGive name member)) back = true ->
     resolveObjectPropertyValue calls file properties name depth seen
     = Returned (Some (unwrapExpression value)) seen)
  /\ (name <> "" -> forallb (fun member => negb (gives name member)) front = true ->
      objectPropertyValue properties name = Some (unwrapExpression value)).
Proof.
  intros Hvalue properties. split.
  - intros depth seen Hdepth Hback. unfold resolveObjectPropertyValue.
    replace (MAX_DEPTH <? depth)%nat with false by (symmetry; apply Nat.ltb_ge; lia).
    unfold properties. rewrite rev_app_distr. cbn [List.rev]. rewrite <- app_assoc.
    rewrite firstSomeM_skips.
    + cbn [List.app firstSomeM]. unfold bind, ret. now rewrite String.eqb_refl, Hvalue.
    + intros member Hmember. apply in_rev in Hmember.
      rewrite forallb_forall in Hback. specialize (Hback member Hmember).
      apply negb_true_iff in Hback.
      destruct member; try reflexivity; cbn [mayGive] in Hback.
      * match type of Hback with
        | context [match ?key with _ => _ end] => destruct key; try reflexivity
        end; now rewrite Hback.
      * now rewrite Hback.
  - intros Hname Hfront. unfold objectPropertyValue, properties.
    rewrite firstSome_skips.
    + cbn [firstSome nonEmpty]. apply String.eqb_neq in Hname.
      now rewrite Hname, String.eqb_refl, Hvalue.
    + intros member Hmember. rewrite forallb_forall in Hfront.
      specialize (Hfront member Hmember). apply negb_true_iff in Hfront.
      destruct member; try reflexivity; cbn [gives] in Hfront.
      match type of Hfront with
      | context [match ?key with _ => _ end] => destruct key; try reflexivity
      end;
        cbn [nonEmpty];
        match goal with |- context [?n =? ""] => destruct (n =? "") end;
        try reflexivity; cbn [negb andb] in Hfront; now rewrite Hfront.
Qed.

(** For [{ queryKey: ['a'], queryKey: ['b'] }] the one returns [['b']], the
    other [['a']]. *)
Lemma repeated_property_last_and_first_example :
  let first := ArrayExpression [Some (StringLiteral "a")] in
  let last := ArrayExpression [Some (StringLiteral "b")] in
  let properties :=
    [ObjectProperty (Identifier "queryKey") first false false;
     ObjectProperty (Identifier "queryKey") last false false] in
  resolveObjectPropertyValue noCalls "/src/use.ts" properties "queryKey" 0 []
  = Returned (Some last) []
  /\ objectPropertyValue properties "queryKey" = Some first.
Proof.
  cbv zeta. split.
  - apply (proj1 (repeated_property_last_and_first noCalls "/src/use.ts"
                    [ObjectProperty (Identifier "queryKey")
                       (ArrayExpression [Some (StringLiteral "a")]) false false]
                    [] "queryKey" (ArrayExpression [Some (StringLiteral "b")]) false false
                    eq_refl)); [unfold MAX_DEPTH; lia | reflexivity].
  - apply (proj2 (repeated_property_last_and_first noCalls "/src/use.ts" []
                    [ObjectProperty (Identifier "queryKey")
                       (ArrayExpression [Some (StringLiteral "b")]) false false]
                    "queryKey" (ArrayExpression [Some (StringLiteral "a")]) false false
                    eq_refl)); [discriminate | reflexivity].
Defined.

End ResolverOfferProperties.

Module PathProperties.
Import Js Resolver PathFacts.

(** The score of a candidate file, the number of leading path segments it
    shares with the calling file, does not depend on which of the two paths
    comes first, and no file scores higher than the calling file itself. *)
Theorem path_score_is_symmetric_and_bounded {host : ResolverHost} (fromFile candidateFile : string) :
  commonPathPrefixLength fromFile candidateFile = commonPathPrefixLength candidateFile fromFile
  /\ commonPathPrefixLength fromFile candidateFile <= commonPathPrefixLength fromFile fromFile.
Proof.
  unfold commonPathPrefixLength. split.
  - apply commonPrefixCount_sym.
  - rewrite commonPrefixCount_self. apply commonPrefixCount_le.
Qed.

End PathProperties.

(** ** The normalizer: literal keys, hooks and actions *)

Module NormalizerKeyFacts.
Import Js Ast Normalizer NormalizerSpec NormalizerFacts HookKeys.

Lemma normalizeSegmentResult_kept (value : string) (static : bool) :
  isKeptText value = true ->
  normalizeSegmentResult {| text := value; isStatic := static |}
  = {| text := value; isStatic := static |}.
Proof.
  unfold isKeptText, isPlaceholderText, normalizeSegmentResult. cbn [text isStatic].
  intros H. apply andb_true_iff in H. destruct H as [Hempty H].
  apply negb_true_iff in Hempty, H. apply orb_false_iff in H. destruct H as [H Hdollar].
  unfold orElse. rewrite Hempty, H, Hdollar. reflexivity.
Qed.

Lemma placeholder_nonempty (value : string) : isPlaceholderText value = true -> value <> "".
Proof. intros H ->. discriminate H. Qed.

Lemma normalizeSegmentResult_placeholder (value : string) (static : bool) :
  isPlaceholderText value = true ->
  normalizeSegmentResult {| text := value; isStatic := static |} = unresolvedSegment.
Proof.
  intros H. pose proof (placeholder_nonempty value H) as Hne.
  unfold isPlaceholderText in H. unfold normalizeSegmentResult. cbn [text isStatic].
  rewrite (orElse_id value UNRESOLVED_SEGMENT Hne).
  destruct ((value =? "...spread") || (value =? "expr") || (value =? "call(expr)"));
    [reflexivity|].
  cbn [orb] in H. now rewrite H.
Qed.

Lemma normalized_text_kept (segment : SegmentResult) :
  isKeptText (text (normalizeSegmentResult segment)) = true.
Proof.
  unfold normalizeSegmentResult.
  set (normalized := orElse (text segment) UNRESOLVED_SEGMENT).
  assert (Hne : normalized <> "") by (apply orElse_nonempty; discriminate).
  destruct ((normalized =? "...spread") || (normalized =? "expr")
            || (normalized =? "call(expr)")) eqn:Hplaceholder; [reflexivity |].
  destruct (isDollarQueryKey normalized) eqn:Hdollar; [reflexivity |].
  cbn [text]. unfold isKeptText, isPlaceholderText.
  apply String.eqb_neq in Hne. rewrite Hne, Hplaceholder, Hdollar. reflexivity.
Qed.

Lemma unresolved_kept : normalizeSegmentResult unresolvedSegment = unresolvedSegment.
Proof. reflexivity. Qed.

Section WithResolver.
Context {locale : Locale}.
Variable resolver : option QueryKeyResolver.

Lemma resolveWithResolver_literal (value : string) :
  resolveWithResolver (StringLiteral value) resolver = None.
Proof. unfold resolveWithResolver. now destruct resolver. Qed.

(** A string literal among the elements of the key, at the top level. *)
Lemma element_literal (value : string) :
  call_segmentsFromArrayElement (topLevel resolver) (Some (StringLiteral value))
  = [normalizeSegmentResult {| text := value; isStatic := true |}].
Proof.
  rewrite levelAt_zero. cbn [call_segmentsFromArrayElement makeLevel].
  unfold segmentsFromArrayElement. rewrite deeperAt_zero_next.
  cbn [call_segmentFromExpression makeLevel].
  unfold segmentFromExpression. cbn [unwrapExpression].
  rewrite resolveWithResolver_literal. reflexivity.
Qed.

Lemma elements_literal (values : list string) :
  Forall (fun value => isKeptText value = true) values ->
  flat_map (call_segmentsFromArrayElement (topLevel resolver))
    (map (fun value => Some (StringLiteral value)) values)
  = map (fun value => {| text := value; isStatic := true |}) values.
Proof.
  induction 1 as [| value values Hvalue _ IH]; [reflexivity|].
  cbn [map flat_map]. rewrite element_literal, IH.
  now rewrite normalizeSegmentResult_kept.
Qed.

(** An array literal is the key it stands for. *)
Lemma resolve_array (elements : list (option Node)) :
  call_resolveQueryKeyExpression (topLevel resolver) (ArrayExpression elements)
  = Some (ArrayExpression elements).
Proof. rewrite levelAt_zero. reflexivity. Qed.

Lemma normalize_array (elements : list (option Node)) (options : KeyOptions) :
  normalizeQueryKey resolver (Some (ArrayExpression elements)) options
  = keyOfSegments (flat_map (call_segmentsFromArrayElement (topLevel resolver)) elements)
      (orDefault (defaultMode options) MPrefix).
Proof. unfold normalizeQueryKey. rewrite resolve_array. reflexivity. Qed.

(** An object literal with no [queryKey] property stands for itself, at the
    top level and one level down. *)
Lemma resolve_object_top (properties : list Node) :
  findObjectPropertyValue properties "queryKey" = None ->
  call_resolveQueryKeyExpression (topLevel resolver) (ObjectExpression properties)
  = Some (ObjectExpression properties).
Proof.
  intros Hnone. rewrite levelAt_zero. cbn [call_resolveQueryKeyExpression makeLevel].
  unfold resolveQueryKeyExpression. cbn [unwrapExpression]. now rewrite Hnone.
Qed.

(** An object literal with a [queryKey] property stands for what the value of
    the property stands for one level down, or for the value. *)
Lemma resolve_options_top (properties : list Node) (queryKey : Node) :
  findObjectPropertyValue properties "queryKey" = Some queryKey ->
  call_resolveQueryKeyExpression (topLevel resolver) (ObjectExpression properties)
  = Some (orDefault (resolveQueryKeyExpression resolver (deeperAt resolver 1) queryKey) queryKey).
Proof.
  intros Hkey. rewrite levelAt_zero. cbn [call_resolveQueryKeyExpression makeLevel].
  unfold resolveQueryKeyExpression at 1. cbn [unwrapExpression]. rewrite Hkey.
  now rewrite deeperAt_zero_next.
Qed.

Lemma raw_literals (values : list string) :
  Forall (fun value => isKeptText value = true) values ->
  map (fun seg => orElse (text seg) UNRESOLVED_SEGMENT)
      (map (fun value => {| text := value; isStatic := true |}) values) = values.
Proof.
  induction 1 as [| value values Hvalue _ IH]; [reflexivity|].
  cbn [map text]. rewrite IH. f_equal.
  unfold isKeptText in Hvalue. unfold orElse.
  destruct (value =? ""); [discriminate Hvalue | reflexivity].
Qed.

Lemma static_literals (values : list string) :
  forallb isStatic (map (fun value => {| text := value; isStatic := true |}) values) = true.
Proof. induction values as [| value values IH]; [reflexivity | exact IH]. Qed.

(** *** The key of an action *)

Lemma passThrough_usable (mode : MatchMode) :
  shouldTreatAsWildcardActionKey (buildPassThroughActionKey mode) = false.
Proof. reflexivity. Qed.

Lemma allCache_usable (resolution : Resolution) (display : string) :
  shouldTreatAsWildcardActionKey (buildAllQueryCacheKey resolution display) = false.
Proof. reflexivity. Qed.

Lemma normalizeActionKeyOrWildcard_usable (node : option Node) (options : KeyOptions) :
  shouldTreatAsWildcardActionKey (normalizeActionKeyOrWildcard resolver node options) = false.
Proof.
  unfold normalizeActionKeyOrWildcard.
  destruct (isUnresolvedPassThrough node _); [apply passThrough_usable|].
  destruct (shouldTreatAsWildcardActionKey (normalizeQueryKey resolver node options)) eqn:Hwild;
    [|exact Hwild].
  destruct (isPassThroughQueryKeyReference node);
    [apply passThrough_usable | apply allCache_usable].
Qed.

Lemma keyFromActionOptions_usable (properties : list Node) :
  shouldTreatAsWildcardActionKey (keyFromActionOptions resolver properties) = false
  \/ exists predicate inferred mode,
       findObjectPropertyValue properties "predicate" = Some predicate
       /\ inferActionQueryKeyFromPredicate resolver predicate = Some inferred
       /\ keyFromActionOptions resolver properties = setMatchMode inferred mode.
Proof.
  unfold keyFromActionOptions.
  destruct (findObjectPropertyValue properties "queryKey") as [keyNode|];
    [left; apply normalizeActionKeyOrWildcard_usable|].
  destruct (findObjectPropertyValue properties "predicate") as [predicate|];
    [| left; reflexivity].
  destruct (inferActionQueryKeyFromPredicate resolver predicate) as [inferred|] eqn:Hinferred;
    [| left; reflexivity].
  right. exists predicate, inferred. eexists. repeat split. exact Hinferred.
Qed.

End WithResolver.
End NormalizerKeyFacts.


(** ** The normalizer: what a key becomes *)

Module NormalizerKeyProperties.
Import Js Ast Normalizer NormalizerSpec NormalizerFacts HookKeys NormalizerKeyFacts.

(** A key written as an array of string literals, none of them empty or a
    placeholder of the normalizer, is read as it stands, whatever the
    resolver: its segments are the literals in their order, its id joins
    them with a bar, its display lists them between brackets, and it is a
    static key from a literal.  Its match mode is the default one of the
    options, or [prefix]. *)
Theorem literal_key_is_its_texts {locale : Locale} (resolver : option QueryKeyResolver)
    (options : KeyOptions) (values : list string) :
  Forall (fun value => isKeptText value = true) values ->
  normalizeQueryKey resolver
    (Some (ArrayExpression (map (fun value => Some (StringLiteral value)) values))) options
  = {| key_id := idOfSegments values;
       key_display := "[" ++ join ", " values ++ "]";
       key_segments := values;
       key_matchMode := orDefault (defaultMode options) MPrefix;
       key_resolution := Static;
       key_source := SrcLiteral |}.
Proof.
  intros Hvalues. rewrite normalize_array, (elements_literal resolver values Hvalues).
  unfold keyOfSegments. rewrite static_literals, (raw_literals values Hvalues).
  reflexivity.
Qed.

Lemma literal_key_example :
  key_id (@normalize exampleLocale None
            (ArrayExpression [Some (StringLiteral "todos"); Some (StringLiteral "list")]))
  = "todos|list".
Proof.
  exact (f_equal key_id
           (@literal_key_is_its_texts exampleLocale None noOptions ["todos"; "list"]
              ltac:(repeat constructor))).
Defined.

(** A string literal whose text is a placeholder of the normalizer ([expr],
    [call(expr)], [...spread]) or reads [$queryKey] is not kept as a segment:
    the key [[value]] has the one segment [UNRESOLVED] and is dynamic, as if
    the element could not be read.  The empty string literal gives the
    segment [UNRESOLVED] too, but in a key that stays static. *)
Theorem placeholder_text_is_unresolved {locale : Locale} (resolver : option QueryKeyResolver)
    (options : KeyOptions) (value : string) :
  isPlaceholderText value = true ->
  normalizeQueryKey resolver (Some (ArrayExpression [Some (StringLiteral value)])) options
  = {| key_id := UNRESOLVED_SEGMENT;
       key_display := "[" ++ UNRESOLVED_SEGMENT ++ "]";
       key_segments := [UNRESOLVED_SEGMENT];
       key_matchMode := orDefault (defaultMode options) MPrefix;
       key_resolution := Dynamic;
       key_source := SrcExpression |}
  /\ normalizeQueryKey resolver (Some (ArrayExpression [Some (StringLiteral "")])) options
     = {| key_id := UNRESOLVED_SEGMENT;
          key_display := "[" ++ UNRESOLVED_SEGMENT ++ "]";
          key_segments := [UNRESOLVED_SEGMENT];
          key_matchMode := orDefault (defaultMode options) MPrefix;
          key_resolution := Static;
          key_source := SrcLiteral |}.
Proof.
  intros Hvalue. rewrite !normalize_array. cbn [flat_map].
  rewrite !element_literal, (normalizeSegmentResult_placeholder value true Hvalue).
  split; reflexivity.
Qed.

Lemma placeholder_text_example :
  key_segments (@normalize exampleLocale None (ArrayExpression [Some (StringLiteral "expr")]))
  = ["UNRESOLVED"].
Proof.
  unfold normalize.
  rewrite (proj1 (@placeholder_text_is_unresolved exampleLocale None noOptions "expr" eq_refl)).
  reflexivity.
Defined.

(** A segment that went through [normalizeSegmentResult] has a text that is
    kept: it is not empty and it is no placeholder.  So normalizing it again
    changes nothing. *)
Theorem normalized_segment_is_stable (segment : SegmentResult) :
  isKeptText (text (normalizeSegmentResult segment)) = true
  /\ normalizeSegmentResult (normalizeSegmentResult segment) = normalizeSegmentResult segment.
Proof.
  pose proof (normalized_text_kept segment) as Hkept.
  split; [exact Hkept |].
  destruct (normalizeSegmentResult segment) as [value static].
  apply normalizeSegmentResult_kept. exact Hkept.
Qed.

(** [unwrapExpression] strips every type assertion, type cast and non-null
    assertion around an expression: what it returns is none of them, it is
    the node itself when the node is none of them, and unwrapping twice is
    unwrapping once. *)
Theorem unwrapped_expression_has_no_wrapper (node : Node) :
  isTypeWrapper (unwrapExpression node) = false
  /\ (isTypeWrapper node = false -> unwrapExpression node = node)
  /\ unwrapExpression (unwrapExpression node) = unwrapExpression node.
Proof.
  assert (Hself : forall n, isTypeWrapper n = false -> unwrapExpression n = n)
    by (intros n; destruct n; cbn [isTypeWrapper]; intros H; try discriminate H; reflexivity).
  assert (Hnone : isTypeWrapper (unwrapExpression node) = false)
    by (induction node; cbn [unwrapExpression]; try assumption; reflexivity).
  split; [exact Hnone|]. split; [apply Hself|]. apply Hself. exact Hnone.
Qed.

(** The key of a hook call is that of the [queryKey] property of its options
    object: with an array literal there, the call has the key of the
    positional form, whose first argument is the array, normalized with the
    match mode [exact].  Without the property the key is the unresolved one;
    and so it is when the value of the property is itself an object literal
    that has no [queryKey] property. *)
Theorem hook_key_is_the_queryKey_option {locale : Locale} (resolver : option QueryKeyResolver)
    (properties : list Node) (rest : list Node) :
  (forall elements,
      findObjectPropertyValue properties "queryKey" = Some (ArrayExpression elements) ->
      inferHookQueryKey resolver (ObjectExpression properties :: rest)
      = normalizeQueryKey resolver (Some (ArrayExpression elements)) (withMode MExact)
      /\ inferHookQueryKey resolver (ArrayExpression elements :: rest)
         = inferHookQueryKey resolver (ObjectExpression properties :: rest))
  /\ (findObjectPropertyValue properties "queryKey" = None ->
      inferHookQueryKey resolver (ObjectExpression properties :: rest)
      = normalizedUnknownKey MExact)
  /\ (forall inner,
        findObjectPropertyValue properties "queryKey" = Some (ObjectExpression inner) ->
        findObjectPropertyValue inner "queryKey" = None ->
        inferHookQueryKey resolver (ObjectExpression properties :: rest)
        = normalizedUnknownKey MExact).
Proof.
  split; [|split].
  - intros elements Hkey. unfold inferHookQueryKey. cbn [isExpression negb].
    rewrite (resolve_options_top resolver properties _ Hkey), resolve_array.
    split; reflexivity.
  - intros Hnone. unfold inferHookQueryKey. cbn [isExpression negb].
    rewrite (resolve_object_top resolver properties Hnone). cbn [orDefault].
    now rewrite Hnone.
  - intros inner Hkey Hnone. unfold inferHookQueryKey. cbn [isExpression negb].
    rewrite (resolve_options_top resolver properties _ Hkey).
    unfold resolveQueryKeyExpression. cbn [unwrapExpression]. rewrite Hnone.
    cbn [orDefault]. now rewrite Hnone.
Qed.

Lemma hook_key_example :
  @inferHookQueryKey exampleLocale None [hookOptions todosArray]
  = @inferHookQueryKey exampleLocale None [todosArray].
Proof.
  symmetry.
  apply (proj1 (@hook_key_is_the_queryKey_option exampleLocale None
                  [ObjectProperty (Identifier "queryKey") todosArray false false;
                   ObjectProperty (Identifier "queryFn") (Identifier "fetch") false false] [])
           [Some (StringLiteral "todos")] eq_refl).
Defined.

(** The key of an action is left empty or unresolved in two cases only: the
    first argument of the call is no expression (a spread argument), or the
    key is the one inferred from the [predicate] of the options.  In every
    other case an empty or unresolved key has been replaced by the key of the
    whole cache or by the pass-through key. *)
Theorem action_key_is_rarely_unresolved {locale : Locale} (resolver : option QueryKeyResolver)
    (method : string) (args : list Node) :
  shouldTreatAsWildcardActionKey (inferActionQueryKey resolver method args) = false
  \/ (exists first rest,
        args = first :: rest /\ isExpression first = false
        /\ inferActionQueryKey resolver method args = normalizedUnknownKey MUnknown)
  \/ (exists predicate inferred mode,
        inferActionQueryKeyFromPredicate resolver predicate = Some inferred
        /\ inferActionQueryKey resolver method args = setMatchMode inferred mode).
Proof.
  unfold inferActionQueryKey.
  destruct (method =? "clear"); [left; reflexivity|].
  destruct args as [| first rest]; [left; reflexivity|].
  destruct (isExpression first) eqn:Hexpression; cbn [negb].
  2:{ right. left. exists first, rest. repeat split. exact Hexpression. }
  destruct (method =? "setQueryData").
  { left.
    destruct (shouldTreatAsWildcardActionKey _ || isUnresolvedPassThrough _ _) eqn:Hwild;
      [reflexivity|].
    apply orb_false_iff in Hwild. exact (proj1 Hwild). }
  assert (Hoptions : forall properties,
             shouldTreatAsWildcardActionKey (keyFromActionOptions resolver properties) = false
             \/ (exists first' rest',
                   first :: rest = first' :: rest' /\ isExpression first' = false
                   /\ keyFromActionOptions resolver properties = normalizedUnknownKey MUnknown)
             \/ (exists predicate inferred mode,
                   inferActionQueryKeyFromPredicate resolver predicate = Some inferred
                   /\ keyFromActionOptions resolver properties = setMatchMode inferred mode)).
  { intros properties.
    destruct (keyFromActionOptions_usable resolver properties)
      as [Husable | [predicate [inferred [mode [_ [Hinferred Hkey]]]]]]; [left; exact Husable|].
    right. right. exists predicate, inferred, mode. split; assumption. }
  destruct (call_resolveActionOptionsObject (topLevel resolver) first) as [properties|];
    [apply Hoptions|].
  destruct (orDefault _ _);
    lazymatch goal with
    | |- context [keyFromActionOptions] => apply Hoptions
    | |- _ => left; apply normalizeActionKeyOrWildcard_usable
    end.
Qed.

End NormalizerKeyProperties.

(** ** The resolver on a cycle of aliases *)

Module ResolverCycles.
Import Js JsFacts Ast Resolver ResolverSpec ResolverShape ResolverFacts IdFacts StringFacts.
Import ResolverChains.

Section WithIndex.
Context {host : ResolverHost}.
Variable index : SymbolIndex.
Variable root : string.
Variable file : string.
Variable symbols : FileSymbols.
Hypothesis Hfile : mapGet file (files index) = Some symbols.

(** A name that has been visited is not visited again. *)
Lemma seen_step (calls : Calls) (name : string) (depth : nat) (seen : JsSet) :
  In (localValueKey file name) seen ->
  resolveLocalValue index root calls file name depth seen = Returned None seen.
Proof.
  intros Hseen. unfold resolveLocalValue.
  destruct (MAX_DEPTH <? depth)%nat; [reflexivity |].
  unfold guarded. fold (localValueKey file name).
  apply setHas_In in Hseen. now rewrite Hseen.
Qed.

(** [const a = a;] *)
Lemma self_step (calls : Calls) (name : string) (depth : nat) (seen : JsSet) :
  depth <= MAX_DEPTH -> ~ In (localValueKey file name) seen ->
  mapGet name (values symbols) = Some (Identifier name) ->
  resolveLocalValue index root calls file name depth seen
  = Returned (Some (Identifier name)) (seen ++ [localValueKey file name])%list.
Proof.
  intros Hdepth Hseen Hvalue. unfold resolveLocalValue.
  replace (MAX_DEPTH <? depth)%nat with false by (symmetry; apply Nat.ltb_ge; lia).
  unfold guarded. fold (localValueKey file name).
  destruct (setAdd_new _ _ Hseen) as [-> ->].
  rewrite Hfile, Hvalue, String.eqb_refl. reflexivity.
Qed.

(** A chain whose last name is an alias of a name that has been visited, or
    of a name of the chain. *)
Lemma chain_cut (origin : string) (names : list string) :
  forall (current : string) (depth nesting : nat) (seen : JsSet),
    aliases symbols (current :: names) -> NoDup (current :: names) ->
    (forall x, In x (current :: names) -> ~ In (localValueKey file x) seen) ->
    mapGet (last names current) (values symbols) = Some (Identifier origin) ->
    In origin (current :: names) \/ In (localValueKey file origin) seen ->
    depth + List.length names <= MAX_DEPTH -> List.length names + 1 < nesting ->
    call_resolveLocalValue (callsWithin index root nesting) file current depth seen
    = Returned (Some (Identifier origin))
               (seen ++ map (localValueKey file) (current :: names))%list.
Proof.
  induction names as [| next rest IH];
    intros current depth nesting seen Haliases Hnodup Hseen Hvalue Horigin Hdepth Hnesting;
    (destruct nesting as [| nesting]; [lia |]);
    rewrite callsWithin_S; cbn [makeCalls call_resolveLocalValue].
  - cbn [last] in Hvalue. cbn [List.length] in Hdepth, Hnesting.
    destruct (String.eqb origin current) eqn:Hself.
    + apply String.eqb_eq in Hself. subst origin.
      apply self_step; [lia | apply Hseen; now left | exact Hvalue].
    + apply String.eqb_neq in Hself.
      rewrite (alias_step index root file symbols Hfile _ current origin depth seen
                 ltac:(lia) (Hseen current (or_introl eq_refl)) Hvalue Hself).
      destruct nesting as [| nesting]; [lia |].
      rewrite callsWithin_S. cbn [makeCalls call_resolveLocalValue].
      rewrite seen_step; [reflexivity |].
      apply in_app_iff. left. destruct Horigin as [[Heq | []] | Hin]; [| exact Hin].
      symmetry in Heq. contradiction.
  - destruct Haliases as [Hbound Haliases].
    destruct (chain_unseen file _ _ _ _ Hnodup Hseen) as [Hne [Hnodup' Hseen']].
    cbn [List.length] in Hdepth, Hnesting.
    rewrite (alias_step index root file symbols Hfile _ current next depth seen
               ltac:(lia) (Hseen current (or_introl eq_refl)) Hbound Hne).
    rewrite (IH next (depth + 1) nesting); try assumption; try lia.
    + cbn [orDefault map]. now rewrite <- app_assoc.
    + destruct rest; [exact Hvalue | now rewrite <- last_cons with (d := current)].
    + destruct Horigin as [[Heq | Hin] | Hin].
      * right. apply in_app_iff. right. left. now subst.
      * now left.
      * right. apply in_app_iff. now left.
Qed.

End WithIndex.
End ResolverCycles.


Module ResolverCycleProperties.
Import Js JsFacts Ast Resolver ResolverSpec ResolverShape ResolverFacts ResolverChains.
Import ResolverCycles.

(** A cycle of aliases is cut.  When the last name of a chain of aliases
    [const a = b; const b = c; ...] of at most [MAX_DEPTH] names is an alias
    of a name of the chain, a reference to the first name resolves to the
    identifier of that name, every name of the chain visited once: the
    resolver returns the alias it stopped at. *)
Theorem alias_cycle_is_cut {host : ResolverHost} (filePath : string) (index : SymbolIndex)
    (workspaceRoot : string) (origins : Origins) (symbols : FileSymbols)
    (first origin : string) (names : list string) :
  let file := originForNode origins (Identifier first) (normalizeAnalyzerPath filePath) in
  mapGet file (files index) = Some symbols ->
  NoDup (first :: names) -> aliases symbols (first :: names) ->
  mapGet (last names first) (values symbols) = Some (Identifier origin) ->
  In origin (first :: names) ->
  List.length (first :: names) <= MAX_DEPTH ->
  resolveReference filePath index workspaceRoot origins (Identifier first)
  = Returned (Some (Identifier origin)) (map (localValueKey file) (first :: names)).
Proof.
  intros file Hfile Hnodup Haliases Hlast Horigin Hlength. unfold resolveReference. fold file.
  change enoughCalls with (S 25). rewrite callsWithin_S.
  cbn [makeCalls call_resolveReferenceInternal].
  unfold resolveReferenceInternal. cbn [Nat.ltb Nat.leb MAX_DEPTH unwrapExpression].
  cbn [List.length] in Hlength. unfold MAX_DEPTH in Hlength.
  apply (chain_cut index _ file symbols Hfile origin names first (0 + 1) 25 []);
    try assumption; [intros x _ [] | now left | unfold MAX_DEPTH; lia].
Qed.

(** [const a = b; const b = a;]: a reference to [a] comes back to [a]. *)
Lemma alias_cycle_is_cut_example :
  @resolveReference exampleHost "/src/keys.ts" cyclicAliases "/" noOrigins (Identifier "a")
  = Returned (Some (Identifier "a")) ["local-value:/src/keys.ts:a"; "local-value:/src/keys.ts:b"].
Proof.
  apply (@alias_cycle_is_cut exampleHost "/src/keys.ts" cyclicAliases "/" noOrigins
           (snd (fileOf "/src/keys.ts" [("a", Identifier "b"); ("b", Identifier "a")] [] []))
           "a" "a" ["b"]).
  - reflexivity.
  - repeat constructor; simpl; intuition discriminate.
  - simpl; auto.
  - reflexivity.
  - now left.
  - unfold MAX_DEPTH. simpl. lia.
Defined.

End ResolverCycleProperties.

(** ** The constraints of a predicate are read segments *)

Module PredicateFacts.
Import Js Ast Normalizer NormalizerSpec NormalizerFacts HookKeys NormalizerKeyFacts PredicateShape.

Lemma constraintSet_In (index : nat) (segment : SegmentResult) (constraints : Constraints)
    (entry : nat * SegmentResult) :
  In entry (constraintSet index segment constraints) ->
  entry = (index, segment) \/ In entry constraints.
Proof.
  induction constraints as [| [i old] rest IH]; cbn [constraintSet].
  - intros [<- | []]. now left.
  - destruct (Nat.eqb_spec i index) as [-> | Hne].
    + intros [<- | Hin]; [now left | right; now right].
    + intros [<- | Hin]; [right; now left |].
      destruct (IH Hin) as [-> | Hrest]; [now left | right; now right].
Qed.

Lemma constraintSet_read (index : nat) (segment : SegmentResult) (constraints : Constraints) :
  isReadText (text segment) = true -> Read constraints ->
  Read (constraintSet index segment constraints).
Proof.
  unfold Read. rewrite !Forall_forall. intros Hsegment Hread entry Hin.
  destruct (constraintSet_In _ _ _ _ Hin) as [-> | Hold]; [exact Hsegment | now apply Hread].
Qed.

Lemma setPredicateQueryKeyConstraint_read (constraints : Constraints) (index : nat)
    (segment : SegmentResult) :
  Read constraints -> Read (setPredicateQueryKeyConstraint constraints index segment).
Proof.
  intros Hread. unfold setPredicateQueryKeyConstraint. cbv zeta.
  destruct (text (normalizeSegmentResult segment) =? UNRESOLVED_SEGMENT) eqn:Hunresolved;
    [exact Hread |].
  assert (Hnormalized : isReadText (text (normalizeSegmentResult segment)) = true).
  { unfold isReadText. now rewrite normalized_text_kept, Hunresolved. }
  destruct (constraintGet index constraints) as [existing |] eqn:Hexisting;
    [| now apply constraintSet_read].
  destruct (text existing =? text (normalizeSegmentResult segment)) eqn:Hsame.
  - apply constraintSet_read; [| exact Hread]. cbn [text].
    apply String.eqb_eq in Hsame. now rewrite Hsame.
  - destruct (text existing =? UNRESOLVED_SEGMENT); [now apply constraintSet_read | exact Hread].
Qed.

Section WithResolver.
Context {locale : Locale}.
Variable resolver : option QueryKeyResolver.

Lemma capped_collects (objectSegment : list Node -> SegmentResult)
    (arraySegments : option Node -> list SegmentResult) :
  Collects (cappedWith objectSegment arraySegments).
Proof. intros expression constraints Hread. exact Hread. Qed.

Lemma made_collects (deeper : Levels) :
  Collects (deeper 0) -> Collects (makeLevel resolver deeper).
Proof.
  intros Hdeeper expression constraints Hread.
  cbn [makeLevel call_collectPredicateQueryKeyConstraints].
  unfold collectPredicateQueryKeyConstraints.
  destruct (unwrapExpression expression); try exact Hread.
  - destruct (isExpression _); [now apply Hdeeper | exact Hread].
  - destruct (_ || _); cbn [negb]; [| exact Hread].
    repeat match goal with
           | |- context [if ?c then _ else _] => destruct c
           | |- context [match ?o with Some _ => _ | None => _ end] => destruct o
           end;
      try exact Hread; now apply setPredicateQueryKeyConstraint_read.
  - destruct (_ =? "&&"); [| exact Hread]. now apply Hdeeper, Hdeeper.
Qed.

Lemma history_collects (n : nat) : Forall Collects (history resolver n).
Proof.
  induction n as [| n IH]; cbn [history].
  - constructor; [apply capped_collects | constructor].
  - constructor; [| exact IH]. apply made_collects.
    destruct (history resolver n) as [| level later]; cbn [nth];
      [apply capped_collects | now inversion IH].
Qed.

Lemma topLevel_collects : Collects (topLevel resolver).
Proof.
  unfold topLevel, levelAt.
  pose proof (history_collects (MAX_RESOLVE_DEPTH - 0)) as H.
  destruct (history resolver (MAX_RESOLVE_DEPTH - 0)); cbn [hd];
    [apply capped_collects | now inversion H].
Qed.

End WithResolver.

Lemma constrainedSegments_read (constraints : Constraints) (count index : nat) :
  Read constraints ->
  Forall (fun segment => isReadText (text segment) = true)
         (constrainedSegments count index constraints).
Proof.
  intros Hread. revert index. induction count as [| count IH]; intros index;
    cbn [constrainedSegments]; [constructor |].
  destruct (constraintGet index constraints) as [segment |] eqn:Hfound; [| constructor].
  constructor; [| apply IH].
  apply constraintGet_In in Hfound. unfold Read in Hread. rewrite Forall_forall in Hread.
  specialize (Hread _ Hfound). cbn [snd] in Hread.
  destruct segment as [value static]. cbn [text] in Hread.
  rewrite normalizeSegmentResult_kept; [exact Hread |].
  unfold isReadText in Hread. now apply andb_true_iff in Hread.
Qed.

Lemma read_text_raw (segments : list SegmentResult) :
  Forall (fun segment => isReadText (text segment) = true) segments ->
  map (fun seg => orElse (text seg) UNRESOLVED_SEGMENT) segments = map text segments.
Proof.
  induction 1 as [| segment segments Hsegment _ IH]; [reflexivity |].
  cbn [map]. rewrite IH. f_equal. unfold orElse.
  destruct (text segment =? "") eqn:Hempty; [| reflexivity].
  apply String.eqb_eq in Hempty. rewrite Hempty in Hsegment. discriminate Hsegment.
Qed.

End PredicateFacts.


Module PredicateProperties.
Import Js Ast Normalizer NormalizerSpec NormalizerFacts HookKeys NormalizerKeyFacts.
Import PredicateShape PredicateFacts.

(** A key inferred from the predicate of an action is made of segments that
    were read: it has at least one segment, none of its segments is empty,
    [UNRESOLVED] or a placeholder of the normalizer, and it matches by
    prefix.  The comparisons of the predicate that cannot be read leave no
    segment, and the key stops before the first index they leave open. *)
Theorem predicate_key_has_read_segments {locale : Locale} (resolver : option QueryKeyResolver)
    (predicate : Node) (inferred : NormalizedQueryKey) :
  inferActionQueryKeyFromPredicate resolver predicate = Some inferred ->
  key_matchMode inferred = MPrefix
  /\ key_segments inferred <> []
  /\ Forall (fun segment => isReadText segment = true) (key_segments inferred).
Proof.
  unfold inferActionQueryKeyFromPredicate.
  destruct (if isFunction _ then _ else _) as [condition |]; [| discriminate].
  destruct (List.length _ =? 0)%nat; [discriminate |].
  pose proof (constrainedSegments_read
                (call_collectPredicateQueryKeyConstraints (topLevel resolver) condition [])
                (S (List.length
                      (call_collectPredicateQueryKeyConstraints (topLevel resolver) condition [])))
                0 (topLevel_collects resolver condition [] (Forall_nil _))) as Hread.
  destruct (constrainedSegments _ 0 _) as [| first rest]; [discriminate |].
  intros [= <-]. unfold keyOfSegments. cbn [key_matchMode key_segments].
  rewrite (read_text_raw _ Hread). split; [reflexivity |]. split; [discriminate |].
  apply Forall_map. exact Hread.
Qed.

(** [invalidateQueries({ predicate: (query) => query.queryKey[0] === 'todos' })] *)
Lemma predicate_key_example :
  @inferActionQueryKeyFromPredicate exampleLocale None (firstSegmentIs (StringLiteral "todos"))
  = Some (keyOfSegments [{| text := "todos"; isStatic := true |}] MPrefix)
  /\ Forall (fun segment => isReadText segment = true) ["todos"].
Proof.
  split; [vm_compute; reflexivity |].
  apply (proj2 (proj2 (@predicate_key_has_read_segments exampleLocale None
                         (firstSegmentIs (StringLiteral "todos"))
                         (keyOfSegments [{| text := "todos"; isStatic := true |}] MPrefix)
                         ltac:(vm_compute; reflexivity)))).
Defined.

End PredicateProperties.
